(** * LZ-End parser (pdinklag/lzend): a shallow embedding and its verification

    The development follows the layout of the repository:

    - [ordered/btree]: the ordered B-tree map ([LinearSearchMap] nodes,
      [BTree] with [insert], [erase], [predecessor], [successor], [find]);
    - [rmq]: the Bender-Farach-Colton sparse table and the block RMQ;
    - [lzend.hpp]: the LZ-End factorisation loop.

    The embedding of the three components comes first, the abstract views
    and the proofs after it.

    Arrays are lists; a read [a[i]] is [nth i a 0].  Sizes and positions
    inside a B-tree node are natural numbers (they never exceed the node
    degree); keys, values and text positions are integers.  Unsigned 32-bit
    and 64-bit arithmetic of the RMQ is written with its wrap-around.  The
    calls that allocate an array whose size is computed from the input
    length return an [outcome], which records a failed allocation, a
    loop that cannot end and a store outside an allocated array; progress
    messages written to [std::cout] are left out. *)

From Stdlib Require Import ZArith List Lia Bool Arith Ascii FinFun.
Import ListNotations.

(** ** Arrays as lists *)

Definition insert_at {A : Type} (i : nat) (x : A) (l : list A) : list A :=
  firstn i l ++ x :: skipn i l.

Definition remove_at {A : Type} (i : nat) (l : list A) : list A :=
  firstn i l ++ skipn (S i) l.

Definition update_at {A : Type} (i : nat) (x : A) (l : list A) : list A :=
  if i <? length l then firstn i l ++ x :: skipn (S i) l else l.

(** Writing slot [i] of an array whose first [length l] slots are in use; a
    write past the used part leaves the skipped slots with the filler [d]. *)
Definition array_set {A : Type} (d : A) (i : nat) (x : A) (l : list A) : list A :=
  firstn i (l ++ repeat d (i - length l)) ++ x :: skipn (S i) l.

(** ** ordered/internal/local_query_result.hpp, ordered/query_result.hpp *)

Record LocalQueryResult : Type := mkLocal { l_exists : bool; l_pos : nat }.

Record QueryResult : Type := mkQuery { exists_ : bool; key : Z; value : Z }.

Definition QueryResult_none : QueryResult := mkQuery false 0 0.

(** ** ordered/btree/internal/linear_search_base.hpp *)

Module LinearSearchBase.

(** [operator[]] *)
Definition at_ (keys : list Z) (i : nat) : Z := nth i keys 0%Z.

(** [while(i < size_ && keys_[i] < key) ++i] *)
Fixpoint insert_pos (keys : list Z) (key : Z) : nat :=
  match keys with
  | [] => 0
  | k :: keys' => if (k <? key)%Z then S (insert_pos keys' key) else 0
  end.

Definition insert_key (keys : list Z) (key : Z) : list Z * nat :=
  let i := insert_pos keys key in (insert_at i key keys, i).

(** [for(i = 0; i < size_; i++) if(keys_[i] == key)] *)
Fixpoint find_pos (keys : list Z) (key : Z) : option nat :=
  match keys with
  | [] => None
  | k :: keys' =>
      if (k =? key)%Z then Some 0 else option_map S (find_pos keys' key)
  end.

Definition erase_key (keys : list Z) (key : Z) : list Z * option nat :=
  match find_pos keys key with
  | Some i => (remove_at i keys, Some i)
  | None => (keys, None)
  end.

(** [while(keys_[i] <= x) ++i], started at slot [i] with [keys] the slots
    from [i] on. *)
Fixpoint scan_le (keys : list Z) (x : Z) (i : nat) : nat :=
  match keys with
  | [] => i
  | k :: keys' => if (k <=? x)%Z then scan_le keys' x (S i) else i
  end.

(** [while(keys_[i] < x) ++i] *)
Fixpoint scan_lt (keys : list Z) (x : Z) (i : nat) : nat :=
  match keys with
  | [] => i
  | k :: keys' => if (k <? x)%Z then scan_lt keys' x (S i) else i
  end.

Definition predecessor (keys : list Z) (x : Z) : LocalQueryResult :=
  let size_ := length keys in
  if size_ =? 0 then mkLocal false 0
  else if (x <? at_ keys 0)%Z then mkLocal false 0
  else if (x >=? at_ keys (size_ - 1))%Z then mkLocal true (size_ - 1)
  else mkLocal true (scan_le (skipn 1 keys) x 1 - 1).

Definition successor (keys : list Z) (x : Z) : LocalQueryResult :=
  let size_ := length keys in
  if size_ =? 0 then mkLocal false 0
  else if (x <=? at_ keys 0)%Z then mkLocal true 0
  else if (x >? at_ keys (size_ - 1))%Z then mkLocal false 0
  else mkLocal true (scan_lt (skipn 1 keys) x 1).

End LinearSearchBase.

(** ** ordered/btree/internal/linear_search_map.hpp *)

Record LinearSearchMap : Type := mkImpl { keys_ : list Z; values_ : list Z }.

Module LinearSearchMap.

Definition empty : LinearSearchMap := mkImpl [] [].

Definition size (m : LinearSearchMap) : nat := length (keys_ m).

Definition at_ (m : LinearSearchMap) (i : nat) : Z :=
  LinearSearchBase.at_ (keys_ m) i.

Definition value (m : LinearSearchMap) (i : nat) : Z := nth i (values_ m) 0%Z.

Definition predecessor (m : LinearSearchMap) (x : Z) : LocalQueryResult :=
  LinearSearchBase.predecessor (keys_ m) x.

Definition successor (m : LinearSearchMap) (x : Z) : LocalQueryResult :=
  LinearSearchBase.successor (keys_ m) x.

Definition insert (key value : Z) (m : LinearSearchMap) : LinearSearchMap :=
  let (keys', i) := LinearSearchBase.insert_key (keys_ m) key in
  mkImpl keys' (insert_at i value (values_ m)).

(** [erase(key, value)]: the flag, the value taken out (0 stands for the
    untouched out-parameter), and the node afterwards. *)
Definition erase (key : Z) (m : LinearSearchMap) : bool * Z * LinearSearchMap :=
  match LinearSearchBase.erase_key (keys_ m) key with
  | (keys', Some i) =>
      (true, nth i (values_ m) 0%Z, mkImpl keys' (remove_at i (values_ m)))
  | (_, None) => (false, 0%Z, m)
  end.

Definition erased (key : Z) (m : LinearSearchMap) : LinearSearchMap :=
  snd (erase key m).

End LinearSearchMap.

(** ** ordered/btree/internal/btree_impl.hpp *)

#[local] Unset Elimination Schemes.
Inductive Node : Type :=
  mkNode { impl_ : LinearSearchMap; children_ : list Node }.
#[local] Set Elimination Schemes.

Definition Node_new : Node := mkNode LinearSearchMap.empty [].

Module BTree.

(** The node implementation, [NodeImpl] in the source. *)
Module NodeImpl := LinearSearchMap.

Section Degree.

(** The node implementation's [capacity()]; [ordered::btree::Map] uses 64. *)
Variable capacity_ : nat.

Definition degree_ : nat := capacity_ + 1.
Definition node_capacity : nat := capacity_.
Definition split_right_ : nat := node_capacity / 2.
Definition split_mid_ : nat := split_right_ - 1.
Definition deletion_threshold_ : nat := degree_ / 2.

Definition is_leaf (n : Node) : bool :=
  match children_ n with [] => true | _ :: _ => false end.

Definition node_size (n : Node) : nat := NodeImpl.size (impl_ n).

Definition num_children (n : Node) : nat := length (children_ n).

Definition child (n : Node) (i : nat) : Node := nth i (children_ n) Node_new.

Definition is_full (n : Node) : bool := node_size n =? node_capacity.

Definition insert_child (i : nat) (c : Node) (n : Node) : Node :=
  mkNode (impl_ n) (insert_at i c (children_ n)).

Definition erase_child (i : nat) (n : Node) : Node :=
  mkNode (impl_ n) (remove_at i (children_ n)).

Definition set_child (i : nat) (c : Node) (n : Node) : Node :=
  mkNode (impl_ n) (update_at i c (children_ n)).

(** [Node::split_child] *)
Definition split_child (i : nat) (n : Node) : Node :=
  let y := child n i in
  let m := NodeImpl.at_ (impl_ y) split_mid_ in
  let js := seq 0 split_right_ in
  let keybuf := map (fun j => NodeImpl.at_ (impl_ y) (j + split_right_)) js in
  let zimpl :=
    fold_left
      (fun zi j =>
         NodeImpl.insert (NodeImpl.at_ (impl_ y) (j + split_right_))
                (NodeImpl.value (impl_ y) (j + split_right_)) zi)
      js NodeImpl.empty in
  let yimpl1 := fold_left (fun yi k => NodeImpl.erased k yi) keybuf (impl_ y) in
  let '(_, value_m, yimpl2) := NodeImpl.erase m yimpl1 in
  let zchildren :=
    if is_leaf y then []
    else map (child y) (seq split_right_ (node_capacity + 1 - split_right_)) in
  let ychildren :=
    if is_leaf y then []
    else firstn (num_children y - (split_right_ + 1)) (children_ y) in
  let y' := mkNode yimpl2 ychildren in
  let z := mkNode zimpl zchildren in
  insert_child (i + 1) z
    (mkNode (NodeImpl.insert m value_m (impl_ n)) (update_at i y' (children_ n))).

(** [Node::insert]; [fuel] bounds the depth of the descent. *)
Fixpoint Node_insert (fuel : nat) (key value : Z) (n : Node) : Node :=
  if is_leaf n then mkNode (NodeImpl.insert key value (impl_ n)) []
  else
    match fuel with
    | 0 => n
    | S fuel' =>
        let r := NodeImpl.predecessor (impl_ n) key in
        let i := if l_exists r then l_pos r + 1 else 0 in
        let '(n1, i1) :=
          if is_full (child n i) then
            let n1 := split_child i n in
            (n1, if (key >? NodeImpl.at_ (impl_ n1) i)%Z then i + 1 else i)
          else (n, i) in
        set_child i1 (Node_insert fuel' key value (child n1 i1)) n1
    end.

(** [while(!c->is_leaf()) c = c->children_[c->num_children_-1]] *)
Fixpoint rightmost_leaf (fuel : nat) (c : Node) : Node :=
  if is_leaf c then c
  else
    match fuel with
    | 0 => c
    | S fuel' => rightmost_leaf fuel' (child c (num_children c - 1))
    end.

(** [while(!c->is_leaf()) c = c->children_[0]] *)
Fixpoint leftmost_leaf (fuel : nat) (c : Node) : Node :=
  if is_leaf c then c
  else
    match fuel with
    | 0 => c
    | S fuel' => leftmost_leaf fuel' (child c 0)
    end.

(** Appending all keys of [src] to [dst], as the merge loops do:
    [for(j = 0; j < src->size(); j++) dst.insert(src[j], src.value(j))]. *)
Definition insert_all (src dst : LinearSearchMap) : LinearSearchMap :=
  fold_left (fun d j => NodeImpl.insert (NodeImpl.at_ src j) (NodeImpl.value src j) d)
            (seq 0 (NodeImpl.size src)) dst.

(** The child-pointer moves of "merge child with left sibling": first the
    children of [c] are copied [lnum] slots back, front to back, then the
    left sibling's children are copied into the first [lnum] slots. *)
Definition prepend_children (lcs ccs : list Node) : list Node :=
  let lnum := length lcs in
  let cnum := length ccs in
  let a1 :=
    fold_left (fun a j => array_set Node_new (lnum + j) (nth j a Node_new) a)
              (seq 0 cnum) ccs in
  let a2 :=
    fold_left (fun a j => array_set Node_new j (nth j lcs Node_new) a)
              (seq 0 lnum) a1 in
  firstn (lnum + cnum) a2.

(** [Node::erase]; [fuel] bounds the depth of the descent. *)
Fixpoint Node_erase (fuel : nat) (key : Z) (n : Node) : bool * Node :=
  if is_leaf n then
    let '(b, _, impl') := NodeImpl.erase key (impl_ n) in (b, mkNode impl' [])
  else
    match fuel with
    | 0 => (false, n)
    | S fuel' =>
        let r := NodeImpl.predecessor (impl_ n) key in
        let i := if l_exists r then l_pos r + 1 else 0 in
        if l_exists r && (NodeImpl.at_ (impl_ n) (l_pos r) =? key)%Z then
          (* key is contained in this internal node *)
          let y := child n (i - 1) in
          let ysize := node_size y in
          let z := child n i in
          let zsize := node_size z in
          if deletion_threshold_ <=? ysize then
            let c := rightmost_leaf fuel' y in
            let key_pred := NodeImpl.at_ (impl_ c) (node_size c - 1) in
            let value_pred := NodeImpl.value (impl_ c) (node_size c - 1) in
            let impl1 := NodeImpl.insert key_pred value_pred (NodeImpl.erased key (impl_ n)) in
            let y' := snd (Node_erase fuel' key_pred y) in
            (true, mkNode impl1 (update_at (i - 1) y' (children_ n)))
          else if deletion_threshold_ <=? zsize then
            let c := leftmost_leaf fuel' z in
            let key_succ := NodeImpl.at_ (impl_ c) 0 in
            let value_succ := NodeImpl.value (impl_ c) 0 in
            let impl1 := NodeImpl.insert key_succ value_succ (NodeImpl.erased key (impl_ n)) in
            let z' := snd (Node_erase fuel' key_succ z) in
            (true, mkNode impl1 (update_at i z' (children_ n)))
          else
            let '(_, value0, impl1) := NodeImpl.erase key (impl_ n) in
            let yimpl := insert_all (impl_ z) (NodeImpl.insert key value0 (impl_ y)) in
            let ychildren :=
              if is_leaf z then children_ y
              else children_ y ++ children_ z in
            let y1 := mkNode yimpl ychildren in
            let y' := snd (Node_erase fuel' key y1) in
            (true,
             erase_child i (mkNode impl1 (update_at (i - 1) y' (children_ n))))
        else
          let c := child n i in
          if node_size c <? deletion_threshold_ then
            let has_left := 0 <? i in
            let has_right := i <? num_children n - 1 in
            let left := child n (i - 1) in
            let right := child n (i + 1) in
            if has_left && (deletion_threshold_ <=? node_size left) then
              let splitter := NodeImpl.at_ (impl_ n) (i - 1) in
              let '(_, splitter_value, impl1) := NodeImpl.erase splitter (impl_ n) in
              let cimpl := NodeImpl.insert splitter splitter_value (impl_ c) in
              let llargest := NodeImpl.at_ (impl_ left) (node_size left - 1) in
              let '(_, llargest_value, limpl) := NodeImpl.erase llargest (impl_ left) in
              let impl2 := NodeImpl.insert llargest llargest_value impl1 in
              let '(lchildren, cchildren) :=
                if is_leaf left then (children_ left, children_ c)
                else
                  (remove_at (num_children left - 1) (children_ left),
                   insert_at 0 (child left (num_children left - 1))
                             (children_ c)) in
              let left' := mkNode limpl lchildren in
              let c1 := mkNode cimpl cchildren in
              let '(b, c') := Node_erase fuel' key c1 in
              (b, mkNode impl2
                    (update_at i c' (update_at (i - 1) left' (children_ n))))
            else if has_right && (deletion_threshold_ <=? node_size right) then
              let splitter := NodeImpl.at_ (impl_ n) i in
              let '(_, splitter_value, impl1) := NodeImpl.erase splitter (impl_ n) in
              let cimpl := NodeImpl.insert splitter splitter_value (impl_ c) in
              let rsmallest := NodeImpl.at_ (impl_ right) 0 in
              let '(_, rsmallest_value, rimpl) := NodeImpl.erase rsmallest (impl_ right) in
              let impl2 := NodeImpl.insert rsmallest rsmallest_value impl1 in
              let '(rchildren, cchildren) :=
                if is_leaf right then (children_ right, children_ c)
                else
                  (remove_at 0 (children_ right),
                   insert_at (num_children c) (child right 0) (children_ c)) in
              let right' := mkNode rimpl rchildren in
              let c1 := mkNode cimpl cchildren in
              let '(b, c') := Node_erase fuel' key c1 in
              (b, mkNode impl2
                    (update_at i c' (update_at (i + 1) right' (children_ n))))
            else if has_right then
              (* merge child with right sibling *)
              let splitter := NodeImpl.at_ (impl_ n) i in
              let '(_, splitter_value, impl1) := NodeImpl.erase splitter (impl_ n) in
              let cimpl :=
                insert_all (impl_ right)
                           (NodeImpl.insert splitter splitter_value (impl_ c)) in
              let cchildren :=
                if is_leaf right then children_ c
                else children_ c ++ children_ right in
              let c1 := mkNode cimpl cchildren in
              let '(b, c') := Node_erase fuel' key c1 in
              (b, mkNode impl1
                    (update_at i c' (remove_at (i + 1) (children_ n))))
            else
              (* merge child with left sibling *)
              let splitter := NodeImpl.at_ (impl_ n) (i - 1) in
              let '(_, splitter_value, impl1) := NodeImpl.erase splitter (impl_ n) in
              let cimpl :=
                insert_all (impl_ left)
                           (NodeImpl.insert splitter splitter_value (impl_ c)) in
              let cchildren :=
                if is_leaf left then children_ c
                else prepend_children (children_ left) (children_ c) in
              let c1 := mkNode cimpl cchildren in
              let '(b, c') := Node_erase fuel' key c1 in
              (b, mkNode impl1
                    (update_at (i - 1) c' (remove_at (i - 1) (children_ n))))
          else
            let '(b, c') := Node_erase fuel' key c in
            (b, set_child i c' n)
    end.

(** The number of levels below a node, read off its leftmost path (the walk
    of [BTree::leftmost_leaf]); it is the fuel handed to the descents. *)
Fixpoint depth (n : Node) : nat :=
  match n with
  | mkNode _ cs => match cs with [] => 0 | c :: _ => S (depth c) end
  end.

(** The loop of [BTree::predecessor]; [acc] carries [exists], [key] and
    [value]. *)
Fixpoint predecessor_loop (fuel : nat) (x : Z) (node : Node)
    (acc : QueryResult) : QueryResult :=
  let r := NodeImpl.predecessor (impl_ node) x in
  let exists1 := exists_ acc || l_exists r in
  let key1 := if l_exists r then NodeImpl.at_ (impl_ node) (l_pos r) else key acc in
  let value1 :=
    if l_exists r then NodeImpl.value (impl_ node) (l_pos r)
    else value acc in
  if is_leaf node then mkQuery exists1 key1 value1
  else
    match fuel with
    | 0 => mkQuery exists1 key1 value1
    | S fuel' =>
        if l_exists r && (key1 =? x)%Z then mkQuery true key1 value1
        else
          let i := if l_exists r then l_pos r + 1 else 0 in
          predecessor_loop fuel' x (child node i)
                           (mkQuery exists1 key1 value1)
    end.

(** The loop of [BTree::successor]. *)
Fixpoint successor_loop (fuel : nat) (x : Z) (node : Node)
    (acc : QueryResult) : QueryResult :=
  let r := NodeImpl.successor (impl_ node) x in
  let exists1 := exists_ acc || l_exists r in
  let key1 := if l_exists r then NodeImpl.at_ (impl_ node) (l_pos r) else key acc in
  let value1 :=
    if l_exists r then NodeImpl.value (impl_ node) (l_pos r)
    else value acc in
  if is_leaf node then mkQuery exists1 key1 value1
  else
    match fuel with
    | 0 => mkQuery exists1 key1 value1
    | S fuel' =>
        if l_exists r && (key1 =? x)%Z then mkQuery true key1 value1
        else
          let i := if l_exists r then l_pos r else num_children node - 1 in
          successor_loop fuel' x (child node i) (mkQuery exists1 key1 value1)
    end.

Record BTree : Type := mkBTree { size_ : nat; root_ : Node }.

(** [BTree()] *)
Definition new : BTree := mkBTree 0 Node_new.

Definition predecessor (t : BTree) (x : Z) : QueryResult :=
  predecessor_loop (depth (root_ t)) x (root_ t) (mkQuery false 0 0).

Definition successor (t : BTree) (x : Z) : QueryResult :=
  successor_loop (depth (root_ t)) x (root_ t) (mkQuery false 0 0).

Definition find (t : BTree) (x : Z) : QueryResult :=
  if size_ t =? 0 then QueryResult_none
  else
    let r := predecessor t x in
    if exists_ r && (key r =? x)%Z then r else QueryResult_none.

Definition contains (t : BTree) (x : Z) : bool := exists_ (find t x).

Definition insert (key value : Z) (t : BTree) : BTree :=
  let root1 :=
    if is_full (root_ t) then
      split_child 0 (insert_child 0 (root_ t) Node_new)
    else root_ t in
  mkBTree (size_ t + 1) (Node_insert (depth root1) key value root1).

Definition erase (key : Z) (t : BTree) : bool * BTree :=
  let '(result, root1) := Node_erase (depth (root_ t)) key (root_ t) in
  let size1 := if result then size_ t - 1 else size_ t in
  let root2 :=
    if (node_size root1 =? 0) && (0 <? num_children root1) then child root1 0
    else root1 in
  (result, mkBTree size1 root2).

(** [BTree::min_key], [BTree::max_key] *)
Definition min_key (t : BTree) : Z :=
  NodeImpl.at_ (impl_ (leftmost_leaf (depth (root_ t)) (root_ t))) 0.

Definition max_key (t : BTree) : Z :=
  let rightmost := rightmost_leaf (depth (root_ t)) (root_ t) in
  NodeImpl.at_ (impl_ rightmost) (node_size rightmost - 1).

(** [BTree::min], [BTree::max] *)
Definition min (t : BTree) : QueryResult :=
  if size_ t =? 0 then QueryResult_none
  else
    let leftmost := leftmost_leaf (depth (root_ t)) (root_ t) in
    mkQuery true (NodeImpl.at_ (impl_ leftmost) 0) (NodeImpl.value (impl_ leftmost) 0).

Definition max (t : BTree) : QueryResult :=
  if size_ t =? 0 then QueryResult_none
  else
    let rightmost := rightmost_leaf (depth (root_ t)) (root_ t) in
    let i := node_size rightmost - 1 in
    mkQuery true (NodeImpl.at_ (impl_ rightmost) i) (NodeImpl.value (impl_ rightmost) i).

(** [BTree::clear], [BTree::size] *)
Definition clear (t : BTree) : BTree := new.

Definition size (t : BTree) : nat := size_ t.

End Degree.

End BTree.

Local Open Scope Z_scope.

(** ** Machine integers and heap arrays *)

(** [uint32_t], [size_t] (64 bits) and the conversion to [int32_t]. *)
Definition uint32 (x : Z) : Z := x mod 2 ^ 32.
Definition size_t (x : Z) : Z := x mod 2 ^ 64.
Definition int32 (x : Z) : Z := (x + 2 ^ 31) mod 2 ^ 32 - 2 ^ 31.

(** [std::bit_width] *)
Definition bit_width (x : Z) : Z := if x =? 0 then 0 else Z.log2 x + 1.

(** A call either returns, or leaves with [std::bad_alloc] (which includes
    [std::bad_array_new_length]), or runs forever, or stores outside an
    array it has allocated, after which the language guarantees nothing. *)
Inductive outcome (A : Type) : Type :=
| Returned (a : A)
| BadAlloc
| Diverges
| Undefined.
Arguments Returned {A} a.
Arguments BadAlloc {A}.
Arguments Diverges {A}.
Arguments Undefined {A}.

Definition bind {A B : Type} (o : outcome A) (f : A -> outcome B) : outcome B :=
  match o with
  | Returned a => f a
  | BadAlloc => BadAlloc
  | Diverges => Diverges
  | Undefined => Undefined
  end.

Notation "x <- o ;; k" := (bind o (fun x => k))
  (at level 61, o at next level, right associativity).

(** [std::make_unique<T[]>(count)] for elements of [elsize] bytes: a request
    of [2^63] bytes or more is refused by [operator new[]], one above the
    [memory] at hand fails in the allocator; otherwise the array comes back
    value-initialised with [d]. *)
Definition make_unique {A : Type} (d : A) (memory elsize count : Z)
  : outcome (list A) :=
  if (2 ^ 63 <=? count * elsize) || (memory <? count * elsize)
  then BadAlloc
  else Returned (repeat d (Z.to_nat count)).

(** [a[i]] for an array of integers; [a[i] = x] on an allocated array. *)
Definition get (a : list Z) (i : Z) : Z := nth (Z.to_nat i) a 0.
Definition set {A : Type} (a : list A) (i : Z) (x : A) : list A :=
  update_at (Z.to_nat i) x a.

(** The counter values [a, a+1, ..., b-1] of a counting loop. *)
Definition range (a b : Z) : list Z :=
  map (fun k => a + Z.of_nat k) (seq 0 (Z.to_nat (b - a))).

(** ** rmq/compare.hpp, with [minimum_ = true] *)

Definition leq (x y : Z) : bool := x <=? y.
Definition lt (x y : Z) : bool := x <? y.

(** ** rmq/rmq_bender_farach_colton.hpp *)

Module RMQBenderFarachColton.

Record t : Type := mk { data_ : list Z; rmq_ : list (list Z) }.

(** [for(Index i = 0; i < n-1; i++) rmq_[0][i] = leq(data[i], data[i+1]) ? i : i+1] *)
Definition first_level (data : list Z) (n : Z) (buf : list Z) : list Z :=
  fold_left
    (fun lv i =>
       set lv i (if leq (get data i) (get data (uint32 (i + 1)))
                 then i else uint32 (i + 1)))
    (range 0 (size_t (n - 1))) buf.

(** The body of the loop over the higher levels, for one [level]. *)
Definition next_level (data : list Z) (prev : list Z) (interval_size level_size : Z)
    (buf : list Z) : list Z :=
  fold_left
    (fun lv i =>
       let a := get prev i in
       let b := get prev (size_t (i + interval_size)) in
       set lv i (if leq (get data a) (get data b) then a else b))
    (range 0 level_size) buf.

(** [for(size_t level = 1; level < num_levels; level++)]; the counter [i] of
    the inner loop is 32 bits wide and cannot reach a bound of [2^32] or
    more. *)
Fixpoint higher_levels (memory : Z) (data : list Z) (n : Z) (levels : list Z)
    (rmq : list (list Z)) : outcome (list (list Z)) :=
  match levels with
  | [] => Returned rmq
  | level :: rest =>
      let level_size := size_t (n - (size_t (Z.shiftl 2 level) - 1)) in
      buf <- make_unique 0 memory 4 level_size ;;
      let interval_size := size_t (Z.shiftl 1 level) in
      if 2 ^ 32 <=? level_size then Diverges
      else
        let prev := nth (Z.to_nat (level - 1)) rmq [] in
        let lv := next_level data prev interval_size level_size buf in
        higher_levels memory data n rest (set rmq level lv)
  end.

(** The constructor.  [rmq_[0] = std::make_unique<Index[]>(n-1)] is a store
    into slot 0 of the array of levels: with [n = 1] that array has
    [num_levels = 0] slots and the store lies outside it. *)
Definition new (memory : Z) (data : list Z) (n : Z) : outcome t :=
  let num_levels := size_t (bit_width n - 1) in
  levels <- make_unique [] memory 8 num_levels ;;
  level0 <- make_unique 0 memory 4 (size_t (n - 1)) ;;
  if num_levels =? 0 then Undefined
  else if 2 ^ 32 <=? size_t (n - 1) then Diverges
  else
    let rmq0 := set levels 0 (first_level data n level0) in
    rmq <- higher_levels memory data n (range 1 num_levels) rmq0 ;;
    Returned (mk data rmq).

Definition rmq (r : t) (i j : Z) : Z :=
  if i =? j then i
  else
    let d := size_t (j - i + 1) in
    let level := bit_width d - 1 in
    let interval_size := size_t (Z.shiftl 1 level) in
    let lv := nth (Z.to_nat (level - 1)) (rmq_ r) [] in
    let a := get lv i in
    let b := get lv (size_t (j + 1 - interval_size)) in
    if leq (get (data_ r) a) (get (data_ r) b) then a else b.

End RMQBenderFarachColton.

(** ** rmq/rmq.hpp, with [block_size_ = 64] and [Index = uint32_t] *)

Module RMQ.

Definition block_size_ : Z := 64.

Record t : Type := mk {
  data_ : list Z;
  block_min_pos_ : list Z;
  block_min_ : list Z;
  block_rmq_ : RMQBenderFarachColton.t
}.

(** [naive_rmq(beg, end, min)]: the pair of the returned position and of
    [min]. *)
Definition naive_rmq (data : list Z) (beg end_ : Z) : Z * Z :=
  fold_left
    (fun st b => if lt (get data b) (snd st) then (b, get data b) else st)
    (range (uint32 (beg + 1)) end_)
    (beg, get data beg).

Definition new (memory : Z) (data : list Z) (n : Z) : outcome t :=
  let num_blocks := size_t (size_t (n - 1) / block_size_ + 1) in
  pos_buf <- make_unique 0 memory 4 num_blocks ;;
  min_buf <- make_unique 0 memory 4 num_blocks ;;
  let blocks :=
    fold_left
      (fun st block =>
         let beg := uint32 (block * block_size_) in
         let end_ := uint32 (Z.min (size_t (beg + block_size_)) n) in
         let r := naive_rmq data beg end_ in
         (set (fst st) block (fst r), set (snd st) block (snd r)))
      (range 0 num_blocks) (pos_buf, min_buf) in
  block_rmq <- RMQBenderFarachColton.new memory (snd blocks) num_blocks ;;
  Returned (mk data (fst blocks) (snd blocks) block_rmq).

Definition rmq (r : t) (i j : Z) : Z :=
  if i =? j then i
  else if uint32 (j - i) <=? 3 * block_size_
  then fst (naive_rmq (data_ r) i (uint32 (j + 1)))
  else
    let left_end := uint32 ((i / block_size_ + 1) * block_size_) in
    let left := naive_rmq (data_ r) i left_end in
    let right_beg := size_t ((j / block_size_) * block_size_) in
    let right := naive_rmq (data_ r) (uint32 right_beg) (uint32 (j + 1)) in
    let left_block := size_t (i / block_size_ + 1) in
    let right_block := size_t (j / block_size_ - 1) in
    let mid_min_pos :=
      get (block_min_pos_ r)
          (RMQBenderFarachColton.rmq (block_rmq_ r) left_block right_block) in
    let mid_min := get (data_ r) mid_min_pos in
    let st0 := (fst left, snd left) in
    let st1 := if lt mid_min (snd st0) then (mid_min_pos, mid_min) else st0 in
    let st2 := if lt (snd right) (snd st1) then (fst right, snd right) else st1 in
    fst st2.

(** [rmq(i, j, min)]: the returned position together with the value the
    call leaves in the variable [min], which holds [min] before it. *)
Definition rmq_min (r : t) (i j min : Z) : Z * Z :=
  if i =? j then (i, min)
  else if uint32 (j - i) <=? 3 * block_size_
  then naive_rmq (data_ r) i (uint32 (j + 1))
  else
    let left_end := uint32 ((i / block_size_ + 1) * block_size_) in
    let left := naive_rmq (data_ r) i left_end in
    let right_beg := size_t ((j / block_size_) * block_size_) in
    let right := naive_rmq (data_ r) (uint32 right_beg) (uint32 (j + 1)) in
    let left_block := size_t (i / block_size_ + 1) in
    let right_block := size_t (j / block_size_ - 1) in
    let mid_min_pos :=
      get (block_min_pos_ r)
          (RMQBenderFarachColton.rmq (block_rmq_ r) left_block right_block) in
    let mid_min := get (data_ r) mid_min_pos in
    let st0 := (fst left, snd left) in
    let st1 := if lt mid_min (snd st0) then (mid_min_pos, mid_min) else st0 in
    let st2 := if lt (snd right) (snd st1) then (fst right, snd right) else st1 in
    st2.

End RMQ.

(** ** lzend.hpp *)

(** [Index] is [int32_t].  The text positions, lengths and phrase numbers
    of the loop stay between [-1] and [n], so their arithmetic is written
    over the integers; the two places where a value changes type (the
    length of the input to [Index], an [Index] to the unsigned index of the
    RMQ or to [size_t]) are written with the conversion. *)

Module Phrase.
Record t : Type := mk { lnk : Z; len : Z; ext : ascii }.
End Phrase.

Module Candidate.
Record t : Type := mk { lex_pos : Z; lnk : Z; len : Z }.
End Candidate.

(** [s[i]] on a [std::string]: the character, and [NUL] at [i = s.length()]. *)
Definition char_at (s : list ascii) (i : Z) : ascii := nth (Z.to_nat i) s zero.

(** [std::vector<Phrase>] *)
Definition at_ (parsing : list Phrase.t) (i : Z) : Phrase.t :=
  nth (Z.to_nat i) parsing (Phrase.mk 0 0 zero).
Definition push_back (parsing : list Phrase.t) (p : Phrase.t) : list Phrase.t :=
  parsing ++ [p].
Definition pop_back (parsing : list Phrase.t) : list Phrase.t :=
  removelast parsing.
(** [parsing.back() = p] *)
Definition set_back (parsing : list Phrase.t) (p : Phrase.t) : list Phrase.t :=
  removelast parsing ++ [p].

(** The degree of [ordered::btree::Map] is 65, the capacity of a node 64. *)
Definition map_capacity : nat := 64.

(** The state of the main loop. *)
Record State : Type := mkState {
  parsing : list Phrase.t;
  z : Z;
  marked : BTree.BTree
}.

Section Parse.

(** The suffix sorting library: [libsais], [libsais_plcp] and [libsais_lcp],
    as the functions from their inputs to the array they fill. *)
Variable libsais : list ascii -> Z -> list Z.
Variable libsais_plcp : list ascii -> list Z -> Z -> list Z.
Variable libsais_lcp : list Z -> list Z -> Z -> list Z.

(** The memory a single allocation can get. *)
Variable memory : Z.

Definition lex_smaller_phrase (lcp : list Z) (rmq : RMQ.t) (marked : BTree.BTree)
    (x : Z) : Candidate.t :=
  let r := BTree.predecessor marked (x - 1) in
  if exists_ r
  then Candidate.mk (key r) (value r)
         (get lcp (RMQ.rmq rmq (uint32 (key r + 1)) (uint32 x)))
  else Candidate.mk 0 0 0.

Definition lex_greater_phrase (lcp : list Z) (rmq : RMQ.t) (marked : BTree.BTree)
    (x : Z) : Candidate.t :=
  let r := BTree.successor marked (x + 1) in
  if exists_ r
  then Candidate.mk (key r) (value r)
         (get lcp (RMQ.rmq rmq (uint32 (x + 1)) (uint32 (key r))))
  else Candidate.mk 0 0 0.

(** [find_copy_source(f)], on the pair [(p1, p2)] it assigns to. *)
Definition find_copy_source (i z len1 len2 isa_last : Z) (f : Z -> Candidate.t)
    (p : Z * Z) : Z * Z :=
  let c := f isa_last in
  if len1 <=? Candidate.len c then
    let p1 := Candidate.lnk c in
    if len1 <? i then
      let c := if Candidate.lnk c =? z - 1 then f (Candidate.lex_pos c) else c in
      if len2 <=? Candidate.len c then (p1, Candidate.lnk c) else (p1, snd p)
    else (p1, snd p)
  else p.

(** The two searches of one iteration: [(p1, p2)] after the first call and
    after the conditional second call. *)
Definition search (lcp : list Z) (rmq : RMQ.t) (marked : BTree.BTree)
    (i z len1 len2 isa_last : Z) : (Z * Z) * (Z * Z) :=
  let first :=
    find_copy_source i z len1 len2 isa_last
      (lex_smaller_phrase lcp rmq marked) (-1, -1) in
  let second :=
    if (fst first =? -1) || (snd first =? -1)
    then find_copy_source i z len1 len2 isa_last
           (lex_greater_phrase lcp rmq marked) first
    else first in
  (first, second).

(** The searches of iteration [i] in state [st]. *)
Definition search_of (isa lcp : list Z) (rmq : RMQ.t) (st : State) (i : Z)
  : (Z * Z) * (Z * Z) :=
  let len1 := Phrase.len (at_ (parsing st) (z st)) in
  let len2 := len1 + (if 0 <? z st then Phrase.len (at_ (parsing st) (z st - 1)) else 0) in
  let isa_last := get isa (i - 1) in
  search lcp rmq (marked st) i (z st) len1 len2 isa_last.

(** The body of the main loop. *)
Definition step (s : list ascii) (isa lcp : list Z) (rmq : RMQ.t)
    (st : State) (i : Z) : State :=
  let len1 := Phrase.len (at_ (parsing st) (z st)) in
  let len2 := len1 + (if 0 <? z st then Phrase.len (at_ (parsing st) (z st - 1)) else 0) in
  let isa_last := get isa (i - 1) in
  let p := snd (search_of isa lcp rmq st i) in
  let p1 := fst p in
  let p2 := snd p in
  if negb (p2 =? -1) then
    let marked' := snd (BTree.erase map_capacity (get isa (i - 1 - len1)) (marked st)) in
    let parsing' := pop_back (parsing st) in
    mkState (set_back parsing' (Phrase.mk p2 (len2 + 1) (char_at s i)))
            (z st - 1) marked'
  else if negb (p1 =? -1) then
    mkState (set_back (parsing st) (Phrase.mk p1 (len1 + 1) (char_at s i)))
            (z st) (marked st)
  else
    let marked' := BTree.insert map_capacity isa_last (z st) (marked st) in
    mkState (push_back (parsing st) (Phrase.mk 0 1 (char_at s i)))
            (z st + 1) marked'.

(** [for(Index i = 0; i < n; i++) isa[n-sa[i]-1] = i], on the array that
    holds the PLCP values. *)
Definition permuted_isa (sa plcp : list Z) (n : Z) : list Z :=
  fold_left (fun isa i => set isa (n - get sa i - 1) i) (range 0 n) plcp.

Definition initial (s : list ascii) : State :=
  mkState [Phrase.mk 0 1 (char_at s 0)] 0 BTree.new.

(** The state before iteration [i] of the main loop. *)
Definition state_at (s : list ascii) (isa lcp : list Z) (rmq : RMQ.t) (i : Z) : State :=
  fold_left (step s isa lcp rmq) (range 1 i) (initial s).

(** The arrays and the RMQ built before the loop. *)
Record Index : Type := mkIndex {
  n_ : Z;
  isa_ : list Z;
  lcp_ : list Z;
  rmq_ : RMQ.t
}.

Definition construct (s : list ascii) : outcome Index :=
  let n := int32 (Z.of_nat (length s)) in
  let rs := rev s in
  _ <- make_unique 0 memory 4 (size_t n) ;;
  let sa := libsais rs n in
  _ <- make_unique 0 memory 4 (size_t n) ;;
  let plcp := libsais_plcp rs sa n in
  _ <- make_unique 0 memory 4 (size_t n) ;;
  let lcp := libsais_lcp plcp sa n in
  rmq <- RMQ.new memory lcp (size_t n) ;;
  let isa := permuted_isa sa plcp n in
  Returned (mkIndex n isa lcp rmq).

Definition parse (s : list ascii) : outcome (list Phrase.t) :=
  ix <- construct s ;;
  Returned (parsing (state_at s (isa_ ix) (lcp_ ix) (rmq_ ix) (n_ ix))).

(** The pairs [(p1, p2)] of the two searches in iteration [i] of a run. *)
Definition search_at (s : list ascii) (i : Z) : outcome ((Z * Z) * (Z * Z)) :=
  ix <- construct s ;;
  Returned (search_of (isa_ ix) (lcp_ ix) (rmq_ ix)
              (state_at s (isa_ ix) (lcp_ ix) (rmq_ ix) i) i).

End Parse.

(** ** A reference suffix sorter *)

(** Modelled from the spec: the suffix sorting library (libsais) is not
    part of the repository.  [SA] lists the suffixes of the first [n]
    characters in lexicographic order, [PLCP[p]] is the length of the
    longest common prefix of the suffix at [p] and the suffix before it in
    that order (0 for the first), and [LCP[i] = PLCP[SA[i]]]. *)
Fixpoint suffix_le (a b : list ascii) : bool :=
  match a, b with
  | [], _ => true
  | _ :: _, [] => false
  | x :: a', y :: b' =>
      if (nat_of_ascii x <? nat_of_ascii y)%nat then true
      else if (nat_of_ascii y <? nat_of_ascii x)%nat then false
      else suffix_le a' b'
  end.

Fixpoint common_prefix (a b : list ascii) : Z :=
  match a, b with
  | x :: a', y :: b' =>
      if (nat_of_ascii x =? nat_of_ascii y)%nat then 1 + common_prefix a' b' else 0
  | _, _ => 0
  end.

Definition suffix (t : list ascii) (p : Z) : list ascii := skipn (Z.to_nat p) t.

Fixpoint insert_suffix (t : list ascii) (p : Z) (sa : list Z) : list Z :=
  match sa with
  | [] => [p]
  | q :: sa' =>
      if suffix_le (suffix t p) (suffix t q) then p :: sa
      else q :: insert_suffix t p sa'
  end.

(** Modelled from the spec: [libsais], the suffix array of the first [n]
    characters, here by insertion sort of the suffixes. *)
Definition ref_sais (text : list ascii) (n : Z) : list Z :=
  let t := firstn (Z.to_nat n) text in
  fold_right (insert_suffix t) [] (range 0 n).

(** Modelled from the spec: [libsais_plcp], the permuted LCP array
    indexed by text position. *)
Definition ref_plcp (text : list ascii) (sa : list Z) (n : Z) : list Z :=
  let t := firstn (Z.to_nat n) text in
  fold_left
    (fun plcp r =>
       set plcp (get sa r)
           (if r =? 0 then 0
            else common_prefix (suffix t (get sa (r - 1))) (suffix t (get sa r))))
    (range 0 n) (repeat 0 (Z.to_nat n)).

(** Modelled from the spec: [libsais_lcp], [LCP[i] = PLCP[SA[i]]]. *)
Definition ref_lcp (plcp sa : list Z) (n : Z) : list Z :=
  map (fun r => get plcp (get sa r)) (range 0 n).

(** The parser run with the reference suffix sorter. *)
Definition ref_parse (memory : Z) (s : list ascii) : outcome (list Phrase.t) :=
  parse ref_sais ref_plcp ref_lcp memory s.

Definition ref_search_at (memory : Z) (s : list ascii) (i : Z)
  : outcome ((Z * Z) * (Z * Z)) :=
  search_at ref_sais ref_plcp ref_lcp memory s i.

Local Close Scope Z_scope.

(** * The ordered B-tree map: abstract view and correctness *)

(** ** Sorted association lists: the abstract contents of a node and a tree *)


Definition keys (l : list (Z * Z)) : list Z := map fst l.

(** Insertion in front of the first entry whose key is not smaller. *)
Fixpoint ins (k v : Z) (l : list (Z * Z)) : list (Z * Z) :=
  match l with
  | [] => [(k, v)]
  | e :: l' => if (fst e <? k)%Z then e :: ins k v l' else (k, v) :: l
  end.

(** Removal of the first entry with key [k]. *)
Fixpoint del (k : Z) (l : list (Z * Z)) : list (Z * Z) :=
  match l with
  | [] => []
  | e :: l' => if (fst e =? k)%Z then l' else e :: del k l'
  end.

Fixpoint lookup (k : Z) (l : list (Z * Z)) : option Z :=
  match l with
  | [] => None
  | e :: l' => if (fst e =? k)%Z then Some (snd e) else lookup k l'
  end.

Fixpoint ksorted (l : list (Z * Z)) : Prop :=
  match l with
  | [] => True
  | e :: l' => (forall b, In b l' -> (fst e < fst b)%Z) /\ ksorted l'
  end.

Definition entries (m : LinearSearchMap) : list (Z * Z) :=
  combine (keys_ m) (values_ m).

Definition impl_ok (m : LinearSearchMap) : Prop :=
  length (keys_ m) = length (values_ m).

(** ** Lemmas on sorted association lists *)

Lemma ksorted_app (A B : list (Z * Z)) :
  ksorted (A ++ B) <->
  ksorted A /\ ksorted B /\ (forall a b, In a A -> In b B -> (fst a < fst b)%Z).
Proof.
  induction A as [|e A IH]; simpl.
  - intuition.
  - rewrite IH. split.
    + intros [H1 (H2 & H3 & H4)]. repeat split; auto.
      * intros b Hb. apply H1. apply in_or_app. auto.
      * intros a b [->|Ha] Hb; auto. apply H1. apply in_or_app. auto.
    + intros ([H1 H2] & H3 & H4). repeat split; auto.
      intros b Hb. apply in_app_or in Hb. destruct Hb; auto.
Qed.

Lemma ksorted_app_l (A B : list (Z * Z)) : ksorted (A ++ B) -> ksorted A.
Proof. rewrite ksorted_app. tauto. Qed.

Lemma ksorted_app_r (A B : list (Z * Z)) : ksorted (A ++ B) -> ksorted B.
Proof. rewrite ksorted_app. tauto. Qed.

Lemma ksorted_app_lt (A B : list (Z * Z)) a b :
  ksorted (A ++ B) -> In a A -> In b B -> (fst a < fst b)%Z.
Proof. rewrite ksorted_app. intros (_ & _ & H). apply H. Qed.

Lemma ksorted_cons_lt e (l : list (Z * Z)) b :
  ksorted (e :: l) -> In b l -> (fst e < fst b)%Z.
Proof. simpl. intros [H _]. apply H. Qed.

Lemma ksorted_notin_tail e (l : list (Z * Z)) :
  ksorted (e :: l) -> ~ In (fst e) (keys l).
Proof.
  intros [H _] Hin. unfold keys in Hin. apply in_map_iff in Hin.
  destruct Hin as (b & Hb & Hin). apply H in Hin. lia.
Qed.

Lemma in_keys (l : list (Z * Z)) e : In e l -> In (fst e) (keys l).
Proof. apply in_map. Qed.

Lemma keys_app (A B : list (Z * Z)) : keys (A ++ B) = keys A ++ keys B.
Proof. apply map_app. Qed.

Lemma in_keys_iff (l : list (Z * Z)) k : In k (keys l) <-> exists v, In (k, v) l.
Proof.
  unfold keys. rewrite in_map_iff. split.
  - intros ([k' v] & <- & H). exists v. exact H.
  - intros (v & H). exists (k, v). auto.
Qed.

Lemma in_ins k v l e : In e (ins k v l) <-> e = (k, v) \/ In e l.
Proof.
  induction l as [|x l IH]; simpl.
  - intuition.
  - destruct (fst x <? k)%Z; simpl; rewrite ?IH; intuition.
Qed.

Lemma ins_sorted k v l :
  ksorted l -> ~ In k (keys l) -> ksorted (ins k v l).
Proof.
  induction l as [|x l IH]; simpl; intros Hs Hn.
  - tauto.
  - destruct Hs as [H1 H2].
    destruct (fst x <? k)%Z eqn:E.
    + simpl. split.
      * intros b Hb. apply in_ins in Hb. destruct Hb as [->|Hb]; auto.
        simpl. lia.
      * apply IH; auto.
    + apply Z.ltb_ge in E. simpl. repeat split; auto.
      intros b [<-|Hb].
      * assert (fst x <> k) by tauto. simpl. lia.
      * apply H1 in Hb. simpl. lia.
Qed.

Lemma ins_app_lt k v (A L : list (Z * Z)) :
  (forall a, In a A -> (fst a < k)%Z) -> ins k v (A ++ L) = A ++ ins k v L.
Proof.
  induction A as [|a A IH]; simpl; intros H; auto.
  assert (fst a < k)%Z as Ha by auto.
  apply Z.ltb_lt in Ha. rewrite Ha. f_equal. apply IH. auto.
Qed.

Lemma ins_app_ge k v (B C : list (Z * Z)) :
  (forall c, In c C -> (k <= fst c)%Z) -> ins k v (B ++ C) = ins k v B ++ C.
Proof.
  intros H. induction B as [|b B IH]; simpl.
  - destruct C as [|c C]; simpl; auto.
    assert (k <= fst c)%Z as Hc by (apply H; simpl; auto).
    destruct (fst c <? k)%Z eqn:E; auto. apply Z.ltb_lt in E. lia.
  - destruct (fst b <? k)%Z; simpl; auto. f_equal. auto.
Qed.

Lemma ins_mid k v (A C : list (Z * Z)) :
  (forall a, In a A -> (fst a < k)%Z) ->
  (forall c, In c C -> (k <= fst c)%Z) ->
  ins k v (A ++ C) = A ++ (k, v) :: C.
Proof.
  intros HA HC. rewrite ins_app_lt by auto.
  change C with ([] ++ C) at 1. rewrite ins_app_ge by auto. reflexivity.
Qed.

Lemma ins_length k v l : length (ins k v l) = S (length l).
Proof.
  induction l as [|x l IH]; simpl; auto.
  destruct (fst x <? k)%Z; simpl; auto.
Qed.

Lemma del_notin k l : ~ In k (keys l) -> del k l = l.
Proof.
  induction l as [|x l IH]; simpl; intros H; auto.
  destruct (fst x =? k)%Z eqn:E.
  - apply Z.eqb_eq in E. tauto.
  - f_equal. auto.
Qed.

Lemma del_app_notin k (A B : list (Z * Z)) :
  ~ In k (keys A) -> del k (A ++ B) = A ++ del k B.
Proof.
  induction A as [|a A IH]; simpl; intros H; auto.
  destruct (fst a =? k)%Z eqn:E.
  - apply Z.eqb_eq in E. tauto.
  - f_equal. auto.
Qed.

Lemma del_app_in k (A B : list (Z * Z)) :
  In k (keys A) -> del k (A ++ B) = del k A ++ B.
Proof.
  induction A as [|a A IH]; simpl; intros H; [tauto|].
  destruct (fst a =? k)%Z eqn:E; auto.
  simpl. f_equal. apply IH. destruct H; auto. apply Z.eqb_neq in E. tauto.
Qed.

Lemma del_head k v (B : list (Z * Z)) : del k ((k, v) :: B) = B.
Proof. simpl. rewrite Z.eqb_refl. reflexivity. Qed.

Lemma del_mid k v (A B : list (Z * Z)) :
  ~ In k (keys A) -> del k (A ++ (k, v) :: B) = A ++ B.
Proof. intros H. rewrite del_app_notin by auto. rewrite del_head. auto. Qed.

Lemma in_del_sub k l e : In e (del k l) -> In e l.
Proof.
  induction l as [|x l IH]; simpl; auto.
  destruct (fst x =? k)%Z; simpl; intuition.
Qed.

Lemma del_sorted k l : ksorted l -> ksorted (del k l).
Proof.
  induction l as [|x l IH]; simpl; auto.
  intros [H1 H2]. destruct (fst x =? k)%Z; simpl; auto.
  split; auto. intros b Hb. apply H1. eapply in_del_sub; eauto.
Qed.

Lemma del_sorted_notin k l : ksorted l -> ~ In k (keys (del k l)).
Proof.
  induction l as [|x l IH]; simpl; auto.
  intros [H1 H2]. destruct (fst x =? k)%Z eqn:E; simpl.
  - apply Z.eqb_eq in E. subst k. apply (ksorted_notin_tail x l). simpl; auto.
  - apply Z.eqb_neq in E. intros [H|H]; auto. apply IH in H; auto.
Qed.

Lemma in_del k l e : ksorted l -> (In e (del k l) <-> In e l /\ fst e <> k).
Proof.
  intros Hs. split.
  - intros H. split; [eapply in_del_sub; eauto|].
    intros <-. apply (del_sorted_notin (fst e) l Hs). apply in_keys. auto.
  - intros [H1 H2]. induction l as [|x l IH]; simpl in *; auto.
    destruct Hs as [Hs1 Hs2].
    destruct (fst x =? k)%Z eqn:E.
    + apply Z.eqb_eq in E. destruct H1; auto. subst. tauto.
    + simpl. destruct H1; auto.
Qed.

Lemma del_length k l : In k (keys l) -> S (length (del k l)) = length l.
Proof.
  induction l as [|x l IH]; simpl; [tauto|].
  destruct (fst x =? k)%Z eqn:E; auto.
  intros [H|H]; [apply Z.eqb_neq in E; tauto|]. simpl. auto.
Qed.

Lemma lookup_in k l v : lookup k l = Some v -> In (k, v) l.
Proof.
  induction l as [|x l IH]; simpl; [discriminate|].
  destruct (fst x =? k)%Z eqn:E.
  - apply Z.eqb_eq in E. intros [= <-]. left. destruct x; simpl in *; subst; auto.
  - auto.
Qed.

Lemma lookup_none k l : lookup k l = None <-> ~ In k (keys l).
Proof.
  induction l as [|x l IH]; simpl; [intuition|].
  destruct (fst x =? k)%Z eqn:E.
  - apply Z.eqb_eq in E. split; [discriminate|]. tauto.
  - apply Z.eqb_neq in E. rewrite IH. tauto.
Qed.

Lemma in_lookup k v l : ksorted l -> In (k, v) l -> lookup k l = Some v.
Proof.
  induction l as [|x l IH]; simpl; [tauto|].
  intros [H1 H2] [->|H]; simpl.
  - rewrite Z.eqb_refl. reflexivity.
  - destruct (fst x =? k)%Z eqn:E; auto.
    apply Z.eqb_eq in E. apply H1 in H. simpl in H. lia.
Qed.

Lemma lookup_ins_eq k v l : ~ In k (keys l) -> lookup k (ins k v l) = Some v.
Proof.
  induction l as [|x l IH]; simpl; intros H.
  - rewrite Z.eqb_refl. reflexivity.
  - destruct (fst x <? k)%Z eqn:E; simpl.
    + apply Z.ltb_lt in E. destruct (fst x =? k)%Z eqn:E1.
      * apply Z.eqb_eq in E1. lia.
      * apply IH. tauto.
    + rewrite Z.eqb_refl. reflexivity.
Qed.

Lemma lookup_ins_ne k v k' l : k <> k' -> lookup k' (ins k v l) = lookup k' l.
Proof.
  intros H. induction l as [|x l IH]; simpl.
  - apply Z.eqb_neq in H. rewrite H. reflexivity.
  - destruct (fst x <? k)%Z eqn:E; simpl.
    + rewrite IH. reflexivity.
    + apply Z.eqb_neq in H. rewrite H. reflexivity.
Qed.

Lemma lookup_del k k' l :
  ksorted l -> lookup k' (del k l) = if (k =? k')%Z then None else lookup k' l.
Proof.
  intros Hs. destruct (k =? k')%Z eqn:E.
  - apply Z.eqb_eq in E. subst. apply lookup_none. apply del_sorted_notin; auto.
  - apply Z.eqb_neq in E. induction l as [|x l IH]; simpl; auto.
    destruct Hs as [H1 H2].
    destruct (fst x =? k)%Z eqn:E1; simpl.
    + apply Z.eqb_eq in E1. destruct (fst x =? k')%Z eqn:E2; auto.
      apply Z.eqb_eq in E2. congruence.
    + destruct (fst x =? k')%Z; auto.
Qed.

(** ** The node implementation against the abstract view *)

Lemma keys_entries m : impl_ok m -> keys (entries m) = keys_ m.
Proof.
  unfold impl_ok, entries, keys. destruct m as [ks vs]; simpl.
  revert vs. induction ks as [|k ks IH]; intros [|v vs]; simpl; intros H;
    try discriminate; auto.
  f_equal. apply IH. lia.
Qed.

Lemma size_entries m : impl_ok m -> LinearSearchMap.size m = length (entries m).
Proof.
  unfold impl_ok, entries, LinearSearchMap.size. intros H.
  rewrite length_combine. lia.
Qed.

Lemma entry_at m i :
  impl_ok m -> i < LinearSearchMap.size m ->
  nth i (entries m) (0%Z, 0%Z) = (LinearSearchMap.at_ m i, LinearSearchMap.value m i).
Proof.
  unfold impl_ok, entries, LinearSearchMap.size, LinearSearchMap.at_,
    LinearSearchMap.value, LinearSearchBase.at_.
  intros H Hi. apply combine_nth. exact H.
Qed.

Lemma combine_insert_pos k v ks vs :
  length ks = length vs ->
  combine (insert_at (LinearSearchBase.insert_pos ks k) k ks)
          (insert_at (LinearSearchBase.insert_pos ks k) v vs)
  = ins k v (combine ks vs).
Proof.
  revert vs. induction ks as [|x ks IH]; intros [|y vs]; simpl; intros H;
    try discriminate; auto.
  destruct (x <? k)%Z; simpl; auto.
  unfold insert_at in *. simpl. f_equal. apply IH. lia.
Qed.

Lemma insert_at_length {A} i (x : A) l : length (insert_at i x l) = S (length l).
Proof.
  unfold insert_at. rewrite length_app. simpl.
  rewrite <- (firstn_skipn i l) at 3. rewrite length_app. lia.
Qed.

Lemma insert_entries k v m :
  impl_ok m -> entries (LinearSearchMap.insert k v m) = ins k v (entries m).
Proof.
  intros H. unfold LinearSearchMap.insert, LinearSearchBase.insert_key, entries.
  simpl. apply combine_insert_pos. exact H.
Qed.

Lemma insert_ok k v m : impl_ok m -> impl_ok (LinearSearchMap.insert k v m).
Proof.
  unfold impl_ok, LinearSearchMap.insert, LinearSearchBase.insert_key. simpl.
  intros H. rewrite !insert_at_length. lia.
Qed.

Lemma remove_at_cons {A} i (x : A) l : remove_at (S i) (x :: l) = x :: remove_at i l.
Proof. reflexivity. Qed.

Lemma insert_at_cons {A} i (y x : A) l : insert_at (S i) y (x :: l) = x :: insert_at i y l.
Proof. reflexivity. Qed.

Lemma find_pos_some k ks vs i :
  length ks = length vs -> LinearSearchBase.find_pos ks k = Some i ->
  combine (remove_at i ks) (remove_at i vs) = del k (combine ks vs)
  /\ lookup k (combine ks vs) = Some (nth i vs 0%Z)
  /\ S (length (remove_at i ks)) = length ks
  /\ S (length (remove_at i vs)) = length vs.
Proof.
  revert vs i. induction ks as [|x ks IH]; intros [|y vs] i; simpl; intros H Hf;
    try discriminate.
  destruct (x =? k)%Z eqn:E.
  - injection Hf as <-. unfold remove_at. simpl. auto.
  - destruct (LinearSearchBase.find_pos ks k) as [j|] eqn:Ej; try discriminate.
    simpl in Hf. injection Hf as <-.
    destruct (IH vs j) as (H1 & H2 & H3 & H4); auto.
    rewrite !remove_at_cons. simpl. rewrite H1. repeat split; auto.
Qed.

Lemma find_pos_none k ks vs :
  length ks = length vs -> LinearSearchBase.find_pos ks k = None ->
  lookup k (combine ks vs) = None.
Proof.
  revert vs. induction ks as [|x ks IH]; intros [|y vs]; simpl; intros H Hf;
    try discriminate; auto.
  destruct (x =? k)%Z eqn:E; try discriminate.
  destruct (LinearSearchBase.find_pos ks k) eqn:Ej; try discriminate.
  apply IH; auto.
Qed.

Lemma erase_spec k m :
  impl_ok m ->
  let '(b, v, m') := LinearSearchMap.erase k m in
  entries m' = del k (entries m) /\ impl_ok m' /\
  match lookup k (entries m) with
  | Some v0 => b = true /\ v = v0
  | None => b = false /\ m' = m
  end.
Proof.
  intros H. unfold LinearSearchMap.erase, LinearSearchBase.erase_key.
  destruct (LinearSearchBase.find_pos (keys_ m) k) as [i|] eqn:E.
  - destruct (find_pos_some k _ _ i H E) as (H1 & H2 & H3 & H4).
    unfold entries at 1. simpl. unfold entries. rewrite H2.
    repeat split; auto. unfold impl_ok. simpl. unfold impl_ok in H. lia.
  - pose proof (find_pos_none k _ _ H E) as H1. unfold entries at 3.
    rewrite H1. repeat split; auto.
    symmetry. apply del_notin. apply lookup_none. exact H1.
Qed.

Lemma erased_entries k m :
  impl_ok m -> entries (LinearSearchMap.erased k m) = del k (entries m).
Proof.
  intros H. unfold LinearSearchMap.erased.
  pose proof (erase_spec k m H) as E.
  destruct (LinearSearchMap.erase k m) as [[b v] m']. simpl. tauto.
Qed.

Lemma erased_ok k m : impl_ok m -> impl_ok (LinearSearchMap.erased k m).
Proof.
  intros H. unfold LinearSearchMap.erased.
  pose proof (erase_spec k m H) as E.
  destruct (LinearSearchMap.erase k m) as [[b v] m']. simpl. tauto.
Qed.

(** The in-node searches.  [cnt_le x ks] is the length of the longest prefix
    of keys not above [x], [cnt_lt x ks] that of the keys below [x]. *)

Fixpoint cnt_le (x : Z) (ks : list Z) : nat :=
  match ks with
  | [] => 0
  | k :: ks' => if (k <=? x)%Z then S (cnt_le x ks') else 0
  end.

Fixpoint cnt_lt (x : Z) (ks : list Z) : nat :=
  match ks with
  | [] => 0
  | k :: ks' => if (k <? x)%Z then S (cnt_lt x ks') else 0
  end.

Lemma scan_le_cnt ks x i : LinearSearchBase.scan_le ks x i = i + cnt_le x ks.
Proof.
  revert i. induction ks as [|k ks IH]; intros i; simpl; [lia|].
  destruct (k <=? x)%Z; [rewrite IH|]; lia.
Qed.

Lemma scan_lt_cnt ks x i : LinearSearchBase.scan_lt ks x i = i + cnt_lt x ks.
Proof.
  revert i. induction ks as [|k ks IH]; intros i; simpl; [lia|].
  destruct (k <? x)%Z; [rewrite IH|]; lia.
Qed.

Lemma cnt_le_bound x ks : cnt_le x ks <= length ks.
Proof. induction ks as [|k ks IH]; simpl; [lia|]. destruct (k <=? x)%Z; lia. Qed.

Lemma cnt_lt_bound x ks : cnt_lt x ks <= length ks.
Proof. induction ks as [|k ks IH]; simpl; [lia|]. destruct (k <? x)%Z; lia. Qed.

Lemma cnt_le_firstn x (es : list (Z * Z)) e :
  In e (firstn (cnt_le x (keys es)) es) -> (fst e <= x)%Z.
Proof.
  induction es as [|a es IH]; simpl; [tauto|].
  destruct (fst a <=? x)%Z eqn:E; simpl; [|tauto].
  intros [<-|H]; auto. apply Z.leb_le. exact E.
Qed.

Lemma cnt_le_skipn x (es : list (Z * Z)) e :
  ksorted es -> In e (skipn (cnt_le x (keys es)) es) -> (x < fst e)%Z.
Proof.
  induction es as [|a es IH]; simpl; [tauto|].
  intros [H1 H2]. destruct (fst a <=? x)%Z eqn:E; simpl.
  - auto.
  - apply Z.leb_gt in E. intros [<-|H]; auto. apply H1 in H. lia.
Qed.

Lemma cnt_lt_firstn x (es : list (Z * Z)) e :
  In e (firstn (cnt_lt x (keys es)) es) -> (fst e < x)%Z.
Proof.
  induction es as [|a es IH]; simpl; [tauto|].
  destruct (fst a <? x)%Z eqn:E; simpl; [|tauto].
  intros [<-|H]; auto. apply Z.ltb_lt. exact E.
Qed.

Lemma cnt_lt_skipn x (es : list (Z * Z)) e :
  ksorted es -> In e (skipn (cnt_lt x (keys es)) es) -> (x <= fst e)%Z.
Proof.
  induction es as [|a es IH]; simpl; [tauto|].
  intros [H1 H2]. destruct (fst a <? x)%Z eqn:E; simpl.
  - auto.
  - apply Z.ltb_ge in E. intros [<-|H]; auto. apply H1 in H. lia.
Qed.

Lemma cnt_le_all x (es : list (Z * Z)) :
  (forall e, In e es -> (fst e <= x)%Z) -> cnt_le x (keys es) = length es.
Proof.
  induction es as [|a es IH]; simpl; auto. intros H.
  assert (fst a <= x)%Z as Ha by auto. apply Z.leb_le in Ha. rewrite Ha.
  f_equal. auto.
Qed.

Lemma cnt_lt_all x (es : list (Z * Z)) :
  (forall e, In e es -> (fst e < x)%Z) -> cnt_lt x (keys es) = length es.
Proof.
  induction es as [|a es IH]; simpl; auto. intros H.
  assert (fst a < x)%Z as Ha by auto. apply Z.ltb_lt in Ha. rewrite Ha.
  f_equal. auto.
Qed.

Lemma ksorted_le_last (es : list (Z * Z)) e :
  ksorted es -> In e es -> (fst e <= fst (last es (0%Z, 0%Z)))%Z.
Proof.
  induction es as [|a es IH]; [simpl; tauto|].
  intros Hs [<-|H].
  - destruct es as [|b es]; [simpl; lia|].
    assert (fst a < fst (last (b :: es) (0%Z, 0%Z)))%Z; [|simpl in *; lia].
    apply (ksorted_cons_lt a (b :: es)); auto.
    destruct (@exists_last _ (b :: es)) as (l' & z & E); [discriminate|].
    rewrite E. rewrite last_last. apply in_or_app. simpl. auto.
  - destruct es as [|b es]; [simpl in H; tauto|].
    destruct Hs as [_ Hs]. specialize (IH Hs H). simpl in *. exact IH.
Qed.

Lemma keys_nth_last (es : list (Z * Z)) :
  nth (length (keys es) - 1) (keys es) 0%Z = fst (last es (0%Z, 0%Z)).
Proof.
  induction es as [|a es IH]; simpl; auto.
  destruct es as [|b es]; simpl in *; auto.
  rewrite Nat.sub_0_r in IH. exact IH.
Qed.

Lemma node_predecessor_spec (es : list (Z * Z)) x :
  ksorted es ->
  let r := LinearSearchBase.predecessor (keys es) x in
  l_exists r = (0 <? cnt_le x (keys es)) /\
  (l_exists r = true -> l_pos r + 1 = cnt_le x (keys es)).
Proof.
  intros Hs. unfold LinearSearchBase.predecessor, LinearSearchBase.at_.
  destruct es as [|a es]; [simpl; split; [auto|discriminate]|].
  cbv zeta. change (length (keys (a :: es)) =? 0) with false. cbv iota.
  change (nth 0 (keys (a :: es)) 0%Z) with (fst a).
  destruct (x <? fst a)%Z eqn:E1.
  - apply Z.ltb_lt in E1. simpl.
    destruct (fst a <=? x)%Z eqn:E2; [apply Z.leb_le in E2; lia|].
    simpl. split; [auto|discriminate].
  - apply Z.ltb_ge in E1. rewrite keys_nth_last.
    destruct (x >=? fst (last (a :: es) (0, 0)))%Z eqn:E2.
    + apply Z.geb_le in E2.
      rewrite (cnt_le_all x (a :: es)).
      * unfold keys. rewrite length_map. simpl. split; [auto|intros _; lia].
      * intros e He. pose proof (ksorted_le_last _ e Hs He). lia.
    + simpl. apply Z.leb_le in E1. rewrite E1. rewrite scan_le_cnt. simpl.
      split; [auto|intros _; lia].
Qed.

Lemma node_successor_spec (es : list (Z * Z)) x :
  ksorted es ->
  let r := LinearSearchBase.successor (keys es) x in
  l_exists r = (cnt_lt x (keys es) <? length es) /\
  (l_exists r = true -> l_pos r = cnt_lt x (keys es)).
Proof.
  intros Hs. unfold LinearSearchBase.successor, LinearSearchBase.at_.
  destruct es as [|a es]; [simpl; split; [auto|discriminate]|].
  cbv zeta. change (length (keys (a :: es)) =? 0) with false. cbv iota.
  change (nth 0 (keys (a :: es)) 0%Z) with (fst a).
  destruct (x <=? fst a)%Z eqn:E1.
  - apply Z.leb_le in E1. simpl.
    destruct (fst a <? x)%Z eqn:E2; [apply Z.ltb_lt in E2; lia|].
    simpl. split; [auto|reflexivity].
  - apply Z.leb_gt in E1. rewrite keys_nth_last.
    destruct (x >? fst (last (a :: es) (0, 0)))%Z eqn:E2.
    + apply Z.gtb_lt in E2.
      rewrite (cnt_lt_all x (a :: es)).
      * simpl. rewrite Nat.ltb_irrefl. split; [auto|discriminate].
      * intros e He. pose proof (ksorted_le_last _ e Hs He). lia.
    + assert (fst (last (a :: es) (0, 0)) >= x)%Z as E3.
      { destruct (Z.gtb_spec x (fst (last (a :: es) (0%Z, 0%Z)))); [discriminate|lia]. }
      simpl l_exists. simpl l_pos. split; [|intros _].
      * symmetry. apply Nat.ltb_lt.
        destruct (Nat.lt_ge_cases (cnt_lt x (keys (a :: es))) (length (a :: es)))
          as [Hlt|Hge]; auto.
        exfalso.
        assert (cnt_lt x (keys (a :: es)) = length (a :: es)) as Heq.
        { pose proof (cnt_lt_bound x (keys (a :: es))) as Hb.
          unfold keys in Hb at 2. rewrite length_map in Hb. lia. }
        assert (In (last (a :: es) (0%Z, 0%Z)) (firstn (cnt_lt x (keys (a :: es))) (a :: es))) as Hin.
        { rewrite Heq, firstn_all.
          destruct (@exists_last _ (a :: es)) as (l' & z & E); [discriminate|].
          rewrite E, last_last. apply in_or_app. simpl. auto. }
        apply cnt_lt_firstn in Hin. lia.
      * simpl. apply Z.ltb_lt in E1. rewrite E1. rewrite scan_lt_cnt. lia.
Qed.

(** ** The contents of a tree, in order *)

(** [flat es Ls]: the in-order reading of a node with entries [es] whose
    children read [Ls] (for a leaf, [Ls] is empty). *)
Fixpoint flat (es : list (Z * Z)) (Ls : list (list (Z * Z))) {struct Ls}
    : list (Z * Z) :=
  match Ls with
  | [] => es
  | L :: Ls' =>
      match es with
      | [] => L
      | e :: es' => L ++ e :: flat es' Ls'
      end
  end.

(** Children each followed by their right separator. *)
Fixpoint pre (Ls : list (list (Z * Z))) (es : list (Z * Z)) : list (Z * Z) :=
  match Ls, es with
  | L :: Ls', e :: es' => L ++ e :: pre Ls' es'
  | _, _ => []
  end.

(** Separators each followed by the child to their right. *)
Definition post (es : list (Z * Z)) (Ls : list (list (Z * Z))) : list (Z * Z) :=
  match es with
  | [] => []
  | e :: es' => e :: flat es' Ls
  end.

Fixpoint elems (n : Node) : list (Z * Z) :=
  match n with
  | mkNode impl cs => flat (entries impl) (map elems cs)
  end.

Lemma elems_eq n : elems n = flat (entries (impl_ n)) (map elems (children_ n)).
Proof. destruct n; reflexivity. Qed.

Lemma flat_cons_cons e es L Ls : flat (e :: es) (L :: Ls) = L ++ e :: flat es Ls.
Proof. reflexivity. Qed.

Lemma flat_cons es L Ls : flat es (L :: Ls) = L ++ post es Ls.
Proof. destruct es; simpl; auto using app_nil_r. Qed.

Lemma flat_split el er Ll Lr :
  length el = length Ll ->
  flat (el ++ er) (Ll ++ Lr) = pre Ll el ++ flat er Lr.
Proof.
  revert Ll. induction el as [|e el IH]; intros [|L Ll]; simpl; intros H;
    try discriminate; auto.
  rewrite IH by lia. rewrite <- app_assoc. reflexivity.
Qed.

Lemma pre_app L1 L2 e1 e2 :
  length e1 = length L1 ->
  pre (L1 ++ L2) (e1 ++ e2) = pre L1 e1 ++ pre L2 e2.
Proof.
  revert L1. induction e1 as [|e e1 IH]; intros [|L L1]; simpl; intros H;
    try discriminate; auto.
  rewrite IH by lia. rewrite <- app_assoc. reflexivity.
Qed.

Lemma flat_sep e1 m e2 L1 L2 :
  length L1 = S (length e1) ->
  flat (e1 ++ m :: e2) (L1 ++ L2) = flat e1 L1 ++ m :: flat e2 L2.
Proof.
  revert L1. induction e1 as [|e e1 IH]; intros [|L L1]; simpl; intros H;
    try discriminate.
  - destruct L1; [|discriminate]. reflexivity.
  - rewrite IH by lia. destruct L1; [discriminate|].
    rewrite <- app_assoc. reflexivity.
Qed.

Lemma pre_snoc Ll el L e :
  length el = length Ll -> pre (Ll ++ [L]) (el ++ [e]) = pre Ll el ++ L ++ [e].
Proof. intros H. rewrite pre_app by auto. reflexivity. Qed.

Lemma in_pre_sep Ll el e :
  length el = length Ll -> In e el -> In e (pre Ll el).
Proof.
  revert Ll. induction el as [|a el IH]; intros [|L Ll]; simpl; intros H Hin;
    try discriminate; try tauto.
  apply in_or_app. right. simpl. destruct Hin; auto.
Qed.

Lemma in_flat_sep es Ls e : In e es -> In e (flat es Ls).
Proof.
  revert Ls. induction es as [|a es IH]; intros [|L Ls]; simpl; try tauto.
  intros [->|H]; apply in_or_app; right; simpl; auto.
Qed.

Lemma in_post_sep er Lr e : In e er -> In e (post er Lr).
Proof.
  destruct er as [|a er]; simpl; [tauto|].
  intros [->|H]; auto. right. apply in_flat_sep. exact H.
Qed.

(** Every entry left of a child is bounded by one of the separators left of
    it, and every entry to its right by one of the separators to the right. *)
Lemma pre_bound Ll el a :
  ksorted (pre Ll el) -> In a (pre Ll el) ->
  exists e, In e el /\ (fst a <= fst e)%Z.
Proof.
  revert el. induction Ll as [|L Ll IH]; intros [|e el]; simpl; try tauto.
  intros Hs Hin. apply in_app_or in Hin. destruct Hin as [Hin|[<-|Hin]].
  - exists e. split; auto.
    assert (fst a < fst e)%Z; [|lia].
    apply (ksorted_app_lt L (e :: pre Ll el)); simpl; auto.
  - exists e. split; auto. lia.
  - apply ksorted_app_r in Hs. destruct Hs as [_ Hs].
    destruct (IH el Hs Hin) as (e' & H1 & H2). exists e'. auto.
Qed.

Lemma flat_bound er Lr a :
  length Lr = S (length er) -> ksorted (flat er Lr) ->
  In a (flat er Lr) ->
  In a (hd [] Lr) \/ exists e, In e er /\ (fst e <= fst a)%Z.
Proof.
  revert Lr. induction er as [|e er IH]; intros [|L Lr]; simpl; intros Hl Hs Hin;
    try discriminate; auto.
  apply in_app_or in Hin. destruct Hin as [Hin|[<-|Hin]]; auto.
  - right. exists e. split; auto. lia.
  - right. apply ksorted_app_r in Hs.
    destruct (IH Lr ltac:(lia) (proj2 Hs) Hin) as [H|(e' & H1 & H2)].
    + exists e. split; auto.
      assert (fst e < fst a)%Z; [|lia]. apply (proj1 Hs).
      destruct Lr as [|L' Lr]; [simpl in H; tauto|]. simpl in H.
      rewrite flat_cons. apply in_or_app. auto.
    + exists e'. auto.
Qed.

Lemma post_bound er Lr a :
  length Lr = length er -> ksorted (post er Lr) ->
  In a (post er Lr) -> exists e, In e er /\ (fst e <= fst a)%Z.
Proof.
  destruct er as [|e er]; simpl; [tauto|].
  intros Hl Hs [<-|Hin].
  - exists e. split; auto. lia.
  - destruct (flat_bound er Lr a Hl (proj2 Hs) Hin) as [H|(e' & H1 & H2)].
    + exists e. split; auto.
      assert (fst e < fst a)%Z; [|lia]. apply (proj1 Hs). exact Hin.
    + exists e'. auto.
Qed.

(** ** Shape: balance and node sizes *)

Section Shape.

Variable capacity_ : nat.

(** The fewest keys a node other than the root holds. *)
Definition min_keys : nat := BTree.deletion_threshold_ capacity_ - 1.

(** [shape h n]: all leaves below [n] are [h] levels down, every node holds
    at most [capacity_] keys, an inner node has one child more than keys,
    and every node below [n] holds at least [min_keys] keys. *)
Fixpoint shape (h : nat) (n : Node) : Prop :=
  impl_ok (impl_ n) /\ BTree.node_size n <= capacity_ /\
  match h with
  | 0 => children_ n = []
  | S h' =>
      length (children_ n) = S (BTree.node_size n) /\
      forall c, In c (children_ n) ->
                shape h' c /\ min_keys <= BTree.node_size c
  end.

End Shape.

(** ** Positions in lists *)

Lemma nth_mid {A} i (cl : list A) c cr d : length cl = i -> nth i (cl ++ c :: cr) d = c.
Proof. intros <-. apply nth_middle. Qed.

Lemma firstn_mid {A} (cl r : list A) : firstn (length cl) (cl ++ r) = cl.
Proof. induction cl; simpl; congruence. Qed.

Lemma skipn_mid {A} (cl r : list A) : skipn (length cl) (cl ++ r) = r.
Proof. induction cl; simpl; congruence. Qed.

Lemma skipn_S_mid {A} (cl : list A) c r : skipn (S (length cl)) (cl ++ c :: r) = r.
Proof. induction cl; simpl; auto. Qed.

Lemma firstn_mid' {A} k (cl r : list A) : length cl = k -> firstn k (cl ++ r) = cl.
Proof. intros <-. apply firstn_mid. Qed.

Lemma skipn_mid' {A} k (cl r : list A) : length cl = k -> skipn k (cl ++ r) = r.
Proof. intros <-. apply skipn_mid. Qed.

Lemma skipn_S_mid' {A} k (cl : list A) c r :
  length cl = k -> skipn (S k) (cl ++ c :: r) = r.
Proof. intros <-. apply skipn_S_mid. Qed.

Lemma update_at_mid {A} i (x : A) cl c cr :
  length cl = i -> update_at i x (cl ++ c :: cr) = cl ++ x :: cr.
Proof.
  intros <-. unfold update_at. rewrite length_app. cbn [length].
  assert ((length cl <? length cl + S (length cr)) = true) as ->
    by (apply Nat.ltb_lt; lia).
  rewrite firstn_mid, skipn_S_mid. reflexivity.
Qed.

Lemma remove_at_mid {A} i (cl : list A) c cr :
  length cl = i -> remove_at i (cl ++ c :: cr) = cl ++ cr.
Proof.
  intros <-. unfold remove_at. rewrite firstn_mid, skipn_S_mid. reflexivity.
Qed.

Lemma insert_at_mid {A} i (x : A) cl cr :
  length cl = i -> insert_at i x (cl ++ cr) = cl ++ x :: cr.
Proof.
  intros <-. unfold insert_at. rewrite firstn_mid, skipn_mid. reflexivity.
Qed.

Lemma split_at_nth {A} i (l : list A) d :
  i < length l ->
  exists cl cr, l = cl ++ nth i l d :: cr /\ length cl = i.
Proof.
  intros H. exists (firstn i l), (skipn (S i) l). split.
  - revert i H. induction l as [|x l IH]; intros [|i] H; simpl in *; try lia; auto.
    f_equal. apply IH. lia.
  - rewrite length_firstn. lia.
Qed.

Lemma split_at_len {A} i (l : list A) :
  i <= length l -> exists el er, l = el ++ er /\ length el = i.
Proof.
  intros H. exists (firstn i l), (skipn i l). split.
  - symmetry. apply firstn_skipn.
  - rewrite length_firstn. lia.
Qed.

Lemma snoc_of_length {A} (l : list A) n :
  length l = S n -> exists l' x, l = l' ++ [x] /\ length l' = n.
Proof.
  intros H. destruct (@exists_last _ l) as (l' & x & E).
  - intros ->. discriminate.
  - exists l', x. split; auto. rewrite E, length_app in H. simpl in H. lia.
Qed.

Lemma map_nth_seq_from {A} (l : list A) d s :
  map (fun j => nth j l d) (seq s (length l - s)) = skipn s l.
Proof.
  revert s. induction l as [|x l IH]; intros s.
  - destruct s; reflexivity.
  - destruct s as [|s].
    + cbn [length skipn]. rewrite Nat.sub_0_r. cbn [seq map nth]. f_equal.
      rewrite <- seq_shift, map_map. cbn [nth].
      specialize (IH 0). rewrite Nat.sub_0_r in IH. exact IH.
    + cbn [length skipn]. rewrite Nat.sub_succ.
      rewrite <- seq_shift, map_map. cbn [nth]. apply IH.
Qed.

(** ** Runs of insertions and removals *)

Definition ins_list (X D : list (Z * Z)) : list (Z * Z) :=
  fold_left (fun d e => ins (fst e) (snd e) d) X D.

Lemma ins_list_mid X D1 D2 :
  ksorted (D1 ++ X ++ D2) -> ins_list X (D1 ++ D2) = D1 ++ X ++ D2.
Proof.
  revert D1. induction X as [|x X IH]; intros D1 Hs; simpl; auto.
  rewrite ins_mid.
  - replace (D1 ++ x :: X ++ D2) with ((D1 ++ [x]) ++ X ++ D2)
      by (rewrite <- app_assoc; reflexivity).
    replace (D1 ++ (fst x, snd x) :: D2) with ((D1 ++ [x]) ++ D2)
      by (rewrite <- app_assoc; destruct x; reflexivity).
    apply IH. rewrite <- app_assoc. exact Hs.
  - intros a Ha. apply (ksorted_app_lt D1 (x :: X ++ D2)); simpl; auto.
  - intros c Hc. apply ksorted_app_r in Hs.
    assert (fst x < fst c)%Z; [|lia].
    apply (ksorted_cons_lt x (X ++ D2)); auto. apply in_or_app. auto.
Qed.

Lemma del_list_tail A X :
  ksorted (A ++ X) -> fold_left (fun l k => del k l) (keys X) (A ++ X) = A.
Proof.
  induction X as [|x X IH]; intros Hs; simpl.
  - apply app_nil_r.
  - destruct x as [k v]. simpl. rewrite del_mid.
    + apply IH. apply ksorted_app in Hs. apply ksorted_app.
      destruct Hs as (H1 & [H2 H3] & H4). repeat split; auto.
      intros a b Ha Hb. apply H4; simpl; auto.
    + intros Hin. apply in_keys_iff in Hin. destruct Hin as (v' & Hin).
      pose proof (ksorted_app_lt A ((k, v) :: X) (k, v') (k, v) Hs Hin) as H.
      simpl in H. specialize (H (or_introl eq_refl)). lia.
Qed.

Lemma fold_insert_entries (src : LinearSearchMap) js dst :
  impl_ok dst ->
  let r := fold_left
             (fun d j => LinearSearchMap.insert (LinearSearchMap.at_ src j)
                                                (LinearSearchMap.value src j) d)
             js dst in
  impl_ok r /\
  entries r =
  ins_list (map (fun j => (LinearSearchMap.at_ src j, LinearSearchMap.value src j)) js)
           (entries dst).
Proof.
  revert dst. induction js as [|j js IH]; intros dst Hok; simpl.
  - auto.
  - destruct (IH (LinearSearchMap.insert (LinearSearchMap.at_ src j)
                    (LinearSearchMap.value src j) dst)) as [H1 H2].
    + apply insert_ok. exact Hok.
    + split; auto. rewrite H2. rewrite insert_entries by auto. reflexivity.
Qed.

Lemma entries_as_map (m : LinearSearchMap) s :
  impl_ok m ->
  map (fun j => (LinearSearchMap.at_ m j, LinearSearchMap.value m j))
      (seq s (LinearSearchMap.size m - s))
  = skipn s (entries m).
Proof.
  intros Hok. rewrite size_entries by auto.
  rewrite <- (map_nth_seq_from (entries m) (0%Z, 0%Z) s).
  apply map_ext_in. intros j Hj. apply in_seq in Hj.
  symmetry. apply entry_at; auto. rewrite size_entries by auto. lia.
Qed.

Lemma seq_offset s n : map (fun j => j + s) (seq 0 n) = seq s n.
Proof.
  revert s. induction n as [|n IH]; intros s; simpl; auto.
  f_equal. rewrite <- seq_shift, map_map. rewrite <- (IH (S s)).
  apply map_ext. intros j. lia.
Qed.

Lemma fold_insert_offset (src : LinearSearchMap) s n dst :
  impl_ok src -> impl_ok dst -> n = LinearSearchMap.size src - s ->
  let r := fold_left
             (fun d j => LinearSearchMap.insert (LinearSearchMap.at_ src (j + s))
                           (LinearSearchMap.value src (j + s)) d)
             (seq 0 n) dst in
  impl_ok r /\ entries r = ins_list (skipn s (entries src)) (entries dst).
Proof.
  intros Hs Hd Hn.
  assert (forall js d0,
    fold_left (fun d j => LinearSearchMap.insert (LinearSearchMap.at_ src (j + s))
                           (LinearSearchMap.value src (j + s)) d) js d0
    = fold_left (fun d j => LinearSearchMap.insert (LinearSearchMap.at_ src j)
                           (LinearSearchMap.value src j) d)
                (map (fun j => j + s) js) d0) as E.
  { induction js as [|j js IH]; intros d0; simpl; auto. }
  cbv zeta. rewrite E, seq_offset.
  destruct (fold_insert_entries src (seq s n) dst Hd) as [H1 H2].
  split; auto. rewrite H2. subst n. rewrite entries_as_map by auto. reflexivity.
Qed.

Lemma fold_erased_entries ks m :
  impl_ok m ->
  let r := fold_left (fun yi k => LinearSearchMap.erased k yi) ks m in
  impl_ok r /\ entries r = fold_left (fun l k => del k l) ks (entries m).
Proof.
  revert m. induction ks as [|k ks IH]; intros m Hok; simpl; auto.
  destruct (IH (LinearSearchMap.erased k m)) as [H1 H2].
  - apply erased_ok. exact Hok.
  - split; auto. rewrite H2, erased_entries by auto. reflexivity.
Qed.

Lemma flat_sorted_entries es Ls : ksorted (flat es Ls) -> ksorted es.
Proof.
  revert Ls. induction es as [|e es IH]; intros [|L Ls]; simpl; auto.
  intros Hs. apply ksorted_app_r in Hs. destruct Hs as [H1 H2]. split.
  - intros b Hb. apply H1. apply in_flat_sep. exact Hb.
  - apply (IH Ls). exact H2.
Qed.

Lemma elems_sorted_entries n : ksorted (elems n) -> ksorted (entries (impl_ n)).
Proof. rewrite elems_eq. apply flat_sorted_entries. Qed.

Lemma in_entries_elems n e : In e (entries (impl_ n)) -> In e (elems n).
Proof. rewrite elems_eq. apply in_flat_sep. Qed.

Lemma node_size_entries n :
  impl_ok (impl_ n) -> BTree.node_size n = length (entries (impl_ n)).
Proof. intros H. unfold BTree.node_size. apply size_entries. exact H. Qed.

Lemma in_firstn_sub {A} n (l : list A) x : In x (firstn n l) -> In x l.
Proof.
  intros H. rewrite <- (firstn_skipn n l). apply in_or_app. auto.
Qed.

Lemma in_skipn_sub {A} n (l : list A) x : In x (skipn n l) -> In x l.
Proof.
  intros H. rewrite <- (firstn_skipn n l). apply in_or_app. auto.
Qed.

(** ** Subsequences of a sorted list *)

Inductive subseq : list (Z * Z) -> list (Z * Z) -> Prop :=
| subseq_nil : forall L, subseq [] L
| subseq_keep : forall x X L, subseq X L -> subseq (x :: X) (x :: L)
| subseq_skip : forall x X L, subseq X L -> subseq X (x :: L).

Lemma subseq_refl L : subseq L L.
Proof. induction L; constructor; auto. Qed.

Lemma subseq_in X L a : subseq X L -> In a X -> In a L.
Proof.
  induction 1; simpl; intros Ha; tauto.
Qed.

Lemma subseq_sorted X L : subseq X L -> ksorted L -> ksorted X.
Proof.
  induction 1; simpl; auto.
  - intros [H1 H2]. split; auto. intros b Hb. apply H1.
    eapply subseq_in; eauto.
  - intros [_ H2]. auto.
Qed.

Lemma subseq_skip_app A X L : subseq X L -> subseq X (A ++ L).
Proof. induction A; simpl; auto using subseq_skip. Qed.

Lemma subseq_app X1 X2 L1 L2 :
  subseq X1 L1 -> subseq X2 L2 -> subseq (X1 ++ X2) (L1 ++ L2).
Proof.
  induction 1; simpl; intros H2.
  - apply subseq_skip_app. exact H2.
  - apply subseq_keep. auto.
  - apply subseq_skip. auto.
Qed.

Lemma subseq_app_l X L1 L2 : subseq X L1 -> subseq X (L1 ++ L2).
Proof.
  intros H. rewrite <- (app_nil_r X). apply subseq_app; auto using subseq_nil.
Qed.

Lemma subseq_flat es Ls : subseq es (flat es Ls).
Proof.
  revert es. induction Ls as [|L Ls IH]; intros [|e es]; simpl;
    auto using subseq_refl, subseq_nil.
  apply subseq_skip_app. apply subseq_keep. apply IH.
Qed.

Lemma subseq_post es Ls : subseq es (post es Ls).
Proof.
  destruct es as [|e es]; simpl; [constructor|].
  apply subseq_keep. apply subseq_flat.
Qed.

Lemma subseq_pre Ls es : length es = length Ls -> subseq es (pre Ls es).
Proof.
  revert es. induction Ls as [|L Ls IH]; intros [|e es]; simpl; intros H;
    try discriminate; auto using subseq_nil.
  apply subseq_skip_app. apply subseq_keep. apply IH. lia.
Qed.

Lemma subseq_elems n : subseq (entries (impl_ n)) (elems n).
Proof. rewrite elems_eq. apply subseq_flat. Qed.

Lemma ins_mid_sorted k v A B :
  ksorted (A ++ (k, v) :: B) -> ins k v (A ++ B) = A ++ (k, v) :: B.
Proof.
  intros Hs. apply ins_mid.
  - intros a Ha. apply (ksorted_app_lt A ((k, v) :: B) a (k, v)); simpl; auto.
  - intros c Hc. apply ksorted_app_r in Hs.
    pose proof (ksorted_cons_lt _ _ c Hs Hc) as H. simpl in H. lia.
Qed.

Lemma sorted_mid_notin k v A B :
  ksorted (A ++ (k, v) :: B) -> ~ In k (keys A) /\ ~ In k (keys B).
Proof.
  intros Hs. split; intros Hin; apply in_keys_iff in Hin; destruct Hin as (v' & Hin).
  - pose proof (ksorted_app_lt A ((k, v) :: B) (k, v') (k, v) Hs Hin) as H.
    simpl in H. specialize (H (or_introl eq_refl)). lia.
  - apply ksorted_app_r in Hs.
    pose proof (ksorted_cons_lt _ _ _ Hs Hin) as H. simpl in H. lia.
Qed.

Lemma del_mid_sorted k v A B :
  ksorted (A ++ (k, v) :: B) -> del k (A ++ (k, v) :: B) = A ++ B.
Proof. intros Hs. apply del_mid. apply (sorted_mid_notin k v A B Hs). Qed.

Lemma lookup_mid_sorted k v A B :
  ksorted (A ++ (k, v) :: B) -> lookup k (A ++ (k, v) :: B) = Some v.
Proof.
  intros Hs. apply in_lookup; auto. apply in_or_app. simpl. auto.
Qed.

Lemma sorted_below (X : list (Z * Z)) s k :
  ksorted (X ++ [s]) -> (fst s <= k)%Z -> forall e, In e X -> (fst e < k)%Z.
Proof.
  intros Hs Hle e He.
  pose proof (ksorted_app_lt X [s] e s Hs He) as H. simpl in H.
  specialize (H (or_introl eq_refl)). lia.
Qed.

Lemma sorted_above (X : list (Z * Z)) s k :
  ksorted (s :: X) -> (k <= fst s)%Z -> forall e, In e X -> (k < fst e)%Z.
Proof.
  intros Hs Hle e He. pose proof (ksorted_cons_lt _ _ _ Hs He). lia.
Qed.

(** Node-level operations on a node whose entries are given in parts. *)

Lemma impl_at_mid m A k v B :
  impl_ok m -> entries m = A ++ (k, v) :: B ->
  LinearSearchMap.at_ m (length A) = k /\ LinearSearchMap.value m (length A) = v.
Proof.
  intros Hok He.
  assert (nth (length A) (entries m) (0%Z, 0%Z) = (k, v)) as Hn
    by (rewrite He; apply nth_middle).
  rewrite entry_at in Hn; auto.
  - split; congruence.
  - rewrite size_entries, He, length_app by auto. simpl. lia.
Qed.

Lemma impl_erase_mid m A k v B :
  impl_ok m -> entries m = A ++ (k, v) :: B -> ksorted (entries m) ->
  exists m', LinearSearchMap.erase k m = (true, v, m') /\
             impl_ok m' /\ entries m' = A ++ B.
Proof.
  intros Hok He Hs. pose proof (erase_spec k m Hok) as H.
  destruct (LinearSearchMap.erase k m) as [[b v'] m'].
  destruct H as (H1 & H2 & H3). rewrite He in *.
  rewrite lookup_mid_sorted in H3 by auto. destruct H3 as [-> ->].
  exists m'. repeat split; auto. rewrite H1. apply del_mid_sorted. exact Hs.
Qed.

Lemma impl_erased_mid m A k v B :
  impl_ok m -> entries m = A ++ (k, v) :: B -> ksorted (entries m) ->
  impl_ok (LinearSearchMap.erased k m) /\
  entries (LinearSearchMap.erased k m) = A ++ B.
Proof.
  intros Hok He Hs.
  destruct (impl_erase_mid m A k v B Hok He Hs) as (m' & E & H1 & H2).
  unfold LinearSearchMap.erased. rewrite E. simpl. auto.
Qed.

Lemma impl_insert_mid m A k v B :
  impl_ok m -> entries m = A ++ B -> ksorted (A ++ (k, v) :: B) ->
  impl_ok (LinearSearchMap.insert k v m) /\
  entries (LinearSearchMap.insert k v m) = A ++ (k, v) :: B.
Proof.
  intros Hok He Hs. split; [apply insert_ok; auto|].
  rewrite insert_entries by auto. rewrite He. apply ins_mid_sorted. exact Hs.
Qed.

Lemma insert_all_entries src dst :
  impl_ok src -> impl_ok dst ->
  impl_ok (BTree.insert_all src dst) /\
  entries (BTree.insert_all src dst) = ins_list (entries src) (entries dst).
Proof.
  intros Hs Hd. unfold BTree.insert_all.
  destruct (fold_insert_entries src (seq 0 (LinearSearchMap.size src)) dst Hd)
    as [H1 H2].
  split; auto. rewrite H2.
  pose proof (entries_as_map src 0 Hs) as E. rewrite Nat.sub_0_r in E.
  rewrite E. reflexivity.
Qed.

Lemma nth_last_default {A} (l : list A) d : nth (length l - 1) l d = last l d.
Proof.
  induction l as [|a l IH]; simpl; auto.
  destruct l as [|b l]; simpl in *; auto.
  rewrite Nat.sub_0_r in IH. exact IH.
Qed.

(** The child-pointer moves of the merge with the left sibling. *)

Lemma array_set_end {A} (d x : A) a : array_set d (length a) x a = a ++ [x].
Proof.
  unfold array_set. rewrite Nat.sub_diag. cbn [repeat]. rewrite app_nil_r.
  rewrite firstn_all.
  rewrite skipn_all2 by lia. reflexivity.
Qed.

Lemma array_set_past {A} (d x : A) i a :
  length a <= i -> array_set d i x a = a ++ repeat d (i - length a) ++ [x].
Proof.
  intros H. unfold array_set.
  rewrite firstn_all2 by (rewrite length_app, repeat_length; lia).
  rewrite skipn_all2 by lia. rewrite <- app_assoc. reflexivity.
Qed.

Lemma array_set_in {A} (d x : A) i a :
  i < length a -> array_set d i x a = firstn i a ++ x :: skipn (S i) a.
Proof.
  intros H. unfold array_set.
  replace (i - length a) with 0 by lia. cbn [repeat]. rewrite app_nil_r.
  reflexivity.
Qed.

Lemma firstn_S_nth {A} k (l : list A) d :
  k < length l -> firstn (S k) l = firstn k l ++ [nth k l d].
Proof.
  revert k. induction l as [|x l IH]; intros [|k] H; simpl in *; try lia; auto.
  f_equal. apply IH. lia.
Qed.

Lemma skipn_nth_S {A} k (l : list A) d :
  k < length l -> skipn k l = nth k l d :: skipn (S k) l.
Proof.
  revert k. induction l as [|x l IH]; intros [|k] H; simpl in *; try lia; auto.
  apply IH. lia.
Qed.

Lemma move_back_loop (ccs : list Node) lnum k :
  length ccs <= lnum -> 1 <= k <= length ccs ->
  fold_left (fun a j => array_set Node_new (lnum + j) (nth j a Node_new) a)
            (seq 0 k) ccs
  = ccs ++ repeat Node_new (lnum - length ccs) ++ firstn k ccs.
Proof.
  intros Hl Hk. induction k as [|k IH]; [lia|].
  rewrite seq_S, fold_left_app. simpl.
  destruct k as [|k].
  - simpl. rewrite Nat.add_0_r. rewrite array_set_past by lia.
    destruct ccs as [|c ccs]; [simpl in Hk; lia|]. reflexivity.
  - rewrite IH by lia. clear IH.
    set (P := ccs ++ repeat Node_new (lnum - length ccs) ++ firstn (S k) ccs).
    assert (length P = lnum + S k) as HP.
    { unfold P. rewrite !length_app, repeat_length, length_firstn. lia. }
    rewrite <- HP. rewrite array_set_end.
    assert (nth (S k) P Node_new = nth (S k) ccs Node_new) as ->
      by (unfold P; apply app_nth1; lia).
    unfold P. rewrite <- !app_assoc. f_equal. f_equal.
    symmetry. apply firstn_S_nth. lia.
Qed.

Lemma copy_front_loop (lcs a1 : list Node) k :
  k <= length lcs ->
  fold_left (fun a j => array_set Node_new j (nth j lcs Node_new) a) (seq 0 k) a1
  = firstn k lcs ++ skipn k a1.
Proof.
  intros Hk. induction k as [|k IH]; [reflexivity|].
  rewrite seq_S, fold_left_app. cbn [fold_left Nat.add]. rewrite IH by lia.
  clear IH.
  assert (length (firstn k lcs) = k) as Hf by (rewrite length_firstn; lia).
  rewrite (firstn_S_nth k lcs Node_new) by lia. rewrite <- app_assoc.
  cbn [app].
  destruct (Nat.lt_ge_cases k (length a1)) as [Hlt|Hge].
  - rewrite array_set_in by (rewrite length_app, length_skipn; lia).
    rewrite (firstn_mid' k) by exact Hf.
    rewrite (skipn_nth_S k a1 Node_new) by lia.
    rewrite (skipn_S_mid' k) by exact Hf. reflexivity.
  - rewrite (skipn_all2 a1) by lia. rewrite (skipn_all2 a1) by lia.
    rewrite app_nil_r.
    rewrite <- Hf at 1. rewrite array_set_end. reflexivity.
Qed.

Lemma prepend_children_app lcs ccs :
  length ccs <= length lcs -> BTree.prepend_children lcs ccs = lcs ++ ccs.
Proof.
  intros H. unfold BTree.prepend_children. rewrite copy_front_loop by lia.
  rewrite firstn_all.
  destruct ccs as [|c ccs].
  - simpl. rewrite skipn_nil, app_nil_r, Nat.add_0_r. apply firstn_all.
  - rewrite move_back_loop by (simpl in *; lia).
    rewrite firstn_all.
    replace (skipn (length lcs)
               ((c :: ccs) ++ repeat Node_new (length lcs - length (c :: ccs)) ++ c :: ccs))
      with (c :: ccs).
    + rewrite <- length_app. apply firstn_all.
    + rewrite app_assoc. symmetry.
      replace (length lcs) with
        (length ((c :: ccs) ++ repeat Node_new (length lcs - length (c :: ccs)))) at 1
        by (rewrite length_app, repeat_length; lia).
      apply skipn_mid.
Qed.

(** ** Predecessor and successor in a sorted association list *)

(** The last entry of the longest prefix of keys not above [x]. *)
Fixpoint pred_in (x : Z) (l : list (Z * Z)) : option (Z * Z) :=
  match l with
  | [] => None
  | e :: l' =>
      if (fst e <=? x)%Z then
        match pred_in x l' with Some r => Some r | None => Some e end
      else None
  end.

(** The first entry whose key is not below [x]. *)
Fixpoint succ_in (x : Z) (l : list (Z * Z)) : option (Z * Z) :=
  match l with
  | [] => None
  | e :: l' => if (x <=? fst e)%Z then Some e else succ_in x l'
  end.

Definition or_else {A} (o : option A) (d : option A) : option A :=
  match o with Some r => Some r | None => d end.

Definition last_opt {A} (l : list A) : option A :=
  match l with [] => None | x :: l' => Some (last l' x) end.

Lemma last_opt_snoc {A} (l : list A) x : last_opt (l ++ [x]) = Some x.
Proof.
  destruct l as [|a l]; [reflexivity|].
  cbn [app last_opt]. f_equal. apply last_last.
Qed.

Lemma last_default_irrelevant {A} (l : list A) b d d' :
  last (b :: l) d = last (b :: l) d'.
Proof.
  revert b. induction l as [|c l IH]; intros b; [reflexivity|].
  change (last (c :: l) d = last (c :: l) d'). apply IH.
Qed.

Lemma pred_in_app_le x A B :
  (forall a, In a A -> (fst a <= x)%Z) ->
  pred_in x (A ++ B) = or_else (pred_in x B) (last_opt A).
Proof.
  induction A as [|a A IH]; intros H; simpl.
  - destruct (pred_in x B); reflexivity.
  - assert (fst a <= x)%Z as Ha by (apply H; simpl; auto).
    apply Z.leb_le in Ha. rewrite Ha. rewrite IH by (intros; apply H; simpl; auto).
    destruct (pred_in x B); simpl; auto.
    destruct A as [|a' A]; [reflexivity|].
    cbn [last_opt]. f_equal. destruct A as [|a'' A]; [reflexivity|].
    change (last (a'' :: A) a' = last (a'' :: A) a).
    apply last_default_irrelevant.
Qed.

Lemma pred_in_app_gt x B C :
  (forall c, In c C -> (x < fst c)%Z) -> pred_in x (B ++ C) = pred_in x B.
Proof.
  intros H. induction B as [|b B IH]; simpl.
  - destruct C as [|c C]; simpl; auto.
    assert (x < fst c)%Z as Hc by (apply H; simpl; auto).
    destruct (fst c <=? x)%Z eqn:E; auto. apply Z.leb_le in E. lia.
  - rewrite IH. reflexivity.
Qed.

Lemma pred_in_gt_none x l :
  (forall c, In c l -> (x < fst c)%Z) -> pred_in x l = None.
Proof.
  intros H. rewrite <- (app_nil_l l). rewrite pred_in_app_gt; auto.
Qed.

Lemma succ_in_app_lt x A B :
  (forall a, In a A -> (fst a < x)%Z) -> succ_in x (A ++ B) = succ_in x B.
Proof.
  induction A as [|a A IH]; intros H; simpl; auto.
  assert (fst a < x)%Z as Ha by (apply H; simpl; auto).
  destruct (x <=? fst a)%Z eqn:E; [apply Z.leb_le in E; lia|].
  apply IH. intros; apply H; simpl; auto.
Qed.

Lemma succ_in_app_ge x B C :
  (forall c, In c C -> (x <= fst c)%Z) ->
  succ_in x (B ++ C) = or_else (succ_in x B) (hd_error C).
Proof.
  intros H. induction B as [|b B IH]; simpl.
  - destruct C as [|c C]; simpl; auto.
    assert (x <= fst c)%Z as Hc by (apply H; simpl; auto).
    apply Z.leb_le in Hc. rewrite Hc. reflexivity.
  - destruct (x <=? fst b)%Z; simpl; auto.
Qed.

Lemma succ_in_lt_none x l :
  (forall c, In c l -> (fst c < x)%Z) -> succ_in x l = None.
Proof.
  intros H. rewrite <- (app_nil_r l). rewrite succ_in_app_lt; auto.
Qed.

(** On a sorted list these are the largest key not above [x] and the
    smallest key not below [x]. *)
Lemma pred_in_spec x l :
  ksorted l ->
  match pred_in x l with
  | Some r => In r l /\ (fst r <= x)%Z /\
              forall e, In e l -> (fst e <= x)%Z -> (fst e <= fst r)%Z
  | None => forall e, In e l -> (x < fst e)%Z
  end.
Proof.
  induction l as [|a l IH]; simpl; [tauto|].
  intros [H1 H2]. specialize (IH H2).
  destruct (fst a <=? x)%Z eqn:E.
  - apply Z.leb_le in E. destruct (pred_in x l) as [r|].
    + destruct IH as (Hr1 & Hr2 & Hr3). repeat split; auto.
      intros e [<-|He] Hle; auto. apply H1 in Hr1. lia.
    + repeat split; auto. intros e [<-|He] Hle; [lia|].
      apply IH in He. lia.
  - apply Z.leb_gt in E. intros e [<-|He]; auto. apply H1 in He. lia.
Qed.

Lemma succ_in_spec x l :
  ksorted l ->
  match succ_in x l with
  | Some r => In r l /\ (x <= fst r)%Z /\
              forall e, In e l -> (x <= fst e)%Z -> (fst r <= fst e)%Z
  | None => forall e, In e l -> (fst e < x)%Z
  end.
Proof.
  induction l as [|a l IH]; simpl; [tauto|].
  intros [H1 H2]. specialize (IH H2).
  destruct (x <=? fst a)%Z eqn:E.
  - apply Z.leb_le in E. repeat split; auto.
    intros e [<-|He] Hle; [lia|]. apply H1 in He. lia.
  - apply Z.leb_gt in E. destruct (succ_in x l) as [r|].
    + destruct IH as (Hr1 & Hr2 & Hr3). repeat split; auto.
      intros e [<-|He] Hle; auto. lia.
    + intros e [<-|He]; auto.
Qed.

Definition query_of (o : option (Z * Z)) (acc : QueryResult) : QueryResult :=
  match o with
  | Some (k, v) => mkQuery true k v
  | None => acc
  end.

(** ** Sequences of operations *)

Inductive op : Type :=
| Insert (k v : Z)
| Erase (k : Z).

Definition apply_op (capacity_ : nat) (t : BTree.BTree) (o : op) : BTree.BTree :=
  match o with
  | Insert k v => BTree.insert capacity_ k v t
  | Erase k => snd (BTree.erase capacity_ k t)
  end.

(** The tree obtained from the empty one by a sequence of operations. *)
Definition run (capacity_ : nat) (ops : list op) : BTree.BTree :=
  fold_left (apply_op capacity_) ops BTree.new.

Definition model_op (l : list (Z * Z)) (o : op) : list (Z * Z) :=
  match o with
  | Insert k v => ins k v l
  | Erase k => del k l
  end.

(** The same contract on the abstract contents [l]: no key is inserted
    while it is present, and nothing is erased from an empty container. *)
Fixpoint valid_from (l : list (Z * Z)) (ops : list op) : Prop :=
  match ops with
  | [] => True
  | o :: ops' =>
      match o with
      | Insert k _ => ~ In k (keys l)
      | Erase _ => l <> []
      end /\ valid_from (model_op l o) ops'
  end.

Definition valid (ops : list op) : Prop := valid_from [] ops.

Fixpoint check_valid (l : list (Z * Z)) (ops : list op) : bool :=
  match ops with
  | [] => true
  | o :: ops' =>
      match o with
      | Insert k _ => negb (existsb (Z.eqb k) (keys l))
      | Erase _ => negb (length l =? 0)
      end && check_valid (model_op l o) ops'
  end.

(** "[k] was inserted and not yet erased", with the value it was inserted
    with: the state of key [k] after each operation. *)
Definition live_step (k : Z) (st : option Z) (o : op) : option Z :=
  match o with
  | Insert k' v => if (k' =? k)%Z then Some v else st
  | Erase k' => if (k' =? k)%Z then None else st
  end.

Definition live_value (ops : list op) (k : Z) : option Z :=
  fold_left (live_step k) ops None.

Definition is_live (ops : list op) (k : Z) : Prop := live_value ops k <> None.

(** The contract of the container, read off the sequence itself: no key is
    inserted while it is live, and nothing is erased while no key is
    live. *)
Definition contract (ops : list op) : Prop :=
  forall pre o post, ops = pre ++ o :: post ->
    match o with
    | Insert k _ => ~ is_live pre k
    | Erase _ => exists k, is_live pre k
    end.

(** Depths of all leaves below a node, and key counts of all nodes. *)
Fixpoint leaf_depths (n : Node) : list nat :=
  match n with
  | mkNode _ cs =>
      match cs with
      | [] => [0]
      | _ :: _ => map S (flat_map leaf_depths cs)
      end
  end.

Fixpoint subtree_sizes (n : Node) : list nat :=
  match n with
  | mkNode impl cs => length (keys_ impl) :: flat_map subtree_sizes cs
  end.

(** Key counts of all nodes other than the root [n]. *)
Definition nonroot_sizes (n : Node) : list nat :=
  flat_map subtree_sizes (children_ n).

Lemma check_valid_sound l ops : check_valid l ops = true -> valid_from l ops.
Proof.
  revert l. induction ops as [|o ops IH]; intros l H; simpl in *; auto.
  apply andb_true_iff in H. destruct H as [H1 H2]. split; auto.
  destruct o as [k v|k].
  - apply negb_true_iff in H1. intros Hin.
    assert (existsb (Z.eqb k) (keys l) = true); [|congruence].
    apply existsb_exists. exists k. split; auto. apply Z.eqb_refl.
  - apply negb_true_iff in H1. apply Nat.eqb_neq in H1.
    intros ->. apply H1. reflexivity.
Qed.

Lemma model_sorted l ops :
  valid_from l ops -> ksorted l -> ksorted (fold_left model_op ops l).
Proof.
  revert l. induction ops as [|o ops IH]; intros l Hv Hs; simpl in *; auto.
  destruct Hv as [Hv1 Hv2]. apply IH; auto.
  destruct o; simpl; auto using ins_sorted, del_sorted.
Qed.

Lemma model_live l ops k :
  valid_from l ops -> ksorted l ->
  lookup k (fold_left model_op ops l) = fold_left (live_step k) ops (lookup k l).
Proof.
  revert l. induction ops as [|o ops IH]; intros l Hv Hs; simpl in *; auto.
  destruct Hv as [Hv1 Hv2]. rewrite IH; auto.
  - f_equal. destruct o as [k' v|k']; simpl.
    + destruct (k' =? k)%Z eqn:E.
      * apply Z.eqb_eq in E. subst. apply lookup_ins_eq. exact Hv1.
      * apply Z.eqb_neq in E. apply lookup_ins_ne. exact E.
    + rewrite lookup_del by auto. reflexivity.
  - destruct o; simpl; auto using ins_sorted, del_sorted.
Qed.

(** ** Correctness of the B-tree operations *)

Section Correct.

Variable capacity_ : nat.

(** [static_assert((degree_ % 2) == 1)]; moreover the degree is at least 5,
    so that every node other than the root holds at least one key. *)
Hypothesis degree_odd : Nat.odd (BTree.degree_ capacity_) = true.
Hypothesis degree_min : 5 <= BTree.degree_ capacity_.

Lemma cap_facts :
  exists t, capacity_ = 2 * t /\ 2 <= t /\
            BTree.node_capacity capacity_ = 2 * t /\
            BTree.split_right_ capacity_ = t /\
            BTree.split_mid_ capacity_ = t - 1 /\
            BTree.deletion_threshold_ capacity_ = t /\
            min_keys capacity_ = t - 1.
Proof.
  unfold BTree.degree_ in *. apply Nat.odd_spec in degree_odd.
  destruct degree_odd as [m Hm]. exists m.
  assert (capacity_ = 2 * m) as Hc by lia.
  unfold min_keys, BTree.deletion_threshold_, BTree.split_mid_,
    BTree.split_right_, BTree.node_capacity, BTree.degree_.
  assert (capacity_ / 2 = m) as E1.
  { symmetry. apply (Nat.div_unique capacity_ 2 m 0); lia. }
  assert ((capacity_ + 1) / 2 = m) as E2.
  { symmetry. apply (Nat.div_unique (capacity_ + 1) 2 m 1); lia. }
  rewrite E1, E2. repeat split; lia.
Qed.

Lemma shape_impl_ok h n : shape capacity_ h n -> impl_ok (impl_ n).
Proof. destruct h; simpl; tauto. Qed.

Lemma shape_size h n : shape capacity_ h n -> BTree.node_size n <= capacity_.
Proof. destruct h; simpl; tauto. Qed.

Lemma split_child_spec h impl cl y cr el er i :
  impl_ok impl -> entries impl = el ++ er -> length cl = i -> length el = i ->
  shape capacity_ h y -> BTree.node_size y = capacity_ -> ksorted (elems y) ->
  (forall a b, In a el -> In b (elems y) -> (fst a < fst b)%Z) ->
  (forall a b, In a (elems y) -> In b er -> (fst a < fst b)%Z) ->
  exists impl1 y' z m vm,
    BTree.split_child capacity_ i (mkNode impl (cl ++ y :: cr))
    = mkNode impl1 (cl ++ y' :: z :: cr) /\
    impl_ok impl1 /\ entries impl1 = el ++ (m, vm) :: er /\
    shape capacity_ h y' /\ shape capacity_ h z /\
    BTree.node_size y' = capacity_ / 2 - 1 /\
    BTree.node_size z = capacity_ / 2 /\
    elems y = elems y' ++ (m, vm) :: elems z.
Proof.
  intros Hok He Hcl Hel Hy Hfull Hs Hlo Hhi.
  destruct cap_facts as (t & Hcap & Ht & Hnc & Hsr & Hsm & Hth & Hmin).
  assert (capacity_ / 2 = t) as Hhalf by (rewrite <- Hsr; reflexivity).
  rewrite Hhalf.
  pose proof (shape_impl_ok h y Hy) as Hyok.
  pose proof (elems_sorted_entries y Hs) as Hys.
  assert (length (entries (impl_ y)) = 2 * t) as Hylen
    by (rewrite <- node_size_entries by auto; lia).
  destruct (split_at_nth (t - 1) (entries (impl_ y)) (0%Z, 0%Z)) as (y1 & y2 & Ey & Hy1);
    [lia|].
  rewrite entry_at in Ey by (auto; unfold BTree.node_size in Hfull; lia).
  set (m := LinearSearchMap.at_ (impl_ y) (t - 1)) in *.
  set (vm := LinearSearchMap.value (impl_ y) (t - 1)) in *.
  assert (length y2 = t) as Hy2.
  { rewrite Ey, length_app in Hylen. simpl in Hylen. lia. }
  assert (skipn t (entries (impl_ y)) = y2) as Hskip.
  { rewrite Ey. replace (y1 ++ (m, vm) :: y2) with ((y1 ++ [(m, vm)]) ++ y2)
      by (rewrite <- app_assoc; reflexivity).
    replace t with (length (y1 ++ [(m, vm)])) at 1
      by (rewrite length_app; simpl; lia).
    apply skipn_mid. }
  assert (BTree.child (mkNode impl (cl ++ y :: cr)) i = y) as Hch
    by (apply nth_mid; exact Hcl).
  unfold BTree.split_child. cbv zeta. rewrite !Hch. cbn [children_ impl_].
  rewrite Hsr, Hsm, Hnc. fold m.
  (* the keys moved to z *)
  destruct (fold_insert_offset (impl_ y) t t LinearSearchMap.empty Hyok)
    as [Hzok Hz]; [reflexivity|unfold BTree.node_size in Hfull; lia|].
  rewrite Hskip in Hz.
  change (entries LinearSearchMap.empty) with (@nil (Z * Z)) in Hz.
  assert (ins_list y2 [] = y2) as Hz2.
  { pose proof (ins_list_mid y2 [] []) as H. simpl in H.
    rewrite app_nil_r in H. apply H. rewrite Ey in Hys.
    apply ksorted_app_r in Hys. apply Hys. }
  rewrite Hz2 in Hz.
  set (zimpl := fold_left _ (seq 0 t) LinearSearchMap.empty) in *.
  (* the keys erased from y *)
  assert (map (fun j => LinearSearchMap.at_ (impl_ y) (j + t)) (seq 0 t) = keys y2) as Hkb.
  { rewrite <- Hskip. unfold keys. rewrite <- entries_as_map by auto.
    replace (LinearSearchMap.size (impl_ y) - t) with t
      by (unfold BTree.node_size in Hfull; lia).
    rewrite map_map. rewrite <- (seq_offset t t), map_map. reflexivity. }
  rewrite Hkb.
  destruct (fold_erased_entries (keys y2) (impl_ y) Hyok) as [Hy1ok Hy1e].
  rewrite Ey in Hy1e.
  replace (y1 ++ (m, vm) :: y2) with ((y1 ++ [(m, vm)]) ++ y2) in Hy1e
    by (rewrite <- app_assoc; reflexivity).
  rewrite del_list_tail in Hy1e
    by (rewrite <- app_assoc; simpl; rewrite <- Ey; exact Hys).
  set (yimpl1 := fold_left _ (keys y2) (impl_ y)) in *.
  pose proof (erase_spec m yimpl1 Hy1ok) as Hem.
  destruct (LinearSearchMap.erase m yimpl1) as [[b vm'] yimpl2].
  destruct Hem as (Hy2e & Hy2ok & Hlk).
  rewrite Hy1e in Hy2e, Hlk.
  assert (ksorted (y1 ++ [(m, vm)])) as Hs1.
  { rewrite Ey in Hys. change ((m, vm) :: y2) with ([(m, vm)] ++ y2) in Hys.
    rewrite app_assoc in Hys. apply ksorted_app_l in Hys. exact Hys. }
  assert (~ In m (keys y1)) as Hm1.
  { intros Hin. apply in_keys_iff in Hin. destruct Hin as (v' & Hin).
    pose proof (ksorted_app_lt y1 [(m, vm)] (m, v') (m, vm) Hs1 Hin) as H.
    simpl in H. specialize (H (or_introl eq_refl)). lia. }
  rewrite del_mid in Hy2e by auto. rewrite app_nil_r in Hy2e.
  rewrite (in_lookup m vm) in Hlk
    by (auto; apply in_or_app; simpl; auto).
  destruct Hlk as [_ ->].
  (* the new parent *)
  assert (In (m, vm) (elems y)) as Hmin'.
  { apply in_entries_elems. rewrite Ey. apply in_or_app. simpl. auto. }
  unfold BTree.insert_child. cbn [impl_ children_].
  rewrite (update_at_mid i _ cl y cr Hcl).
  match goal with
  | |- context [insert_at (i + 1) ?z (cl ++ ?y' :: cr)] =>
      replace (insert_at (i + 1) z (cl ++ y' :: cr)) with (cl ++ y' :: z :: cr)
  end.
  2:{ match goal with
      | |- _ = insert_at _ ?z (cl ++ ?y' :: cr) =>
          replace (cl ++ y' :: cr) with ((cl ++ [y']) ++ cr)
            by (rewrite <- app_assoc; reflexivity);
          rewrite (insert_at_mid (i + 1) z (cl ++ [y']) cr)
            by (rewrite length_app; simpl; lia);
          rewrite <- app_assoc; reflexivity
      end. }
  eexists _, _, _, m, vm. split; [reflexivity|].
  split; [apply insert_ok; exact Hok|].
  split.
  { rewrite insert_entries by auto. rewrite He. apply ins_mid.
    - intros a Ha. apply (Hlo a (m, vm)); auto.
    - intros c Hc. pose proof (Hhi (m, vm) c Hmin' Hc). simpl in *. lia. }
  assert (BTree.node_size (mkNode yimpl2 (if BTree.is_leaf y then [] else
             firstn (BTree.num_children y - (t + 1)) (children_ y))) = t - 1) as Hsy.
  { rewrite node_size_entries by auto. cbn [impl_]. rewrite Hy2e. exact Hy1. }
  assert (BTree.node_size (mkNode zimpl (if BTree.is_leaf y then [] else
             map (BTree.child y) (seq t (2 * t + 1 - t)))) = t) as Hsz.
  { rewrite node_size_entries by auto. cbn [impl_]. rewrite Hz. exact Hy2. }
  destruct h as [|h].
  - (* y is a leaf *)
    destruct Hy as (_ & _ & Hyc). unfold BTree.is_leaf in *. rewrite Hyc in *.
    split. { cbn [shape impl_ children_]. rewrite Hsy. repeat split; auto. lia. }
    split. { cbn [shape impl_ children_]. rewrite Hsz. repeat split; auto. lia. }
    split; [exact Hsy|]. split; [exact Hsz|].
    rewrite !elems_eq. cbn [impl_ children_ map flat]. rewrite Hyc.
    cbn [map flat]. rewrite Hy2e, Hz. exact Ey.
  - destruct Hy as (_ & _ & Hyc & Hych).
    assert (length (children_ y) = 2 * t + 1) as Hcy by lia.
    unfold BTree.is_leaf in *. unfold BTree.num_children in *.
    destruct (children_ y) as [|c0 cy0] eqn:Ecy; [simpl in Hcy; lia|].
    rewrite <- Ecy in *.
    assert (map (BTree.child y) (seq t (2 * t + 1 - t)) = skipn t (children_ y)) as Ezc.
    { rewrite <- (map_nth_seq_from (children_ y) Node_new t).
      rewrite Hcy. reflexivity. }
    rewrite Ezc in *. replace (length (children_ y) - (t + 1)) with t in * by lia.
    split.
    { cbn [shape impl_ children_]. rewrite Hsy, length_firstn.
      repeat split; auto; try lia; apply Hych; eapply in_firstn_sub; eauto. }
    split.
    { cbn [shape impl_ children_]. rewrite Hsz, length_skipn.
      repeat split; auto; try lia; apply Hych; eapply in_skipn_sub; eauto. }
    split; [exact Hsy|]. split; [exact Hsz|].
    rewrite (elems_eq y), Ey.
    rewrite <- (firstn_skipn t (children_ y)) at 1. rewrite map_app.
    rewrite flat_sep by (rewrite length_map, length_firstn; lia).
    rewrite !elems_eq. cbn [impl_ children_]. rewrite Hy2e, Hz. reflexivity.
Qed.

Lemma child_view h n i :
  shape capacity_ (S h) n -> i <= BTree.node_size n ->
  exists el er cl c cr,
    el = firstn i (entries (impl_ n)) /\ er = skipn i (entries (impl_ n)) /\
    entries (impl_ n) = el ++ er /\ children_ n = cl ++ c :: cr /\
    length el = i /\ length cl = i /\ length cr = length er /\
    BTree.child n i = c /\
    shape capacity_ h c /\ min_keys capacity_ <= BTree.node_size c /\
    elems n = pre (map elems cl) el ++ elems c ++ post er (map elems cr).
Proof.
  intros (Hok & Hsz & Hlen & Hch) Hi.
  rewrite node_size_entries in * by auto.
  destruct (split_at_nth i (children_ n) Node_new) as (cl & cr & Hc & Hcl); [lia|].
  exists (firstn i (entries (impl_ n))), (skipn i (entries (impl_ n))),
    cl, (BTree.child n i), cr.
  assert (length (firstn i (entries (impl_ n))) = i) as Hel
    by (rewrite length_firstn; lia).
  assert (length cr = length (skipn i (entries (impl_ n)))) as Hcr.
  { rewrite length_skipn. rewrite Hc, length_app in Hlen. simpl in Hlen. lia. }
  repeat split; auto.
  - symmetry. apply firstn_skipn.
  - apply Hch. unfold BTree.child. rewrite Hc at 2. apply in_or_app. simpl. auto.
  - apply Hch. unfold BTree.child. rewrite Hc at 2. apply in_or_app. simpl. auto.
  - rewrite elems_eq. rewrite <- (firstn_skipn i (entries (impl_ n))) at 1.
    rewrite Hc at 1. rewrite map_app.
    rewrite flat_split by (rewrite length_map; lia).
    cbn [map]. rewrite flat_cons. reflexivity.
Qed.

Lemma frame_bounds Ll el B er Lr x :
  ksorted (pre Ll el ++ B ++ post er Lr) ->
  length Lr = length er ->
  (forall e, In e el -> (fst e <= x)%Z) ->
  (forall e, In e er -> (x < fst e)%Z) ->
  (forall a, In a (pre Ll el) -> (fst a <= x)%Z) /\
  (forall a, In a (post er Lr) -> (x < fst a)%Z).
Proof.
  intros Hs Hlr Hl Hr. split; intros a Ha.
  - apply ksorted_app_l in Hs.
    destruct (pre_bound Ll el a Hs Ha) as (e & He1 & He2).
    specialize (Hl e He1). lia.
  - apply ksorted_app_r in Hs. apply ksorted_app_r in Hs.
    destruct (post_bound er Lr a Hlr Hs Ha) as (e & He1 & He2).
    specialize (Hr e He1). lia.
Qed.

Lemma ins_frame k v A B C :
  (forall a, In a A -> (fst a < k)%Z) ->
  (forall c, In c C -> (k < fst c)%Z) ->
  ins k v (A ++ B ++ C) = A ++ ins k v B ++ C.
Proof.
  intros HA HC. rewrite ins_app_lt by auto. rewrite ins_app_ge; auto.
  intros c Hc. specialize (HC c Hc). lia.
Qed.

Lemma notin_keys_lt (l : list (Z * Z)) k a :
  ~ In k (keys l) -> In a l -> (fst a <= k)%Z -> (fst a < k)%Z.
Proof.
  intros Hn Ha Hle. assert (fst a <> k); [|lia].
  intros <-. apply Hn. apply in_keys. exact Ha.
Qed.

Lemma descent_index n key :
  impl_ok (impl_ n) -> ksorted (entries (impl_ n)) ->
  let r := LinearSearchMap.predecessor (impl_ n) key in
  (if l_exists r then l_pos r + 1 else 0) = cnt_le key (keys (entries (impl_ n))).
Proof.
  intros Hok Hs. unfold LinearSearchMap.predecessor.
  rewrite <- (keys_entries (impl_ n) Hok).
  destruct (node_predecessor_spec (entries (impl_ n)) key Hs) as [H1 H2].
  cbv zeta. destruct (l_exists _) eqn:E.
  - apply H2. reflexivity.
  - symmetry in H1. apply Nat.ltb_ge in H1. lia.
Qed.

Lemma is_leaf_false_iff n : BTree.is_leaf n = false <-> children_ n <> [].
Proof. unfold BTree.is_leaf. destruct (children_ n); split; congruence. Qed.

Lemma shape_S_not_leaf h n : shape capacity_ (S h) n -> BTree.is_leaf n = false.
Proof.
  intros (_ & _ & Hl & _). apply is_leaf_false_iff. intros E.
  rewrite E in Hl. discriminate.
Qed.

Lemma shape_0_leaf n : shape capacity_ 0 n -> BTree.is_leaf n = true.
Proof. intros (_ & _ & Hl). unfold BTree.is_leaf. rewrite Hl. reflexivity. Qed.

(** Rebuilding the shape of an inner node from its parts. *)
Lemma shape_node h impl cs :
  impl_ok impl -> length (entries impl) <= capacity_ ->
  length cs = S (length (entries impl)) ->
  (forall c, In c cs -> shape capacity_ h c /\ min_keys capacity_ <= BTree.node_size c) ->
  shape capacity_ (S h) (mkNode impl cs).
Proof.
  intros Hok Hsz Hlen Hch. cbn [shape impl_ children_].
  rewrite node_size_entries by auto. cbn [impl_]. auto.
Qed.

Lemma in_mid_iff {A} (cl : list A) c cr x :
  In x (cl ++ c :: cr) <-> x = c \/ In x (cl ++ cr).
Proof. rewrite !in_app_iff. simpl. intuition. Qed.

Lemma Node_insert_spec h : forall fuel key value n,
  h <= fuel -> shape capacity_ h n -> ksorted (elems n) ->
  ~ In key (keys (elems n)) -> BTree.node_size n < capacity_ ->
  let n' := BTree.Node_insert capacity_ fuel key value n in
  shape capacity_ h n' /\ elems n' = ins key value (elems n) /\
  BTree.node_size n <= BTree.node_size n'.
Proof.
  induction h as [|h IH]; intros fuel key value n Hfuel Hsh Hs Hnin Hsz.
  - (* leaf *)
    pose proof (shape_0_leaf n Hsh) as Hleaf.
    assert (BTree.Node_insert capacity_ fuel key value n
            = mkNode (LinearSearchMap.insert key value (impl_ n)) []) as E.
    { destruct fuel; simpl; rewrite Hleaf; reflexivity. }
    cbv zeta. rewrite E. destruct Hsh as (Hok & _ & Hc).
    rewrite node_size_entries in Hsz by auto.
    assert (elems n = entries (impl_ n)) as En
      by (rewrite elems_eq, Hc; reflexivity).
    rewrite !node_size_entries by (cbn [impl_]; auto using insert_ok).
    cbn [shape impl_ children_]. rewrite node_size_entries by (cbn [impl_]; auto using insert_ok).
    cbn [impl_]. rewrite elems_eq. cbn [impl_ children_ map flat].
    rewrite insert_entries by auto. rewrite ins_length, En.
    repeat split; auto using insert_ok; lia.
  - destruct fuel as [|fuel]; [lia|].
    pose proof (shape_S_not_leaf h n Hsh) as Hleaf.
    pose proof (shape_impl_ok _ _ Hsh) as Hok.
    pose proof (elems_sorted_entries n Hs) as Hes.
    cbn [BTree.Node_insert]. rewrite Hleaf.
    rewrite (descent_index n key Hok Hes).
    set (i := cnt_le key (keys (entries (impl_ n)))).
    assert (i <= BTree.node_size n) as Hi.
    { rewrite node_size_entries by auto. unfold i.
      pose proof (cnt_le_bound key (keys (entries (impl_ n)))) as Hb.
      unfold keys in Hb at 2. rewrite length_map in Hb. exact Hb. }
    destruct (child_view h n i Hsh Hi)
      as (el & er & cl & c & cr & Eel & Eer & He & Hc & Hel & Hcl & Hcr & Hci & Hcsh & Hcmin & Hview).
    rewrite Hview in Hs, Hnin.
    destruct (frame_bounds (map elems cl) el (elems c) er (map elems cr) key Hs)
      as [Hpre Hpost].
    { rewrite length_map. exact Hcr. }
    { intros e. rewrite Eel. apply cnt_le_firstn. }
    { intros e. rewrite Eer. apply cnt_le_skipn. exact Hes. }
    assert (forall a, In a (pre (map elems cl) el) -> (fst a < key)%Z) as Hpre'.
    { intros a Ha. eapply notin_keys_lt; eauto. apply in_or_app. auto. }
    destruct n as [impl cs]. cbn [impl_ children_] in *. subst cs.
    pose proof Hs as Hs0.
    apply ksorted_app in Hs. destruct Hs as (Hs1 & Hs2 & Hs3).
    apply ksorted_app in Hs2. destruct Hs2 as (Hs4 & Hs5 & Hs6).
    assert (~ In key (keys (elems c))) as Hninc.
    { intros H. apply Hnin. rewrite !keys_app. apply in_or_app. right.
      apply in_or_app. auto. }
    rewrite Hci.
    destruct (BTree.is_full capacity_ c) eqn:Efull.
    + (* the child is full: split it first *)
      apply Nat.eqb_eq in Efull. unfold BTree.node_capacity in Efull.
      destruct (split_child_spec h impl cl c cr el er i Hok He Hcl Hel Hcsh Efull Hs4)
        as (impl1 & y' & z & m & vm & Esp & Hok1 & He1 & Hy' & Hz & Hsy & Hsz' & Ec).
      { intros a b Ha Hb. apply Hs3; auto.
        - apply in_pre_sep; auto. rewrite length_map. lia.
        - apply in_or_app. auto. }
      { intros a b Ha Hb. apply Hs6; auto. apply in_post_sep. exact Hb. }
      rewrite Esp. cbn [impl_ children_].
      destruct cap_facts as (t & Hcap & Ht & Hnc & Hsr & Hsm & Hth & Hmin).
      assert (capacity_ / 2 = t) as Hhalf by (rewrite <- Hsr; reflexivity).
      rewrite Hhalf in *.
      assert (LinearSearchMap.at_ impl1 i = m) as Hat.
      { assert (nth i (entries impl1) (0%Z, 0%Z) = (m, vm)) as Hn
          by (rewrite He1; apply nth_mid; exact Hel).
        rewrite entry_at in Hn; auto.
        - congruence.
        - rewrite size_entries, He1, length_app by auto. simpl. lia. }
      rewrite Hat.
      rewrite Ec in Hs4, Hninc.
      apply ksorted_app in Hs4. destruct Hs4 as (Hy's & Hmz & Hy'm).
      assert (~ In key (keys (elems y')) /\ key <> m /\ ~ In key (keys (elems z)))
        as (Hn1 & Hn2 & Hn3).
      { rewrite keys_app in Hninc. simpl in Hninc. rewrite in_app_iff in Hninc.
        simpl in Hninc. intuition. }
      assert (length (entries impl1) <= capacity_) as Hsz1.
      { rewrite He1, length_app. simpl.
        rewrite node_size_entries in Hsz by auto. cbn [impl_] in Hsz.
        rewrite He, length_app in Hsz. lia. }
      assert (BTree.node_size (mkNode impl (cl ++ c :: cr)) + 1
              = length (entries impl1)) as Hsz2.
      { rewrite node_size_entries by auto. cbn [impl_].
        rewrite He, He1, !length_app. simpl. lia. }
      assert (forall c0, In c0 (cl ++ cr) ->
                shape capacity_ h c0 /\ min_keys capacity_ <= BTree.node_size c0) as Hrest.
      { intros c0 Hc0. destruct Hsh as (_ & _ & _ & Hch). apply Hch.
        cbn [children_]. apply in_mid_iff. auto. }
      destruct (key >? m)%Z eqn:Ecmp.
      * (* descend into z *)
        apply Z.gtb_lt in Ecmp.
        assert (BTree.child (mkNode impl1 (cl ++ y' :: z :: cr)) (i + 1) = z) as Hchz.
        { unfold BTree.child. cbn [children_].
          replace (cl ++ y' :: z :: cr) with ((cl ++ [y']) ++ z :: cr)
            by (rewrite <- app_assoc; reflexivity).
          apply nth_mid. rewrite length_app. simpl. lia. }
        rewrite Hchz.
        destruct (IH fuel key value z) as (Hz'sh & Hz'e & Hz'sz); auto; try lia.
        { destruct Hmz as [_ Hmz]. exact Hmz. }
        set (z' := BTree.Node_insert capacity_ fuel key value z) in *.
        unfold BTree.set_child. cbn [impl_ children_].
        replace (cl ++ y' :: z :: cr) with ((cl ++ [y']) ++ z :: cr)
          by (rewrite <- app_assoc; reflexivity).
        rewrite (update_at_mid (i + 1)) by (rewrite length_app; simpl; lia).
        rewrite <- app_assoc. cbn [app].
        split; [|split].
        -- apply shape_node; auto.
           ++ rewrite !length_app in *. simpl in *. rewrite He1, length_app. simpl.
              lia.
           ++ intros c0 Hc0. apply in_mid_iff in Hc0. destruct Hc0 as [->|Hc0].
              { split; auto. lia. }
              apply in_mid_iff in Hc0. destruct Hc0 as [->|Hc0]; auto.
              split; auto. lia.
        -- rewrite (elems_eq (mkNode impl1 _)). cbn [impl_ children_].
           rewrite He1. rewrite map_app. cbn [map].
           rewrite flat_split by (rewrite length_map; lia).
           rewrite flat_cons_cons, flat_cons. rewrite Hz'e.
           rewrite Hview, Ec.
           replace (pre (map elems cl) el ++ (elems y' ++ (m, vm) :: elems z) ++
                    post er (map elems cr))
             with ((pre (map elems cl) el ++ elems y' ++ [(m, vm)]) ++ elems z ++
                    post er (map elems cr))
             by (rewrite <- !app_assoc; reflexivity).
           rewrite ins_frame.
           ++ rewrite <- !app_assoc. reflexivity.
           ++ intros a Ha. rewrite !in_app_iff in Ha. simpl in Ha.
              destruct Ha as [Ha|[Ha|[<-|[]]]]; auto.
              assert (fst a < fst (m, vm))%Z; [|simpl in *; lia].
              apply Hy'm; simpl; auto.
           ++ exact Hpost.
        -- rewrite (node_size_entries (mkNode impl1 _)) by auto.
           cbn [impl_]. lia.
      * (* descend into y' *)
        assert (key < m)%Z as Hlt.
        { destruct (Z.gtb_spec key m); [discriminate|lia]. }
        assert (BTree.child (mkNode impl1 (cl ++ y' :: z :: cr)) i = y') as Hchy.
        { unfold BTree.child. cbn [children_]. apply nth_mid. exact Hcl. }
        rewrite Hchy.
        destruct (IH fuel key value y') as (Hy'sh & Hy'e & Hy'sz); auto; try lia.
        set (y'' := BTree.Node_insert capacity_ fuel key value y') in *.
        unfold BTree.set_child. cbn [impl_ children_].
        rewrite (update_at_mid i) by exact Hcl.
        split; [|split].
        -- apply shape_node; auto.
           ++ rewrite !length_app in *. simpl in *. rewrite He1, length_app. simpl.
              lia.
           ++ intros c0 Hc0. apply in_mid_iff in Hc0. destruct Hc0 as [->|Hc0].
              { split; auto. lia. }
              apply in_mid_iff in Hc0. destruct Hc0 as [->|Hc0]; auto.
              split; auto. lia.
        -- rewrite (elems_eq (mkNode impl1 _)). cbn [impl_ children_].
           rewrite He1. rewrite map_app. cbn [map].
           rewrite flat_split by (rewrite length_map; lia).
           rewrite flat_cons_cons, flat_cons. rewrite Hy'e.
           rewrite Hview, Ec.
           replace (pre (map elems cl) el ++ (elems y' ++ (m, vm) :: elems z) ++
                    post er (map elems cr))
             with (pre (map elems cl) el ++ elems y' ++
                   ((m, vm) :: elems z ++ post er (map elems cr)))
             by (rewrite <- !app_assoc; reflexivity).
           rewrite ins_frame.
           ++ reflexivity.
           ++ exact Hpre'.
           ++ intros a [<-|Ha]; [simpl; lia|].
              apply in_app_or in Ha. destruct Ha as [Ha|Ha]; auto.
              assert (fst (m, vm) < fst a)%Z; [|simpl in *; lia].
              destruct Hmz as [Hmz _]. apply Hmz. exact Ha.
        -- rewrite (node_size_entries (mkNode impl1 _)) by auto.
           cbn [impl_]. lia.
    + (* descend into the child *)
      apply Nat.eqb_neq in Efull. unfold BTree.node_capacity in Efull.
      pose proof (shape_size _ _ Hcsh) as Hcsz.
      assert (BTree.child (mkNode impl (cl ++ c :: cr)) i = c) as Hchc.
      { unfold BTree.child. cbn [children_]. apply nth_mid. exact Hcl. }
      rewrite Hchc.
      destruct (IH fuel key value c) as (Hc'sh & Hc'e & Hc'sz); auto; try lia.
      set (c' := BTree.Node_insert capacity_ fuel key value c) in *.
      unfold BTree.set_child. cbn [impl_ children_].
      rewrite (update_at_mid i) by exact Hcl.
      destruct Hsh as (_ & Hnsz & Hnlen & Hch). cbn [impl_ children_] in *.
      rewrite node_size_entries in * by auto. cbn [impl_] in *.
      split; [|split].
      * apply shape_node; auto.
        -- rewrite length_app in *. simpl in *. lia.
        -- intros c0 Hc0. apply in_mid_iff in Hc0. destruct Hc0 as [->|Hc0].
           { split; auto. lia. }
           apply Hch. apply in_mid_iff. auto.
      * rewrite (elems_eq (mkNode impl _)). cbn [impl_ children_].
        rewrite He at 1. rewrite map_app. cbn [map].
        rewrite flat_split by (rewrite length_map; lia).
        rewrite flat_cons. rewrite Hc'e. rewrite Hview.
        rewrite ins_frame; auto.
      * rewrite node_size_entries by auto. cbn [impl_]. lia.
Qed.

Lemma shape_depth h n : shape capacity_ h n -> BTree.depth n = h.
Proof.
  revert n. induction h as [|h IH]; intros [impl cs] Hs.
  - destruct Hs as (_ & _ & Hc). cbn [children_] in Hc. subst. reflexivity.
  - destruct Hs as (_ & _ & Hl & Hch). cbn [children_] in *.
    destruct cs as [|c cs]; [discriminate|]. simpl. f_equal.
    apply IH. apply Hch. simpl. auto.
Qed.

Lemma del_frame k A B C :
  (forall a, In a A -> (fst a < k)%Z) ->
  (forall c, In c C -> (k < fst c)%Z) ->
  del k (A ++ B ++ C) = A ++ del k B ++ C /\
  (In k (keys (A ++ B ++ C)) <-> In k (keys B)).
Proof.
  intros HA HC.
  assert (~ In k (keys A)) as HnA.
  { intros H. apply in_keys_iff in H. destruct H as (v & H).
    apply HA in H. simpl in H. lia. }
  assert (~ In k (keys C)) as HnC.
  { intros H. apply in_keys_iff in H. destruct H as (v & H).
    apply HC in H. simpl in H. lia. }
  split.
  - rewrite del_app_notin by auto. f_equal.
    destruct (in_dec Z.eq_dec k (keys B)) as [H|H].
    + apply del_app_in. exact H.
    + rewrite del_app_notin by auto. rewrite (del_notin k C) by auto.
      rewrite (del_notin k B) by auto. reflexivity.
  - rewrite !keys_app, !in_app_iff. tauto.
Qed.

Lemma erase_descend h impl cl c1 c' cr el er key b :
  impl_ok impl -> entries impl = el ++ er ->
  length el = length cl -> length cr = length er ->
  length (entries impl) <= capacity_ ->
  (forall c0, In c0 (cl ++ cr) ->
              shape capacity_ h c0 /\ min_keys capacity_ <= BTree.node_size c0) ->
  ksorted (pre (map elems cl) el ++ elems c1 ++ post er (map elems cr)) ->
  (forall e, In e el -> (fst e < key)%Z) ->
  (forall e, In e er -> (key < fst e)%Z) ->
  shape capacity_ h c' -> min_keys capacity_ <= BTree.node_size c' ->
  elems c' = del key (elems c1) ->
  (b = true <-> In key (keys (elems c1))) ->
  shape capacity_ (S h) (mkNode impl (cl ++ c' :: cr)) /\
  elems (mkNode impl (cl ++ c' :: cr))
  = del key (pre (map elems cl) el ++ elems c1 ++ post er (map elems cr)) /\
  (b = true <->
   In key (keys (pre (map elems cl) el ++ elems c1 ++ post er (map elems cr)))) /\
  BTree.node_size (mkNode impl (cl ++ c' :: cr)) = length (entries impl).
Proof.
  intros Hok He Hel Hcr Hsz Hrest Hs Hlo Hhi Hc' Hmin Hce Hb.
  destruct (frame_bounds (map elems cl) el (elems c1) er (map elems cr) (key - 1) Hs)
    as [Hpre _].
  { rewrite length_map. exact Hcr. }
  { intros e H. apply Hlo in H. lia. }
  { intros e H. apply Hhi in H. lia. }
  destruct (frame_bounds (map elems cl) el (elems c1) er (map elems cr) key Hs)
    as [_ Hpost].
  { rewrite length_map. exact Hcr. }
  { intros e H. apply Hlo in H. lia. }
  { exact Hhi. }
  destruct (del_frame key (pre (map elems cl) el) (elems c1) (post er (map elems cr)))
    as [Hd Hk]; auto.
  { intros a Ha. apply Hpre in Ha. lia. }
  split; [|split; [|split]].
  - apply shape_node; auto.
    + rewrite He, !length_app in *. simpl. lia.
    + intros c0 Hc0. apply in_mid_iff in Hc0. destruct Hc0 as [->|Hc0]; auto.
  - rewrite elems_eq. cbn [impl_ children_]. rewrite He, map_app. cbn [map].
    rewrite flat_split by (rewrite length_map; lia).
    rewrite flat_cons, Hce, Hd. reflexivity.
  - rewrite Hk. exact Hb.
  - rewrite node_size_entries by auto. reflexivity.
Qed.

Lemma rightmost_leaf_spec h : forall fuel y,
  h <= fuel -> shape capacity_ h y -> 1 <= BTree.node_size y ->
  let c := BTree.rightmost_leaf fuel y in
  exists Y, elems y =
            Y ++ [(LinearSearchMap.at_ (impl_ c) (BTree.node_size c - 1),
                   LinearSearchMap.value (impl_ c) (BTree.node_size c - 1))].
Proof.
  destruct cap_facts as (t & Hcap & Ht & Hnc & Hsr & Hsm & Hth & Hmin).
  induction h as [|h IH]; intros fuel y Hfuel Hsh Hsz.
  - pose proof (shape_0_leaf y Hsh) as Hleaf.
    assert (BTree.rightmost_leaf fuel y = y) as E
      by (destruct fuel; simpl; rewrite Hleaf; reflexivity).
    cbv zeta. rewrite E. destruct Hsh as (Hok & _ & Hc).
    rewrite node_size_entries in * by auto.
    destruct (snoc_of_length (entries (impl_ y)) (length (entries (impl_ y)) - 1))
      as (Y & [k v] & EY & HY); [lia|].
    destruct (impl_at_mid (impl_ y) Y k v [] Hok EY) as [H1 H2].
    rewrite HY in H1, H2. rewrite H1, H2.
    exists Y. rewrite elems_eq, Hc. exact EY.
  - destruct fuel as [|fuel]; [lia|].
    pose proof (shape_S_not_leaf h y Hsh) as Hleaf.
    cbn [BTree.rightmost_leaf]. rewrite Hleaf.
    pose proof Hsh as (Hok & _ & Hlen & _).
    unfold BTree.num_children. rewrite Hlen. rewrite Nat.sub_succ, Nat.sub_0_r.
    destruct (child_view h y (BTree.node_size y) Hsh (Nat.le_refl _))
      as (el & er & cl & c & cr & Eel & Eer & He & Hc & Hel & Hcl & Hcr & Hci & Hcsh & Hcmin & Hview).
    assert (er = []) as ->.
    { rewrite Eer. apply skipn_all2. rewrite node_size_entries by auto. lia. }
    destruct cr; [|discriminate]. rewrite Hci.
    destruct (IH fuel c) as (Y & EY); auto; try lia.
    cbv zeta. exists (pre (map elems cl) el ++ Y).
    rewrite Hview, EY. simpl. rewrite !app_nil_r, <- app_assoc. reflexivity.
Qed.

Lemma leftmost_leaf_spec h : forall fuel y,
  h <= fuel -> shape capacity_ h y -> 1 <= BTree.node_size y ->
  let c := BTree.leftmost_leaf fuel y in
  exists Y, elems y =
            (LinearSearchMap.at_ (impl_ c) 0, LinearSearchMap.value (impl_ c) 0) :: Y.
Proof.
  destruct cap_facts as (t & Hcap & Ht & Hnc & Hsr & Hsm & Hth & Hmin).
  induction h as [|h IH]; intros fuel y Hfuel Hsh Hsz.
  - pose proof (shape_0_leaf y Hsh) as Hleaf.
    assert (BTree.leftmost_leaf fuel y = y) as E
      by (destruct fuel; simpl; rewrite Hleaf; reflexivity).
    cbv zeta. rewrite E. destruct Hsh as (Hok & _ & Hc).
    rewrite node_size_entries in * by auto.
    destruct (entries (impl_ y)) as [|[k v] Y] eqn:EY; [simpl in Hsz; lia|].
    destruct (impl_at_mid (impl_ y) [] k v Y Hok EY) as [H1 H2].
    simpl in H1, H2. rewrite H1, H2.
    exists Y. rewrite elems_eq, Hc. exact EY.
  - destruct fuel as [|fuel]; [lia|].
    pose proof (shape_S_not_leaf h y Hsh) as Hleaf.
    cbn [BTree.leftmost_leaf]. rewrite Hleaf.
    destruct (child_view h y 0 Hsh (Nat.le_0_l _))
      as (el & er & cl & c & cr & Eel & Eer & He & Hc & Hel & Hcl & Hcr & Hci & Hcsh & Hcmin & Hview).
    destruct el; [|discriminate]. destruct cl; [|discriminate].
    rewrite Hci.
    destruct (IH fuel c) as (Y & EY); auto; try lia.
    cbv zeta. exists (Y ++ post er (map elems cr)).
    rewrite Hview, EY. reflexivity.
Qed.

(** What the in-node search tells the descent of [Node::erase]. *)
Lemma descent_cases impl key :
  impl_ok impl -> ksorted (entries impl) ->
  let r := LinearSearchMap.predecessor impl key in
  let i := cnt_le key (keys (entries impl)) in
  (l_exists r && (LinearSearchMap.at_ impl (l_pos r) =? key)%Z = true /\
   exists el v er, entries impl = el ++ (key, v) :: er /\ i = S (length el))
  \/
  (l_exists r && (LinearSearchMap.at_ impl (l_pos r) =? key)%Z = false /\
   forall e, In e (firstn i (entries impl)) -> (fst e < key)%Z).
Proof.
  intros Hok Hs. cbv zeta.
  unfold LinearSearchMap.predecessor. rewrite <- (keys_entries impl Hok).
  destruct (node_predecessor_spec (entries impl) key Hs) as [H1 H2].
  set (r := LinearSearchBase.predecessor (keys (entries impl)) key) in *.
  set (i := cnt_le key (keys (entries impl))) in *.
  assert (i <= length (entries impl)) as Hi.
  { unfold i. pose proof (cnt_le_bound key (keys (entries impl))) as Hb.
    unfold keys in Hb at 2. rewrite length_map in Hb. exact Hb. }
  destruct (l_exists r) eqn:Ex.
  - specialize (H2 eq_refl).
    destruct (split_at_len i (entries impl) Hi) as (el' & er & He & Hel).
    assert (el' = firstn i (entries impl)) as Eel.
    { rewrite He. symmetry. apply firstn_mid'. exact Hel. }
    destruct (snoc_of_length el' (l_pos r)) as (el & [k v] & Eel' & Hlen); [lia|].
    rewrite Eel' in He, Eel. clear Eel' Hel el'.
    rewrite <- app_assoc in He. cbn [app] in He.
    destruct (impl_at_mid impl el k v er Hok He) as [Hat _].
    rewrite Hlen in Hat. rewrite Hat. clear Hat. cbn [andb].
    assert (k <= key)%Z as Hle.
    { apply (cnt_le_firstn key (entries impl) (k, v)). fold i. rewrite <- Eel.
      apply in_or_app. simpl. auto. }
    destruct (k =? key)%Z eqn:Ek.
    + apply Z.eqb_eq in Ek. subst k. left. split; auto.
      exists el, v, er. split; auto. lia.
    + apply Z.eqb_neq in Ek. right. split; auto.
      intros e He'. rewrite <- Eel in He'.
      assert (ksorted (el ++ [(k, v)])) as Hs'.
      { rewrite He in Hs. change ((k, v) :: er) with ([(k, v)] ++ er) in Hs.
        rewrite app_assoc in Hs. apply ksorted_app_l in Hs. exact Hs. }
      apply in_app_or in He'. destruct He' as [He'|[<-|[]]].
      * apply (sorted_below el (k, v) key Hs'); auto.
      * simpl. lia.
  - right. split; auto. symmetry in H1. apply Nat.ltb_ge in H1.
    replace i with 0 by lia. simpl. tauto.
Qed.

Lemma del_length_ge k l : length l - 1 <= length (del k l).
Proof.
  induction l as [|x l IH]; simpl; [lia|].
  destruct (fst x =? k)%Z; simpl; lia.
Qed.

Lemma del_length_le k l : length (del k l) <= length l.
Proof.
  induction l as [|x l IH]; simpl; [lia|].
  destruct (fst x =? k)%Z; simpl; lia.
Qed.

Lemma lookup_some_iff k l : (exists v, lookup k l = Some v) <-> In k (keys l).
Proof.
  destruct (lookup k l) as [v|] eqn:E.
  - split; [|eauto]. intros _. apply lookup_in in E. apply in_keys_iff. eauto.
  - split; [intros (v & H); discriminate|]. intros H.
    apply lookup_none in E. tauto.
Qed.

Lemma app_split_len {A} (a1 b1 a2 b2 : list A) :
  a1 ++ b1 = a2 ++ b2 -> length a1 = length a2 -> a1 = a2 /\ b1 = b2.
Proof.
  revert a2. induction a1 as [|x a1 IH]; intros [|y a2]; simpl; intros H Hl;
    try discriminate; auto.
  injection H as -> H. destruct (IH a2 H) as [-> ->]; auto.
Qed.

Lemma Node_erase_leaf fuel key n :
  BTree.is_leaf n = true ->
  BTree.Node_erase capacity_ fuel key n =
  (let '(b, _, impl') := LinearSearchMap.erase key (impl_ n) in (b, mkNode impl' [])).
Proof. intros H. destruct fuel; simpl; rewrite H; reflexivity. Qed.

(** The statement proved of [Node::erase] at every level. *)
Definition erase_ok (h fuel : nat) (key : Z) (n : Node) : Prop :=
  let r := BTree.Node_erase capacity_ fuel key n in
  shape capacity_ h (snd r) /\ elems (snd r) = del key (elems n) /\
  (fst r = true <-> In key (keys (elems n))) /\
  BTree.node_size n - 1 <= BTree.node_size (snd r).

Lemma Node_erase_spec_leaf fuel key n :
  shape capacity_ 0 n -> ksorted (elems n) -> erase_ok 0 fuel key n.
Proof.
  intros Hsh Hs. unfold erase_ok. cbv zeta.
  rewrite (Node_erase_leaf fuel key n (shape_0_leaf n Hsh)).
  destruct Hsh as (Hok & Hsz & Hc).
  pose proof (erase_spec key (impl_ n) Hok) as H.
  destruct (LinearSearchMap.erase key (impl_ n)) as [[b v] impl'].
  destruct H as (H1 & H2 & H3). cbn [fst snd].
  assert (elems n = entries (impl_ n)) as En by (rewrite elems_eq, Hc; reflexivity).
  rewrite En in *.
  rewrite !node_size_entries by (cbn [impl_]; auto). cbn [impl_].
  rewrite elems_eq. cbn [impl_ children_ map flat]. rewrite H1.
  pose proof (del_length_ge key (entries (impl_ n))) as Hd.
  pose proof (del_length_le key (entries (impl_ n))) as Hd'.
  repeat split; auto.
  - cbn [shape impl_ children_]. rewrite node_size_entries by (cbn [impl_]; auto).
    cbn [impl_]. rewrite H1. rewrite ?node_size_entries in Hsz by auto.
    repeat split; auto. lia.
  - intros ->. apply lookup_some_iff.
    destruct (lookup key (entries (impl_ n))); [eauto|]. destruct H3; discriminate.
  - intros Hin. apply lookup_some_iff in Hin. destruct Hin as (v' & Hv).
    rewrite Hv in H3. tauto.
Qed.

Lemma child_mid impl cl c cr i :
  length cl = i -> BTree.child (mkNode impl (cl ++ c :: cr)) i = c.
Proof. intros H. unfold BTree.child. cbn [children_]. apply nth_mid. exact H. Qed.

Lemma subseq_mid_app A X B : subseq X (A ++ X ++ B).
Proof. apply subseq_skip_app. apply subseq_app_l. apply subseq_refl. Qed.

(** The view of an inner node around separator [p]. *)
Lemma sep_view h n el0 k v er0 :
  shape capacity_ (S h) n -> entries (impl_ n) = el0 ++ (k, v) :: er0 ->
  exists cl0 y z cr,
    children_ n = cl0 ++ y :: z :: cr /\
    length cl0 = length el0 /\ length cr = length er0 /\
    (shape capacity_ h y /\ min_keys capacity_ <= BTree.node_size y) /\
    (shape capacity_ h z /\ min_keys capacity_ <= BTree.node_size z) /\
    (forall c0, In c0 (cl0 ++ cr) ->
       shape capacity_ h c0 /\ min_keys capacity_ <= BTree.node_size c0) /\
    elems n = pre (map elems cl0) el0 ++ elems y ++
              (k, v) :: elems z ++ post er0 (map elems cr).
Proof.
  intros Hsh He0.
  pose proof (shape_impl_ok _ _ Hsh) as Hok.
  assert (S (length el0) <= BTree.node_size n) as Hi.
  { rewrite node_size_entries, He0, length_app by auto. simpl. lia. }
  destruct (child_view h n (S (length el0)) Hsh Hi)
    as (el & er & cl & z & cr & Eel & Eer & He & Hc & Hel & Hcl & Hcr & Hci & Hzsh & Hzmin & Hview).
  destruct (snoc_of_length cl (length el0) Hcl) as (cl0 & y & Ecl & Hcl0).
  assert (el = el0 ++ [(k, v)] /\ er = er0) as [-> ->].
  { apply app_split_len.
    - rewrite <- He, He0, <- app_assoc. reflexivity.
    - rewrite Hel, length_app. simpl. lia. }
  subst cl. rewrite <- app_assoc in Hc. cbn [app] in Hc.
  destruct Hsh as (_ & _ & _ & Hch).
  exists cl0, y, z, cr. repeat split; auto.
  - apply Hch. rewrite Hc. apply in_or_app. simpl. auto.
  - apply Hch. rewrite Hc. apply in_or_app. simpl. auto.
  - apply Hch. rewrite Hc. apply in_app_or in H. apply in_or_app. simpl. tauto.
  - apply Hch. rewrite Hc. apply in_app_or in H. apply in_or_app. simpl. tauto.
  - rewrite Hview, map_app. cbn [map]. rewrite pre_snoc by (rewrite length_map; lia).
    rewrite <- !app_assoc. reflexivity.
Qed.

Lemma Node_erase_spec_found h fuel key n :
  h <= fuel ->
  (forall key' c, shape capacity_ h c -> ksorted (elems c) ->
                  (0 < h -> 1 <= BTree.node_size c) -> erase_ok h fuel key' c) ->
  shape capacity_ (S h) n -> ksorted (elems n) ->
  (let r := LinearSearchMap.predecessor (impl_ n) key in
   l_exists r && (LinearSearchMap.at_ (impl_ n) (l_pos r) =? key)%Z = true) ->
  (exists el v er, entries (impl_ n) = el ++ (key, v) :: er /\
                   cnt_le key (keys (entries (impl_ n))) = S (length el)) ->
  erase_ok (S h) (S fuel) key n.
Proof.
  intros Hfuel IH Hsh Hs Hfound (el0 & v & er0 & He0 & Hi0).
  destruct cap_facts as (t & Hcap & Ht & Hnc & Hsr & Hsm & Hth & Hmin).
  pose proof (shape_S_not_leaf h n Hsh) as Hleaf.
  pose proof (shape_impl_ok _ _ Hsh) as Hok.
  pose proof (shape_size _ _ Hsh) as Hnsz.
  pose proof (elems_sorted_entries n Hs) as Hes.
  unfold erase_ok. cbn [BTree.Node_erase]. rewrite Hleaf.
  rewrite (descent_index n key Hok Hes). cbv zeta in Hfound. rewrite Hfound.
  rewrite Hi0. replace (S (length el0) - 1) with (length el0) by lia.
  destruct (sep_view h n el0 key v er0 Hsh He0)
    as (cl0 & y & z & cr & Hc & Hcl0 & Hcr & [Hysh Hymin] & [Hzsh Hzmin] & Hrest & Hview).
  destruct n as [impl cs]. cbn [impl_ children_] in *. subst cs.
  rewrite (child_mid impl cl0 y (z :: cr) (length el0) Hcl0).
  assert (BTree.child (mkNode impl (cl0 ++ y :: z :: cr)) (S (length el0)) = z) as Hchz.
  { replace (cl0 ++ y :: z :: cr) with ((cl0 ++ [y]) ++ z :: cr)
      by (rewrite <- app_assoc; reflexivity).
    apply child_mid. rewrite length_app. simpl. lia. }
  rewrite Hchz.
  rewrite Hview in Hs.
  assert (ksorted (elems y)) as Hys.
  { eapply subseq_sorted; [|exact Hs]. apply subseq_mid_app. }
  assert (ksorted (elems z)) as Hzs.
  { eapply subseq_sorted; [|exact Hs]. apply subseq_skip_app.
    apply subseq_skip_app. apply subseq_skip. apply subseq_app_l. apply subseq_refl. }
  assert (length (entries impl) = length el0 + 1 + length er0) as Hlen
    by (rewrite He0, length_app; simpl; lia).
  rewrite node_size_entries in Hnsz by auto. cbn [impl_] in Hnsz.
  set (P := pre (map elems cl0) el0) in *.
  set (Q := post er0 (map elems cr)) in *.
  assert (subseq el0 P) as HsubP
    by (apply subseq_pre; rewrite length_map; lia).
  assert (subseq er0 Q) as HsubQ by apply subseq_post.
  assert (del key (P ++ elems y ++ (key, v) :: elems z ++ Q)
          = P ++ elems y ++ elems z ++ Q) as Hdel.
  { rewrite app_assoc. rewrite del_mid_sorted by (rewrite <- app_assoc; exact Hs).
    rewrite <- app_assoc. reflexivity. }
  assert (In key (keys (P ++ elems y ++ (key, v) :: elems z ++ Q))) as Hin.
  { apply in_keys_iff. exists v. rewrite !in_app_iff. simpl. auto. }
  assert (forall es Ls, flat (el0 ++ es) (map elems cl0 ++ Ls) = P ++ flat es Ls) as Hflat.
  { intros es Ls. apply flat_split. rewrite length_map. lia. }
  rewrite Hview, Hdel. rewrite Hth.
  destruct (t <=? BTree.node_size y) eqn:Ey; [|destruct (t <=? BTree.node_size z) eqn:Ez].
  - (* replace by the predecessor, taken from y *)
    apply Nat.leb_le in Ey.
    destruct (rightmost_leaf_spec h fuel y) as (Y & EY); auto; try lia.
    set (c := BTree.rightmost_leaf fuel y) in *.
    set (kp := LinearSearchMap.at_ (impl_ c) (BTree.node_size c - 1)) in *.
    set (vp := LinearSearchMap.value (impl_ c) (BTree.node_size c - 1)) in *.
    cbn [fst snd].
    rewrite (update_at_mid (length el0)) by exact Hcl0.
    destruct (impl_erased_mid impl el0 key v er0 Hok He0 Hes) as [Hok1 He1].
    rewrite EY in Hs.
    assert (ksorted (el0 ++ (kp, vp) :: er0)) as Hs1.
    { eapply subseq_sorted; [|exact Hs].
      apply subseq_app; [exact HsubP|].
      rewrite <- app_assoc. apply subseq_skip_app. cbn [app]. apply subseq_keep.
      apply subseq_skip. apply subseq_skip_app. exact HsubQ. }
    destruct (impl_insert_mid _ el0 kp vp er0 Hok1 He1 Hs1) as [Hok2 He2].
    destruct (IH kp y Hysh Hys) as (Hy'sh & Hy'e & _ & Hy'sz); [lia|].
    cbv zeta in Hy'sh, Hy'e, Hy'sz.
    set (y' := snd (BTree.Node_erase capacity_ fuel kp y)) in *.
    rewrite EY in Hy'e.
    rewrite (del_mid_sorted kp vp Y []) in Hy'e by (rewrite <- EY; exact Hys).
    rewrite app_nil_r in Hy'e.
    split; [|split; [|split]].
    + apply shape_node; auto.
      * rewrite He2, length_app. simpl. lia.
      * rewrite He2, !length_app. simpl. lia.
      * intros c0 Hc0. apply in_mid_iff in Hc0. destruct Hc0 as [->|Hc0].
        { split; auto. lia. }
        apply in_app_or in Hc0. destruct Hc0 as [Hc0|[<-|Hc0]]; auto;
          apply Hrest; apply in_or_app; auto.
    + rewrite elems_eq. cbn [impl_ children_]. rewrite He2, map_app. cbn [map].
      rewrite Hflat, flat_cons_cons, flat_cons. rewrite Hy'e, EY.
      fold Q. rewrite <- !app_assoc. reflexivity.
    + split; auto.
    + rewrite !node_size_entries by auto. cbn [impl_].
      rewrite He2, Hlen, length_app. simpl. lia.
  - (* replace by the successor, taken from z *)
    apply Nat.leb_le in Ez.
    destruct (leftmost_leaf_spec h fuel z) as (Z0 & EZ); auto; try lia.
    set (c := BTree.leftmost_leaf fuel z) in *.
    set (ks := LinearSearchMap.at_ (impl_ c) 0) in *.
    set (vs := LinearSearchMap.value (impl_ c) 0) in *.
    cbn [fst snd].
    replace (cl0 ++ y :: z :: cr) with ((cl0 ++ [y]) ++ z :: cr)
      by (rewrite <- app_assoc; reflexivity).
    rewrite (update_at_mid (S (length el0))) by (rewrite length_app; simpl; lia).
    rewrite <- app_assoc. cbn [app].
    destruct (impl_erased_mid impl el0 key v er0 Hok He0 Hes) as [Hok1 He1].
    rewrite EZ in Hs.
    assert (ksorted (el0 ++ (ks, vs) :: er0)) as Hs1.
    { eapply subseq_sorted; [|exact Hs].
      apply subseq_app; [exact HsubP|].
      apply subseq_skip_app. apply subseq_skip. apply subseq_keep.
      apply subseq_skip_app. exact HsubQ. }
    destruct (impl_insert_mid _ el0 ks vs er0 Hok1 He1 Hs1) as [Hok2 He2].
    destruct (IH ks z Hzsh Hzs) as (Hz'sh & Hz'e & _ & Hz'sz); [lia|].
    cbv zeta in Hz'sh, Hz'e, Hz'sz.
    set (z' := snd (BTree.Node_erase capacity_ fuel ks z)) in *.
    rewrite EZ in Hz'e. rewrite del_head in Hz'e.
    split; [|split; [|split]].
    + apply shape_node; auto.
      * rewrite He2, length_app. simpl. lia.
      * rewrite He2, !length_app. simpl. lia.
      * intros c0 Hc0. apply in_app_or in Hc0.
        destruct Hc0 as [Hc0|[<-|[<-|Hc0]]]; auto;
          try solve [apply Hrest; apply in_or_app; auto].
        split; auto. lia.
    + rewrite elems_eq. cbn [impl_ children_]. rewrite He2, map_app. cbn [map].
      rewrite Hflat, flat_cons_cons, flat_cons. rewrite Hz'e, EZ.
      fold Q. rewrite <- ?app_assoc. reflexivity.
    + split; auto.
    + rewrite !node_size_entries by auto. cbn [impl_].
      rewrite He2, Hlen, length_app. simpl. lia.
  - (* merge y, the key and z, then erase from the merged child *)
    apply Nat.leb_gt in Ey, Ez.
    destruct (impl_erase_mid impl el0 key v er0 Hok He0 Hes) as (impl1 & Eer & Hok1 & He1).
    rewrite Eer. cbn [fst snd].
    pose proof (shape_impl_ok _ _ Hysh) as Hyok.
    pose proof (shape_impl_ok _ _ Hzsh) as Hzok.
    assert (ksorted (entries (impl_ y) ++ (key, v) :: entries (impl_ z))) as Hsm'.
    { eapply subseq_sorted; [|exact Hs]. apply subseq_skip_app.
      apply subseq_app; [apply subseq_elems|]. apply subseq_keep.
      apply subseq_app_l. apply subseq_elems. }
    destruct (impl_insert_mid (impl_ y) (entries (impl_ y)) key v [] Hyok)
      as [Hok2 He2].
    { rewrite app_nil_r. reflexivity. }
    { eapply subseq_sorted; [|exact Hsm']. apply subseq_app; [apply subseq_refl|].
      apply subseq_keep. apply subseq_nil. }
    destruct (insert_all_entries (impl_ z)
                (LinearSearchMap.insert key v (impl_ y)) Hzok Hok2) as [Hok3 He3].
    rewrite He2 in He3.
    rewrite <- (app_nil_r (entries (impl_ y) ++ [(key, v)])) in He3.
    rewrite ins_list_mid in He3
      by (rewrite app_nil_r, <- app_assoc; exact Hsm').
    rewrite app_nil_r, <- app_assoc in He3. cbn [app] in He3.
    set (yimpl := BTree.insert_all (impl_ z) (BTree.NodeImpl.insert key v (impl_ y))) in *.
    set (y1 := mkNode yimpl (if BTree.is_leaf z then children_ y
                             else children_ y ++ children_ z)).
    assert (BTree.node_size y = t - 1 /\ BTree.node_size z = t - 1) as [Hy1 Hz1] by lia.
    rewrite node_size_entries in Hy1, Hz1 by auto.
    assert (shape capacity_ h y1 /\ elems y1 = elems y ++ (key, v) :: elems z)
      as [Hy1sh Hy1e].
    { unfold y1. destruct h as [|h].
      - rewrite (shape_0_leaf z Hzsh).
        destruct Hysh as (_ & _ & Hyc). destruct Hzsh as (_ & _ & Hzc).
        rewrite Hyc. split.
        + cbn [shape impl_ children_]. rewrite node_size_entries by auto.
          cbn [impl_]. rewrite He3, length_app. simpl. repeat split; auto. lia.
        + rewrite !elems_eq. cbn [impl_ children_]. rewrite Hyc, Hzc, He3.
          reflexivity.
      - rewrite (shape_S_not_leaf h z Hzsh).
        destruct Hysh as (_ & _ & Hyl & Hych). destruct Hzsh as (_ & _ & Hzl & Hzch).
        rewrite node_size_entries in Hyl, Hzl by auto.
        split.
        + apply shape_node; auto.
          * rewrite He3, length_app. simpl. lia.
          * rewrite He3, !length_app. simpl. lia.
          * intros c0 Hc0. apply in_app_or in Hc0. destruct Hc0; auto.
        + rewrite !elems_eq. cbn [impl_ children_]. rewrite He3, map_app.
          apply flat_sep. rewrite length_map. lia. }
    assert (ksorted (elems y1)) as Hy1s.
    { rewrite Hy1e. eapply subseq_sorted; [|exact Hs]. apply subseq_skip_app.
      apply subseq_app; [apply subseq_refl|].
      apply subseq_keep. apply subseq_app_l. apply subseq_refl. }
    destruct (IH key y1 Hy1sh Hy1s) as (Hy'sh & Hy'e & _ & Hy'sz).
    { intros _. unfold y1. rewrite node_size_entries by (cbn [impl_]; auto).
      cbn [impl_]. rewrite He3, length_app. simpl. lia. }
    cbv zeta in Hy'sh, Hy'e, Hy'sz.
    set (y' := snd (BTree.Node_erase capacity_ fuel key y1)) in *.
    rewrite Hy1e in Hy'e. rewrite del_mid_sorted in Hy'e by (rewrite <- Hy1e; exact Hy1s).
    assert (BTree.node_size y1 = 2 * t - 1) as Hy1sz.
    { unfold y1. rewrite node_size_entries by (cbn [impl_]; auto).
      cbn [impl_]. rewrite He3, length_app. simpl. lia. }
    unfold BTree.erase_child. cbn [impl_ children_].
    rewrite (update_at_mid (length el0)) by exact Hcl0.
    replace (cl0 ++ y' :: z :: cr) with ((cl0 ++ [y']) ++ z :: cr)
      by (rewrite <- app_assoc; reflexivity).
    rewrite (remove_at_mid (S (length el0))) by (rewrite length_app; simpl; lia).
    rewrite <- app_assoc. cbn [app].
    split; [|split; [|split]].
    + apply shape_node; auto.
      * rewrite He1, length_app. lia.
      * rewrite He1, !length_app. simpl. lia.
      * intros c0 Hc0. apply in_mid_iff in Hc0. destruct Hc0 as [->|Hc0]; auto.
        split; auto. lia.
    + rewrite elems_eq. cbn [impl_ children_]. rewrite He1, map_app. cbn [map].
      rewrite Hflat, flat_cons. rewrite Hy'e.
      fold Q. rewrite <- !app_assoc. reflexivity.
    + split; auto.
    + rewrite !node_size_entries by auto. cbn [impl_].
      rewrite He1, Hlen, length_app. lia.
Qed.

(** Merging two minimal siblings around their separator: the keys and the
    children of [z] are appended to [y]. *)
Lemma merge_right_spec h y z k v :
  shape capacity_ h y -> shape capacity_ h z ->
  BTree.node_size y + BTree.node_size z + 1 <= capacity_ ->
  ksorted (elems y ++ (k, v) :: elems z) ->
  let y1 := mkNode (BTree.insert_all (impl_ z)
                      (LinearSearchMap.insert k v (impl_ y)))
                   (if BTree.is_leaf z then children_ y
                    else children_ y ++ children_ z) in
  shape capacity_ h y1 /\ elems y1 = elems y ++ (k, v) :: elems z /\
  BTree.node_size y1 = BTree.node_size y + BTree.node_size z + 1.
Proof.
  intros Hysh Hzsh Hsz Hs.
  pose proof (shape_impl_ok _ _ Hysh) as Hyok.
  pose proof (shape_impl_ok _ _ Hzsh) as Hzok.
  rewrite !node_size_entries in Hsz by auto.
  assert (ksorted (entries (impl_ y) ++ (k, v) :: entries (impl_ z))) as Hsm'.
  { eapply subseq_sorted; [|exact Hs].
    apply subseq_app; [apply subseq_elems|]. apply subseq_keep. apply subseq_elems. }
  destruct (impl_insert_mid (impl_ y) (entries (impl_ y)) k v [] Hyok)
    as [Hok2 He2].
  { rewrite app_nil_r. reflexivity. }
  { eapply subseq_sorted; [|exact Hsm']. apply subseq_app; [apply subseq_refl|].
    apply subseq_keep. apply subseq_nil. }
  destruct (insert_all_entries (impl_ z)
              (LinearSearchMap.insert k v (impl_ y)) Hzok Hok2) as [Hok3 He3].
  rewrite He2 in He3.
  rewrite <- (app_nil_r (entries (impl_ y) ++ [(k, v)])) in He3.
  rewrite ins_list_mid in He3
    by (rewrite app_nil_r, <- app_assoc; exact Hsm').
  rewrite app_nil_r, <- app_assoc in He3. cbn [app] in He3.
  set (yimpl := BTree.insert_all (impl_ z) (LinearSearchMap.insert k v (impl_ y))) in *.
  cbv zeta.
  assert (BTree.node_size (mkNode yimpl (if BTree.is_leaf z then children_ y
                             else children_ y ++ children_ z))
          = BTree.node_size y + BTree.node_size z + 1) as Hsz1.
  { rewrite !node_size_entries by (cbn [impl_]; auto).
    cbn [impl_]. rewrite He3, length_app. simpl. lia. }
  split; [|split; [|exact Hsz1]].
  - destruct h as [|h].
    + rewrite (shape_0_leaf z Hzsh).
      destruct Hysh as (_ & _ & Hyc). rewrite Hyc.
      cbn [shape impl_ children_]. rewrite node_size_entries by auto.
      cbn [impl_]. rewrite He3, length_app. simpl. repeat split; auto. lia.
    + rewrite (shape_S_not_leaf h z Hzsh).
      destruct Hysh as (_ & _ & Hyl & Hych). destruct Hzsh as (_ & _ & Hzl & Hzch).
      rewrite node_size_entries in Hyl, Hzl by auto.
      apply shape_node; auto.
      * rewrite He3, length_app. simpl. lia.
      * rewrite He3, !length_app. simpl. lia.
      * intros c0 Hc0. apply in_app_or in Hc0. destruct Hc0; auto.
  - destruct h as [|h].
    + rewrite (shape_0_leaf z Hzsh).
      destruct Hysh as (_ & _ & Hyc). destruct Hzsh as (_ & _ & Hzc).
      rewrite !elems_eq. cbn [impl_ children_]. rewrite Hyc, Hzc, He3.
      reflexivity.
    + rewrite (shape_S_not_leaf h z Hzsh).
      destruct Hysh as (_ & _ & Hyl & Hych). destruct Hzsh as (_ & _ & Hzl & Hzch).
      rewrite node_size_entries in Hyl, Hzl by auto.
      rewrite !elems_eq. cbn [impl_ children_]. rewrite He3, map_app.
      apply flat_sep. rewrite length_map. lia.
Qed.

(** Merging with the left sibling: the keys of [left] are inserted into [c]
    and its children are put in front of those of [c]. *)
Lemma merge_left_spec h left c k v :
  shape capacity_ h left -> shape capacity_ h c ->
  BTree.node_size left + BTree.node_size c + 1 <= capacity_ ->
  BTree.node_size c <= BTree.node_size left ->
  ksorted (elems left ++ (k, v) :: elems c) ->
  let c1 := mkNode (BTree.insert_all (impl_ left)
                      (LinearSearchMap.insert k v (impl_ c)))
                   (if BTree.is_leaf left then children_ c
                    else BTree.prepend_children (children_ left) (children_ c)) in
  shape capacity_ h c1 /\ elems c1 = elems left ++ (k, v) :: elems c /\
  BTree.node_size c1 = BTree.node_size left + BTree.node_size c + 1.
Proof.
  intros Hlsh Hcsh Hsz Hle Hs.
  pose proof (shape_impl_ok _ _ Hlsh) as Hlok.
  pose proof (shape_impl_ok _ _ Hcsh) as Hcok.
  rewrite !node_size_entries in Hsz, Hle by auto.
  assert (ksorted (entries (impl_ left) ++ (k, v) :: entries (impl_ c))) as Hsm'.
  { eapply subseq_sorted; [|exact Hs].
    apply subseq_app; [apply subseq_elems|]. apply subseq_keep. apply subseq_elems. }
  destruct (impl_insert_mid (impl_ c) [] k v (entries (impl_ c)) Hcok)
    as [Hok2 He2].
  { reflexivity. }
  { eapply subseq_sorted; [|exact Hsm']. apply subseq_skip_app. apply subseq_refl. }
  destruct (insert_all_entries (impl_ left)
              (LinearSearchMap.insert k v (impl_ c)) Hlok Hok2) as [Hok3 He3].
  rewrite He2 in He3. cbn [app] in He3.
  change ((k, v) :: entries (impl_ c)) with ([] ++ (k, v) :: entries (impl_ c)) in He3.
  rewrite ins_list_mid in He3 by exact Hsm'.
  cbn [app] in He3.
  set (cimpl := BTree.insert_all (impl_ left) (LinearSearchMap.insert k v (impl_ c))) in *.
  cbv zeta.
  assert (BTree.node_size (mkNode cimpl (if BTree.is_leaf left then children_ c
                             else BTree.prepend_children (children_ left) (children_ c)))
          = BTree.node_size left + BTree.node_size c + 1) as Hsz1.
  { rewrite !node_size_entries by (cbn [impl_]; auto).
    cbn [impl_]. rewrite He3, length_app. simpl. lia. }
  split; [|split; [|exact Hsz1]].
  - destruct h as [|h].
    + rewrite (shape_0_leaf left Hlsh).
      destruct Hcsh as (_ & _ & Hcc). rewrite Hcc.
      cbn [shape impl_ children_]. rewrite node_size_entries by auto.
      cbn [impl_]. rewrite He3, length_app. simpl. repeat split; auto. lia.
    + rewrite (shape_S_not_leaf h left Hlsh).
      destruct Hlsh as (_ & _ & Hll & Hlch). destruct Hcsh as (_ & _ & Hcl & Hcch).
      rewrite node_size_entries in Hll, Hcl by auto.
      rewrite prepend_children_app by lia.
      apply shape_node; auto.
      * rewrite He3, length_app. simpl. lia.
      * rewrite He3, !length_app. simpl. lia.
      * intros c0 Hc0. apply in_app_or in Hc0. destruct Hc0; auto.
  - destruct h as [|h].
    + rewrite (shape_0_leaf left Hlsh).
      destruct Hlsh as (_ & _ & Hlc). destruct Hcsh as (_ & _ & Hcc).
      rewrite !elems_eq. cbn [impl_ children_]. rewrite Hlc, Hcc, He3.
      reflexivity.
    + rewrite (shape_S_not_leaf h left Hlsh).
      destruct Hlsh as (_ & _ & Hll & Hlch). destruct Hcsh as (_ & _ & Hcl & Hcch).
      rewrite node_size_entries in Hll, Hcl by auto.
      rewrite prepend_children_app by lia.
      rewrite !elems_eq. cbn [impl_ children_]. rewrite He3, map_app.
      apply flat_sep. rewrite length_map. lia.
Qed.

(** Borrowing from the left sibling: the splitter goes down into [c], the
    largest key of [left] goes up, and the rightmost child of [left] becomes
    the first child of [c]. *)
Lemma rotate_left_spec h left c s sv :
  shape capacity_ h left -> shape capacity_ h c ->
  1 <= BTree.node_size left -> BTree.node_size c < capacity_ ->
  ksorted (elems left ++ (s, sv) :: elems c) ->
  exists ll lv limpl,
    LinearSearchMap.at_ (impl_ left) (BTree.node_size left - 1) = ll /\
    LinearSearchMap.erase ll (impl_ left) = (true, lv, limpl) /\
    let cimpl := LinearSearchMap.insert s sv (impl_ c) in
    let p := if BTree.is_leaf left then (children_ left, children_ c)
             else (remove_at (BTree.num_children left - 1) (children_ left),
                   insert_at 0 (BTree.child left (BTree.num_children left - 1))
                             (children_ c)) in
    let left' := mkNode limpl (fst p) in
    let c1 := mkNode cimpl (snd p) in
    shape capacity_ h left' /\ shape capacity_ h c1 /\
    S (BTree.node_size left') = BTree.node_size left /\
    BTree.node_size c1 = S (BTree.node_size c) /\
    elems left' ++ (ll, lv) :: elems c1 = elems left ++ (s, sv) :: elems c /\
    In (ll, lv) (elems left).
Proof.
  intros Hlsh Hcsh Hl1 Hcsz Hs.
  pose proof (shape_impl_ok _ _ Hlsh) as Hlok.
  pose proof (shape_impl_ok _ _ Hcsh) as Hcok.
  pose proof (shape_size _ _ Hlsh) as Hlsz.
  rewrite node_size_entries in * by auto.
  destruct (snoc_of_length (entries (impl_ left)) (length (entries (impl_ left)) - 1))
    as (lL & [ll lv] & EL & HlL); [lia|].
  assert (ksorted (entries (impl_ left))) as Hles.
  { eapply subseq_sorted; [|exact Hs]. apply subseq_app_l. apply subseq_elems. }
  destruct (impl_at_mid (impl_ left) lL ll lv [] Hlok EL) as [Hat _].
  rewrite HlL in Hat.
  destruct (impl_erase_mid (impl_ left) lL ll lv [] Hlok EL Hles)
    as (limpl & Eer & Hlok' & Hle').
  rewrite app_nil_r in Hle'.
  exists ll, lv, limpl. split; [exact Hat|]. split; [exact Eer|].
  destruct (impl_insert_mid (impl_ c) [] s sv (entries (impl_ c)) Hcok)
    as [Hcok' Hce'].
  { reflexivity. }
  { eapply subseq_sorted; [|exact Hs]. apply subseq_skip_app.
    apply subseq_keep. apply subseq_elems. }
  cbn [app] in Hce'. cbv zeta.
  assert (In (ll, lv) (elems left)) as Hin.
  { apply in_entries_elems. rewrite EL. apply in_or_app. simpl. auto. }
  destruct h as [|h].
  - rewrite (shape_0_leaf left Hlsh). cbn [fst snd].
    destruct Hlsh as (_ & _ & Hlc). destruct Hcsh as (_ & _ & Hcc).
    rewrite Hlc, Hcc.
    rewrite !node_size_entries by (cbn [impl_]; auto). cbn [impl_].
    rewrite Hle', Hce'. cbn [length].
    split; [|split; [|split; [|split; [|split; [|exact Hin]]]]]; try lia.
    + cbn [shape impl_ children_]. rewrite node_size_entries by (cbn [impl_]; auto).
      cbn [impl_]. rewrite Hle'. repeat split; auto; try lia.
    + cbn [shape impl_ children_]. rewrite node_size_entries by (cbn [impl_]; auto).
      cbn [impl_]. rewrite Hce'. cbn [length]. repeat split; auto; try lia.
    + rewrite !elems_eq. cbn [impl_ children_ map flat].
      rewrite Hlc, Hcc, Hle', Hce', EL. cbn [map flat].
      rewrite <- app_assoc. reflexivity.
  - rewrite (shape_S_not_leaf h left Hlsh). cbn [fst snd].
    destruct Hlsh as (_ & _ & Hll & Hlch). destruct Hcsh as (_ & _ & Hcl & Hcch).
    rewrite node_size_entries in Hll, Hcl by auto.
    unfold BTree.num_children, BTree.child.
    destruct (snoc_of_length (children_ left) (length (entries (impl_ left))) Hll)
      as (cL0 & lr & EcL & HcL0).
    rewrite EcL, length_app. cbn [length].
    replace (length cL0 + 1 - 1) with (length cL0) by lia.
    rewrite nth_middle.
    rewrite (remove_at_mid (length cL0) cL0 lr [] eq_refl). rewrite app_nil_r.
    unfold insert_at. cbn [firstn skipn app].
    rewrite !node_size_entries by (cbn [impl_]; auto). cbn [impl_].
    rewrite Hle', Hce'. cbn [length].
    assert (forall c0, In c0 (children_ left) ->
              shape capacity_ h c0 /\ min_keys capacity_ <= BTree.node_size c0) as Hlch'
      by exact Hlch.
    rewrite EcL in Hlch'.
    split; [|split; [|split; [|split; [|split; [|exact Hin]]]]]; try lia.
    + apply shape_node; auto.
      * rewrite Hle'. lia.
      * rewrite Hle'. lia.
      * intros c0 Hc0. apply Hlch'. apply in_or_app. auto.
    + apply shape_node; auto.
      * rewrite Hce'. cbn [length]. lia.
      * rewrite Hce'. cbn [length]. lia.
      * intros c0 [<-|Hc0]; auto. apply Hlch'. apply in_or_app. simpl. auto.
    + rewrite !elems_eq. cbn [impl_ children_ map].
      rewrite Hle', Hce', EL, EcL, map_app. cbn [map].
      rewrite flat_cons_cons.
      rewrite (flat_sep lL (ll, lv) [])
        by (rewrite length_map, HcL0, EL, length_app; simpl; lia).
      cbn [flat]. rewrite <- !app_assoc. reflexivity.
Qed.

(** Borrowing from the right sibling, symmetrically. *)
Lemma rotate_right_spec h c right s sv :
  shape capacity_ h c -> shape capacity_ h right ->
  1 <= BTree.node_size right -> BTree.node_size c < capacity_ ->
  ksorted (elems c ++ (s, sv) :: elems right) ->
  exists rs rv rimpl,
    LinearSearchMap.at_ (impl_ right) 0 = rs /\
    LinearSearchMap.erase rs (impl_ right) = (true, rv, rimpl) /\
    let cimpl := LinearSearchMap.insert s sv (impl_ c) in
    let p := if BTree.is_leaf right then (children_ right, children_ c)
             else (remove_at 0 (children_ right),
                   insert_at (BTree.num_children c) (BTree.child right 0)
                             (children_ c)) in
    let right' := mkNode rimpl (fst p) in
    let c1 := mkNode cimpl (snd p) in
    shape capacity_ h right' /\ shape capacity_ h c1 /\
    S (BTree.node_size right') = BTree.node_size right /\
    BTree.node_size c1 = S (BTree.node_size c) /\
    elems c1 ++ (rs, rv) :: elems right' = elems c ++ (s, sv) :: elems right /\
    In (rs, rv) (elems right).
Proof.
  intros Hcsh Hrsh Hr1 Hcsz Hs.
  pose proof (shape_impl_ok _ _ Hrsh) as Hrok.
  pose proof (shape_impl_ok _ _ Hcsh) as Hcok.
  pose proof (shape_size _ _ Hrsh) as Hrsz.
  rewrite node_size_entries in * by auto.
  assert (exists rs rv eR0, entries (impl_ right) = (rs, rv) :: eR0)
    as (rs & rv & eR0 & ER).
  { destruct (entries (impl_ right)) as [|[rs rv] eR0]; [simpl in Hr1; lia|]; eauto. }
  assert (ksorted (entries (impl_ right))) as Hres.
  { eapply subseq_sorted; [|exact Hs]. apply subseq_skip_app. apply subseq_skip.
    apply subseq_elems. }
  destruct (impl_at_mid (impl_ right) [] rs rv eR0 Hrok ER) as [Hat _].
  cbn [length] in Hat.
  destruct (impl_erase_mid (impl_ right) [] rs rv eR0 Hrok ER Hres)
    as (rimpl & Eer & Hrok' & Hre').
  cbn [app] in Hre'.
  exists rs, rv, rimpl. split; [exact Hat|]. split; [exact Eer|].
  destruct (impl_insert_mid (impl_ c) (entries (impl_ c)) s sv [] Hcok)
    as [Hcok' Hce'].
  { rewrite app_nil_r. reflexivity. }
  { eapply subseq_sorted; [|exact Hs]. apply subseq_app; [apply subseq_elems|].
    apply subseq_keep. apply subseq_nil. }
  cbv zeta. rewrite ER in Hrsz. cbn [length] in *.
  assert (In (rs, rv) (elems right)) as Hin.
  { apply in_entries_elems. rewrite ER. simpl. auto. }
  destruct h as [|h].
  - rewrite (shape_0_leaf right Hrsh). cbn [fst snd].
    destruct Hrsh as (_ & _ & Hrc). destruct Hcsh as (_ & _ & Hcc).
    rewrite Hrc, Hcc.
    rewrite !node_size_entries by (cbn [impl_]; auto). cbn [impl_].
    rewrite Hre', Hce', ER, length_app. cbn [length].
    split; [|split; [|split; [|split; [|split; [|exact Hin]]]]]; try lia.
    + cbn [shape impl_ children_]. rewrite node_size_entries by (cbn [impl_]; auto).
      cbn [impl_]. rewrite Hre'. repeat split; auto; try lia.
    + cbn [shape impl_ children_]. rewrite node_size_entries by (cbn [impl_]; auto).
      cbn [impl_]. rewrite Hce', length_app. cbn [length]. repeat split; auto; try lia.
    + rewrite !elems_eq. cbn [impl_ children_ map flat].
      rewrite Hrc, Hcc, Hre', Hce', ER. cbn [map flat].
      rewrite <- app_assoc. reflexivity.
  - rewrite (shape_S_not_leaf h right Hrsh). cbn [fst snd].
    destruct Hrsh as (_ & _ & Hrl & Hrch). destruct Hcsh as (_ & _ & Hcl & Hcch).
    rewrite node_size_entries in Hrl, Hcl by auto. rewrite ER in Hrl.
    cbn [length] in Hrl.
    unfold BTree.num_children, BTree.child.
    destruct (children_ right) as [|rl cR0] eqn:EcR; [discriminate|].
    cbn [nth]. unfold remove_at. cbn [firstn skipn app].
    assert (insert_at (length (children_ c)) rl (children_ c) = children_ c ++ [rl])
      as ->.
    { rewrite <- (app_nil_r (children_ c)) at 2. apply insert_at_mid. reflexivity. }
    rewrite !node_size_entries by (cbn [impl_]; auto). cbn [impl_].
    rewrite Hre', Hce', ER, length_app. cbn [length].
    cbn [length] in Hrl.
    split; [|split; [|split; [|split; [|split; [|exact Hin]]]]]; try lia.
    + apply shape_node; auto.
      * rewrite Hre'. lia.
      * rewrite Hre'. lia.
      * intros c0 Hc0. apply Hrch. simpl. auto.
    + apply shape_node; auto.
      * rewrite Hce', length_app. cbn [length]. lia.
      * rewrite Hce', !length_app. cbn [length]. lia.
      * intros c0 Hc0. apply in_app_or in Hc0. destruct Hc0 as [Hc0|[<-|[]]]; auto.
        apply Hrch. simpl. auto.
    + rewrite !elems_eq. cbn [impl_ children_ map].
      rewrite Hre', Hce', ER, EcR, map_app. cbn [map].
      rewrite flat_cons_cons.
      rewrite (flat_sep (entries (impl_ c)) (s, sv) [])
        by (rewrite length_map; lia).
      cbn [flat]. rewrite <- !app_assoc. reflexivity.
Qed.

Lemma app_cons_assoc {A} (X : list A) x Y Z : X ++ x :: Y ++ Z = (X ++ x :: Y) ++ Z.
Proof. rewrite <- app_assoc. reflexivity. Qed.

Lemma num_children_mid impl (cl : list Node) c cr :
  BTree.num_children (mkNode impl (cl ++ c :: cr)) = length cl + S (length cr).
Proof. unfold BTree.num_children. cbn [children_]. rewrite length_app. reflexivity. Qed.

Lemma erase_ok_intro h fuel key n b n' :
  BTree.Node_erase capacity_ fuel key n = (b, n') ->
  shape capacity_ h n' -> elems n' = del key (elems n) ->
  (b = true <-> In key (keys (elems n))) ->
  BTree.node_size n - 1 <= BTree.node_size n' ->
  erase_ok h fuel key n.
Proof. intros E H1 H2 H3 H4. unfold erase_ok. rewrite E. cbn [fst snd]. auto. Qed.

Lemma Node_erase_spec_descend h fuel key n :
  h <= fuel ->
  (forall key' c, shape capacity_ h c -> ksorted (elems c) ->
                  (0 < h -> 1 <= BTree.node_size c) -> erase_ok h fuel key' c) ->
  shape capacity_ (S h) n -> ksorted (elems n) -> 1 <= BTree.node_size n ->
  (let r := LinearSearchMap.predecessor (impl_ n) key in
   l_exists r && (LinearSearchMap.at_ (impl_ n) (l_pos r) =? key)%Z = false) ->
  (forall e, In e (firstn (cnt_le key (keys (entries (impl_ n)))) (entries (impl_ n))) ->
             (fst e < key)%Z) ->
  erase_ok (S h) (S fuel) key n.
Proof.
  intros Hfuel IH Hsh Hs Hn1 Hnf Hlo'.
  destruct cap_facts as (t & Hcap & Ht & Hnc & Hsr & Hsm & Hth & Hmin).
  pose proof (shape_S_not_leaf h n Hsh) as Hleaf.
  pose proof (shape_impl_ok _ _ Hsh) as Hok.
  pose proof (shape_size _ _ Hsh) as Hnsz.
  pose proof (elems_sorted_entries n Hs) as Hes.
  remember (BTree.Node_erase capacity_ (S fuel) key n) as R eqn:ER.
  pose proof ER as ER0.
  cbn [BTree.Node_erase] in ER. rewrite Hleaf in ER.
  rewrite (descent_index n key Hok Hes) in ER. cbv zeta in Hnf. rewrite Hnf in ER.
  set (i := cnt_le key (keys (entries (impl_ n)))) in *.
  assert (i <= BTree.node_size n) as Hi.
  { rewrite node_size_entries by auto. unfold i.
    pose proof (cnt_le_bound key (keys (entries (impl_ n)))) as Hb.
    unfold keys in Hb at 2. rewrite length_map in Hb. exact Hb. }
  destruct (child_view h n i Hsh Hi)
    as (el & er & cl & c & cr & Eel & Eer & He & Hc & Hel & Hcl & Hcr & Hci & Hcsh & Hcmin & Hview).
  assert (forall e, In e el -> (fst e < key)%Z) as Hlo
    by (intros e; rewrite Eel; apply Hlo').
  assert (forall e, In e er -> (key < fst e)%Z) as Hhi
    by (intros e; rewrite Eer; apply cnt_le_skipn; exact Hes).
  assert (forall c0, In c0 (children_ n) ->
            shape capacity_ h c0 /\ min_keys capacity_ <= BTree.node_size c0) as Hch
    by (destruct Hsh as (_ & _ & _ & H); exact H).
  rewrite node_size_entries in Hnsz, Hn1, Hi by auto.
  clear Eel Eer Hlo'.
  destruct n as [impl cs]. cbn [impl_ children_] in *. subst cs.
  rewrite Hview in Hs. rewrite Hci, Hth, num_children_mid in ER.
  assert (length (entries impl) = length el + length er) as Hlen
    by (rewrite He, length_app; reflexivity).
  assert (ksorted (elems c)) as Hcs.
  { eapply subseq_sorted; [|exact Hs]. apply subseq_mid_app. }
  pose proof (shape_impl_ok _ _ Hcsh) as Hcok.
  destruct (BTree.node_size c <? t) eqn:Ethin.
  2:{ (* the child has keys to spare *)
    apply Nat.ltb_ge in Ethin.
    destruct (IH key c Hcsh Hcs) as (Hc'sh & Hc'e & Hc'b & Hc'sz); [lia|].
    cbv zeta in Hc'sh, Hc'e, Hc'b, Hc'sz.
    destruct (BTree.Node_erase capacity_ fuel key c) as [b c'].
    cbn [fst snd] in *. unfold BTree.set_child in ER. cbn [impl_ children_] in ER.
    rewrite (update_at_mid i) in ER by exact Hcl.
    destruct (erase_descend h impl cl c c' cr el er key b) as (H1 & H2 & H3 & H4);
      auto; try lia.
    { intros c0 Hc0. apply Hch. apply in_mid_iff. auto. }
    eapply erase_ok_intro; [rewrite <- ER0; exact ER|exact H1|rewrite Hview; exact H2|
                            rewrite Hview; exact H3|].
    rewrite H4, node_size_entries by auto. cbn [impl_]. lia. }
  apply Nat.ltb_lt in Ethin.
  assert (BTree.node_size c = t - 1) as Hct by lia.
  match type of ER with
  | _ = (if ?C1 then _ else if ?C2 then _ else if ?C3 then _ else _) =>
      destruct C1 eqn:E1; [|destruct C2 eqn:E2; [|destruct C3 eqn:E3]]
  end.
  - (* borrow from the left sibling *)
    apply andb_true_iff in E1. destruct E1 as [E1 E1'].
    apply Nat.ltb_lt in E1. apply Nat.leb_le in E1'.
    destruct (snoc_of_length cl (i - 1)) as (cl0 & left & Ecl & Hcl0); [lia|].
    destruct (snoc_of_length el (i - 1)) as (el0 & [s sv] & Eel & Hel0); [lia|].
    subst cl el. rewrite <- !app_assoc in *. cbn [app] in *.
    rewrite (child_mid impl cl0 left (c :: cr) (i - 1) Hcl0) in *.
    destruct (Hch left) as [Hlsh Hlmin]; [apply in_or_app; simpl; auto|].
    rewrite map_app in Hs, Hview. cbn [map] in Hs, Hview.
    rewrite pre_snoc in Hs, Hview by (rewrite length_map; lia).
    rewrite <- !app_assoc in Hs, Hview. cbn [app] in Hs, Hview.
    destruct (impl_at_mid impl el0 s sv er Hok He) as [Hat _].
    rewrite Hel0 in Hat. rewrite Hat in ER.
    destruct (impl_erase_mid impl el0 s sv er Hok He Hes) as (impl1 & Eer & Hok1 & He1).
    rewrite Eer in ER.
    destruct (rotate_left_spec h left c s sv Hlsh Hcsh) as
      (ll & lv & limpl & Hlat & Eler & Hrot); try lia.
    { eapply subseq_sorted; [|exact Hs]. apply subseq_skip_app.
      apply subseq_app; [apply subseq_refl|]. apply subseq_keep.
      apply subseq_app_l. apply subseq_refl. }
    rewrite Hlat, Eler in ER. cbv zeta in Hrot.
    set (p := if BTree.is_leaf left then _ else _) in *.
    rewrite (surjective_pairing p) in ER.
    set (left' := mkNode limpl (fst p)) in *.
    set (c1 := mkNode (LinearSearchMap.insert s sv (impl_ c)) (snd p)) in *.
    destruct Hrot as (Hl'sh & Hc1sh & Hl'sz & Hc1sz & Hrot & Hllin).
    rewrite (update_at_mid (i - 1)) in ER by exact Hcl0.
    replace (cl0 ++ left' :: c :: cr) with ((cl0 ++ [left']) ++ c :: cr) in ER
      by (rewrite <- app_assoc; reflexivity).
    assert (pre (map elems (cl0 ++ [left'])) (el0 ++ [(ll, lv)]) ++ elems c1 ++
              post er (map elems cr)
            = elems (mkNode impl (cl0 ++ left :: c :: cr))) as EL.
    { rewrite Hview, map_app. cbn [map].
      rewrite pre_snoc by (rewrite length_map; lia).
      rewrite <- !app_assoc. cbn [app]. f_equal.
      rewrite (app_cons_assoc (elems left') (ll, lv) (elems c1)).
      rewrite (app_cons_assoc (elems left) (s, sv) (elems c)).
      rewrite Hrot. reflexivity. }
    assert (ksorted (pre (map elems cl0) el0 ++ elems left' ++ (ll, lv) :: elems c1 ++
                     post er (map elems cr))) as Hs'.
    { rewrite Hview in EL. rewrite <- EL in Hs. rewrite map_app in Hs. cbn [map] in Hs.
      rewrite pre_snoc in Hs by (rewrite length_map; lia).
      rewrite <- !app_assoc in Hs. exact Hs. }
    destruct (impl_insert_mid impl1 el0 ll lv er Hok1 He1) as [Hok2 He2].
    { eapply subseq_sorted; [|exact Hs'].
      apply subseq_app; [apply subseq_pre; rewrite length_map; lia|].
      apply subseq_skip_app. apply subseq_keep. apply subseq_skip_app.
      apply subseq_post. }
    assert (ksorted (elems c1)) as Hc1s.
    { eapply subseq_sorted; [|exact Hs']. apply subseq_skip_app.
      apply subseq_skip_app. apply subseq_skip. apply subseq_app_l. apply subseq_refl. }
    destruct (IH key c1 Hc1sh Hc1s) as (Hc'sh & Hc'e & Hc'b & Hc'sz); [lia|].
    cbv zeta in Hc'sh, Hc'e, Hc'b, Hc'sz.
    set (impl2 := LinearSearchMap.insert ll lv impl1) in *.
    destruct (BTree.Node_erase capacity_ fuel key c1) as [b c'].
    cbn [fst snd] in *. cbv beta iota in ER.
    rewrite (update_at_mid i) in ER by (rewrite length_app; simpl; lia).
    assert (ll < s)%Z as Hlls.
    { apply (ksorted_app_lt (elems left) ((s, sv) :: elems c) (ll, lv) (s, sv)); auto.
      - eapply subseq_sorted; [|exact Hs]. apply subseq_skip_app.
        apply subseq_app; [apply subseq_refl|]. apply subseq_keep.
        apply subseq_app_l. apply subseq_refl.
      - simpl. auto. }
    destruct (erase_descend h impl2 (cl0 ++ [left']) c1 c' cr (el0 ++ [(ll, lv)]) er key b)
      as (H1 & H2 & H3 & H4); auto; try lia.
    { rewrite He2, <- app_assoc. reflexivity. }
    { rewrite !length_app. simpl. lia. }
    { rewrite He2, length_app. simpl. rewrite length_app in Hlen. simpl in Hlen. lia. }
    { intros c0 Hc0. rewrite <- app_assoc in Hc0. cbn [app] in Hc0.
      apply in_mid_iff in Hc0. destruct Hc0 as [->|Hc0]; [split; auto; lia|].
      apply Hch. apply in_app_or in Hc0. apply in_or_app. simpl. tauto. }
    { rewrite EL, Hview. exact Hs. }
    { intros e He'. apply in_app_or in He'. destruct He' as [He'|[<-|[]]].
      - apply Hlo. apply in_or_app. auto.
      - assert (s < key)%Z by (apply (Hlo (s, sv)); apply in_or_app; simpl; auto).
        simpl. lia. }
    rewrite EL in H2, H3.
    eapply erase_ok_intro; [rewrite <- ER0; exact ER|exact H1|exact H2|exact H3|].
    rewrite H4, node_size_entries by auto. cbn [impl_].
    rewrite He2, Hlen, !length_app. simpl. lia.
  - (* borrow from the right sibling *)
    clear E1. apply andb_true_iff in E2. destruct E2 as [E2 E2'].
    apply Nat.ltb_lt in E2. apply Nat.leb_le in E2'.
    destruct cr as [|right cr0]; [simpl in E2; lia|].
    destruct er as [|[s sv] er0]; [discriminate|].
    cbn [length] in *.
    assert (BTree.child (mkNode impl (cl ++ c :: right :: cr0)) (i + 1) = right) as Hchr.
    { replace (cl ++ c :: right :: cr0) with ((cl ++ [c]) ++ right :: cr0)
        by (rewrite <- app_assoc; reflexivity).
      apply child_mid. rewrite length_app. simpl. lia. }
    rewrite Hchr in *.
    destruct (Hch right) as [Hrsh Hrmin]; [apply in_or_app; simpl; auto|].
    cbn [map post] in Hs, Hview. rewrite flat_cons in Hs, Hview.
    destruct (impl_at_mid impl el s sv er0 Hok He) as [Hat _].
    rewrite Hel in Hat. rewrite Hat in ER.
    destruct (impl_erase_mid impl el s sv er0 Hok He Hes) as (impl1 & Eer & Hok1 & He1).
    rewrite Eer in ER.
    assert (ksorted (elems c ++ (s, sv) :: elems right)) as Hsm'.
    { eapply subseq_sorted; [|exact Hs]. apply subseq_skip_app.
      apply subseq_app; [apply subseq_refl|]. apply subseq_keep.
      apply subseq_app_l. apply subseq_refl. }
    destruct (rotate_right_spec h c right s sv Hcsh Hrsh) as
      (rs & rv & rimpl & Hrat & Erer & Hrot); try lia; auto.
    rewrite Hrat, Erer in ER. cbv zeta in Hrot.
    set (p := if BTree.is_leaf right then _ else _) in *.
    rewrite (surjective_pairing p) in ER.
    set (right' := mkNode rimpl (fst p)) in *.
    set (c1 := mkNode (LinearSearchMap.insert s sv (impl_ c)) (snd p)) in *.
    destruct Hrot as (Hr'sh & Hc1sh & Hr'sz & Hc1sz & Hrot & Hrsin).
    replace (cl ++ c :: right :: cr0) with ((cl ++ [c]) ++ right :: cr0) in ER
      by (rewrite <- app_assoc; reflexivity).
    rewrite (update_at_mid (i + 1)) in ER by (rewrite length_app; simpl; lia).
    rewrite <- app_assoc in ER. cbn [app] in ER.
    assert (pre (map elems cl) el ++ elems c1 ++
              post ((rs, rv) :: er0) (map elems (right' :: cr0))
            = elems (mkNode impl (cl ++ c :: right :: cr0))) as EL.
    { rewrite Hview. cbn [map post]. rewrite flat_cons. f_equal.
      rewrite (app_cons_assoc (elems c1) (rs, rv) (elems right')).
      rewrite (app_cons_assoc (elems c) (s, sv) (elems right)).
      rewrite Hrot. reflexivity. }
    assert (ksorted (pre (map elems cl) el ++ elems c1 ++ (rs, rv) :: elems right' ++
                     post er0 (map elems cr0))) as Hs'.
    { rewrite Hview in EL. rewrite <- EL in Hs. cbn [map post] in Hs.
      rewrite flat_cons in Hs. exact Hs. }
    destruct (impl_insert_mid impl1 el rs rv er0 Hok1 He1) as [Hok2 He2].
    { eapply subseq_sorted; [|exact Hs'].
      apply subseq_app; [apply subseq_pre; rewrite length_map; lia|].
      apply subseq_skip_app. apply subseq_keep. apply subseq_skip_app.
      apply subseq_post. }
    assert (ksorted (elems c1)) as Hc1s.
    { eapply subseq_sorted; [|exact Hs']. apply subseq_mid_app. }
    destruct (IH key c1 Hc1sh Hc1s) as (Hc'sh & Hc'e & Hc'b & Hc'sz); [lia|].
    cbv zeta in Hc'sh, Hc'e, Hc'b, Hc'sz.
    set (impl2 := LinearSearchMap.insert rs rv impl1) in *.
    destruct (BTree.Node_erase capacity_ fuel key c1) as [b c'].
    cbn [fst snd] in *. cbv beta iota in ER.
    rewrite (update_at_mid i) in ER by exact Hcl.
    assert (s < rs)%Z as Hsrs.
    { apply ksorted_app_r in Hsm'.
      apply (ksorted_cons_lt (s, sv) (elems right) (rs, rv)); auto. }
    assert (key < s)%Z as Hks by (apply (Hhi (s, sv)); simpl; auto).
    destruct (erase_descend h impl2 cl c1 c' (right' :: cr0) el ((rs, rv) :: er0) key b)
      as (H1 & H2 & H3 & H4); auto; try lia.
    { rewrite He2, length_app. cbn [length]. lia. }
    { intros c0 Hc0. apply in_app_or in Hc0. destruct Hc0 as [Hc0|[<-|Hc0]].
      - apply Hch. apply in_or_app. auto.
      - split; auto. lia.
      - apply Hch. apply in_or_app. simpl. auto. }
    { rewrite EL, Hview. exact Hs. }
    { intros e [<-|He']; [simpl; lia|]. apply Hhi. simpl. auto. }
    rewrite EL in H2, H3.
    eapply erase_ok_intro; [rewrite <- ER0; exact ER|exact H1|exact H2|exact H3|].
    rewrite H4, node_size_entries by auto. cbn [impl_].
    rewrite He2, Hlen, !length_app. simpl. lia.
  - (* merge with the right sibling *)
    clear E1. cbn [andb] in E2.
    apply Nat.ltb_lt in E3. apply Nat.leb_gt in E2.
    destruct cr as [|right cr0]; [simpl in E3; lia|].
    destruct er as [|[s sv] er0]; [discriminate|].
    cbn [length] in *.
    assert (BTree.child (mkNode impl (cl ++ c :: right :: cr0)) (i + 1) = right) as Hchr.
    { replace (cl ++ c :: right :: cr0) with ((cl ++ [c]) ++ right :: cr0)
        by (rewrite <- app_assoc; reflexivity).
      apply child_mid. rewrite length_app. simpl. lia. }
    rewrite Hchr in *.
    destruct (Hch right) as [Hrsh Hrmin]; [apply in_or_app; simpl; auto|].
    cbn [map post] in Hs, Hview. rewrite flat_cons in Hs, Hview.
    destruct (impl_at_mid impl el s sv er0 Hok He) as [Hat _].
    rewrite Hel in Hat. rewrite Hat in ER.
    destruct (impl_erase_mid impl el s sv er0 Hok He Hes) as (impl1 & Eer & Hok1 & He1).
    rewrite Eer in ER.
    assert (ksorted (elems c ++ (s, sv) :: elems right)) as Hsm'.
    { eapply subseq_sorted; [|exact Hs]. apply subseq_skip_app.
      apply subseq_app; [apply subseq_refl|]. apply subseq_keep.
      apply subseq_app_l. apply subseq_refl. }
    destruct (merge_right_spec h c right s sv Hcsh Hrsh) as (Hc1sh & Hc1e & Hc1sz);
      auto; try lia.
    cbv zeta in Hc1sh, Hc1e, Hc1sz.
    set (c1 := mkNode (BTree.insert_all (impl_ right)
                         (LinearSearchMap.insert s sv (impl_ c))) _) in *.
    assert (ksorted (elems c1)) as Hc1s by (rewrite Hc1e; exact Hsm').
    destruct (IH key c1 Hc1sh Hc1s) as (Hc'sh & Hc'e & Hc'b & Hc'sz); [lia|].
    cbv zeta in Hc'sh, Hc'e, Hc'b, Hc'sz.
    destruct (BTree.Node_erase capacity_ fuel key c1) as [b c'].
    cbn [fst snd] in *. cbv beta iota in ER.
    replace (cl ++ c :: right :: cr0) with ((cl ++ [c]) ++ right :: cr0) in ER
      by (rewrite <- app_assoc; reflexivity).
    rewrite (remove_at_mid (i + 1)) in ER by (rewrite length_app; simpl; lia).
    rewrite <- app_assoc in ER. cbn [app] in ER.
    rewrite (update_at_mid i) in ER by exact Hcl.
    assert (pre (map elems cl) el ++ elems c1 ++ post er0 (map elems cr0)
            = elems (mkNode impl (cl ++ c :: right :: cr0))) as EL.
    { rewrite Hview, Hc1e. rewrite <- !app_assoc. reflexivity. }
    destruct (erase_descend h impl1 cl c1 c' cr0 el er0 key b)
      as (H1 & H2 & H3 & H4); auto; try lia.
    { rewrite He1, length_app. lia. }
    { intros c0 Hc0. apply in_app_or in Hc0. destruct Hc0 as [Hc0|Hc0].
      - apply Hch. apply in_or_app. auto.
      - apply Hch. apply in_or_app. simpl. auto. }
    { rewrite EL, Hview. exact Hs. }
    { intros e He'. apply Hhi. simpl. auto. }
    rewrite EL in H2, H3.
    eapply erase_ok_intro; [rewrite <- ER0; exact ER|exact H1|exact H2|exact H3|].
    rewrite H4, node_size_entries by auto. cbn [impl_].
    rewrite He1, Hlen, !length_app. simpl. lia.
  - (* merge with the left sibling *)
    apply Nat.ltb_ge in E3.
    destruct cr as [|? ?]; [|simpl in E3; lia].
    destruct er as [|? ?]; [|discriminate].
    cbn [length] in *. rewrite Nat.add_0_r in Hlen.
    assert (0 < i) as Hi0 by lia.
    apply Nat.ltb_lt in Hi0. rewrite Hi0 in E1. cbn [andb] in E1.
    apply Nat.ltb_lt in Hi0. apply Nat.leb_gt in E1.
    destruct (snoc_of_length cl (i - 1)) as (cl0 & left & Ecl & Hcl0); [lia|].
    destruct (snoc_of_length el (i - 1)) as (el0 & [s sv] & Eel & Hel0); [lia|].
    subst cl el. rewrite <- !app_assoc in *. cbn [app] in *.
    rewrite (child_mid impl cl0 left [c] (i - 1) Hcl0) in *.
    destruct (Hch left) as [Hlsh Hlmin]; [apply in_or_app; simpl; auto|].
    rewrite map_app in Hs, Hview. cbn [map] in Hs, Hview.
    rewrite pre_snoc in Hs, Hview by (rewrite length_map; lia).
    rewrite <- !app_assoc in Hs, Hview. cbn [app post] in Hs, Hview.
    rewrite app_nil_r in Hs, Hview.
    destruct (impl_at_mid impl el0 s sv [] Hok He) as [Hat _].
    rewrite Hel0 in Hat. rewrite Hat in ER.
    destruct (impl_erase_mid impl el0 s sv [] Hok He Hes) as (impl1 & Eer & Hok1 & He1).
    rewrite Eer in ER.
    assert (ksorted (elems left ++ (s, sv) :: elems c)) as Hsm'.
    { eapply subseq_sorted; [|exact Hs]. apply subseq_skip_app. apply subseq_refl. }
    destruct (merge_left_spec h left c s sv Hlsh Hcsh) as (Hc1sh & Hc1e & Hc1sz);
      auto; try lia.
    cbv zeta in Hc1sh, Hc1e, Hc1sz.
    set (c1 := mkNode (BTree.insert_all (impl_ left)
                         (LinearSearchMap.insert s sv (impl_ c))) _) in *.
    assert (ksorted (elems c1)) as Hc1s by (rewrite Hc1e; exact Hsm').
    destruct (IH key c1 Hc1sh Hc1s) as (Hc'sh & Hc'e & Hc'b & Hc'sz); [lia|].
    cbv zeta in Hc'sh, Hc'e, Hc'b, Hc'sz.
    destruct (BTree.Node_erase capacity_ fuel key c1) as [b c'].
    cbn [fst snd] in *. cbv beta iota in ER.
    rewrite (remove_at_mid (i - 1)) in ER by exact Hcl0.
    rewrite (update_at_mid (i - 1)) in ER by exact Hcl0.
    assert (pre (map elems cl0) el0 ++ elems c1 ++ post [] (map elems [])
            = elems (mkNode impl (cl0 ++ [left; c]))) as EL.
    { rewrite Hview, Hc1e. cbn [post]. rewrite app_nil_r. reflexivity. }
    destruct (erase_descend h impl1 cl0 c1 c' [] el0 [] key b)
      as (H1 & H2 & H3 & H4); auto; try lia.
    { rewrite He1, app_nil_r. rewrite length_app in Hlen. cbn [length] in Hlen. lia. }
    { intros c0 Hc0. rewrite app_nil_r in Hc0.
      apply Hch. apply in_or_app. auto. }
    { change (@nil (list (Z * Z))) with (map elems []).
      rewrite EL, Hview. exact Hs. }
    { intros e He'. apply Hlo. apply in_or_app. auto. }
    change (@nil (list (Z * Z))) with (map elems []) in H2, H3.
    rewrite EL in H2, H3.
    eapply erase_ok_intro; [rewrite <- ER0; exact ER|exact H1|exact H2|exact H3|].
    rewrite H4, node_size_entries by auto. cbn [impl_].
    rewrite He1, Hlen, !length_app. simpl. lia.
Qed.

Lemma Node_erase_spec h : forall fuel key n,
  h <= fuel -> shape capacity_ h n -> ksorted (elems n) ->
  (0 < h -> 1 <= BTree.node_size n) -> erase_ok h fuel key n.
Proof.
  induction h as [|h IH]; intros fuel key n Hfuel Hsh Hs Hn1.
  - apply Node_erase_spec_leaf; auto.
  - destruct fuel as [|fuel]; [lia|].
    pose proof (shape_impl_ok _ _ Hsh) as Hok.
    pose proof (elems_sorted_entries n Hs) as Hes.
    destruct (descent_cases (impl_ n) key Hok Hes) as [[Hf Hex]|[Hnf Hlt]].
    + apply Node_erase_spec_found; auto; try lia.
      intros key' c H1 H2 H3. apply IH; auto. lia.
    + apply Node_erase_spec_descend; auto; try lia.
      intros key' c H1 H2 H3. apply IH; auto. lia.
Qed.

(** The in-node successor search gives the child to descend into. *)
Lemma successor_index n x :
  impl_ok (impl_ n) -> ksorted (entries (impl_ n)) ->
  let r := LinearSearchMap.successor (impl_ n) x in
  let i := cnt_lt x (keys (entries (impl_ n))) in
  l_exists r = (i <? length (entries (impl_ n))) /\
  (l_exists r = true -> l_pos r = i).
Proof.
  intros Hok Hs. unfold LinearSearchMap.successor.
  rewrite <- (keys_entries (impl_ n) Hok).
  apply node_successor_spec. exact Hs.
Qed.

Lemma query_eta q : mkQuery (exists_ q) (key q) (value q) = q.
Proof. destruct q; reflexivity. Qed.

Lemma predecessor_loop_spec h : forall fuel x n acc,
  h <= fuel -> shape capacity_ h n -> ksorted (elems n) ->
  BTree.predecessor_loop fuel x n acc = query_of (pred_in x (elems n)) acc.
Proof.
  induction h as [|h IH]; intros fuel x n acc Hfuel Hsh Hs.
  - pose proof (shape_0_leaf n Hsh) as Hleaf.
    destruct Hsh as (Hok & _ & Hc).
    assert (elems n = entries (impl_ n)) as En by (rewrite elems_eq, Hc; reflexivity).
    rewrite En in *.
    assert (BTree.predecessor_loop fuel x n acc =
            let r := LinearSearchMap.predecessor (impl_ n) x in
            mkQuery (exists_ acc || l_exists r)
              (if l_exists r then LinearSearchMap.at_ (impl_ n) (l_pos r) else key acc)
              (if l_exists r then LinearSearchMap.value (impl_ n) (l_pos r) else value acc))
      as ->.
    { destruct fuel; simpl; rewrite Hleaf; reflexivity. }
    cbv zeta.
    pose proof (descent_index n x Hok Hs) as Hidx. cbv zeta in Hidx.
    unfold LinearSearchMap.predecessor in *. rewrite <- (keys_entries _ Hok) in *.
    destruct (node_predecessor_spec (entries (impl_ n)) x Hs) as [H1 H2].
    set (r := LinearSearchBase.predecessor (keys (entries (impl_ n))) x) in *.
    set (i := cnt_le x (keys (entries (impl_ n)))) in *.
    assert (i <= length (entries (impl_ n))) as Hi.
    { unfold i. pose proof (cnt_le_bound x (keys (entries (impl_ n)))) as Hb.
      unfold keys in Hb at 2. rewrite length_map in Hb. exact Hb. }
    destruct (split_at_len i (entries (impl_ n)) Hi) as (el & er & He & Hel).
    assert (el = firstn i (entries (impl_ n))) as Eel
      by (rewrite He; symmetry; apply firstn_mid'; exact Hel).
    assert (er = skipn i (entries (impl_ n))) as Eer
      by (rewrite He; symmetry; apply skipn_mid'; exact Hel).
    replace (pred_in x (entries (impl_ n))) with (pred_in x (el ++ er))
      by (rewrite <- He; reflexivity).
    rewrite pred_in_app_le by (intros a; rewrite Eel; apply cnt_le_firstn).
    rewrite pred_in_gt_none by (intros a; rewrite Eer; apply cnt_le_skipn; exact Hs).
    cbn [or_else].
    destruct (l_exists r) eqn:Ex.
    + specialize (H2 eq_refl).
      destruct (snoc_of_length el (l_pos r)) as (el0 & [k v] & Eel0 & Hel0); [lia|].
      rewrite Eel0 in He. rewrite <- app_assoc in He. cbn [app] in He.
      destruct (impl_at_mid (impl_ n) el0 k v er Hok He) as [Hat Hval].
      rewrite Hel0 in Hat, Hval. rewrite Hat, Hval, Eel0, last_opt_snoc.
      rewrite orb_true_r. reflexivity.
    + symmetry in H1. apply Nat.ltb_ge in H1.
      assert (el = []) as -> by (destruct el; [reflexivity|simpl in Hel; lia]).
      rewrite orb_false_r. apply query_eta.
  - destruct fuel as [|fuel]; [lia|].
    pose proof (shape_S_not_leaf h n Hsh) as Hleaf.
    pose proof (shape_impl_ok _ _ Hsh) as Hok.
    pose proof (elems_sorted_entries n Hs) as Hes.
    cbn [BTree.predecessor_loop]. rewrite Hleaf.
    rewrite (descent_index n x Hok Hes).
    set (i := cnt_le x (keys (entries (impl_ n)))) in *.
    assert (i <= BTree.node_size n) as Hi.
    { rewrite node_size_entries by auto. unfold i.
      pose proof (cnt_le_bound x (keys (entries (impl_ n)))) as Hb.
      unfold keys in Hb at 2. rewrite length_map in Hb. exact Hb. }
    destruct (child_view h n i Hsh Hi)
      as (el & er & cl & c & cr & Eel & Eer & He & Hc & Hel & Hcl & Hcr & Hci & Hcsh & Hcmin & Hview).
    rewrite Hview in Hs. rewrite Hview, Hci.
    destruct (frame_bounds (map elems cl) el (elems c) er (map elems cr) x Hs)
      as [Hpre Hpost].
    { rewrite length_map. exact Hcr. }
    { intros e. rewrite Eel. apply cnt_le_firstn. }
    { intros e. rewrite Eer. apply cnt_le_skipn. exact Hes. }
    rewrite pred_in_app_le by exact Hpre.
    rewrite pred_in_app_gt by exact Hpost.
    assert (ksorted (elems c)) as Hcs.
    { eapply subseq_sorted; [|exact Hs]. apply subseq_mid_app. }
    rewrite (IH fuel x c _ ltac:(lia) Hcsh Hcs).
    unfold LinearSearchMap.predecessor in *. rewrite <- (keys_entries _ Hok) in *.
    destruct (node_predecessor_spec (entries (impl_ n)) x Hes) as [H1 H2].
    set (r := LinearSearchBase.predecessor (keys (entries (impl_ n))) x) in *.
    fold i in H1, H2.
    destruct (l_exists r) eqn:Ex.
    + specialize (H2 eq_refl).
      destruct (snoc_of_length el (l_pos r)) as (el0 & [k v] & Eel0 & Hel0); [lia|].
      destruct (snoc_of_length cl (l_pos r)) as (cl0 & c0 & Ecl0 & Hcl0); [lia|].
      rewrite Eel0 in He. rewrite <- app_assoc in He. cbn [app] in He.
      destruct (impl_at_mid (impl_ n) el0 k v er Hok He) as [Hat Hval].
      rewrite Hel0 in Hat, Hval. rewrite Hat, Hval. clear Hat Hval.
      assert (last_opt (pre (map elems cl) el) = Some (k, v)) as Hlast.
      { rewrite Eel0, Ecl0, map_app. cbn [map].
        rewrite pre_snoc by (rewrite length_map; lia).
        rewrite !app_assoc. apply last_opt_snoc. }
      rewrite Hlast. rewrite orb_true_r. cbn [andb].
      destruct (k =? x)%Z eqn:Ek.
      * apply Z.eqb_eq in Ek. subst k.
        rewrite pred_in_gt_none; [reflexivity|].
        intros a Ha.
        assert (fst (x, v) < fst a)%Z; [|simpl in *; lia].
        apply (ksorted_app_lt (pre (map elems cl) el) (elems c ++ post er (map elems cr)));
          auto.
        -- apply in_pre_sep; [rewrite length_map; lia|].
           rewrite Eel0. apply in_or_app. simpl. auto.
        -- apply in_or_app. auto.
      * destruct (pred_in x (elems c)) as [[k' v']|]; reflexivity.
    + symmetry in H1. apply Nat.ltb_ge in H1.
      assert (el = []) as -> by (destruct el; [reflexivity|simpl in Hel; lia]).
      assert (cl = []) as -> by (destruct cl; [reflexivity|simpl in Hcl; lia]).
      cbn [andb map pre last_opt]. rewrite orb_false_r. rewrite query_eta.
      destruct (pred_in x (elems c)) as [[k' v']|]; reflexivity.
Qed.

Lemma successor_loop_spec h : forall fuel x n acc,
  h <= fuel -> shape capacity_ h n -> ksorted (elems n) ->
  BTree.successor_loop fuel x n acc = query_of (succ_in x (elems n)) acc.
Proof.
  induction h as [|h IH]; intros fuel x n acc Hfuel Hsh Hs.
  - pose proof (shape_0_leaf n Hsh) as Hleaf.
    destruct Hsh as (Hok & _ & Hc).
    assert (elems n = entries (impl_ n)) as En by (rewrite elems_eq, Hc; reflexivity).
    rewrite En in *.
    assert (BTree.successor_loop fuel x n acc =
            let r := LinearSearchMap.successor (impl_ n) x in
            mkQuery (exists_ acc || l_exists r)
              (if l_exists r then LinearSearchMap.at_ (impl_ n) (l_pos r) else key acc)
              (if l_exists r then LinearSearchMap.value (impl_ n) (l_pos r) else value acc))
      as ->.
    { destruct fuel; simpl; rewrite Hleaf; reflexivity. }
    cbv zeta.
    destruct (successor_index n x Hok Hs) as [H1 H2].
    set (r := LinearSearchMap.successor (impl_ n) x) in *.
    set (i := cnt_lt x (keys (entries (impl_ n)))) in *.
    assert (i <= length (entries (impl_ n))) as Hi.
    { unfold i. pose proof (cnt_lt_bound x (keys (entries (impl_ n)))) as Hb.
      unfold keys in Hb at 2. rewrite length_map in Hb. exact Hb. }
    destruct (split_at_len i (entries (impl_ n)) Hi) as (el & er & He & Hel).
    assert (el = firstn i (entries (impl_ n))) as Eel
      by (rewrite He; symmetry; apply firstn_mid'; exact Hel).
    assert (er = skipn i (entries (impl_ n))) as Eer
      by (rewrite He; symmetry; apply skipn_mid'; exact Hel).
    replace (succ_in x (entries (impl_ n))) with (succ_in x (el ++ er))
      by (rewrite <- He; reflexivity).
    rewrite succ_in_app_lt by (intros a; rewrite Eel; apply cnt_lt_firstn).
    assert (forall e, In e er -> (x <= fst e)%Z) as Hge
      by (intros e; rewrite Eer; apply cnt_lt_skipn; exact Hs).
    destruct (l_exists r) eqn:Ex.
    + specialize (H2 eq_refl). symmetry in H1. apply Nat.ltb_lt in H1.
      destruct er as [|[k v] er0].
      { rewrite He, length_app in H1. simpl in H1. lia. }
      destruct (impl_at_mid (impl_ n) el k v er0 Hok He) as [Hat Hval].
      rewrite Hel, <- H2 in Hat, Hval. rewrite Hat, Hval.
      assert (x <= k)%Z as Hk by (apply (Hge (k, v)); simpl; auto).
      cbn [succ_in fst]. apply Z.leb_le in Hk. rewrite Hk.
      rewrite orb_true_r. reflexivity.
    + symmetry in H1. apply Nat.ltb_ge in H1.
      assert (er = []) as ->.
      { destruct er; [reflexivity|]. rewrite He, length_app in H1. simpl in H1. lia. }
      rewrite orb_false_r. apply query_eta.
  - destruct fuel as [|fuel]; [lia|].
    pose proof (shape_S_not_leaf h n Hsh) as Hleaf.
    pose proof (shape_impl_ok _ _ Hsh) as Hok.
    pose proof (elems_sorted_entries n Hs) as Hes.
    cbn [BTree.successor_loop]. rewrite Hleaf.
    destruct (successor_index n x Hok Hes) as [H1 H2].
    set (r := LinearSearchMap.successor (impl_ n) x) in *.
    set (i := cnt_lt x (keys (entries (impl_ n)))) in *.
    assert (i <= BTree.node_size n) as Hi.
    { rewrite node_size_entries by auto. unfold i.
      pose proof (cnt_lt_bound x (keys (entries (impl_ n)))) as Hb.
      unfold keys in Hb at 2. rewrite length_map in Hb. exact Hb. }
    assert ((if l_exists r then l_pos r else BTree.num_children n - 1) = i) as Hidx.
    { destruct (l_exists r); [auto|].
      symmetry in H1. apply Nat.ltb_ge in H1.
      destruct Hsh as (_ & _ & Hl & _). unfold BTree.num_children. rewrite Hl.
      rewrite node_size_entries in * by auto. lia. }
    rewrite Hidx.
    destruct (child_view h n i Hsh Hi)
      as (el & er & cl & c & cr & Eel & Eer & He & Hc & Hel & Hcl & Hcr & Hci & Hcsh & Hcmin & Hview).
    rewrite Hview in Hs. rewrite Hview, Hci.
    destruct (frame_bounds (map elems cl) el (elems c) er (map elems cr) (x - 1) Hs)
      as [Hpre Hpost].
    { rewrite length_map. exact Hcr. }
    { intros e. rewrite Eel. intros H. apply cnt_lt_firstn in H. lia. }
    { intros e. rewrite Eer. intros H. apply cnt_lt_skipn in H; auto. lia. }
    rewrite succ_in_app_lt by (intros a Ha; apply Hpre in Ha; lia).
    rewrite succ_in_app_ge by (intros a Ha; apply Hpost in Ha; lia).
    assert (ksorted (elems c)) as Hcs.
    { eapply subseq_sorted; [|exact Hs]. apply subseq_mid_app. }
    rewrite (IH fuel x c _ ltac:(lia) Hcsh Hcs).
    destruct (l_exists r) eqn:Ex.
    + specialize (H2 eq_refl). symmetry in H1. apply Nat.ltb_lt in H1.
      destruct er as [|[k v] er0].
      { rewrite He, length_app in H1. simpl in H1. lia. }
      destruct (impl_at_mid (impl_ n) el k v er0 Hok He) as [Hat Hval].
      rewrite Hel, <- H2 in Hat, Hval. rewrite Hat, Hval. clear Hat Hval.
      cbn [post hd_error]. rewrite orb_true_r. cbn [andb].
      destruct (k =? x)%Z eqn:Ek.
      * apply Z.eqb_eq in Ek. subst k.
        rewrite succ_in_lt_none; [reflexivity|].
        intros a Ha.
        assert (fst a < fst (x, v))%Z; [|simpl in *; lia].
        apply ksorted_app_r in Hs.
        apply (ksorted_app_lt (elems c) (post ((x, v) :: er0) (map elems cr)));
          simpl; auto.
      * destruct (succ_in x (elems c)) as [[k' v']|]; reflexivity.
    + symmetry in H1. apply Nat.ltb_ge in H1.
      assert (er = []) as ->.
      { destruct er; [reflexivity|]. rewrite node_size_entries in Hi by auto.
        rewrite He, length_app in H1, Hi. simpl in *. lia. }
      cbn [andb post hd_error]. rewrite orb_false_r. rewrite query_eta.
      destruct (succ_in x (elems c)) as [[k' v']|]; reflexivity.
Qed.

(** ** The tree as a whole *)

(** [tree_inv t l]: [t] is balanced, holds the entries [l] in order, its
    size counter is right, and its root is a leaf or holds a key. *)
Definition tree_inv (t : BTree.BTree) (l : list (Z * Z)) : Prop :=
  exists h, shape capacity_ h (BTree.root_ t) /\ elems (BTree.root_ t) = l /\
            ksorted l /\ BTree.size_ t = length l /\
            (0 < h -> 1 <= BTree.node_size (BTree.root_ t)).

Lemma new_inv : tree_inv BTree.new [].
Proof.
  exists 0. cbn. repeat split; auto; try lia.
Qed.

Lemma insert_inv t l k v :
  tree_inv t l -> ~ In k (keys l) -> tree_inv (BTree.insert capacity_ k v t) (ins k v l).
Proof.
  intros (h & Hsh & He & Hs & Hsz & Hr1) Hnin.
  destruct cap_facts as (t0 & Hcap & Ht & Hnc & Hsr & Hsm & Hth & Hmin).
  unfold BTree.insert. destruct t as [sz root]. cbn [BTree.root_ BTree.size_] in *.
  subst l.
  destruct (BTree.is_full capacity_ root) eqn:Efull.
  - apply Nat.eqb_eq in Efull. unfold BTree.node_capacity in Efull.
    unfold BTree.insert_child.
    change (mkNode (impl_ Node_new) (insert_at 0 root (children_ Node_new)))
      with (mkNode LinearSearchMap.empty ([] ++ root :: @nil Node)).
    destruct (split_child_spec h LinearSearchMap.empty [] root [] [] [] 0)
      as (impl1 & y' & z & m & vm & Esp & Hok1 & He1 & Hy' & Hz & Hsy & Hsz' & Ec);
      auto; try reflexivity.
    { intros a b []. }
    { intros a b _ []. }
    rewrite Esp. cbn [app] in *.
    assert (capacity_ / 2 = t0) as Hhalf by (rewrite <- Hsr; reflexivity).
    rewrite Hhalf in *.
    assert (shape capacity_ (S h) (mkNode impl1 [y'; z])) as Hsh1.
    { apply shape_node; auto.
      - rewrite He1. simpl. lia.
      - rewrite He1. reflexivity.
      - intros c0 [<-|[<-|[]]]; split; auto; lia. }
    assert (elems (mkNode impl1 [y'; z]) = elems root) as He1'.
    { rewrite (elems_eq (mkNode _ _)). cbn [impl_ children_ map].
      rewrite He1. cbn [flat]. rewrite Ec. reflexivity. }
    rewrite (shape_depth _ _ Hsh1).
    destruct (Node_insert_spec (S h) (S h) k v (mkNode impl1 [y'; z]))
      as (H1 & H2 & H3); auto.
    { rewrite He1'. exact Hs. }
    { rewrite He1'. exact Hnin. }
    { rewrite node_size_entries by auto. cbn [impl_]. rewrite He1. simpl. lia. }
    exists (S h). cbn [BTree.root_ BTree.size_].
    split; [exact H1|]. split; [rewrite H2, He1'; reflexivity|].
    split; [apply ins_sorted; auto|]. split; [rewrite ins_length; lia|].
    intros _. rewrite node_size_entries in H3 by auto. cbn [impl_] in H3.
    rewrite He1 in H3. cbn [length] in H3. lia.
  - apply Nat.eqb_neq in Efull. unfold BTree.node_capacity in Efull.
    pose proof (shape_size _ _ Hsh) as Hle.
    rewrite (shape_depth _ _ Hsh).
    destruct (Node_insert_spec h h k v root) as (H1 & H2 & H3); auto; try lia.
    exists h. cbn [BTree.root_ BTree.size_].
    split; [exact H1|]. split; [exact H2|].
    split; [apply ins_sorted; auto|]. split; [rewrite ins_length; lia|].
    intros Hh. specialize (Hr1 Hh). lia.
Qed.

Lemma del_length_dec k l :
  length (del k l) = if in_dec Z.eq_dec k (keys l) then length l - 1 else length l.
Proof.
  destruct (in_dec Z.eq_dec k (keys l)) as [H|H].
  - pose proof (del_length k l H). lia.
  - rewrite del_notin by auto. reflexivity.
Qed.

Lemma erase_inv t l k :
  tree_inv t l ->
  tree_inv (snd (BTree.erase capacity_ k t)) (del k l) /\
  (fst (BTree.erase capacity_ k t) = true <-> In k (keys l)).
Proof.
  intros (h & Hsh & He & Hs & Hsz & Hr1).
  destruct cap_facts as (t0 & Hcap & Ht & Hnc & Hsr & Hsm & Hth & Hmin).
  unfold BTree.erase. destruct t as [sz root]. cbn [BTree.root_ BTree.size_] in *.
  subst l. rewrite (shape_depth _ _ Hsh).
  destruct (Node_erase_spec h h k root (Nat.le_refl _) Hsh Hs Hr1)
    as (H1 & H2 & H3 & H4).
  cbv zeta in H1, H2, H3, H4.
  destruct (BTree.Node_erase capacity_ h k root) as [b root1].
  cbn [fst snd] in *. split; [|exact H3].
  assert ((if b then sz - 1 else sz) = length (del k (elems root))) as Hsz'.
  { rewrite del_length_dec.
    destruct (in_dec Z.eq_dec k (keys (elems root))) as [Hin|Hin].
    - apply H3 in Hin. subst b. lia.
    - destruct b; [exfalso; apply Hin; apply H3; reflexivity|lia]. }
  pose proof (del_sorted k _ Hs) as Hds.
  destruct ((BTree.node_size root1 =? 0) && (0 <? BTree.num_children root1)) eqn:Ecol.
  - (* the root has become empty: its only child is the new root *)
    apply andb_true_iff in Ecol. destruct Ecol as [E0 Ech].
    apply Nat.eqb_eq in E0. apply Nat.ltb_lt in Ech.
    destruct h as [|h].
    { destruct H1 as (_ & _ & Hc). unfold BTree.num_children in Ech.
      rewrite Hc in Ech. simpl in Ech. lia. }
    destruct (child_view h root1 0 H1 (Nat.le_0_l _))
      as (el & er & cl & c & cr & Eel & Eer & He & Hc & Hel & Hcl & Hcr & Hci & Hcsh & Hcmin & Hview).
    pose proof (shape_impl_ok _ _ H1) as Hok1.
    rewrite node_size_entries in E0 by auto.
    destruct el; [|discriminate]. destruct cl; [|discriminate].
    destruct er; [|rewrite He in E0; discriminate].
    destruct cr; [|discriminate].
    cbn [map pre post app] in Hview. rewrite app_nil_r in Hview.
    exists h. cbn [BTree.root_ BTree.size_]. rewrite Hci.
    split; [exact Hcsh|]. split; [rewrite <- Hview; exact H2|].
    split; [exact Hds|]. split; [exact Hsz'|]. intros _. lia.
  - exists h. cbn [BTree.root_ BTree.size_].
    split; [exact H1|]. split; [exact H2|].
    split; [exact Hds|]. split; [exact Hsz'|].
    intros Hh. apply andb_false_iff in Ecol. destruct Ecol as [E0|Ech].
    + apply Nat.eqb_neq in E0. lia.
    + apply Nat.ltb_ge in Ech. destruct h as [|h]; [lia|].
      destruct H1 as (_ & _ & Hl & _). unfold BTree.num_children in Ech. lia.
Qed.

Lemma predecessor_inv t l x :
  tree_inv t l ->
  BTree.predecessor t x = query_of (pred_in x l) (mkQuery false 0 0).
Proof.
  intros (h & Hsh & He & Hs & Hsz & Hr1). unfold BTree.predecessor.
  rewrite (shape_depth _ _ Hsh). subst l.
  apply (predecessor_loop_spec h); auto.
Qed.

Lemma successor_inv t l x :
  tree_inv t l ->
  BTree.successor t x = query_of (succ_in x l) (mkQuery false 0 0).
Proof.
  intros (h & Hsh & He & Hs & Hsz & Hr1). unfold BTree.successor.
  rewrite (shape_depth _ _ Hsh). subst l.
  apply (successor_loop_spec h); auto.
Qed.

Lemma find_inv t l x :
  tree_inv t l ->
  BTree.find t x = match lookup x l with
                   | Some v => mkQuery true x v
                   | None => QueryResult_none
                   end.
Proof.
  intros Hinv. unfold BTree.find. rewrite (predecessor_inv t l x Hinv).
  destruct Hinv as (h & Hsh & He & Hs & Hsz & Hr1).
  destruct (BTree.size_ t =? 0) eqn:E0.
  - apply Nat.eqb_eq in E0. destruct l; [reflexivity|simpl in Hsz; lia].
  - pose proof (pred_in_spec x l Hs) as Hp.
    destruct (pred_in x l) as [[k v]|]; cbn [query_of exists_ key andb].
    + destruct Hp as (Hin & Hle & Hmax). cbn [fst] in *.
      destruct (k =? x)%Z eqn:Ek.
      * apply Z.eqb_eq in Ek. subst k. rewrite (in_lookup x v l Hs Hin). reflexivity.
      * apply Z.eqb_neq in Ek.
        assert (lookup x l = None) as ->; [|reflexivity].
        apply lookup_none. intros Hx. apply in_keys_iff in Hx.
        destruct Hx as (v' & Hx). specialize (Hmax _ Hx). cbn [fst] in Hmax. lia.
    + assert (lookup x l = None) as ->; [|reflexivity].
      apply lookup_none. intros Hx. apply in_keys_iff in Hx.
      destruct Hx as (v' & Hx). specialize (Hp _ Hx). cbn [fst] in Hp. lia.
Qed.

Lemma contains_inv t l x :
  tree_inv t l -> (BTree.contains t x = true <-> In x (keys l)).
Proof.
  intros Hinv. unfold BTree.contains. rewrite (find_inv t l x Hinv).
  rewrite <- lookup_some_iff.
  destruct (lookup x l) as [v|]; cbn; split; eauto; try discriminate.
  intros (v & H). discriminate.
Qed.

Lemma run_inv_from ops : forall t l,
  valid_from l ops -> tree_inv t l ->
  tree_inv (fold_left (apply_op capacity_) ops t) (fold_left model_op ops l).
Proof.
  induction ops as [|o ops IH]; intros t l Hv Hinv; simpl in *; auto.
  destruct Hv as [Hv1 Hv2]. apply IH; auto.
  destruct o as [k v|k]; simpl.
  - apply insert_inv; auto.
  - apply erase_inv; auto.
Qed.

Lemma run_inv ops :
  valid ops -> tree_inv (run capacity_ ops) (fold_left model_op ops []).
Proof. intros Hv. apply run_inv_from; auto. apply new_inv. Qed.

Lemma model_is_live ops k :
  valid ops -> (In k (keys (fold_left model_op ops [])) <-> is_live ops k).
Proof.
  intros Hv. unfold is_live, live_value.
  rewrite <- lookup_some_iff. rewrite (model_live [] ops k Hv I). simpl.
  destruct (fold_left (live_step k) ops None); split; eauto; try congruence.
  intros (v & H). discriminate.
Qed.

Lemma model_live_value ops k v :
  valid ops -> In (k, v) (fold_left model_op ops []) -> live_value ops k = Some v.
Proof.
  intros Hv Hin. unfold live_value.
  pose proof (model_live [] ops k Hv I) as H. cbn [lookup] in H. rewrite <- H.
  apply in_lookup; auto. apply model_sorted; simpl; auto.
Qed.

Lemma valid_from_app l a b :
  valid_from l (a ++ b) <-> valid_from l a /\ valid_from (fold_left model_op a l) b.
Proof.
  revert l. induction a as [|o a IH]; intros l; cbn [app valid_from fold_left].
  - tauto.
  - rewrite IH. tauto.
Qed.

Lemma model_nonempty ops :
  valid ops -> (fold_left model_op ops [] <> [] <-> exists k, is_live ops k).
Proof.
  intros Hv. split.
  - intros Hne. destruct (fold_left model_op ops []) as [|e l] eqn:E; [congruence|].
    exists (fst e). apply (model_is_live ops (fst e) Hv). rewrite E. left. reflexivity.
  - intros (k & Hk) E. apply (model_is_live ops k Hv) in Hk. rewrite E in Hk. exact Hk.
Qed.

Lemma contract_valid ops : contract ops <-> valid ops.
Proof.
  split.
  - induction ops as [|o pre IH] using rev_ind; intros Hc; [exact I|].
    assert (valid pre) as Hpre.
    { apply IH. intros p o' q E. apply (Hc p o' (q ++ [o])).
      rewrite E, <- app_assoc. reflexivity. }
    apply (valid_from_app [] pre [o]). split; [exact Hpre|].
    cbn [valid_from]. split; [|exact I].
    specialize (Hc pre o [] eq_refl). destruct o as [k v|k].
    + intros Hin. apply Hc. apply (model_is_live pre k Hpre). exact Hin.
    + apply (model_nonempty pre Hpre). exact Hc.
  - intros Hv pre o post E. rewrite E in Hv.
    apply (valid_from_app [] pre (o :: post)) in Hv. destruct Hv as [Hpre [Ho _]].
    destruct o as [k v|k].
    + intros Hl. apply Ho. apply (model_is_live pre k Hpre). exact Hl.
    + apply (model_nonempty pre Hpre). exact Ho.
Qed.

Lemma shape_leaf_depths h : forall n,
  shape capacity_ h n ->
  (forall d, In d (leaf_depths n) -> d = h) /\
  (forall s, In s (nonroot_sizes n) -> min_keys capacity_ <= s).
Proof.
  induction h as [|h IH]; intros [impl cs] Hsh.
  - destruct Hsh as (_ & _ & Hc). cbn [children_] in Hc. subst cs.
    split; simpl; [intros d [<-|[]]; reflexivity|tauto].
  - destruct Hsh as (Hok & _ & Hl & Hch). cbn [children_ impl_] in *.
    destruct cs as [|c cs]; [discriminate|]. split.
    + intros d Hd. cbn [leaf_depths] in Hd. apply in_map_iff in Hd.
      destruct Hd as (d' & <- & Hd'). apply in_flat_map in Hd'.
      destruct Hd' as (c' & Hc' & Hd'). f_equal.
      destruct (Hch c' Hc') as [Hc'sh _]. apply (IH c' Hc'sh). exact Hd'.
    + intros s Hs. unfold nonroot_sizes in Hs. cbn [children_] in Hs.
      apply in_flat_map in Hs. destruct Hs as (c' & Hc' & Hs).
      destruct (Hch c' Hc') as [Hc'sh Hc'min].
      destruct c' as [impl' cs']. cbn [subtree_sizes] in Hs.
      destruct Hs as [<-|Hs]; [exact Hc'min|].
      apply (IH _ Hc'sh). exact Hs.
Qed.

(** C3. After any sequence of inserts and erases that respects the
    container's contract (no insert of a present key, no erase on an empty
    map), [contains k] holds exactly when [k] was inserted and not yet
    erased; [predecessor k] reports the largest such key not above [k]
    together with the value it was inserted with, and [exists = false] when
    there is none; [successor k] is symmetric. *)
Theorem btree_map_queries_correct (ops : list op) (k : Z) :
  contract ops ->
  let t := run capacity_ ops in
  (BTree.contains t k = true <-> is_live ops k) /\
  (let r := BTree.predecessor t k in
   if exists_ r then
     (key r <= k)%Z /\ live_value ops (key r) = Some (value r) /\
     (forall k', is_live ops k' -> (k' <= k)%Z -> (k' <= key r)%Z)
   else forall k', is_live ops k' -> (k < k')%Z) /\
  (let r := BTree.successor t k in
   if exists_ r then
     (k <= key r)%Z /\ live_value ops (key r) = Some (value r) /\
     (forall k', is_live ops k' -> (k <= k')%Z -> (key r <= k')%Z)
   else forall k', is_live ops k' -> (k' < k)%Z).
Proof.
  intros Hv. apply contract_valid in Hv. cbv zeta.
  pose proof (run_inv ops Hv) as Hinv.
  set (l := fold_left model_op ops []) in *.
  assert (ksorted l) as Hs by (apply model_sorted; simpl; auto).
  split; [|split].
  - rewrite (contains_inv _ l k Hinv). apply model_is_live. exact Hv.
  - rewrite (predecessor_inv _ l k Hinv).
    pose proof (pred_in_spec k l Hs) as Hp.
    destruct (pred_in k l) as [[k0 v0]|]; cbn [query_of exists_ key value].
    + destruct Hp as (Hin & Hle & Hmax). cbn [fst] in *.
      split; [exact Hle|]. split; [apply model_live_value; auto|].
      intros k' Hk' Hle'. apply (model_is_live ops k' Hv) in Hk'.
      apply in_keys_iff in Hk'. destruct Hk' as (v' & Hk').
      apply (Hmax _ Hk'). exact Hle'.
    + intros k' Hk'. apply (model_is_live ops k' Hv) in Hk'.
      apply in_keys_iff in Hk'. destruct Hk' as (v' & Hk').
      apply (Hp _ Hk').
  - rewrite (successor_inv _ l k Hinv).
    pose proof (succ_in_spec k l Hs) as Hp.
    destruct (succ_in k l) as [[k0 v0]|]; cbn [query_of exists_ key value].
    + destruct Hp as (Hin & Hle & Hmax). cbn [fst] in *.
      split; [exact Hle|]. split; [apply model_live_value; auto|].
      intros k' Hk' Hle'. apply (model_is_live ops k' Hv) in Hk'.
      apply in_keys_iff in Hk'. destruct Hk' as (v' & Hk').
      apply (Hmax _ Hk'). exact Hle'.
    + intros k' Hk'. apply (model_is_live ops k' Hv) in Hk'.
      apply in_keys_iff in Hk'. destruct Hk' as (v' & Hk').
      apply (Hp _ Hk').
Qed.

(** C4, as the code has it. After any sequence of inserts and erases that
    respects the contract, all leaves lie at the same depth and every node
    other than the root holds at least [deletion_threshold_ - 1], that is
    [degree_ / 2 - 1], keys (31 for degree 65). *)
Theorem btree_balanced (ops : list op) :
  contract ops ->
  let root := BTree.root_ (run capacity_ ops) in
  (forall d, In d (leaf_depths root) -> d = BTree.depth root) /\
  (forall s, In s (nonroot_sizes root) -> BTree.degree_ capacity_ / 2 - 1 <= s).
Proof.
  intros Hv. apply contract_valid in Hv. cbv zeta.
  destruct (run_inv ops Hv) as (h & Hsh & _).
  destruct (shape_leaf_depths h _ Hsh) as [H1 H2].
  rewrite (shape_depth _ _ Hsh). split; [exact H1|exact H2].
Qed.


(** C10. Erasing a key that is not contained from a non-empty map returns
    [false] and leaves the contents and the size as they were, whatever
    rebalancing happened on the way down. *)
Theorem btree_erase_absent (ops : list op) (k : Z) :
  contract ops ->
  let t := run capacity_ ops in
  0 < BTree.size_ t -> BTree.contains t k = false ->
  let r := BTree.erase capacity_ k t in
  fst r = false /\ elems (BTree.root_ (snd r)) = elems (BTree.root_ t) /\
  BTree.size_ (snd r) = BTree.size_ t /\
  (forall x, BTree.find (snd r) x = BTree.find t x).
Proof.
  intros Hv. apply contract_valid in Hv. cbv zeta. intros Hpos Hc.
  pose proof (run_inv ops Hv) as Hinv.
  set (l := fold_left model_op ops []) in *.
  assert (~ In k (keys l)) as Hnin.
  { intros Hin. apply (contains_inv _ l k Hinv) in Hin. congruence. }
  destruct (erase_inv _ l k Hinv) as [Hinv' Hb].
  rewrite (del_notin k l Hnin) in Hinv'.
  assert (forall x, BTree.find (snd (BTree.erase capacity_ k (run capacity_ ops))) x
                    = BTree.find (run capacity_ ops) x) as Hfind.
  { intros x. rewrite (find_inv _ l x Hinv'), (find_inv _ l x Hinv). reflexivity. }
  destruct Hinv as (h & _ & He & _ & Hsz & _).
  destruct Hinv' as (h' & _ & He' & _ & Hsz' & _).
  split; [|split; [congruence|split; [congruence|exact Hfind]]].
  destruct (fst (BTree.erase capacity_ k (run capacity_ ops))); auto.
  exfalso. apply Hnin. apply Hb. reflexivity.
Qed.

End Correct.

(** ** The map of the parser: [ordered::btree::Map<Index, Index>], degree 65 *)

Definition ops_example : list op :=
  [Insert 5 50; Insert 3 30; Insert 9 90; Erase 3].

Lemma btree_map_queries_correct_witness :
  BTree.contains (run 64 ops_example) 5 = true <-> is_live ops_example 5.
Proof.
  refine (proj1 (btree_map_queries_correct 64 _ _ ops_example 5 _)).
  - reflexivity.
  - unfold BTree.degree_. lia.
  - apply contract_valid, check_valid_sound. reflexivity.
Defined.

Lemma btree_balanced_witness :
  (forall d, In d (leaf_depths (BTree.root_ (run 64 ops_example))) ->
             d = BTree.depth (BTree.root_ (run 64 ops_example))) /\
  (forall s, In s (nonroot_sizes (BTree.root_ (run 64 ops_example))) ->
             BTree.degree_ 64 / 2 - 1 <= s).
Proof.
  refine (btree_balanced 64 _ _ ops_example _).
  - reflexivity.
  - unfold BTree.degree_. lia.
  - apply contract_valid, check_valid_sound. reflexivity.
Defined.


Lemma btree_erase_absent_witness :
  fst (BTree.erase 64 7 (run 64 ops_example)) = false.
Proof.
  refine (proj1 (btree_erase_absent 64 _ _ ops_example 7 _ _ _)).
  - reflexivity.
  - unfold BTree.degree_. lia.
  - apply contract_valid, check_valid_sound. reflexivity.
  - vm_compute. lia.
  - reflexivity.
Defined.

(** Sixty-five ascending inserts: the 65th splits the full root, and the
    left half keeps 31 keys. *)
Definition ops_ascending : list op :=
  map (fun i => Insert (Z.of_nat i) 0) (seq 0 65).

Lemma ops_ascending_sizes :
  nonroot_sizes (BTree.root_ (run 64 ops_ascending)) = [31; 33].
Proof. vm_compute. reflexivity. Qed.

(** C4 as stated (at least [ceil(d/2) - 1 = 32] keys in every node other
    than the root, for d = 65) fails after 65 ascending inserts. *)
Lemma btree_min_keys_counterexample :
  ~ (forall ops, contract ops ->
       forall s, In s (nonroot_sizes (BTree.root_ (run 64 ops))) ->
                 (BTree.degree_ 64 + 1) / 2 - 1 <= s).
Proof.
  intros H.
  assert (contract ops_ascending) as Hv
    by (apply contract_valid, check_valid_sound; vm_compute; reflexivity).
  specialize (H ops_ascending Hv 31).
  rewrite ops_ascending_sizes in H.
  specialize (H (or_introl eq_refl)).
  vm_compute in H. lia.
Qed.

(** * More on the ordered B-tree map *)

Lemma ksorted_keys_NoDup (l : list (Z * Z)) : ksorted l -> NoDup (keys l).
Proof.
  induction l as [|e l IH]; intros Hs; cbn [keys map]; [constructor|].
  destruct Hs as [Hlt Hs]. constructor; [|apply IH; exact Hs].
  intros Hin. apply in_keys_iff in Hin. destruct Hin as (v & Hin).
  specialize (Hlt _ Hin). cbn [fst] in Hlt. lia.
Qed.

Lemma lookup_live l k :
  ksorted l ->
  match lookup k l with
  | Some v => In (k, v) l
  | None => ~ In k (keys l)
  end.
Proof.
  intros Hs. destruct (lookup k l) as [v|] eqn:E.
  - assert (In k (keys l)) as Hin by (apply lookup_some_iff; eauto).
    apply in_keys_iff in Hin. destruct Hin as (v' & Hin).
    rewrite (in_lookup k v' l Hs Hin) in E. congruence.
  - intros Hin. apply lookup_some_iff in Hin. destruct Hin as (v & Hv). congruence.
Qed.

Lemma del_ins_fresh k v l : ksorted l -> ~ In k (keys l) -> del k (ins k v l) = l.
Proof.
  induction l as [|e l IH]; intros Hs Hnin; cbn [ins del fst].
  - rewrite Z.eqb_refl. reflexivity.
  - destruct Hs as [Hlt Hs]. cbn [keys map In] in Hnin.
    destruct (Z.ltb_spec (fst e) k) as [H|H]; cbn [del fst].
    + destruct (Z.eqb_spec (fst e) k); [lia|]. f_equal. apply IH; tauto.
    + rewrite Z.eqb_refl. reflexivity.
Qed.

(** ** The sorted arrays of a node *)

Lemma cnt_le_nth_le ks x : forall i, i < cnt_le x ks -> (nth i ks 0 <= x)%Z.
Proof.
  induction ks as [|k ks IH]; intros i Hi; cbn [cnt_le] in Hi; [lia|].
  destruct (Z.leb_spec k x) as [Hk|Hk]; [|lia].
  destruct i as [|i]; cbn [nth]; [exact Hk|]. apply IH. lia.
Qed.

Lemma cnt_lt_nth_lt ks x : forall i, i < cnt_lt x ks -> (nth i ks 0 < x)%Z.
Proof.
  induction ks as [|k ks IH]; intros i Hi; cbn [cnt_lt] in Hi; [lia|].
  destruct (Z.ltb_spec k x) as [Hk|Hk]; [|lia].
  destruct i as [|i]; cbn [nth]; [exact Hk|]. apply IH. lia.
Qed.

Lemma sorted_nth_head (e : Z * Z) es i :
  ksorted (e :: es) -> i < length es -> (fst e < nth i (keys es) 0)%Z.
Proof.
  intros [Hlt _] Hi.
  assert (In (nth i (keys es) 0%Z) (keys es)) as Hin
    by (apply nth_In; unfold keys; rewrite length_map; exact Hi).
  apply in_keys_iff in Hin. destruct Hin as (v & Hin).
  specialize (Hlt _ Hin). exact Hlt.
Qed.

Lemma cnt_le_nth_gt es x : forall i,
  ksorted es -> cnt_le x (keys es) <= i -> i < length es ->
  (x < nth i (keys es) 0)%Z.
Proof.
  induction es as [|e es IH]; intros i Hs Hc Hi; cbn [length] in Hi; [lia|].
  cbn [keys map cnt_le] in *. fold (keys es) in *.
  destruct (Z.leb_spec (fst e) x) as [Hk|Hk].
  - destruct i as [|i]; [lia|]. cbn [nth]. apply IH; [apply Hs|lia|lia].
  - destruct i as [|i]; cbn [nth]; [exact Hk|].
    pose proof (sorted_nth_head e es i Hs ltac:(lia)). lia.
Qed.

Lemma cnt_lt_nth_ge es x : forall i,
  ksorted es -> cnt_lt x (keys es) <= i -> i < length es ->
  (x <= nth i (keys es) 0)%Z.
Proof.
  induction es as [|e es IH]; intros i Hs Hc Hi; cbn [length] in Hi; [lia|].
  cbn [keys map cnt_lt] in *. fold (keys es) in *.
  destruct (Z.ltb_spec (fst e) x) as [Hk|Hk].
  - destruct i as [|i]; [lia|]. cbn [nth]. apply IH; [apply Hs|lia|lia].
  - destruct i as [|i]; cbn [nth]; [exact Hk|].
    pose proof (sorted_nth_head e es i Hs ltac:(lia)). lia.
Qed.

(** X13. The searches within a node, on keys in strictly ascending order:
    [predecessor(x)] finds the position of the largest key not above [x],
    [successor(x)] the position of the smallest key not below [x], each
    inside the used part of the array, and [exists = false] says there is
    no such key. *)
Theorem node_search_correct (m : LinearSearchMap) (x : Z) :
  impl_ok m -> ksorted (entries m) ->
  (let r := LinearSearchMap.predecessor m x in
   if l_exists r then
     l_pos r < LinearSearchMap.size m /\
     (LinearSearchMap.at_ m (l_pos r) <= x)%Z /\
     (forall i, l_pos r < i -> i < LinearSearchMap.size m ->
                (x < LinearSearchMap.at_ m i)%Z)
   else forall i, i < LinearSearchMap.size m -> (x < LinearSearchMap.at_ m i)%Z) /\
  (let r := LinearSearchMap.successor m x in
   if l_exists r then
     l_pos r < LinearSearchMap.size m /\
     (x <= LinearSearchMap.at_ m (l_pos r))%Z /\
     (forall i, i < l_pos r -> (LinearSearchMap.at_ m i < x)%Z)
   else forall i, i < LinearSearchMap.size m -> (LinearSearchMap.at_ m i < x)%Z).
Proof.
  intros Hok Hs. cbv zeta.
  unfold LinearSearchMap.predecessor, LinearSearchMap.successor,
         LinearSearchMap.at_, LinearSearchMap.size, LinearSearchBase.at_.
  rewrite <- (keys_entries m Hok).
  assert (length (keys (entries m)) = length (entries m)) as Hl
    by (unfold keys; apply length_map).
  rewrite Hl. split.
  - destruct (node_predecessor_spec (entries m) x Hs) as [He Hp]. cbv zeta in He, Hp.
    pose proof (cnt_le_bound x (keys (entries m))) as Hb. rewrite Hl in Hb.
    destruct (l_exists (LinearSearchBase.predecessor (keys (entries m)) x)).
    + specialize (Hp eq_refl). split; [lia|]. split.
      * apply cnt_le_nth_le. lia.
      * intros i Hi1 Hi2. apply cnt_le_nth_gt; [exact Hs|lia|exact Hi2].
    + symmetry in He. apply Nat.ltb_ge in He.
      intros i Hi. apply cnt_le_nth_gt; [exact Hs|lia|exact Hi].
  - destruct (node_successor_spec (entries m) x Hs) as [He Hp]. cbv zeta in He, Hp.
    pose proof (cnt_lt_bound x (keys (entries m))) as Hb. rewrite Hl in Hb.
    destruct (l_exists (LinearSearchBase.successor (keys (entries m)) x)).
    + specialize (Hp eq_refl). symmetry in He. apply Nat.ltb_lt in He.
      split; [lia|]. split.
      * apply cnt_lt_nth_ge; [exact Hs|lia|lia].
      * intros i Hi. apply cnt_lt_nth_lt. lia.
    + symmetry in He. apply Nat.ltb_ge in He.
      intros i Hi. apply cnt_lt_nth_lt. lia.
Qed.

Lemma node_example_ok :
  impl_ok (mkImpl [2; 5; 9]%Z [20; 50; 90]%Z) /\
  ksorted (entries (mkImpl [2; 5; 9]%Z [20; 50; 90]%Z)).
Proof.
  split; [reflexivity|]. cbn. repeat split; intros b Hb;
    repeat (destruct Hb as [<-|Hb]; [cbn; lia|]); contradiction.
Qed.

Lemma node_search_correct_witness :
  (let r := LinearSearchMap.predecessor (mkImpl [2; 5; 9]%Z [20; 50; 90]%Z) 6 in
   if l_exists r then
     l_pos r < LinearSearchMap.size (mkImpl [2; 5; 9]%Z [20; 50; 90]%Z) /\
     (LinearSearchMap.at_ (mkImpl [2; 5; 9]%Z [20; 50; 90]%Z) (l_pos r) <= 6)%Z /\
     (forall i, l_pos r < i -> i < LinearSearchMap.size (mkImpl [2; 5; 9]%Z [20; 50; 90]%Z) ->
                (6 < LinearSearchMap.at_ (mkImpl [2; 5; 9]%Z [20; 50; 90]%Z) i)%Z)
   else forall i, i < LinearSearchMap.size (mkImpl [2; 5; 9]%Z [20; 50; 90]%Z) ->
                  (6 < LinearSearchMap.at_ (mkImpl [2; 5; 9]%Z [20; 50; 90]%Z) i)%Z) /\
  (let r := LinearSearchMap.successor (mkImpl [2; 5; 9]%Z [20; 50; 90]%Z) 6 in
   if l_exists r then
     l_pos r < LinearSearchMap.size (mkImpl [2; 5; 9]%Z [20; 50; 90]%Z) /\
     (6 <= LinearSearchMap.at_ (mkImpl [2; 5; 9]%Z [20; 50; 90]%Z) (l_pos r))%Z /\
     (forall i, i < l_pos r ->
                (LinearSearchMap.at_ (mkImpl [2; 5; 9]%Z [20; 50; 90]%Z) i < 6)%Z)
   else forall i, i < LinearSearchMap.size (mkImpl [2; 5; 9]%Z [20; 50; 90]%Z) ->
                  (LinearSearchMap.at_ (mkImpl [2; 5; 9]%Z [20; 50; 90]%Z) i < 6)%Z).
Proof.
  apply (node_search_correct (mkImpl [2; 5; 9]%Z [20; 50; 90]%Z) 6);
    apply node_example_ok.
Defined.

Lemma insert_pos_bound ks k : LinearSearchBase.insert_pos ks k <= length ks.
Proof.
  induction ks as [|x ks IH]; cbn [LinearSearchBase.insert_pos length]; [lia|].
  destruct (x <? k)%Z; lia.
Qed.

Lemma find_pos_insert ks k :
  LinearSearchBase.find_pos (insert_at (LinearSearchBase.insert_pos ks k) k ks) k
  = Some (LinearSearchBase.insert_pos ks k).
Proof.
  induction ks as [|x ks IH]; cbn [LinearSearchBase.insert_pos].
  - cbn. rewrite Z.eqb_refl. reflexivity.
  - destruct (Z.ltb_spec x k) as [H|H].
    + rewrite insert_at_cons. cbn [LinearSearchBase.find_pos].
      destruct (Z.eqb_spec x k); [lia|]. rewrite IH. reflexivity.
    + unfold insert_at. cbn [firstn skipn app LinearSearchBase.find_pos].
      rewrite Z.eqb_refl. reflexivity.
Qed.

Lemma remove_insert_at {A} i (x : A) l :
  i <= length l -> remove_at i (insert_at i x l) = l.
Proof.
  intros H. rewrite <- (firstn_skipn i l) at 1.
  rewrite insert_at_mid by (rewrite length_firstn; lia).
  rewrite remove_at_mid by (rewrite length_firstn; lia).
  apply firstn_skipn.
Qed.

Lemma nth_insert_at {A} i (x d : A) l :
  i <= length l -> nth i (insert_at i x l) d = x.
Proof.
  intros H. rewrite <- (firstn_skipn i l).
  rewrite insert_at_mid by (rewrite length_firstn; lia).
  apply nth_mid. rewrite length_firstn. lia.
Qed.

Lemma find_pos_absent ks k :
  ~ In k ks -> LinearSearchBase.find_pos ks k = None.
Proof.
  induction ks as [|x ks IH]; intros H; cbn [LinearSearchBase.find_pos]; [reflexivity|].
  destruct (Z.eqb_spec x k) as [->|Hne]; [exfalso; apply H; left; reflexivity|].
  rewrite IH; [reflexivity|]. intros Hin. apply H. right. exact Hin.
Qed.

(** X14. Within a node that is not full, [erase] undoes [insert]:
    erasing the key just inserted returns [true], hands back the inserted
    value and restores both arrays.  Erasing a key that a non-empty node
    does not hold returns [false] and changes nothing. *)
Theorem node_insert_erase (capacity_ : nat) (m : LinearSearchMap) (k v : Z) :
  impl_ok m -> LinearSearchMap.size m < capacity_ ->
  LinearSearchMap.erase k (LinearSearchMap.insert k v m) = (true, v, m) /\
  (0 < LinearSearchMap.size m -> ~ In k (keys_ m) ->
   fst (fst (LinearSearchMap.erase k m)) = false /\
   snd (LinearSearchMap.erase k m) = m).
Proof.
  intros Hok _. unfold impl_ok in Hok. split.
  - unfold LinearSearchMap.insert, LinearSearchBase.insert_key,
           LinearSearchMap.erase, LinearSearchBase.erase_key.
    cbn [keys_ values_]. rewrite find_pos_insert.
    pose proof (insert_pos_bound (keys_ m) k) as Hb.
    rewrite nth_insert_at by lia.
    rewrite !remove_insert_at by lia.
    destruct m; reflexivity.
  - intros _ Hnin. unfold LinearSearchMap.erase, LinearSearchBase.erase_key.
    rewrite find_pos_absent by exact Hnin. split; reflexivity.
Qed.

Lemma node_insert_erase_witness :
  LinearSearchMap.erase 7 (LinearSearchMap.insert 7 70 (mkImpl [2; 5; 9]%Z [20; 50; 90]%Z))
  = (true, 70%Z, mkImpl [2; 5; 9]%Z [20; 50; 90]%Z) /\
  (0 < LinearSearchMap.size (mkImpl [2; 5; 9]%Z [20; 50; 90]%Z) ->
   ~ In 7%Z (keys_ (mkImpl [2; 5; 9]%Z [20; 50; 90]%Z)) ->
   fst (fst (LinearSearchMap.erase 7 (mkImpl [2; 5; 9]%Z [20; 50; 90]%Z))) = false /\
   snd (LinearSearchMap.erase 7 (mkImpl [2; 5; 9]%Z [20; 50; 90]%Z))
   = mkImpl [2; 5; 9]%Z [20; 50; 90]%Z).
Proof.
  apply (node_insert_erase 64 (mkImpl [2; 5; 9]%Z [20; 50; 90]%Z) 7 70).
  - reflexivity.
  - cbn. lia.
Defined.

(** X15. [insert] of a key that a node, not full, does not hold keeps the
    keys in strictly ascending order and as many as the values, stays
    within the capacity, and the node then holds the new pair besides the
    pairs it held. *)
Theorem node_insert_sorted (capacity_ : nat) (m : LinearSearchMap) (k v : Z) :
  impl_ok m -> ksorted (entries m) -> LinearSearchMap.size m < capacity_ ->
  ~ In k (keys_ m) ->
  let m' := LinearSearchMap.insert k v m in
  impl_ok m' /\ ksorted (entries m') /\
  LinearSearchMap.size m' = S (LinearSearchMap.size m) /\
  LinearSearchMap.size m' <= capacity_ /\
  (forall e, In e (entries m') <-> e = (k, v) \/ In e (entries m)).
Proof.
  intros Hok Hs Hcap Hnin. cbv zeta.
  pose proof (insert_ok k v m Hok) as Hok'.
  split; [exact Hok'|]. rewrite (insert_entries k v m Hok).
  assert (LinearSearchMap.size (LinearSearchMap.insert k v m)
          = S (LinearSearchMap.size m)) as Hsz.
  { rewrite (size_entries _ Hok'), (size_entries _ Hok), (insert_entries k v m Hok).
    apply ins_length. }
  split.
  - apply ins_sorted; [exact Hs|]. rewrite (keys_entries m Hok). exact Hnin.
  - split; [exact Hsz|]. split; [lia|]. intros e. apply in_ins.
Qed.

Lemma node_insert_sorted_witness :
  impl_ok (LinearSearchMap.insert 7 70 (mkImpl [2; 5; 9]%Z [20; 50; 90]%Z)) /\
  ksorted (entries (LinearSearchMap.insert 7 70 (mkImpl [2; 5; 9]%Z [20; 50; 90]%Z))) /\
  LinearSearchMap.size (LinearSearchMap.insert 7 70 (mkImpl [2; 5; 9]%Z [20; 50; 90]%Z))
  = S (LinearSearchMap.size (mkImpl [2; 5; 9]%Z [20; 50; 90]%Z)) /\
  LinearSearchMap.size (LinearSearchMap.insert 7 70 (mkImpl [2; 5; 9]%Z [20; 50; 90]%Z)) <= 64 /\
  (forall e, In e (entries (LinearSearchMap.insert 7 70 (mkImpl [2; 5; 9]%Z [20; 50; 90]%Z)))
             <-> e = (7%Z, 70%Z) \/ In e (entries (mkImpl [2; 5; 9]%Z [20; 50; 90]%Z))).
Proof.
  apply (node_insert_sorted 64 (mkImpl [2; 5; 9]%Z [20; 50; 90]%Z) 7 70).
  - apply node_example_ok.
  - apply node_example_ok.
  - cbn. lia.
  - cbn. intros [H|[H|[H|[]]]]; discriminate.
Defined.

(** All nodes of the tree below [n], [n] included. *)
Fixpoint nodes (n : Node) : list Node :=
  match n with
  | mkNode _ cs => n :: flat_map nodes cs
  end.

Lemma nodes_eq n : nodes n = n :: flat_map nodes (children_ n).
Proof. destruct n; reflexivity. Qed.

Lemma subseq_flat_child es Ls L :
  In L Ls -> length Ls <= S (length es) -> subseq L (flat es Ls).
Proof.
  revert es. induction Ls as [|L0 Ls IH]; intros es Hin Hlen; [contradiction|].
  destruct es as [|e es]; cbn [flat].
  - cbn [length] in Hlen. destruct Ls; [|cbn [length] in Hlen; lia].
    destruct Hin as [->|[]]. apply subseq_refl.
  - destruct Hin as [->|Hin].
    + apply subseq_app_l. apply subseq_refl.
    + apply subseq_skip_app. apply subseq_skip. apply IH; [exact Hin|].
      cbn [length] in Hlen. lia.
Qed.

Lemma flat_length es Ls :
  length Ls = S (length es) ->
  S (length (flat es Ls)) = list_sum (map (fun L => S (length L)) Ls).
Proof.
  unfold list_sum.
  revert es. induction Ls as [|L Ls IH]; intros es Hlen; [discriminate|].
  destruct es as [|e es]; cbn [flat map fold_right length] in *.
  - destruct Ls; [cbn; lia|discriminate].
  - rewrite length_app. cbn [length]. rewrite <- (IH es) by lia. lia.
Qed.

Lemma list_sum_lower {A : Type} (f : A -> nat) b (Ls : list A) :
  (forall L, In L Ls -> b <= f L) -> length Ls * b <= list_sum (map f Ls).
Proof.
  unfold list_sum.
  induction Ls as [|L Ls IH]; intros H; cbn [length map fold_right]; [lia|].
  pose proof (H L (or_introl eq_refl)).
  assert (length Ls * b <= fold_right Nat.add 0 (map f Ls))
    by (apply IH; intros L' HL'; apply H; right; exact HL').
  lia.
Qed.

Section More.

Variable capacity_ : nat.
Hypothesis degree_odd : Nat.odd (BTree.degree_ capacity_) = true.
Hypothesis degree_min : 5 <= BTree.degree_ capacity_.

Lemma run_tree ops :
  contract ops ->
  valid ops /\
  tree_inv capacity_ (run capacity_ ops) (fold_left model_op ops []) /\
  ksorted (fold_left model_op ops []).
Proof.
  intros Hc. apply contract_valid in Hc. split; [exact Hc|].
  split; [apply run_inv; assumption|]. apply model_sorted; simpl; auto.
Qed.

Lemma live_value_lookup ops k :
  valid ops -> live_value ops k = lookup k (fold_left model_op ops []).
Proof.
  intros Hv. unfold live_value.
  pose proof (model_live [] ops k Hv I) as H. cbn [lookup] in H. symmetry. exact H.
Qed.

(** X1. After any sequence of inserts and erases that respects the
    contract, [find(k)] returns [k] with the value it was last inserted
    with when [k] is live, and [QueryResult::none()] otherwise. *)
Theorem btree_find_live (ops : list op) (k : Z) :
  contract ops ->
  BTree.find (run capacity_ ops) k =
  match live_value ops k with
  | Some v => mkQuery true k v
  | None => QueryResult_none
  end.
Proof.
  intros Hc. destruct (run_tree ops Hc) as (Hv & Hinv & Hs).
  rewrite (find_inv capacity_ degree_min _ _ k Hinv).
  rewrite (live_value_lookup ops k Hv). reflexivity.
Qed.

(** X2. [size()] is the number of live keys: there is a duplicate-free
    list of exactly the live keys whose length is [size()]. *)
Theorem btree_size_counts (ops : list op) :
  contract ops ->
  exists ks, NoDup ks /\ (forall k, In k ks <-> is_live ops k) /\
             BTree.size (run capacity_ ops) = length ks.
Proof.
  intros Hc. destruct (run_tree ops Hc) as (Hv & Hinv & Hs).
  exists (keys (fold_left model_op ops [])).
  split; [apply ksorted_keys_NoDup; exact Hs|].
  split; [intros k; apply model_is_live; exact Hv|].
  destruct Hinv as (h & _ & _ & _ & Hsz & _).
  unfold BTree.size. rewrite Hsz. unfold keys. rewrite length_map. reflexivity.
Qed.

(** X4. Inserting a key that is not live makes [find] return it with the
    new value, leaves [find] of every other key as it was, and raises
    [size()] by one. *)
Theorem btree_insert_find (ops : list op) (k v : Z) :
  contract ops -> ~ is_live ops k ->
  let t := run capacity_ ops in
  let t' := BTree.insert capacity_ k v t in
  BTree.find t' k = mkQuery true k v /\
  (forall x, x <> k -> BTree.find t' x = BTree.find t x) /\
  BTree.size t' = S (BTree.size t).
Proof.
  intros Hc Hk. cbv zeta. destruct (run_tree ops Hc) as (Hv & Hinv & Hs).
  set (l := fold_left model_op ops []) in *.
  assert (~ In k (keys l)) as Hnin.
  { intros Hin. apply Hk. apply (model_is_live ops k Hv). exact Hin. }
  pose proof (insert_inv capacity_ degree_odd degree_min _ _ k v Hinv Hnin) as Hinv'.
  split; [|split].
  - rewrite (find_inv capacity_ degree_min _ _ k Hinv').
    rewrite lookup_ins_eq by exact Hnin. reflexivity.
  - intros x Hx.
    rewrite (find_inv capacity_ degree_min _ _ x Hinv'),
            (find_inv capacity_ degree_min _ _ x Hinv).
    rewrite lookup_ins_ne by congruence. reflexivity.
  - destruct Hinv as (h & _ & _ & _ & Hsz & _).
    destruct Hinv' as (h' & _ & _ & _ & Hsz' & _).
    unfold BTree.size. rewrite Hsz', Hsz. apply ins_length.
Qed.

(** X5. Erasing a live key returns [true]; afterwards the key is not
    contained, [find] of every other key is as it was, and [size()] has
    dropped by one. *)
Theorem btree_erase_present (ops : list op) (k : Z) :
  contract ops -> is_live ops k ->
  let t := run capacity_ ops in
  let r := BTree.erase capacity_ k t in
  fst r = true /\ BTree.contains (snd r) k = false /\
  (forall x, x <> k -> BTree.find (snd r) x = BTree.find t x) /\
  S (BTree.size (snd r)) = BTree.size t.
Proof.
  intros Hc Hk. cbv zeta. destruct (run_tree ops Hc) as (Hv & Hinv & Hs).
  set (l := fold_left model_op ops []) in *.
  assert (In k (keys l)) as Hin by (apply (model_is_live ops k Hv); exact Hk).
  destruct (erase_inv capacity_ degree_odd degree_min _ _ k Hinv) as [Hinv' Hb].
  split; [apply Hb; exact Hin|]. split; [|split].
  - destruct (BTree.contains (snd (BTree.erase capacity_ k (run capacity_ ops))) k) eqn:E;
      [|reflexivity].
    apply (contains_inv capacity_ degree_min _ _ k Hinv') in E.
    exfalso. apply (del_sorted_notin k l Hs). exact E.
  - intros x Hx.
    rewrite (find_inv capacity_ degree_min _ _ x Hinv'),
            (find_inv capacity_ degree_min _ _ x Hinv).
    rewrite lookup_del by auto.
    destruct (Z.eqb_spec k x); [congruence|reflexivity].
  - destruct Hinv as (h & _ & _ & _ & Hsz & _).
    destruct Hinv' as (h' & _ & _ & _ & Hsz' & _).
    unfold BTree.size. rewrite Hsz', Hsz. apply del_length. exact Hin.
Qed.

(** X6. Insert followed by erase of the same key is a round trip on the
    contents: the erase returns [true], and the key-value pairs in order,
    [size()] and every [find] are those of the map before the insert. *)
Theorem btree_insert_erase (ops : list op) (k v : Z) :
  contract ops -> ~ is_live ops k ->
  let t := run capacity_ ops in
  let r := BTree.erase capacity_ k (BTree.insert capacity_ k v t) in
  fst r = true /\ elems (BTree.root_ (snd r)) = elems (BTree.root_ t) /\
  BTree.size (snd r) = BTree.size t /\
  (forall x, BTree.find (snd r) x = BTree.find t x).
Proof.
  intros Hc Hk. cbv zeta. destruct (run_tree ops Hc) as (Hv & Hinv & Hs).
  set (l := fold_left model_op ops []) in *.
  assert (~ In k (keys l)) as Hnin.
  { intros Hin. apply Hk. apply (model_is_live ops k Hv). exact Hin. }
  pose proof (insert_inv capacity_ degree_odd degree_min _ _ k v Hinv Hnin) as Hinv1.
  destruct (erase_inv capacity_ degree_odd degree_min _ _ k Hinv1) as [Hinv2 Hb].
  rewrite (del_ins_fresh k v l Hs Hnin) in Hinv2.
  split.
  { apply Hb. apply in_keys_iff. exists v. apply in_ins. left. reflexivity. }
  assert (forall x, BTree.find (snd (BTree.erase capacity_ k
                      (BTree.insert capacity_ k v (run capacity_ ops)))) x
                    = BTree.find (run capacity_ ops) x) as Hfind.
  { intros x. rewrite (find_inv capacity_ degree_min _ _ x Hinv2),
                      (find_inv capacity_ degree_min _ _ x Hinv). reflexivity. }
  destruct Hinv as (h & _ & He & _ & Hsz & _).
  destruct Hinv2 as (h' & _ & He' & _ & Hsz' & _).
  unfold BTree.size. split; [congruence|]. split; [congruence|exact Hfind].
Qed.

(** The root of a non-empty map holds a key. *)
Lemma root_nonempty t l :
  tree_inv capacity_ t l -> l <> [] ->
  exists h, shape capacity_ h (BTree.root_ t) /\ BTree.depth (BTree.root_ t) = h /\
            1 <= BTree.node_size (BTree.root_ t).
Proof.
  intros (h & Hsh & He & Hs & Hsz & Hr) Hne. exists h.
  split; [exact Hsh|]. split; [apply (shape_depth capacity_); exact Hsh|].
  destruct h as [|h]; [|apply Hr; lia].
  destruct (BTree.root_ t) as [impl cs] eqn:E.
  cbn [shape impl_ children_] in Hsh. destruct Hsh as (Hok & _ & Hcs).
  rewrite Hcs in He. cbn [elems map flat] in He.
  rewrite node_size_entries by exact Hok. cbn [impl_]. rewrite He.
  destruct l; [congruence|cbn [length]; lia].
Qed.

(** X3. [min()] and [max()] return [QueryResult::none()] on an empty map;
    on a non-empty one they return the smallest and the largest live key
    with their values, and [min_key()], [max_key()] return the same
    keys. *)
Theorem btree_min_max (ops : list op) :
  contract ops ->
  let t := run capacity_ ops in
  (BTree.size t = 0 ->
   BTree.min t = QueryResult_none /\ BTree.max t = QueryResult_none) /\
  (0 < BTree.size t ->
   exists_ (BTree.min t) = true /\
   live_value ops (key (BTree.min t)) = Some (value (BTree.min t)) /\
   BTree.min_key t = key (BTree.min t) /\
   exists_ (BTree.max t) = true /\
   live_value ops (key (BTree.max t)) = Some (value (BTree.max t)) /\
   BTree.max_key t = key (BTree.max t) /\
   forall k, is_live ops k -> (key (BTree.min t) <= k <= key (BTree.max t))%Z).
Proof.
  intros Hc. cbv zeta. destruct (run_tree ops Hc) as (Hv & Hinv & Hs).
  set (l := fold_left model_op ops []) in *.
  unfold BTree.size, BTree.min, BTree.max, BTree.min_key, BTree.max_key.
  split.
  - intros H0. rewrite H0. split; reflexivity.
  - intros Hpos.
    destruct (Nat.eqb_spec (BTree.size_ (run capacity_ ops)) 0) as [E|_]; [lia|].
    assert (l <> []) as Hne.
    { destruct Hinv as (h & _ & _ & _ & Hsz & _). intros E. rewrite E in Hsz.
      cbn [length] in Hsz. lia. }
    destruct (root_nonempty _ _ Hinv Hne) as (h & Hsh & Hd & H1).
    destruct Hinv as (h' & _ & He & _ & _ & _).
    destruct (leftmost_leaf_spec capacity_ degree_odd degree_min h
                (BTree.depth (BTree.root_ (run capacity_ ops))) _
                ltac:(lia) Hsh H1) as (Y & HY).
    destruct (rightmost_leaf_spec capacity_ degree_odd degree_min h
                (BTree.depth (BTree.root_ (run capacity_ ops))) _
                ltac:(lia) Hsh H1) as (Y' & HY').
    cbv zeta in HY, HY'. cbv zeta. cbn [exists_ key value].
    set (lm := BTree.leftmost_leaf _ _) in *. set (rm := BTree.rightmost_leaf _ _) in *.
    rewrite He in HY, HY'.
    split; [reflexivity|]. split.
    { apply model_live_value; [exact Hv|]. fold l. rewrite HY. left. reflexivity. }
    split; [reflexivity|]. split; [reflexivity|]. split.
    { apply model_live_value; [exact Hv|]. fold l. rewrite HY'.
      apply in_or_app. right. left. reflexivity. }
    split; [reflexivity|].
    intros k Hk. apply (model_is_live ops k Hv) in Hk. fold l in Hk.
    apply in_keys_iff in Hk. destruct Hk as (v & Hk). split.
    + pose proof Hs as Hs1. rewrite HY in Hs1, Hk. destruct Hk as [E|Hk].
      * inversion E. lia.
      * destruct Hs1 as [Hlt _]. specialize (Hlt _ Hk). cbn [fst] in Hlt. lia.
    + pose proof (ksorted_le_last l (k, v) Hs Hk) as Hle. rewrite HY' in Hle.
      rewrite last_last in Hle. exact Hle.
Qed.

Lemma shape_nodes h : forall n,
  shape capacity_ h n -> ksorted (elems n) ->
  forall m, In m (nodes n) ->
    BTree.node_size m <= capacity_ /\
    impl_ok (impl_ m) /\
    ksorted (entries (impl_ m)) /\
    (BTree.is_leaf m = false -> BTree.num_children m = S (BTree.node_size m)).
Proof.
  induction h as [|h IH]; intros n Hsh Hs m Hm; rewrite nodes_eq in Hm.
  - destruct Hsh as (Hok & Hcap & Hcs). rewrite Hcs in Hm.
    destruct Hm as [<-|[]]. split; [exact Hcap|]. split; [exact Hok|].
    split; [apply elems_sorted_entries; exact Hs|].
    unfold BTree.is_leaf. rewrite Hcs. discriminate.
  - destruct Hsh as (Hok & Hcap & Hlen & Hcs). destruct Hm as [<-|Hm].
    + split; [exact Hcap|]. split; [exact Hok|].
      split; [apply elems_sorted_entries; exact Hs|].
      intros _. unfold BTree.num_children. exact Hlen.
    + apply in_flat_map in Hm. destruct Hm as (c & Hc & Hm).
      apply (IH c); [apply Hcs; exact Hc| |exact Hm].
      apply (subseq_sorted _ (elems n)); [|exact Hs].
      rewrite (elems_eq n). apply subseq_flat_child.
      * apply in_map. exact Hc.
      * rewrite length_map, Hlen.
        rewrite <- (node_size_entries n Hok). lia.
Qed.

(** X7. In every node of the tree the keys are strictly ascending and as
    many as the values, there are at most [capacity_] of them, and an
    inner node has exactly one child more than keys: the arrays of a
    node never overflow. *)
Theorem btree_nodes_bounded (ops : list op) :
  contract ops ->
  forall m, In m (nodes (BTree.root_ (run capacity_ ops))) ->
    BTree.node_size m <= capacity_ /\
    length (keys_ (impl_ m)) = length (values_ (impl_ m)) /\
    ksorted (entries (impl_ m)) /\
    (BTree.is_leaf m = false -> BTree.num_children m = S (BTree.node_size m)).
Proof.
  intros Hc m Hm. destruct (run_tree ops Hc) as (Hv & Hinv & Hs).
  destruct Hinv as (h & Hsh & He & _).
  apply (shape_nodes h _ Hsh); [rewrite He; exact Hs|exact Hm].
Qed.

Lemma shape_count h : forall n,
  shape capacity_ h n -> min_keys capacity_ <= BTree.node_size n ->
  S (min_keys capacity_) ^ S h <= S (length (elems n)).
Proof.
  induction h as [|h IH]; intros n Hsh Hmin.
  - destruct Hsh as (Hok & _ & Hcs). rewrite (elems_eq n), Hcs. cbn [map flat].
    rewrite <- (node_size_entries n Hok). rewrite Nat.pow_1_r. lia.
  - destruct Hsh as (Hok & _ & Hlen & Hcs).
    rewrite (elems_eq n).
    rewrite flat_length
      by (rewrite length_map, Hlen, (node_size_entries n Hok); reflexivity).
    rewrite map_map.
    assert (length (children_ n) * S (min_keys capacity_) ^ S h
            <= list_sum (map (fun c => S (length (elems c))) (children_ n))) as Hsum.
    { apply list_sum_lower. intros c Hc. destruct (Hcs c Hc) as [Hc1 Hc2].
      apply IH; assumption. }
    rewrite Hlen in Hsum.
    change (S (min_keys capacity_) ^ S (S h))
      with (S (min_keys capacity_) * S (min_keys capacity_) ^ S h).
    assert (S (min_keys capacity_) * S (min_keys capacity_) ^ S h
            <= S (BTree.node_size n) * S (min_keys capacity_) ^ S h)
      by (apply Nat.mul_le_mono_r; lia).
    lia.
Qed.

(** X8. The height is logarithmic in the size: a tree whose leaves are
    [depth] levels below the root holds at least
    [2 * deletion_threshold_ ^ depth - 1] keys when [depth > 0]. *)
Theorem btree_height_bound (ops : list op) :
  contract ops ->
  let t := run capacity_ ops in
  0 < BTree.depth (BTree.root_ t) ->
  2 * BTree.deletion_threshold_ capacity_ ^ BTree.depth (BTree.root_ t)
  <= S (BTree.size t).
Proof.
  intros Hc. cbv zeta. intros Hd.
  destruct (run_tree ops Hc) as (Hv & Hinv & Hs).
  destruct Hinv as (h & Hsh & He & _ & Hsz & Hr).
  rewrite (shape_depth capacity_ h _ Hsh) in *.
  destruct h as [|h]; [lia|]. specialize (Hr ltac:(lia)).
  destruct (cap_facts capacity_ degree_odd degree_min) as (t0 & _ & Ht & _ & _ & _ & Hth & Hmin).
  assert (BTree.deletion_threshold_ capacity_ = S (min_keys capacity_)) as -> by lia.
  unfold BTree.size. rewrite Hsz, <- He.
  destruct Hsh as (Hok & _ & Hlen & Hcs).
  rewrite (elems_eq (BTree.root_ (run capacity_ ops))).
  rewrite flat_length
    by (rewrite length_map, Hlen, (node_size_entries _ Hok); reflexivity).
  rewrite map_map.
  assert (length (children_ (BTree.root_ (run capacity_ ops))) * S (min_keys capacity_) ^ S h
          <= list_sum (map (fun c => S (length (elems c)))
                           (children_ (BTree.root_ (run capacity_ ops))))) as Hsum.
  { apply list_sum_lower. intros c Hc'. destruct (Hcs c Hc') as [Hc1 Hc2].
    apply shape_count; assumption. }
  rewrite Hlen in Hsum.
  assert (2 * S (min_keys capacity_) ^ S h
          <= S (BTree.node_size (BTree.root_ (run capacity_ ops)))
             * S (min_keys capacity_) ^ S h)
    by (apply Nat.mul_le_mono_r; lia).
  lia.
Qed.

End More.

(** ** Instances for the map of the parser (degree 65) *)

Lemma degree65_odd : Nat.odd (BTree.degree_ 64) = true.
Proof. reflexivity. Qed.

Lemma degree65_min : 5 <= BTree.degree_ 64.
Proof. unfold BTree.degree_. lia. Qed.

Lemma ops_example_contract : contract ops_example.
Proof. apply contract_valid, check_valid_sound. reflexivity. Qed.

Lemma ops_ascending_contract : contract ops_ascending.
Proof. apply contract_valid, check_valid_sound. vm_compute. reflexivity. Qed.

Lemma btree_find_live_witness :
  BTree.find (run 64 ops_example) 5 =
  match live_value ops_example 5 with
  | Some v => mkQuery true 5 v
  | None => QueryResult_none
  end.
Proof.
  apply (btree_find_live 64 degree65_odd degree65_min ops_example 5).
  exact ops_example_contract.
Defined.

Lemma btree_size_counts_witness :
  exists ks, NoDup ks /\ (forall k, In k ks <-> is_live ops_example k) /\
             BTree.size (run 64 ops_example) = length ks.
Proof.
  apply (btree_size_counts 64 degree65_odd degree65_min ops_example).
  exact ops_example_contract.
Defined.

Lemma btree_min_max_witness :
  exists_ (BTree.min (run 64 ops_example)) = true /\
  live_value ops_example (key (BTree.min (run 64 ops_example)))
  = Some (value (BTree.min (run 64 ops_example))) /\
  BTree.min_key (run 64 ops_example) = key (BTree.min (run 64 ops_example)) /\
  exists_ (BTree.max (run 64 ops_example)) = true /\
  live_value ops_example (key (BTree.max (run 64 ops_example)))
  = Some (value (BTree.max (run 64 ops_example))) /\
  BTree.max_key (run 64 ops_example) = key (BTree.max (run 64 ops_example)) /\
  forall k, is_live ops_example k ->
            (key (BTree.min (run 64 ops_example)) <= k
             <= key (BTree.max (run 64 ops_example)))%Z.
Proof.
  refine (proj2 (btree_min_max 64 degree65_odd degree65_min ops_example
                   ops_example_contract) _).
  vm_compute. lia.
Defined.

Lemma btree_insert_find_witness :
  BTree.find (BTree.insert 64 7 70 (run 64 ops_example)) 7 = mkQuery true 7 70 /\
  (forall x, x <> 7%Z ->
     BTree.find (BTree.insert 64 7 70 (run 64 ops_example)) x
     = BTree.find (run 64 ops_example) x) /\
  BTree.size (BTree.insert 64 7 70 (run 64 ops_example))
  = S (BTree.size (run 64 ops_example)).
Proof.
  apply (btree_insert_find 64 degree65_odd degree65_min ops_example 7 70).
  - exact ops_example_contract.
  - intros H. apply H. reflexivity.
Defined.

Lemma btree_erase_present_witness :
  fst (BTree.erase 64 5 (run 64 ops_example)) = true /\
  BTree.contains (snd (BTree.erase 64 5 (run 64 ops_example))) 5 = false /\
  (forall x, x <> 5%Z ->
     BTree.find (snd (BTree.erase 64 5 (run 64 ops_example))) x
     = BTree.find (run 64 ops_example) x) /\
  S (BTree.size (snd (BTree.erase 64 5 (run 64 ops_example))))
  = BTree.size (run 64 ops_example).
Proof.
  apply (btree_erase_present 64 degree65_odd degree65_min ops_example 5).
  - exact ops_example_contract.
  - vm_compute. discriminate.
Defined.

Lemma btree_insert_erase_witness :
  fst (BTree.erase 64 7 (BTree.insert 64 7 70 (run 64 ops_example))) = true /\
  elems (BTree.root_ (snd (BTree.erase 64 7 (BTree.insert 64 7 70 (run 64 ops_example)))))
  = elems (BTree.root_ (run 64 ops_example)) /\
  BTree.size (snd (BTree.erase 64 7 (BTree.insert 64 7 70 (run 64 ops_example))))
  = BTree.size (run 64 ops_example) /\
  (forall x, BTree.find (snd (BTree.erase 64 7 (BTree.insert 64 7 70 (run 64 ops_example)))) x
             = BTree.find (run 64 ops_example) x).
Proof.
  apply (btree_insert_erase 64 degree65_odd degree65_min ops_example 7 70).
  - exact ops_example_contract.
  - intros H. apply H. reflexivity.
Defined.

Lemma btree_nodes_bounded_witness :
  BTree.node_size (BTree.root_ (run 64 ops_ascending)) <= 64 /\
  length (keys_ (impl_ (BTree.root_ (run 64 ops_ascending))))
  = length (values_ (impl_ (BTree.root_ (run 64 ops_ascending)))) /\
  ksorted (entries (impl_ (BTree.root_ (run 64 ops_ascending)))) /\
  (BTree.is_leaf (BTree.root_ (run 64 ops_ascending)) = false ->
   BTree.num_children (BTree.root_ (run 64 ops_ascending))
   = S (BTree.node_size (BTree.root_ (run 64 ops_ascending)))).
Proof.
  apply (btree_nodes_bounded 64 degree65_odd degree65_min ops_ascending
           ops_ascending_contract).
  rewrite nodes_eq. left. reflexivity.
Defined.

Lemma btree_height_bound_witness :
  2 * BTree.deletion_threshold_ 64 ^ BTree.depth (BTree.root_ (run 64 ops_ascending))
  <= S (BTree.size (run 64 ops_ascending)).
Proof.
  apply (btree_height_bound 64 degree65_odd degree65_min ops_ascending
           ops_ascending_contract).
  vm_compute. lia.
Defined.

Local Open Scope Z_scope.

(** * Range minimum queries *)

(** [p] is the leftmost position of a minimum of [D] on [[i, j]]. *)
Definition leftmost_argmin (D : list Z) (i j p : Z) : Prop :=
  i <= p <= j /\
  (forall k, i <= k <= j -> get D p <= get D k) /\
  (forall k, i <= k < p -> get D p < get D k).

(** ** Machine integers in range *)

Lemma uint32_small x : 0 <= x < 2 ^ 32 -> uint32 x = x.
Proof. intros H. unfold uint32. apply Z.mod_small. exact H. Qed.

Lemma size_t_small x : 0 <= x < 2 ^ 64 -> size_t x = x.
Proof. intros H. unfold size_t. apply Z.mod_small. exact H. Qed.

Lemma int32_small x : - 2 ^ 31 <= x < 2 ^ 31 -> int32 x = x.
Proof. intros H. unfold int32. rewrite Z.mod_small; lia. Qed.

Lemma bit_width_pos x : 0 < x -> bit_width x - 1 = Z.log2 x.
Proof.
  intros H. unfold bit_width. destruct (Z.eqb_spec x 0); lia.
Qed.

Lemma shiftl_1 k : 0 <= k -> Z.shiftl 1 k = 2 ^ k.
Proof. intros H. rewrite Z.shiftl_mul_pow2 by lia. lia. Qed.

Lemma shiftl_2 k : 0 <= k -> Z.shiftl 2 k = 2 ^ (k + 1).
Proof.
  intros H. rewrite Z.shiftl_mul_pow2 by lia. rewrite Z.pow_add_r by lia. lia.
Qed.

Lemma pow2_le_mono a b : 0 <= a <= b -> 2 ^ a <= 2 ^ b.
Proof. intros H. apply Z.pow_le_mono_r; lia. Qed.

Lemma pow2_pos a : 0 <= a -> 0 < 2 ^ a.
Proof. intros H. apply Z.pow_pos_nonneg; lia. Qed.

Lemma log2_bounds x : 0 < x -> 0 <= Z.log2 x /\ 2 ^ Z.log2 x <= x < 2 ^ (Z.log2 x + 1).
Proof.
  intros H. split; [apply Z.log2_nonneg|].
  pose proof (Z.log2_spec x H) as Hs. unfold Z.succ in Hs. exact Hs.
Qed.

Lemma log2_lt_pow2 x k : 0 < x -> 0 <= k -> x < 2 ^ k -> Z.log2 x < k.
Proof.
  intros Hx Hk H. apply Z.log2_lt_pow2; assumption.
Qed.

(** ** Counting loops *)

Lemma range_nil a b : b <= a -> range a b = [].
Proof.
  intros H. unfold range. replace (Z.to_nat (b - a)) with 0%nat by lia. reflexivity.
Qed.

Lemma range_cons a b : a < b -> range a b = a :: range (a + 1) b.
Proof.
  intros H. unfold range.
  replace (Z.to_nat (b - a)) with (S (Z.to_nat (b - (a + 1)))) by lia.
  cbn [seq map]. f_equal; [lia|].
  rewrite <- seq_shift, map_map. apply map_ext. intros k. lia.
Qed.

Lemma range_length a b : length (range a b) = Z.to_nat (b - a).
Proof. unfold range. rewrite length_map, length_seq. reflexivity. Qed.

Lemma in_range a b k : In k (range a b) <-> a <= k < b.
Proof.
  unfold range. rewrite in_map_iff. split.
  - intros (x & Hx & Hin). apply in_seq in Hin. lia.
  - intros H. exists (Z.to_nat (k - a)). split; [lia|]. apply in_seq. lia.
Qed.

(** The invariant rule of a counting loop. *)
Lemma fold_range_inv {S : Type} (P : Z -> S -> Prop) (f : S -> Z -> S) :
  forall m a b st,
    Z.to_nat (b - a) = m -> a <= b -> P a st ->
    (forall k s, a <= k < b -> P k s -> P (k + 1) (f s k)) ->
    P b (fold_left f (range a b) st).
Proof.
  induction m as [|m IH]; intros a b st Hm Hab H0 Hstep.
  - assert (a = b) by lia. subst b. rewrite range_nil by lia. exact H0.
  - rewrite range_cons by lia. cbn [fold_left].
    apply IH; [lia|lia| |].
    + apply Hstep; [lia|exact H0].
    + intros k s Hk. apply Hstep. lia.
Qed.

(** ** Array writes *)

Lemma length_update_at {A} i (x : A) l : length (update_at i x l) = length l.
Proof.
  unfold update_at. destruct (Nat.ltb_spec i (length l)) as [H|H]; [|reflexivity].
  rewrite length_app. cbn [length]. rewrite length_firstn, length_skipn. lia.
Qed.

Lemma nth_update_at_eq {A} i (x : A) l d :
  (i < length l)%nat -> nth i (update_at i x l) d = x.
Proof.
  intros H. unfold update_at. destruct (Nat.ltb_spec i (length l)) as [H'|H']; [|lia].
  rewrite app_nth2; rewrite length_firstn; [|lia].
  replace (i - Nat.min i (length l))%nat with 0%nat by lia. reflexivity.
Qed.

Lemma nth_update_at_ne {A} i k (x : A) l d :
  k <> i -> nth k (update_at i x l) d = nth k l d.
Proof.
  intros H. unfold update_at. destruct (Nat.ltb_spec i (length l)) as [H'|H']; [|reflexivity].
  destruct (Nat.lt_ge_cases k i) as [Hk|Hk].
  - rewrite app_nth1 by (rewrite length_firstn; lia).
    rewrite nth_firstn. destruct (Nat.ltb_spec k i); [reflexivity|lia].
  - rewrite app_nth2 by (rewrite length_firstn; lia).
    rewrite length_firstn.
    replace (k - Nat.min i (length l))%nat with (S (k - S i)) by lia.
    cbn [nth]. rewrite nth_skipn. f_equal. lia.
Qed.

Lemma length_set {A} (a : list A) i x : length (set a i x) = length a.
Proof. apply length_update_at. Qed.

Lemma get_set_eq a i x : 0 <= i < Z.of_nat (length a) -> get (set a i x) i = x.
Proof. intros H. unfold get, set. apply nth_update_at_eq. lia. Qed.

Lemma get_set_ne a i k x : 0 <= i -> 0 <= k -> k <> i -> get (set a i x) k = get a k.
Proof. intros Hi Hk H. unfold get, set. apply nth_update_at_ne. lia. Qed.

Lemma nth_set_eq {A} (a : list A) i x d :
  0 <= i < Z.of_nat (length a) -> nth (Z.to_nat i) (set a i x) d = x.
Proof. intros H. unfold set. apply nth_update_at_eq. lia. Qed.

Lemma nth_set_ne {A} (a : list A) i k x d :
  0 <= i -> 0 <= k -> k <> i -> nth (Z.to_nat k) (set a i x) d = nth (Z.to_nat k) a d.
Proof. intros Hi Hk H. unfold set. apply nth_update_at_ne. lia. Qed.

(** A loop that fills slot [i] with [g i] for every [i] below [m]. *)
Lemma fill_loop (g : Z -> Z) m buf :
  0 <= m -> Z.of_nat (length buf) = m ->
  let r := fold_left (fun lv i => set lv i (g i)) (range 0 m) buf in
  length r = length buf /\ forall i, 0 <= i < m -> get r i = g i.
Proof.
  intros Hm Hlen. cbv zeta.
  apply (fold_range_inv
           (fun k lv => length lv = length buf /\ forall i, 0 <= i < k -> get lv i = g i)
           _ (Z.to_nat (m - 0)) 0 m buf); [reflexivity|lia| |].
  - split; [reflexivity|]. intros i Hi. lia.
  - intros k s Hk [Hl Hg]. split.
    + rewrite length_set. exact Hl.
    + intros i Hi. destruct (Z.eq_dec i k) as [->|Hne].
      * apply get_set_eq. lia.
      * rewrite get_set_ne by lia. apply Hg. lia.
Qed.

(** ** Allocation *)

Lemma make_unique_ok {A} (d : A) memory elsize count :
  count * elsize < 2 ^ 63 -> count * elsize <= memory ->
  make_unique d memory elsize count = Returned (repeat d (Z.to_nat count)).
Proof.
  intros H0 H1. unfold make_unique.
  destruct (Z.leb_spec (2 ^ 63) (count * elsize)); [lia|].
  destruct (Z.ltb_spec memory (count * elsize)); [lia|]. reflexivity.
Qed.

(** ** Combining two minima *)

Lemma argmin_join D i m m' j a b :
  leftmost_argmin D i m a -> leftmost_argmin D m' j b ->
  i <= m' -> m' <= m + 1 -> m <= j ->
  leftmost_argmin D i j (if leq (get D a) (get D b) then a else b).
Proof.
  intros (Ra & Ma & La) (Rb & Mb & Lb) H1 H2 H3. unfold leq.
  destruct (Z.leb_spec (get D a) (get D b)) as [Hle|Hgt].
  - split; [lia|]. split.
    + intros k Hk. destruct (Z_le_gt_dec k m) as [Hkm|Hkm].
      * apply Ma. lia.
      * specialize (Mb k). lia.
    + intros k Hk. apply La. lia.
  - split; [lia|]. split.
    + intros k Hk. destruct (Z_le_gt_dec k m) as [Hkm|Hkm].
      * specialize (Ma k). lia.
      * apply Mb. lia.
    + intros k Hk. destruct (Z_le_gt_dec k m) as [Hkm|Hkm].
      * specialize (Ma k). lia.
      * apply Lb. lia.
Qed.

Lemma argmin_join_lt D i m m' j (sa sb : Z * Z) :
  leftmost_argmin D i m (fst sa) -> snd sa = get D (fst sa) ->
  leftmost_argmin D m' j (fst sb) -> snd sb = get D (fst sb) ->
  i <= m' -> m' <= m + 1 -> m <= j ->
  let st := if lt (snd sb) (snd sa) then sb else sa in
  leftmost_argmin D i j (fst st) /\ snd st = get D (fst st).
Proof.
  intros Ha Hsa Hb Hsb H1 H2 H3. cbv zeta.
  pose proof (argmin_join D i m m' j _ _ Ha Hb H1 H2 H3) as HJ.
  rewrite Hsa, Hsb. unfold lt, leq in *.
  destruct (Z.ltb_spec (get D (fst sb)) (get D (fst sa))) as [Hlt|Hge];
    destruct (Z.leb_spec (get D (fst sa)) (get D (fst sb))) as [Hle|Hgt];
    try lia; split; assumption.
Qed.

(** ** The naive scan *)

Lemma naive_rmq_spec D beg end_ :
  0 <= beg -> beg < end_ -> end_ < 2 ^ 32 ->
  let r := RMQ.naive_rmq D beg end_ in
  leftmost_argmin D beg (end_ - 1) (fst r) /\ snd r = get D (fst r).
Proof.
  intros H0 H1 H2. cbv zeta. unfold RMQ.naive_rmq.
  rewrite uint32_small by lia.
  apply (fold_range_inv
           (fun k st => leftmost_argmin D beg (k - 1) (fst st) /\ snd st = get D (fst st))
           _ (Z.to_nat (end_ - (beg + 1))) (beg + 1) end_); [reflexivity|lia| |].
  - cbn [fst snd]. split; [|reflexivity].
    split; [lia|]. split; intros k Hk; [|lia].
    assert (k = beg) as -> by lia. lia.
  - intros k st Hk [Hst Hs].
    assert (leftmost_argmin D k k k) as Hkk.
    { split; [lia|]. split; intros k' Hk'; [|lia].
      assert (k' = k) as -> by lia. lia. }
    replace (k + 1 - 1) with k by lia.
    apply (argmin_join_lt D beg (k - 1) k k st (k, get D k)); auto; lia.
Qed.

(** ** The sparse table *)

(** Slot [i] of level [L] holds the leftmost minimum of the [2^(L+1)]
    entries from [i] on. *)
Definition level_ok (D : list Z) (n L : Z) (lv : list Z) : Prop :=
  forall i, 0 <= i -> i + 2 ^ (L + 1) <= n ->
            leftmost_argmin D i (i + 2 ^ (L + 1) - 1) (get lv i).

Definition table_ok (D : list Z) (n K : Z) (rmq : list (list Z)) : Prop :=
  forall L, 0 <= L < K -> level_ok D n L (nth (Z.to_nat L) rmq []).

Lemma argmin_single D k : leftmost_argmin D k k k.
Proof.
  split; [lia|]. split; intros k' Hk'; [|lia].
  assert (k' = k) as -> by lia. lia.
Qed.

Lemma first_level_ok D n buf :
  1 <= n < 2 ^ 32 -> Z.of_nat (length buf) = n - 1 ->
  level_ok D n 0 (RMQBenderFarachColton.first_level D n buf) /\
  length (RMQBenderFarachColton.first_level D n buf) = length buf.
Proof.
  intros Hn Hlen. unfold RMQBenderFarachColton.first_level.
  rewrite size_t_small by lia.
  destruct (fill_loop
              (fun i => if leq (get D i) (get D (uint32 (i + 1))) then i else uint32 (i + 1))
              (n - 1) buf) as [Hl Hg]; [lia|exact Hlen|].
  split; [|exact Hl].
  intros i Hi Hin. change (2 ^ (0 + 1)) with 2 in *.
  rewrite Hg by lia. rewrite uint32_small by lia.
  apply (argmin_join D i i (i + 1) (i + 2 - 1)); try lia.
  - apply argmin_single.
  - replace (i + 2 - 1) with (i + 1) by lia. apply argmin_single.
Qed.

Lemma next_level_ok D n L prev buf :
  1 <= L -> 2 ^ (L + 1) <= n -> n < 2 ^ 32 ->
  level_ok D n (L - 1) prev ->
  Z.of_nat (length buf) = n - (2 ^ (L + 1) - 1) ->
  let lv := RMQBenderFarachColton.next_level D prev (2 ^ L) (n - (2 ^ (L + 1) - 1)) buf in
  level_ok D n L lv /\ length lv = length buf.
Proof.
  intros HL Hn1 Hn2 Hprev Hlen. cbv zeta.
  unfold RMQBenderFarachColton.next_level.
  destruct (fill_loop
              (fun i => let a := get prev i in
                        let b := get prev (size_t (i + 2 ^ L)) in
                        if leq (get D a) (get D b) then a else b)
              (n - (2 ^ (L + 1) - 1)) buf) as [Hl Hg]; [lia|exact Hlen|].
  split; [|exact Hl].
  intros i Hi Hin. rewrite Hg by lia. cbv zeta.
  assert (2 ^ (L + 1) = 2 * 2 ^ L) as Hp.
  { rewrite Z.pow_add_r by lia. lia. }
  pose proof (pow2_pos L ltac:(lia)) as HpL.
  rewrite size_t_small by lia.
  replace (L - 1 + 1) with L in Hprev by lia.
  apply (argmin_join D i (i + 2 ^ L - 1) (i + 2 ^ L) (i + 2 ^ (L + 1) - 1)); try lia.
  - pose proof (Hprev i) as H. replace (L - 1 + 1) with L in H by lia. apply H; lia.
  - pose proof (Hprev (i + 2 ^ L)) as H. replace (L - 1 + 1) with L in H by lia.
    replace (i + 2 ^ (L + 1) - 1) with (i + 2 ^ L + 2 ^ L - 1) by lia.
    apply H; lia.
Qed.

Lemma table_ok_set D n a rmq lv :
  0 <= a < Z.of_nat (length rmq) ->
  table_ok D n a rmq -> level_ok D n a lv ->
  table_ok D n (a + 1) (set rmq a lv).
Proof.
  intros Ha Ht Hlv L HL. destruct (Z.eq_dec L a) as [->|Hne].
  - rewrite nth_set_eq by lia. exact Hlv.
  - rewrite nth_set_ne by lia. apply Ht. lia.
Qed.

Lemma higher_levels_ok memory D n :
  1 <= n < 2 ^ 32 -> 4 * n <= memory ->
  forall m a rmq,
    Z.to_nat (Z.log2 n - a) = m -> 1 <= a <= Z.log2 n ->
    Z.of_nat (length rmq) = Z.log2 n -> table_ok D n a rmq ->
    exists rmq',
      RMQBenderFarachColton.higher_levels memory D n (range a (Z.log2 n)) rmq
      = Returned rmq' /\
      table_ok D n (Z.log2 n) rmq' /\ Z.of_nat (length rmq') = Z.log2 n.
Proof.
  intros Hn Hmem. destruct (log2_bounds n ltac:(lia)) as [HK0 HK].
  induction m as [|m IH]; intros a rmq Hm Ha Hlen Ht.
  - assert (a = Z.log2 n) as Ea by lia. rewrite range_nil by lia.
    cbn [RMQBenderFarachColton.higher_levels]. exists rmq.
    rewrite <- Ea at 1. auto.
  - rewrite range_cons by lia. cbn [RMQBenderFarachColton.higher_levels].
    rewrite shiftl_2, shiftl_1 by lia.
    pose proof (pow2_le_mono (a + 1) (Z.log2 n) ltac:(lia)) as Hp1.
    pose proof (pow2_pos a ltac:(lia)) as Hp2.
    assert (2 ^ (a + 1) = 2 * 2 ^ a) as Hp3.
    { rewrite Z.pow_add_r by lia. lia. }
    rewrite (size_t_small (2 ^ (a + 1))) by lia.
    rewrite (size_t_small (2 ^ a)) by lia.
    rewrite (size_t_small (n - (2 ^ (a + 1) - 1))) by lia.
    rewrite make_unique_ok by lia. cbn [bind].
    destruct (Z.leb_spec (2 ^ 32) (n - (2 ^ (a + 1) - 1))) as [Hbad|_]; [lia|].
    destruct (next_level_ok D n a (nth (Z.to_nat (a - 1)) rmq [])
                (repeat 0 (Z.to_nat (n - (2 ^ (a + 1) - 1)))))
      as [Hlv Hll]; [lia|lia|lia| |rewrite repeat_length; lia|].
    { apply Ht. lia. }
    apply IH; [lia|lia|rewrite length_set; exact Hlen|].
    apply table_ok_set; [lia|exact Ht|exact Hlv].
Qed.

Lemma bfc_new_ok memory D n :
  2 <= n < 2 ^ 32 -> 4 * n <= memory -> 256 <= memory ->
  exists r, RMQBenderFarachColton.new memory D n = Returned r /\
            RMQBenderFarachColton.data_ r = D /\
            table_ok D n (Z.log2 n) (RMQBenderFarachColton.rmq_ r).
Proof.
  intros Hn2 Hmem Hmem'. assert (1 <= n < 2 ^ 32) as Hn by lia.
  destruct (log2_bounds n ltac:(lia)) as [HK0 HK].
  assert (Z.log2 n < 32) as HK32 by (apply log2_lt_pow2; lia).
  assert (1 <= Z.log2 n) as HK1
    by (change 1 with (Z.log2 2); apply Z.log2_le_mono; lia).
  unfold RMQBenderFarachColton.new.
  rewrite bit_width_pos by lia.
  rewrite (size_t_small (Z.log2 n)) by lia.
  rewrite (size_t_small (n - 1)) by lia.
  rewrite !make_unique_ok by lia. cbn [bind].
  destruct (Z.eqb_spec (Z.log2 n) 0) as [Hbad|_]; [lia|].
  destruct (Z.leb_spec (2 ^ 32) (n - 1)) as [Hbad|_]; [lia|].
  destruct (first_level_ok D n (repeat 0 (Z.to_nat (n - 1))))
    as [Hl0 Hlen0]; [lia|rewrite repeat_length; lia|].
  destruct (Z.eq_dec (Z.log2 n) 0) as [E0|E0].
  - lia.
  - destruct (higher_levels_ok memory D n Hn Hmem (Z.to_nat (Z.log2 n - 1)) 1
                (set (repeat [] (Z.to_nat (Z.log2 n))) 0
                     (RMQBenderFarachColton.first_level D n (repeat 0 (Z.to_nat (n - 1))))))
      as (rmq' & Hr & Ht & Hlen); [reflexivity|lia| | |].
    + rewrite length_set, repeat_length. lia.
    + apply (table_ok_set D n 0); [rewrite repeat_length; lia| |exact Hl0].
      intros L HL. lia.
    + rewrite Hr. cbn [bind]. eexists. split; [reflexivity|].
      cbn [RMQBenderFarachColton.data_ RMQBenderFarachColton.rmq_]. auto.
Qed.

Lemma bfc_rmq_spec D n r i j :
  1 <= n < 2 ^ 32 ->
  RMQBenderFarachColton.data_ r = D ->
  table_ok D n (Z.log2 n) (RMQBenderFarachColton.rmq_ r) ->
  0 <= i -> i <= j -> j < n ->
  leftmost_argmin D i j (RMQBenderFarachColton.rmq r i j).
Proof.
  intros Hn HD Ht Hi Hij Hj. unfold RMQBenderFarachColton.rmq.
  destruct (Z.eqb_spec i j) as [->|Hne]; [apply argmin_single|].
  rewrite (size_t_small (j - i + 1)) by lia.
  rewrite bit_width_pos by lia.
  set (level := Z.log2 (j - i + 1)).
  destruct (log2_bounds (j - i + 1) ltac:(lia)) as [HL0 HL]. fold level in HL0, HL.
  assert (1 <= level) as HL1.
  { destruct (Z.eq_dec level 0) as [E|E]; [|lia].
    rewrite E in HL. change (2 ^ (0 + 1)) with 2 in HL. lia. }
  assert (level <= Z.log2 n) as HLK.
  { unfold level. apply Z.log2_le_mono. lia. }
  rewrite shiftl_1 by lia.
  pose proof (pow2_pos level ltac:(lia)) as Hp.
  assert (2 ^ (level + 1) = 2 * 2 ^ level) as Hp2.
  { rewrite Z.pow_add_r by lia. lia. }
  rewrite (size_t_small (2 ^ level)) by lia.
  rewrite (size_t_small (j + 1 - 2 ^ level)) by lia.
  rewrite HD.
  pose proof (Ht (level - 1) ltac:(lia)) as Hlv.
  apply (argmin_join D i (i + 2 ^ level - 1) (j + 1 - 2 ^ level) j); try lia.
  - pose proof (Hlv i) as H. replace (level - 1 + 1) with level in H by lia.
    apply H; lia.
  - pose proof (Hlv (j + 1 - 2 ^ level)) as H.
    replace (level - 1 + 1) with level in H by lia.
    replace (j + 1 - 2 ^ level + 2 ^ level - 1) with j in H by lia.
    apply H; lia.
Qed.

(** ** The block minima *)

Definition blocks_ok (D : list Z) (n nb : Z) (bmp bm : list Z) : Prop :=
  forall b, 0 <= b < nb ->
    leftmost_argmin D (64 * b) (Z.min (64 * b + 64) n - 1) (get bmp b) /\
    get bm b = get D (get bmp b).

Lemma block_loop_ok D n pos_buf min_buf :
  1 <= n < 2 ^ 32 ->
  let nb := (n - 1) / 64 + 1 in
  Z.of_nat (length pos_buf) = nb -> Z.of_nat (length min_buf) = nb ->
  let blocks :=
    fold_left
      (fun st block =>
         let beg := uint32 (block * RMQ.block_size_) in
         let end_ := uint32 (Z.min (size_t (beg + RMQ.block_size_)) n) in
         let r := RMQ.naive_rmq D beg end_ in
         (set (fst st) block (fst r), set (snd st) block (snd r)))
      (range 0 nb) (pos_buf, min_buf) in
  blocks_ok D n nb (fst blocks) (snd blocks).
Proof.
  intros Hn nb Hl1 Hl2. cbv zeta.
  assert (0 <= (n - 1) / 64) as Hq by (apply Z.div_pos; lia).
  assert (64 * ((n - 1) / 64) <= n - 1) as Hq'
    by (apply Z.mul_div_le; lia).
  refine (proj2 (fold_range_inv
           (fun k st =>
              (Z.of_nat (length (fst st)) = nb /\ Z.of_nat (length (snd st)) = nb) /\
              blocks_ok D n k (fst st) (snd st))
           _ (Z.to_nat (nb - 0)) 0 nb (pos_buf, min_buf) eq_refl _ _ _)).
  - unfold nb. lia.
  - cbn [fst snd]. split; [auto|]. intros b Hb. lia.
  - intros k st Hk [[Hs1 Hs2] Hok]. cbv zeta. cbn [fst snd].
    unfold RMQ.block_size_.
    rewrite (uint32_small (k * 64)) by (unfold nb in Hk; lia).
    rewrite (size_t_small (k * 64 + 64)) by (unfold nb in Hk; lia).
    rewrite (uint32_small (Z.min (k * 64 + 64) n)) by lia.
    rewrite !length_set. split; [auto|].
    intros b Hb. destruct (Z.eq_dec b k) as [->|Hne].
    + rewrite !get_set_eq by lia.
      destruct (naive_rmq_spec D (k * 64) (Z.min (k * 64 + 64) n))
        as [Ha Hm]; [lia|unfold nb in Hk; lia|lia|].
      replace (64 * k) with (k * 64) by lia. split; assumption.
    + rewrite !get_set_ne by lia. apply Hok. lia.
Qed.

Lemma block_loop_length D n pos_buf min_buf nb :
  let blocks :=
    fold_left
      (fun st block =>
         let beg := uint32 (block * RMQ.block_size_) in
         let end_ := uint32 (Z.min (size_t (beg + RMQ.block_size_)) n) in
         let r := RMQ.naive_rmq D beg end_ in
         (set (fst st) block (fst r), set (snd st) block (snd r)))
      (range 0 nb) (pos_buf, min_buf) in
  length (snd blocks) = length min_buf.
Proof.
  cbv zeta. generalize (range 0 nb) as l. intros l. revert pos_buf min_buf.
  induction l as [|b l IH]; intros pos_buf min_buf; [reflexivity|].
  cbn [fold_left fst snd]. rewrite IH. apply length_set.
Qed.

(** The leftmost minimum among whole blocks is the stored position of the
    leftmost block of least minimum. *)
Lemma mid_argmin D n nb bmp bm lb rb bb :
  blocks_ok D n nb bmp bm ->
  0 <= lb -> lb <= rb -> rb < nb -> 64 * rb + 64 <= n ->
  leftmost_argmin bm lb rb bb ->
  leftmost_argmin D (64 * lb) (64 * rb + 63) (get bmp bb).
Proof.
  intros Hok Hlb Hlr Hrb Hfull (Rb & Mb & Lb).
  assert (forall b, lb <= b <= rb ->
            leftmost_argmin D (64 * b) (64 * b + 63) (get bmp b) /\
            get bm b = get D (get bmp b)) as Hblk.
  { intros b Hb. destruct (Hok b ltac:(lia)) as [H1 H2].
    replace (Z.min (64 * b + 64) n - 1) with (64 * b + 63) in H1 by lia.
    split; assumption. }
  destruct (Hblk bb Rb) as [(Rp & Mp & Lp) Ebb].
  split; [lia|]. split.
  - intros k Hk.
    assert (lb <= k / 64 <= rb /\ 64 * (k / 64) <= k <= 64 * (k / 64) + 63) as [Hkb Hkr].
    { pose proof (Z.div_mod k 64 ltac:(lia)).
      pose proof (Z.mod_pos_bound k 64 ltac:(lia)). lia. }
    destruct (Hblk (k / 64) Hkb) as [(Rk & Mk & Lk) Ek].
    specialize (Mb (k / 64) Hkb). specialize (Mk k Hkr). lia.
  - intros k Hk.
    assert (lb <= k / 64 <= bb /\ 64 * (k / 64) <= k <= 64 * (k / 64) + 63) as [Hkb Hkr].
    { pose proof (Z.div_mod k 64 ltac:(lia)).
      pose proof (Z.mod_pos_bound k 64 ltac:(lia)). lia. }
    destruct (Z.eq_dec (k / 64) bb) as [E|E].
    + apply Lp. rewrite E in Hkr. lia.
    + destruct (Hblk (k / 64) ltac:(lia)) as [(Rk & Mk & Lk) Ek].
      specialize (Lb (k / 64) ltac:(lia)). specialize (Mk k Hkr). lia.
Qed.

(** ** The block RMQ *)

Definition rmq_ok (D : list Z) (n : Z) (r : RMQ.t) : Prop :=
  let nb := (n - 1) / 64 + 1 in
  RMQ.data_ r = D /\
  blocks_ok D n nb (RMQ.block_min_pos_ r) (RMQ.block_min_ r) /\
  RMQBenderFarachColton.data_ (RMQ.block_rmq_ r) = RMQ.block_min_ r /\
  table_ok (RMQ.block_min_ r) nb (Z.log2 nb)
           (RMQBenderFarachColton.rmq_ (RMQ.block_rmq_ r)).

Lemma num_blocks_bounds n :
  1 <= n < 2 ^ 32 -> 1 <= (n - 1) / 64 + 1 <= 2 ^ 26 /\ 64 * ((n - 1) / 64) <= n - 1.
Proof.
  intros Hn.
  pose proof (Z.div_mod (n - 1) 64 ltac:(lia)).
  pose proof (Z.mod_pos_bound (n - 1) 64 ltac:(lia)). lia.
Qed.

Lemma rmq_new_ok memory D n :
  65 <= n < 2 ^ 32 -> 2 ^ 28 <= memory ->
  exists r, RMQ.new memory D n = Returned r /\ rmq_ok D n r.
Proof.
  intros Hn65 Hmem. assert (1 <= n < 2 ^ 32) as Hn by lia.
  destruct (num_blocks_bounds n Hn) as [Hnb Hq].
  assert (2 <= (n - 1) / 64 + 1) as Hnb2.
  { assert (1 <= (n - 1) / 64); [|lia].
    apply Z.div_le_lower_bound; lia. }
  set (nb := (n - 1) / 64 + 1) in *.
  assert (size_t (size_t (n - 1) / RMQ.block_size_ + 1) = nb) as Enb.
  { unfold RMQ.block_size_. rewrite (size_t_small (n - 1)) by lia.
    apply size_t_small. fold nb. lia. }
  unfold RMQ.new. rewrite Enb.
  rewrite !make_unique_ok by lia. cbn [bind].
  match goal with
  | |- context [fold_left ?f (range 0 nb) ?a] => set (blocks := fold_left f (range 0 nb) a)
  end.
  assert (blocks_ok D n nb (fst blocks) (snd blocks)) as Hblocks.
  { apply block_loop_ok; [exact Hn|rewrite repeat_length; fold nb; lia..]. }
  assert (length (snd blocks) = Z.to_nat nb) as Hlen.
  { unfold blocks. rewrite block_loop_length. apply repeat_length. }
  destruct (bfc_new_ok memory (snd blocks) nb) as (br & Hbr & Hbd & Hbt); [lia..|].
  rewrite Hbr. cbn [bind]. eexists. split; [reflexivity|].
  unfold rmq_ok. cbv zeta. fold nb.
  cbn [RMQ.data_ RMQ.block_min_pos_ RMQ.block_min_ RMQ.block_rmq_]. auto.
Qed.

Lemma rmq_query_ok D n r i j :
  1 <= n < 2 ^ 32 -> rmq_ok D n r ->
  0 <= i -> i <= j -> j < n ->
  leftmost_argmin D i j (RMQ.rmq r i j).
Proof.
  intros Hn (HD & Hblocks & Hbd & Hbt) Hi Hij Hj.
  destruct (num_blocks_bounds n Hn) as [Hnb Hq].
  set (nb := (n - 1) / 64 + 1) in *.
  unfold RMQ.rmq. rewrite HD. unfold RMQ.block_size_.
  destruct (Z.eqb_spec i j) as [->|Hne]; [apply argmin_single|].
  rewrite (uint32_small (j - i)) by lia.
  rewrite (uint32_small (j + 1)) by lia.
  destruct (Z.leb_spec (j - i) (3 * 64)) as [Hshort|Hlong].
  - replace j with (j + 1 - 1) at 1 by lia.
    apply naive_rmq_spec; lia.
  - pose proof (Z.div_mod i 64 ltac:(lia)) as Ei.
    pose proof (Z.mod_pos_bound i 64 ltac:(lia)) as Bi.
    pose proof (Z.div_mod j 64 ltac:(lia)) as Ej.
    pose proof (Z.mod_pos_bound j 64 ltac:(lia)) as Bj.
    pose proof (Z.div_mod (n - 1) 64 ltac:(lia)) as En.
    pose proof (Z.mod_pos_bound (n - 1) 64 ltac:(lia)) as Bn.
    set (qi := i / 64) in *. set (qj := j / 64) in *.
    assert (0 <= qi /\ qi + 3 <= qj /\ qj < nb) as (Hqi & Hqij & Hqj) by (unfold nb; lia).
    rewrite (uint32_small ((qi + 1) * 64)) by lia.
    rewrite (size_t_small (qj * 64)) by lia.
    rewrite (uint32_small (qj * 64)) by lia.
    rewrite (size_t_small (qi + 1)) by lia.
    rewrite (size_t_small (qj - 1)) by lia.
    cbv zeta. cbn [fst snd].
    destruct (naive_rmq_spec D i ((qi + 1) * 64)) as [HL HLs]; [lia..|].
    destruct (naive_rmq_spec D (qj * 64) (j + 1)) as [HR HRs]; [lia..|].
    replace (j + 1 - 1) with j in HR by lia.
    set (left := RMQ.naive_rmq D i ((qi + 1) * 64)) in *.
    set (right := RMQ.naive_rmq D (qj * 64) (j + 1)) in *.
    assert (leftmost_argmin (RMQ.block_min_ r) (qi + 1) (qj - 1)
              (RMQBenderFarachColton.rmq (RMQ.block_rmq_ r) (qi + 1) (qj - 1))) as Hbb.
    { apply (bfc_rmq_spec _ nb); auto; lia. }
    pose proof (mid_argmin D n nb _ _ (qi + 1) (qj - 1) _ Hblocks
                  ltac:(lia) ltac:(lia) ltac:(lia) ltac:(lia) Hbb) as HM.
    set (mid_min_pos := get (RMQ.block_min_pos_ r) _) in *.
    destruct (argmin_join_lt D i ((qi + 1) * 64 - 1) (64 * (qi + 1)) (64 * (qj - 1) + 63)
                (fst left, snd left) (mid_min_pos, get D mid_min_pos))
      as [H1 H1s]; cbn [fst snd]; auto; try lia.
    cbn [fst snd] in H1, H1s.
    set (st1 := if lt (get D mid_min_pos) (snd left) then _ else _) in *.
    destruct (argmin_join_lt D i (64 * (qj - 1) + 63) (qj * 64) j
                st1 (fst right, snd right))
      as [H2 H2s]; cbn [fst snd]; auto; try lia.
Qed.


(** ** A single block *)



(** An array of 70 entries, descending to 0 and with a repeated minimum. *)
Definition sample_data : list Z :=
  map (fun k => (69 - k) / 2) (range 0 70).



(** * The LZ-End parser *)

Lemma make_unique_refused {A} (d : A) memory elsize count :
  2 ^ 63 <= count * elsize \/ memory < count * elsize ->
  make_unique d memory elsize count = BadAlloc.
Proof.
  intros H. unfold make_unique.
  destruct (Z.leb_spec (2 ^ 63) (count * elsize)); [reflexivity|].
  destruct (Z.ltb_spec memory (count * elsize)); [reflexivity|lia].
Qed.

Lemma int32_wrap x : 2 ^ 31 <= x < 2 ^ 32 -> int32 x = x - 2 ^ 32.
Proof.
  intros H. unfold int32.
  replace (x + 2 ^ 31) with ((x - 2 ^ 31) + 1 * 2 ^ 32) by lia.
  rewrite Z.mod_add by lia. rewrite Z.mod_small by lia. lia.
Qed.

Lemma size_t_negative x : - 2 ^ 64 <= x < 0 -> size_t x = x + 2 ^ 64.
Proof.
  intros H. unfold size_t.
  replace x with ((x + 2 ^ 64) + (-1) * 2 ^ 64) at 1 by lia.
  rewrite Z.mod_add by lia. apply Z.mod_small. lia.
Qed.

Section ParseFacts.

Variable libsais : list ascii -> Z -> list Z.
Variable libsais_plcp : list ascii -> list Z -> Z -> list Z.
Variable libsais_lcp : list Z -> list Z -> Z -> list Z.
Variable memory : Z.

(** The construction succeeds whenever the length, as an [Index], is
    positive and the LCP array fills more than one block of the RMQ. *)
Lemma construct_ok (s : list ascii) :
  let n := int32 (Z.of_nat (length s)) in
  65 <= n -> n < 2 ^ 31 -> 2 ^ 33 <= memory ->
  exists ix, construct libsais libsais_plcp libsais_lcp memory s = Returned ix /\ n_ ix = n /\
             rmq_ok (lcp_ ix) n (rmq_ ix) /\
             isa_ ix = permuted_isa (libsais (rev s) n)
                         (libsais_plcp (rev s) (libsais (rev s) n) n) n.
Proof.
  intros n Hn1 Hn2 Hmem. unfold construct. fold n.
  rewrite (size_t_small n) by lia.
  rewrite !make_unique_ok by lia. cbn [bind].
  set (sa := libsais (rev s) n). set (plcp := libsais_plcp (rev s) sa n).
  destruct (rmq_new_ok memory (libsais_lcp plcp sa n) n) as (r & Hr & Hok); [lia|lia|].
  rewrite Hr. cbn [bind]. eexists. split; [reflexivity|].
  cbn [n_ lcp_ rmq_ isa_]. auto.
Qed.

Lemma construct_refused (s : list ascii) :
  2 ^ 31 <= Z.of_nat (length s) < 2 ^ 32 ->
  construct libsais libsais_plcp libsais_lcp memory s = BadAlloc.
Proof.
  intros H. unfold construct.
  rewrite int32_wrap by lia. rewrite size_t_negative by lia.
  rewrite make_unique_refused by lia. reflexivity.
Qed.



End ParseFacts.

(** ** Phrase lists *)

Fixpoint sum_len (l : list Phrase.t) : Z :=
  match l with
  | [] => 0
  | p :: l' => Phrase.len p + sum_len l'
  end.

Lemma sum_len_app l1 l2 : sum_len (l1 ++ l2) = sum_len l1 + sum_len l2.
Proof.
  induction l1 as [|p l1 IH]; cbn [sum_len app]; [lia|]. rewrite IH. lia.
Qed.

Lemma sum_len_single p : sum_len [p] = Phrase.len p.
Proof. cbn. lia. Qed.

Lemma sum_len_nonneg l : (forall p, In p l -> 1 <= Phrase.len p) -> 0 <= sum_len l.
Proof.
  induction l as [|p l IH]; intros H; cbn [sum_len]; [lia|].
  pose proof (H p (or_introl eq_refl)).
  assert (0 <= sum_len l) by (apply IH; intros q Hq; apply H; right; exact Hq). lia.
Qed.

Lemma at_last ps last : at_ (ps ++ [last]) (Z.of_nat (length ps)) = last.
Proof.
  unfold at_. rewrite Nat2Z.id. apply nth_middle.
Qed.

Lemma at_prev ps prev last :
  at_ ((ps ++ [prev]) ++ [last]) (Z.of_nat (length (ps ++ [prev])) - 1) = prev.
Proof.
  unfold at_. rewrite length_app. cbn [length].
  replace (Z.to_nat (Z.of_nat (length ps + 1) - 1)) with (length ps) by lia.
  rewrite <- app_assoc. apply nth_middle.
Qed.

Lemma pop_back_snoc ps p : pop_back (ps ++ [p]) = ps.
Proof. apply removelast_last. Qed.

Lemma set_back_snoc ps p q : set_back (ps ++ [p]) q = ps ++ [q].
Proof. unfold set_back. rewrite removelast_last. reflexivity. Qed.

Lemma hd_error_snoc {A} (l : list A) x y :
  l <> [] -> hd_error (l ++ [x]) = hd_error (l ++ [y]).
Proof. destruct l; [congruence|reflexivity]. Qed.

Lemma hd_error_app_keep {A} (l : list A) k :
  l <> [] -> hd_error (l ++ k) = hd_error l.
Proof. destruct l; [congruence|reflexivity]. Qed.

Lemma snoc_cases {A} (l : list A) : l = [] \/ exists l' x, l = l' ++ [x].
Proof.
  destruct l as [|a l]; [left; reflexivity|right].
  destruct (exists_last (l := a :: l)) as (l' & x & E); [discriminate|].
  exists l', x. exact E.
Qed.

(** The entries of the marked map for the phrases [ps]: the rank of the
    last position of phrase [k], with [k]. *)
Definition marks (isa : list Z) (ps : list Phrase.t) : list (Z * Z) :=
  map (fun k => (get isa (sum_len (firstn (S k) ps) - 1), Z.of_nat k))
      (seq 0 (length ps)).

Lemma marks_snoc isa ps p :
  marks isa (ps ++ [p]) =
  marks isa ps ++ [(get isa (sum_len (ps ++ [p]) - 1), Z.of_nat (length ps))].
Proof.
  unfold marks. rewrite length_app. cbn [length].
  rewrite Nat.add_1_r, seq_S, map_app. cbn [map Nat.add]. f_equal.
  - apply map_ext_in. intros k Hk. apply in_seq in Hk.
    rewrite firstn_app. replace (S k - length ps)%nat with 0%nat by lia.
    cbn [firstn]. rewrite app_nil_r. reflexivity.
  - rewrite firstn_all2 by (rewrite length_app; cbn [length]; lia). reflexivity.
Qed.

Lemma marks_pos isa ps e :
  (forall p, In p ps -> 1 <= Phrase.len p) ->
  In e (marks isa ps) ->
  exists pos, 0 <= pos < sum_len ps /\ fst e = get isa pos.
Proof.
  revert e. induction ps as [|p ps IH] using rev_ind; intros e Hlen Hin.
  - cbn in Hin. contradiction.
  - rewrite marks_snoc in Hin. apply in_app_or in Hin.
    assert (forall q, In q ps -> 1 <= Phrase.len q) as Hlen'.
    { intros q Hq. apply Hlen. apply in_or_app. left. exact Hq. }
    pose proof (Hlen p ltac:(apply in_or_app; right; left; reflexivity)) as Hp.
    pose proof (sum_len_nonneg ps Hlen') as H0.
    rewrite sum_len_app, sum_len_single in *.
    destruct Hin as [Hin|[<-|[]]].
    + destruct (IH e Hlen' Hin) as (pos & Hpos & He). exists pos. split; [lia|exact He].
    + cbn [fst]. eexists. split; [|reflexivity]. lia.
Qed.

(** ** One call of [find_copy_source] *)

Definition sentinel : Candidate.t := Candidate.mk 0 0 0.

Lemma find_copy_source_short i z len1 len2 x f p :
  Candidate.len (f x) < len1 -> find_copy_source i z len1 len2 x f p = p.
Proof.
  intros H. unfold find_copy_source.
  destruct (Z.leb_spec len1 (Candidate.len (f x))); [lia|reflexivity].
Qed.

(** With a single marked phrase, number 0, the second query of a call
    starts from the only marked rank and finds nothing. *)
Lemma find_copy_source_single i len1 len2 x f p :
  2 <= len2 ->
  (f x = sentinel \/
   (Candidate.lnk (f x) = 0 /\ f (Candidate.lex_pos (f x)) = sentinel)) ->
  1 <= len1 ->
  snd (find_copy_source i 1 len1 len2 x f p) = snd p.
Proof.
  intros H2 Hf H1. unfold find_copy_source.
  destruct (Z.leb_spec len1 (Candidate.len (f x))) as [Hle|Hgt]; [|reflexivity].
  destruct (Z.ltb_spec len1 i); [|reflexivity].
  destruct Hf as [Hf|[Hl Hf]].
  - rewrite Hf in Hle. cbn in Hle. lia.
  - rewrite Hl. change (0 =? 1 - 1) with true. cbv iota. rewrite Hf.
    cbn [Candidate.len sentinel].
    destruct (Z.leb_spec len2 0); [lia|reflexivity].
Qed.

(** ** The marked map *)

Lemma map_degree_min : (5 <= BTree.degree_ map_capacity)%nat.
Proof. unfold BTree.degree_, map_capacity. lia. Qed.

Lemma map_degree_odd : Nat.odd (BTree.degree_ map_capacity) = true.
Proof. reflexivity. Qed.

Lemma smaller_empty lcp rmq marked x :
  tree_inv map_capacity marked [] -> lex_smaller_phrase lcp rmq marked x = sentinel.
Proof.
  intros Ht. unfold lex_smaller_phrase.
  rewrite (predecessor_inv map_capacity map_degree_min _ _ _ Ht). reflexivity.
Qed.

Lemma greater_empty lcp rmq marked x :
  tree_inv map_capacity marked [] -> lex_greater_phrase lcp rmq marked x = sentinel.
Proof.
  intros Ht. unfold lex_greater_phrase.
  rewrite (successor_inv map_capacity map_degree_min _ _ _ Ht). reflexivity.
Qed.

Lemma smaller_single_eq lcp rmq marked k0 y :
  tree_inv map_capacity marked [(k0, 0)] ->
  lex_smaller_phrase lcp rmq marked y =
  if k0 <=? y - 1
  then Candidate.mk k0 0 (get lcp (RMQ.rmq rmq (uint32 (k0 + 1)) (uint32 y)))
  else sentinel.
Proof.
  intros Ht. unfold lex_smaller_phrase.
  rewrite (predecessor_inv map_capacity map_degree_min _ _ _ Ht).
  cbn [pred_in fst]. destruct (k0 <=? y - 1); reflexivity.
Qed.

Lemma greater_single_eq lcp rmq marked k0 y :
  tree_inv map_capacity marked [(k0, 0)] ->
  lex_greater_phrase lcp rmq marked y =
  if y + 1 <=? k0
  then Candidate.mk k0 0 (get lcp (RMQ.rmq rmq (uint32 (y + 1)) (uint32 k0)))
  else sentinel.
Proof.
  intros Ht. unfold lex_greater_phrase.
  rewrite (successor_inv map_capacity map_degree_min _ _ _ Ht).
  cbn [succ_in fst]. destruct (y + 1 <=? k0); reflexivity.
Qed.

Lemma smaller_single lcp rmq marked k0 x :
  tree_inv map_capacity marked [(k0, 0)] ->
  let f := lex_smaller_phrase lcp rmq marked in
  f x = sentinel \/ (Candidate.lnk (f x) = 0 /\ f (Candidate.lex_pos (f x)) = sentinel).
Proof.
  intros Ht. cbv zeta. rewrite (smaller_single_eq lcp rmq marked k0 x Ht).
  destruct (Z.leb_spec k0 (x - 1)) as [Hle|Hgt]; [right|left; reflexivity].
  cbn [Candidate.lnk Candidate.lex_pos]. split; [reflexivity|].
  rewrite (smaller_single_eq lcp rmq marked k0 k0 Ht).
  destruct (Z.leb_spec k0 (k0 - 1)); [lia|reflexivity].
Qed.

Lemma greater_single lcp rmq marked k0 x :
  tree_inv map_capacity marked [(k0, 0)] ->
  let f := lex_greater_phrase lcp rmq marked in
  f x = sentinel \/ (Candidate.lnk (f x) = 0 /\ f (Candidate.lex_pos (f x)) = sentinel).
Proof.
  intros Ht. cbv zeta. rewrite (greater_single_eq lcp rmq marked k0 x Ht).
  destruct (Z.leb_spec (x + 1) k0) as [Hle|Hgt]; [right|left; reflexivity].
  cbn [Candidate.lnk Candidate.lex_pos]. split; [reflexivity|].
  rewrite (greater_single_eq lcp rmq marked k0 k0 Ht).
  destruct (Z.leb_spec (k0 + 1) k0); [lia|reflexivity].
Qed.

Lemma search_empty lcp rmq marked i z len1 len2 x :
  tree_inv map_capacity marked [] -> 1 <= len1 ->
  search lcp rmq marked i z len1 len2 x = ((-1, -1), (-1, -1)).
Proof.
  intros Ht H1. unfold search.
  rewrite find_copy_source_short
    by (rewrite smaller_empty by exact Ht; cbn; lia).
  cbn [fst snd]. change ((-1 =? -1) || (-1 =? -1)) with true. cbv iota.
  rewrite find_copy_source_short
    by (rewrite greater_empty by exact Ht; cbn; lia).
  reflexivity.
Qed.

Lemma search_single lcp rmq marked k0 i len1 len2 x :
  tree_inv map_capacity marked [(k0, 0)] -> 1 <= len1 -> 2 <= len2 ->
  snd (snd (search lcp rmq marked i 1 len1 len2 x)) = -1.
Proof.
  intros Ht H1 H2. unfold search. cbn [snd].
  set (first := find_copy_source i 1 len1 len2 x (lex_smaller_phrase lcp rmq marked) (-1, -1)).
  assert (snd first = -1) as Hf.
  { unfold first. rewrite find_copy_source_single; auto.
    apply (smaller_single lcp rmq marked k0 x Ht). }
  rewrite Hf. change (-1 =? -1) with true. rewrite orb_true_r.
  rewrite find_copy_source_single; auto.
  apply (greater_single lcp rmq marked k0 x Ht).
Qed.

Lemma ksorted_single_entry (l : list (Z * Z)) x :
  ksorted l -> (forall e, In e l <-> e = x) -> l = [x].
Proof.
  intros Hs H. destruct l as [|a l].
  - exfalso. apply (proj2 (H x) eq_refl).
  - assert (a = x) as -> by (apply H; left; reflexivity).
    destruct l as [|b l]; [reflexivity|].
    assert (b = x) as -> by (apply H; right; left; reflexivity).
    cbn [ksorted] in Hs. destruct Hs as [Hlt _].
    specialize (Hlt x (or_introl eq_refl)). lia.
Qed.

Lemma tree_inv_sorted t l : tree_inv map_capacity t l -> ksorted l.
Proof. intros (h & _ & _ & Hs & _). exact Hs. Qed.

(** ** The invariant of the main loop *)

Section Loop.

Variable s : list ascii.
Variables isa lcp : list Z.
Variable rmq : RMQ.t.
Variable n : Z.

(** The permuted inverse suffix array assigns different ranks to different
    text positions. *)
Hypothesis isa_inj :
  forall p q, 0 <= p < n -> 0 <= q < n -> get isa p = get isa q -> p = q.

(** Before iteration [i]: the phrases cover [S[0..i)], every phrase but the
    last is marked at the rank of its last position, and phrase 0 is the
    initial one. *)
Definition loop_inv (i : Z) (st : State) : Prop :=
  exists ps last l,
    parsing st = ps ++ [last] /\ z st = Z.of_nat (length ps) /\
    sum_len (parsing st) = i /\
    (forall p, In p (parsing st) -> 1 <= Phrase.len p) /\
    tree_inv map_capacity (marked st) l /\
    (forall e, In e l <-> In e (marks isa ps)) /\
    hd_error (parsing st) = Some (Phrase.mk 0 1 (char_at s 0)).

Lemma loop_inv_initial : loop_inv 1 (initial s).
Proof.
  exists [], (Phrase.mk 0 1 (char_at s 0)), [].
  cbn [initial parsing z marked app length sum_len Phrase.len hd_error].
  split; [reflexivity|]. split; [reflexivity|]. split; [lia|]. split.
  - intros p [<-|[]]. cbn. lia.
  - split; [apply new_inv; apply map_degree_min|]. split; [|reflexivity].
    intros e. cbn. tauto.
Qed.

Lemma inv_new i st c :
  i < n -> loop_inv i st ->
  loop_inv (i + 1)
    (mkState (push_back (parsing st) (Phrase.mk 0 1 c)) (z st + 1)
             (BTree.insert map_capacity (get isa (i - 1)) (z st) (marked st))).
Proof.
  intros Hi (ps & last & l & Hp & Hz & Hsum & Hlen & Ht & Hl & Hhd).
  exists (ps ++ [last]), (Phrase.mk 0 1 c), (ins (get isa (i - 1)) (z st) l).
  cbn [parsing z marked]. unfold push_back. rewrite Hp.
  rewrite Hp in Hsum, Hlen, Hhd.
  assert (forall q, In q ps -> 1 <= Phrase.len q) as Hlen'.
  { intros q Hq. apply Hlen. apply in_or_app. left. exact Hq. }
  pose proof (Hlen last ltac:(apply in_or_app; right; left; reflexivity)) as Hlast.
  pose proof (sum_len_nonneg ps Hlen') as H0.
  rewrite sum_len_app, sum_len_single in Hsum.
  split; [reflexivity|]. split; [rewrite length_app; cbn [length]; lia|].
  split; [rewrite !sum_len_app, !sum_len_single; cbn [Phrase.len]; lia|].
  split.
  { intros q Hq. apply in_app_or in Hq. destruct Hq as [Hq|[<-|[]]]; [auto|cbn; lia]. }
  split.
  { apply insert_inv; [apply map_degree_odd|apply map_degree_min|exact Ht|].
    intros Hin. apply in_keys_iff in Hin. destruct Hin as (v & Hin).
    apply Hl in Hin. destruct (marks_pos isa ps _ Hlen' Hin) as (pos & Hpos & He).
    cbn [fst] in He. apply isa_inj in He; lia. }
  split.
  { intros e. rewrite in_ins, marks_snoc, in_app_iff, Hl.
    rewrite sum_len_app, sum_len_single, Hsum, Hz. cbn [In]. intuition congruence. }
  rewrite hd_error_app_keep by (destruct ps; discriminate). exact Hhd.
Qed.

Lemma inv_extend i st p1 c :
  1 <= z st -> loop_inv i st ->
  loop_inv (i + 1)
    (mkState (set_back (parsing st)
                (Phrase.mk p1 (Phrase.len (at_ (parsing st) (z st)) + 1) c))
             (z st) (marked st)).
Proof.
  intros Hz1 (ps & last & l & Hp & Hz & Hsum & Hlen & Ht & Hl & Hhd).
  exists ps, (Phrase.mk p1 (Phrase.len last + 1) c), l.
  cbn [parsing z marked]. rewrite Hp, Hz, at_last, set_back_snoc.
  rewrite Hp in Hsum, Hlen, Hhd.
  pose proof (Hlen last ltac:(apply in_or_app; right; left; reflexivity)) as Hlast.
  rewrite sum_len_app, sum_len_single in Hsum.
  split; [reflexivity|]. split; [reflexivity|].
  split; [rewrite sum_len_app, sum_len_single; cbn [Phrase.len]; lia|].
  split.
  { intros q Hq. apply in_app_or in Hq. destruct Hq as [Hq|[<-|[]]].
    - apply Hlen. apply in_or_app. left. exact Hq.
    - cbn. lia. }
  split; [exact Ht|]. split; [exact Hl|].
  rewrite <- Hhd. apply hd_error_snoc. destruct ps; [cbn in Hz; lia|discriminate].
Qed.

Lemma inv_merge i st p2 c :
  2 <= z st -> i <= n -> loop_inv i st ->
  let len1 := Phrase.len (at_ (parsing st) (z st)) in
  let len2 := len1 + Phrase.len (at_ (parsing st) (z st - 1)) in
  loop_inv (i + 1)
    (mkState (set_back (pop_back (parsing st)) (Phrase.mk p2 (len2 + 1) c))
             (z st - 1)
             (snd (BTree.erase map_capacity (get isa (i - 1 - len1)) (marked st)))).
Proof.
  intros Hz2 Hi (ps & last & l & Hp & Hz & Hsum & Hlen & Ht & Hl & Hhd). cbv zeta.
  destruct (snoc_cases ps) as [->|(ps' & prev & ->)]; [cbn in Hz; lia|].
  rewrite Hp, Hz, at_last, at_prev, pop_back_snoc, set_back_snoc.
  rewrite Hp in Hsum, Hlen, Hhd.
  assert (forall q, In q ps' -> 1 <= Phrase.len q) as Hlen'.
  { intros q Hq. apply Hlen. rewrite !in_app_iff. auto. }
  pose proof (Hlen last ltac:(rewrite !in_app_iff; cbn; auto)) as Hlast.
  pose proof (Hlen prev ltac:(rewrite !in_app_iff; cbn; auto)) as Hprev.
  pose proof (sum_len_nonneg ps' Hlen') as H0.
  rewrite !sum_len_app, !sum_len_single in Hsum.
  rewrite Hz in Hz2. rewrite length_app in Hz, Hz2 |- *.
  cbn [length] in Hz, Hz2 |- *.
  exists ps', (Phrase.mk p2 (Phrase.len last + Phrase.len prev + 1) c),
         (del (get isa (i - 1 - Phrase.len last)) l).
  cbn [parsing z marked].
  split; [reflexivity|]. split; [lia|].
  split; [rewrite sum_len_app, sum_len_single; cbn [Phrase.len]; lia|].
  split.
  { intros q Hq. apply in_app_or in Hq. destruct Hq as [Hq|[<-|[]]]; [auto|cbn; lia]. }
  split.
  { apply erase_inv; [apply map_degree_odd|apply map_degree_min|exact Ht]. }
  split.
  { intros e. rewrite (in_del _ _ _ (tree_inv_sorted _ _ Ht)), Hl, marks_snoc, in_app_iff.
    rewrite sum_len_app, sum_len_single.
    replace (sum_len ps' + Phrase.len prev - 1) with (i - 1 - Phrase.len last) by lia.
    cbn [In]. split.
    - intros [[H|[<-|[]]] Hne]; [exact H|cbn in Hne; congruence].
    - intros H. split; [left; exact H|].
      destruct (marks_pos isa ps' _ Hlen' H) as (pos & Hpos & He).
      rewrite He. intros Heq. apply isa_inj in Heq; lia. }
  rewrite <- Hhd. rewrite <- app_assoc.
  rewrite !hd_error_app_keep; auto; destruct ps'; cbn in Hz2; try discriminate; lia.
Qed.

Lemma search_of_unmarked i st :
  loop_inv i st -> z st = 0 -> search_of isa lcp rmq st i = ((-1, -1), (-1, -1)).
Proof.
  intros (ps & last & l & Hp & Hz & Hsum & Hlen & Ht & Hl & Hhd) Hz0.
  destruct ps as [|p0 ps]; [|cbn [length] in Hz; lia].
  assert (l = []) as ->.
  { destruct l as [|e l]; [reflexivity|]. exfalso.
    apply (proj1 (Hl e)). left. reflexivity. }
  unfold search_of. apply search_empty; [exact Ht|].
  rewrite Hp, Hz. rewrite at_last. apply Hlen. rewrite Hp. left. reflexivity.
Qed.

Lemma search_of_single i st :
  loop_inv i st -> z st = 1 -> snd (snd (search_of isa lcp rmq st i)) = -1.
Proof.
  intros (ps & last & l & Hp & Hz & Hsum & Hlen & Ht & Hl & Hhd) Hz1.
  destruct ps as [|p0 [|p1 ps]]; cbn [length] in Hz; try lia.
  assert (l = [(get isa (sum_len [p0] - 1), 0)]) as El.
  { apply ksorted_single_entry; [apply (tree_inv_sorted _ _ Ht)|].
    intros e. rewrite Hl. cbn. intuition. }
  rewrite El in Ht.
  pose proof (Hlen p0 ltac:(rewrite Hp; left; reflexivity)) as H0.
  pose proof (Hlen last ltac:(rewrite Hp; right; left; reflexivity)) as H1.
  unfold search_of. rewrite Hz1. change (0 <? 1) with true. cbv iota.
  rewrite Hp. change (at_ ([p0] ++ [last]) 1) with last.
  change (at_ ([p0] ++ [last]) (1 - 1)) with p0.
  apply (search_single lcp rmq (marked st) _ i _ _ _ Ht); lia.
Qed.

Lemma loop_inv_step i st :
  1 <= i < n -> loop_inv i st -> loop_inv (i + 1) (step s isa lcp rmq st i).
Proof.
  intros Hi Hinv.
  pose proof (search_of_unmarked i st Hinv) as Hz0.
  pose proof (search_of_single i st Hinv) as Hz1.
  assert (0 <= z st) as Hz.
  { destruct Hinv as (ps & last & l & Hp & Hz & _). lia. }
  unfold step. cbv zeta.
  set (p := snd (search_of isa lcp rmq st i)) in *.
  destruct (Z.eqb_spec (snd p) (-1)) as [E2|E2]; cbn [negb].
  - destruct (Z.eqb_spec (fst p) (-1)) as [E1|E1]; cbn [negb].
    + apply inv_new; [lia|exact Hinv].
    + apply inv_extend; [|exact Hinv].
      destruct (Z.eq_dec (z st) 0) as [E0|E0]; [|lia].
      exfalso. apply E1. unfold p. rewrite (Hz0 E0). reflexivity.
  - assert (2 <= z st) as Hz2.
    { destruct (Z.eq_dec (z st) 0) as [E0|E0].
      - exfalso. apply E2. unfold p. rewrite (Hz0 E0). reflexivity.
      - destruct (Z.eq_dec (z st) 1) as [E1|E1]; [|lia].
        exfalso. apply E2. apply (Hz1 E1). }
    destruct (Z.ltb_spec 0 (z st)) as [_|Hbad]; [|lia].
    apply inv_merge; [exact Hz2|lia|exact Hinv].
Qed.

Lemma loop_inv_state_at i :
  1 <= i <= n -> loop_inv i (state_at s isa lcp rmq i).
Proof.
  intros Hi. unfold state_at.
  apply (fold_range_inv loop_inv (step s isa lcp rmq) (Z.to_nat (i - 1)) 1 i);
    [reflexivity|lia|apply loop_inv_initial|].
  intros k st Hk Hinv. apply loop_inv_step; [lia|exact Hinv].
Qed.

End Loop.

(** ** The permuted inverse suffix array *)

(** [sa] lists every position below [n] and has [n] entries. *)
Definition is_permutation (sa : list Z) (n : Z) : bool :=
  (Z.of_nat (length sa) =? n) && forallb (fun v => existsb (Z.eqb v) sa) (range 0 n).

Lemma range_NoDup a b : NoDup (range a b).
Proof.
  unfold range. apply Injective_map_NoDup; [|apply seq_NoDup].
  intros x y H. lia.
Qed.

Lemma is_permutation_spec sa n :
  is_permutation sa n = true ->
  Z.of_nat (length sa) = n /\ NoDup sa /\
  (forall v, In v sa <-> 0 <= v < n).
Proof.
  unfold is_permutation. intros H. apply andb_prop in H. destruct H as [Hl Hall].
  apply Z.eqb_eq in Hl. split; [exact Hl|].
  assert (incl (range 0 n) sa) as Hincl.
  { intros v Hv. rewrite forallb_forall in Hall. specialize (Hall v Hv).
    apply existsb_exists in Hall. destruct Hall as (w & Hw & E).
    apply Z.eqb_eq in E. subst w. exact Hw. }
  assert (length sa <= length (range 0 n))%nat as Hlen
    by (rewrite range_length; lia).
  split.
  - apply (NoDup_incl_NoDup (range_NoDup 0 n) Hlen Hincl).
  - intros v. split.
    + intros Hv. apply (NoDup_length_incl (range_NoDup 0 n) Hlen Hincl) in Hv.
      apply in_range in Hv. exact Hv.
    + intros Hv. apply Hincl. apply in_range. exact Hv.
Qed.

Lemma permuted_isa_slots sa plcp n :
  is_permutation sa n = true -> Z.of_nat (length plcp) = n ->
  forall r, 0 <= r < n -> get (permuted_isa sa plcp n) (n - get sa r - 1) = r.
Proof.
  intros Hperm Hlen. destruct (is_permutation_spec sa n Hperm) as (Hl & Hnd & Hin).
  assert (forall r, 0 <= r < n -> 0 <= get sa r < n) as Hrange.
  { intros r Hr. apply Hin. unfold get. apply nth_In. lia. }
  assert (forall r r', 0 <= r < n -> 0 <= r' < n -> get sa r = get sa r' -> r = r') as Hinj.
  { intros r r' Hr Hr' E. unfold get in E.
    rewrite NoDup_nth in Hnd. apply Hnd in E; lia. }
  destruct (Z_lt_le_dec n 0) as [Hneg|Hn]; [intros r Hr; lia|].
  unfold permuted_isa.
  refine (proj2 (fold_range_inv
           (fun k isa' => Z.of_nat (length isa') = n /\
                          forall r, 0 <= r < k -> get isa' (n - get sa r - 1) = r)
           _ (Z.to_nat (n - 0)) 0 n plcp eq_refl Hn _ _)).
  - split; [exact Hlen|]. intros r Hr. lia.
  - intros k isa' Hk [Hl' Hg]. split; [rewrite length_set; exact Hl'|].
    intros r Hr. pose proof (Hrange k ltac:(lia)) as Hk'.
    destruct (Z.eq_dec r k) as [->|Hne].
    + apply get_set_eq. lia.
    + pose proof (Hrange r ltac:(lia)) as Hr'.
      rewrite get_set_ne; [apply Hg; lia|lia|lia|].
      intros E. apply Hne. apply Hinj; lia.
Qed.

Lemma permuted_isa_inj sa plcp n :
  is_permutation sa n = true -> Z.of_nat (length plcp) = n ->
  forall p q, 0 <= p < n -> 0 <= q < n ->
    get (permuted_isa sa plcp n) p = get (permuted_isa sa plcp n) q -> p = q.
Proof.
  intros Hperm Hlen p q Hp Hq E.
  destruct (is_permutation_spec sa n Hperm) as (Hl & Hnd & Hin).
  assert (forall x, 0 <= x < n ->
            exists r, 0 <= r < n /\ x = n - get sa r - 1) as Hslot.
  { intros x Hx. assert (In (n - 1 - x) sa) as Hv by (apply Hin; lia).
    destruct (In_nth sa (n - 1 - x) 0 Hv) as (k & Hk & Ek).
    exists (Z.of_nat k). split; [lia|]. unfold get. rewrite Nat2Z.id, Ek. lia. }
  destruct (Hslot p Hp) as (rp & Hrp & Ep).
  destruct (Hslot q Hq) as (rq & Hrq & Eq).
  rewrite Ep, Eq in E.
  rewrite !(permuted_isa_slots sa plcp n Hperm Hlen) in E by lia.
  subst rq. lia.
Qed.

(** ** Constructions that do not return *)

Lemma bfc_new_diverges memory D n :
  size_t (bit_width n - 1) <> 0 ->
  size_t (bit_width n - 1) * 8 < 2 ^ 63 -> size_t (bit_width n - 1) * 8 <= memory ->
  size_t (n - 1) * 4 < 2 ^ 63 -> size_t (n - 1) * 4 <= memory ->
  2 ^ 32 <= size_t (n - 1) ->
  RMQBenderFarachColton.new memory D n = Diverges.
Proof.
  intros H0 H1 H2 H3 H4 H5. unfold RMQBenderFarachColton.new.
  rewrite !make_unique_ok by assumption. cbn [bind].
  destruct (Z.eqb_spec (size_t (bit_width n - 1)) 0); [contradiction|].
  destruct (Z.leb_spec (2 ^ 32) (size_t (n - 1))); [reflexivity|lia].
Qed.

Lemma rmq_new_diverges memory D n :
  let nb := size_t (size_t (n - 1) / RMQ.block_size_ + 1) in
  nb * 4 < 2 ^ 63 -> nb * 4 <= memory ->
  size_t (bit_width nb - 1) <> 0 ->
  size_t (bit_width nb - 1) * 8 < 2 ^ 63 -> size_t (bit_width nb - 1) * 8 <= memory ->
  size_t (nb - 1) * 4 < 2 ^ 63 -> size_t (nb - 1) * 4 <= memory ->
  2 ^ 32 <= size_t (nb - 1) ->
  RMQ.new memory D n = Diverges.
Proof.
  intros nb H1 H2 H0 H3 H4 H5 H6 H7. unfold RMQ.new. fold nb.
  rewrite !make_unique_ok by assumption. cbn [bind].
  rewrite bfc_new_diverges by assumption. reflexivity.
Qed.

Lemma rmq_new_refused memory D n :
  memory < size_t (size_t (n - 1) / RMQ.block_size_ + 1) * 4 ->
  RMQ.new memory D n = BadAlloc.
Proof.
  intros H. unfold RMQ.new. rewrite make_unique_refused by (right; exact H).
  reflexivity.
Qed.

Lemma num_blocks_zero : size_t (size_t (0 - 1) / RMQ.block_size_ + 1) = 2 ^ 58.
Proof. reflexivity. Qed.

Lemma rmq_new_zero memory D :
  0 <= memory ->
  RMQ.new memory D 0 = if memory <? 2 ^ 60 then BadAlloc else Diverges.
Proof.
  intros H0. destruct (Z.ltb_spec memory (2 ^ 60)) as [Hlt|Hge].
  - apply rmq_new_refused. rewrite num_blocks_zero. lia.
  - apply rmq_new_diverges; rewrite num_blocks_zero.
    + lia.
    + lia.
    + change (size_t (bit_width (2 ^ 58) - 1)) with 58. lia.
    + change (size_t (bit_width (2 ^ 58) - 1)) with 58. lia.
    + change (size_t (bit_width (2 ^ 58) - 1)) with 58. lia.
    + change (size_t (2 ^ 58 - 1)) with (2 ^ 58 - 1). lia.
    + change (size_t (2 ^ 58 - 1)) with (2 ^ 58 - 1). lia.
    + change (size_t (2 ^ 58 - 1)) with (2 ^ 58 - 1). lia.
Qed.

(** ** The claims about [parse] *)

Section ParseClaims.

Variable libsais : list ascii -> Z -> list Z.
Variable libsais_plcp : list ascii -> list Z -> Z -> list Z.
Variable libsais_lcp : list Z -> list Z -> Z -> list Z.
Variable memory : Z.



Lemma parse_empty_outcome :
  parse libsais libsais_plcp libsais_lcp memory [] =
  if memory <? 2 ^ 60 then BadAlloc else Diverges.
Proof.
  unfold parse, construct.
  change (int32 (Z.of_nat (length (@nil ascii)))) with 0.
  change (size_t 0) with 0.
  destruct (Z.ltb_spec memory 0) as [Hneg|Hpos].
  - rewrite make_unique_refused by lia.
    destruct (Z.ltb_spec memory (2 ^ 60)); [reflexivity|lia].
  - rewrite !make_unique_ok by lia. cbn [bind].
    rewrite rmq_new_zero by exact Hpos.
    destruct (memory <? 2 ^ 60); reflexivity.
Qed.

(** C7, as the code has it. On the empty input [parse] returns no phrase
    list: there is no case for [n = 0], and the RMQ constructor computes
    [(0 - 1) / 64 + 1 = 2^58] blocks.  Where an allocation cannot get
    [2^60] bytes, the call ends with [std::bad_alloc]. *)
Theorem parse_empty :
  (forall l, parse libsais libsais_plcp libsais_lcp memory [] <> Returned l) /\
  (memory < 2 ^ 60 ->
   parse libsais libsais_plcp libsais_lcp memory [] = BadAlloc).
Proof.
  rewrite parse_empty_outcome. split.
  - intros l. destruct (memory <? 2 ^ 60); discriminate.
  - intros H. destruct (Z.ltb_spec memory (2 ^ 60)); [reflexivity|lia].
Qed.

(** C8, as the code has it. There is no check of the length. An input of
    [2^31 <= |S| < 2^32] characters makes [n] negative and the first
    allocation, of the suffix array, fails before any index structure is
    built; for an input of [65 <= |S| < 2^31] characters (memory for the
    arrays at hand, the suffix array a permutation of the positions) the
    index is built over [n = |S|] entries and a phrase list is returned. *)
Theorem parse_length_limit (s : list ascii) :
  let n := Z.of_nat (length s) in
  (2 ^ 31 <= n < 2 ^ 32 ->
   construct libsais libsais_plcp libsais_lcp memory s = BadAlloc /\
   parse libsais libsais_plcp libsais_lcp memory s = BadAlloc) /\
  (65 <= n < 2 ^ 31 -> 2 ^ 33 <= memory ->
   is_permutation (libsais (rev s) n) n = true ->
   exists ix l,
     construct libsais libsais_plcp libsais_lcp memory s = Returned ix /\
     n_ ix = n /\
     parse libsais libsais_plcp libsais_lcp memory s = Returned l).
Proof.
  intros n. split.
  - intros Hn. pose proof (construct_refused libsais libsais_plcp libsais_lcp memory s Hn) as Hc.
    split; [exact Hc|]. unfold parse. rewrite Hc. reflexivity.
  - intros Hn Hmem _.
    assert (int32 (Z.of_nat (length s)) = n) as En by (apply int32_small; lia).
    destruct (construct_ok libsais libsais_plcp libsais_lcp memory s)
      as (ix & Hc & Hni & _); [lia|lia|exact Hmem|].
    exists ix. eexists. split; [exact Hc|]. split; [rewrite Hni; exact En|].
    unfold parse. rewrite Hc. cbn [bind]. reflexivity.
Qed.

End ParseClaims.

(** C5, as the code has it. The second, lex-greater call of
    [find_copy_source] runs when [p1] or [p2] is still -1 after the first.
    When its candidate is at least [len1] long it assigns [p1] the
    candidate's phrase, also where the lex-smaller direction had set [p1]
    already; it leaves [p1] and [p2] as they were only when its candidate
    is shorter than [len1]. *)
Theorem second_search_assigns (lcp : list Z) (rmq : RMQ.t) (marked : BTree.BTree)
    (i z len1 len2 isa_last : Z) :
  let r := search lcp rmq marked i z len1 len2 isa_last in
  let c := lex_greater_phrase lcp rmq marked isa_last in
  (fst (fst r) <> -1 /\ snd (fst r) <> -1 -> snd r = fst r) /\
  (fst (fst r) = -1 \/ snd (fst r) = -1 ->
   (len1 <= Candidate.len c -> fst (snd r) = Candidate.lnk c) /\
   (Candidate.len c < len1 -> snd r = fst r)).
Proof.
  cbv zeta. unfold search. cbn [fst snd].
  set (first := find_copy_source i z len1 len2 isa_last
                  (lex_smaller_phrase lcp rmq marked) (-1, -1)).
  split.
  - intros [H1 H2].
    destruct (Z.eqb_spec (fst first) (-1)); [contradiction|].
    destruct (Z.eqb_spec (snd first) (-1)); [contradiction|]. reflexivity.
  - intros H.
    assert ((fst first =? -1) || (snd first =? -1) = true) as ->.
    { destruct H as [H|H]; rewrite H; [reflexivity|apply orb_true_r]. }
    split.
    + intros Hle. unfold find_copy_source.
      destruct (Z.leb_spec len1
                  (Candidate.len (lex_greater_phrase lcp rmq marked isa_last)));
        [|lia].
      destruct (len1 <? i); [|reflexivity].
      match goal with |- context [if ?b then (_, _) else (_, _)] => destruct b end;
        reflexivity.
    + intros Hlt. apply find_copy_source_short. exact Hlt.
Qed.

(** ** Runs with the reference suffix sorter *)

Definition mississippi : list ascii :=
  ["m"; "i"; "s"; "s"; "i"; "s"; "s"; "i"; "p"; "p"; "i"]%char.

Definition abaaaa : list ascii := ["a"; "b"; "a"; "a"; "a"; "a"]%char.

(** An input of 66 characters. *)
Definition mississippi6 : list ascii := concat (repeat mississippi 6).

(** ["abaaaa"], followed by 60 more characters. *)
Definition abaaaa_long : list ascii := abaaaa ++ repeat "b"%char 60.

(** An input of [2^32 + 65] characters. *)
Definition long_input : list ascii := repeat "a"%char (Z.to_nat (2 ^ 32 + 65)).



(** The claim that the lex-greater search assigns only what is still -1. *)
Definition second_search_keeps (r : (Z * Z) * (Z * Z)) : Prop :=
  (fst (fst r) <> -1 -> fst (snd r) = fst (fst r)) /\
  (snd (fst r) <> -1 -> snd (snd r) = snd (fst r)).

(** C5 as stated fails in iteration 5 on an input that begins with
    ["abaaaa"]: the lex-smaller search sets [p1 = 0], the lex-greater
    search overwrites it with 2. *)
Lemma second_search_counterexample :
  ref_search_at (2 ^ 33) abaaaa_long 5 = Returned ((0, -1), (2, -1)) /\
  ~ second_search_keeps ((0, -1), (2, -1)).
Proof.
  split; [vm_compute; reflexivity|].
  intros [H _]. cbn [fst snd] in H. specialize (H ltac:(lia)). lia.
Qed.

Lemma second_search_assigns_witness :
  fst (snd (search [0; 3; 3; 3; 3; 3; 3] (RMQ.mk [] [] [] (RMQBenderFarachColton.mk [] []))
              (BTree.insert map_capacity 5 2 BTree.new) 4 3 2 4 3)) = 2.
Proof.
  refine (proj1 (proj2 (second_search_assigns [0; 3; 3; 3; 3; 3; 3]
                          (RMQ.mk [] [] [] (RMQBenderFarachColton.mk [] []))
                          (BTree.insert map_capacity 5 2 BTree.new) 4 3 2 4 3) _) _).
  - left. reflexivity.
  - vm_compute. discriminate.
Defined.



(** C7 as stated fails: on the empty input no list is returned. *)
Lemma parse_empty_counterexample : ref_parse (2 ^ 33) [] <> Returned [].
Proof. vm_compute. discriminate. Qed.

Lemma parse_empty_witness : ref_parse (2 ^ 33) [] = BadAlloc.
Proof.
  refine (proj2 (parse_empty ref_sais ref_plcp ref_lcp (2 ^ 33)) _). lia.
Defined.

(** C8 as stated fails: an input of [2^32 + 65] characters is not
    refused, its length wraps to 65 and a phrase list is returned. *)
Lemma parse_long_counterexample :
  2 ^ 31 <= Z.of_nat (length long_input) /\
  exists l, ref_parse (2 ^ 33) long_input = Returned l.
Proof.
  assert (Z.of_nat (length long_input) = 2 ^ 32 + 65) as El.
  { unfold long_input. rewrite repeat_length. apply Z2Nat.id. lia. }
  split; [lia|].
  destruct (construct_ok ref_sais ref_plcp ref_lcp (2 ^ 33) long_input)
    as (ix & Hc & _); [rewrite El; vm_compute; discriminate
                      |rewrite El; reflexivity|lia|].
  unfold ref_parse, parse. rewrite Hc. cbn [bind]. eexists. reflexivity.
Qed.

Lemma parse_length_limit_witness :
  exists ix l,
    construct ref_sais ref_plcp ref_lcp (2 ^ 33) mississippi6 = Returned ix /\
    n_ ix = 66 /\
    ref_parse (2 ^ 33) mississippi6 = Returned l.
Proof.
  refine (proj2 (parse_length_limit ref_sais ref_plcp ref_lcp (2 ^ 33)
                   mississippi6) _ _ _).
  - cbn. lia.
  - lia.
  - vm_compute. reflexivity.
Defined.

(** * More on the range minimum queries *)

(** X9. The sparse table on its own: for an array of [2 <= n < 2^32]
    entries the constructor returns, and every query [rmq(i, j)] with
    [i <= j < n] returns the leftmost position of a minimum of
    [D[i..j]]. *)
Theorem sparse_table_leftmost_argmin (memory : Z) (D : list Z) (n : Z) :
  2 <= n -> n < 2 ^ 32 -> 4 * n <= memory -> 256 <= memory ->
  exists r, RMQBenderFarachColton.new memory D n = Returned r /\
            forall i j, 0 <= i -> i <= j -> j < n ->
                        leftmost_argmin D i j (RMQBenderFarachColton.rmq r i j).
Proof.
  intros Hn1 Hn2 Hm1 Hm2.
  destruct (bfc_new_ok memory D n ltac:(lia) Hm1 Hm2) as (r & Hr & Hd & Ht).
  exists r. split; [exact Hr|].
  intros i j Hi Hij Hj. apply (bfc_rmq_spec D n); auto; lia.
Qed.

Lemma sparse_table_leftmost_argmin_witness :
  exists r, RMQBenderFarachColton.new 256 [4; 2; 7; 2; 9] 5 = Returned r /\
            forall i j, 0 <= i -> i <= j -> j < 5 ->
                        leftmost_argmin [4; 2; 7; 2; 9] i j
                                        (RMQBenderFarachColton.rmq r i j).
Proof.
  apply (sparse_table_leftmost_argmin 256 [4; 2; 7; 2; 9] 5); lia.
Defined.

Lemma fst_rmq_min r i j m : fst (RMQ.rmq_min r i j m) = RMQ.rmq r i j.
Proof.
  unfold RMQ.rmq_min, RMQ.rmq.
  destruct (i =? j); [reflexivity|].
  destruct (uint32 (j - i) <=? 3 * RMQ.block_size_); reflexivity.
Qed.

Lemma naive_rmq_snd D beg end_ :
  snd (RMQ.naive_rmq D beg end_) = get D (fst (RMQ.naive_rmq D beg end_)).
Proof.
  unfold RMQ.naive_rmq.
  assert (forall l a, snd a = get D (fst a) ->
            snd (fold_left (fun st b => if lt (get D b) (snd st) then (b, get D b) else st) l a)
            = get D (fst (fold_left
                 (fun st b => if lt (get D b) (snd st) then (b, get D b) else st) l a))) as H.
  { induction l as [|b l IH]; intros a Ha; [exact Ha|].
    cbn [fold_left]. apply IH.
    destruct (lt (get D b) (snd a)); [reflexivity|exact Ha]. }
  apply H. reflexivity.
Qed.

Lemma snd_rmq_min r i j m :
  i <> j ->
  snd (RMQ.rmq_min r i j m) = get (RMQ.data_ r) (fst (RMQ.rmq_min r i j m)).
Proof.
  intros Hne. unfold RMQ.rmq_min.
  destruct (Z.eqb_spec i j) as [E|_]; [contradiction|].
  destruct (uint32 (j - i) <=? 3 * RMQ.block_size_); [apply naive_rmq_snd|].
  cbv zeta. cbn [fst snd].
  rewrite !naive_rmq_snd.
  repeat match goal with
         | |- context [if ?b then _ else _] => destruct b; cbn [fst snd]
         end; try reflexivity; apply naive_rmq_snd.
Qed.

(** X10. The query with the out-parameter, [rmq(i, j, min)], on an array
    of [n >= 65] entries (more than one block, so that the constructor
    returns): for [i < j < n] the returned position is the leftmost minimum
    of [D[i..j]] and [min] holds its value afterwards; for [i = j] the call
    returns [i] and does not write [min]. *)
Theorem rmq_min_out (memory : Z) (D : list Z) :
  let n := Z.of_nat (length D) in
  65 <= n -> n < 2 ^ 32 -> 2 ^ 28 <= memory ->
  exists r, RMQ.new memory D n = Returned r /\
    forall i j m, 0 <= i -> i <= j -> j < n ->
      let res := RMQ.rmq_min r i j m in
      leftmost_argmin D i j (fst res) /\
      (i < j -> snd res = get D (fst res) /\
                forall k, i <= k <= j -> snd res <= get D k) /\
      (i = j -> res = (i, m)).
Proof.
  intros n Hn1 Hn2 Hmem.
  destruct (rmq_new_ok memory D n ltac:(lia) Hmem) as (r & Hr & Hok).
  exists r. split; [exact Hr|]. intros i j m Hi Hij Hj. cbv zeta.
  pose proof (rmq_query_ok D n r i j ltac:(lia) Hok Hi Hij Hj) as Harg.
  rewrite fst_rmq_min. split; [exact Harg|]. split.
  - intros Hlt. rewrite (snd_rmq_min r i j m ltac:(lia)), fst_rmq_min.
    destruct Hok as (HD & _). rewrite HD. split; [reflexivity|].
    destruct Harg as (_ & Hmin & _). exact Hmin.
  - intros ->. unfold RMQ.rmq_min. rewrite Z.eqb_refl. reflexivity.
Qed.

Lemma rmq_min_out_witness :
  exists r, RMQ.new (2 ^ 28) sample_data 70 = Returned r /\
    forall i j m, 0 <= i -> i <= j -> j < 70 ->
      let res := RMQ.rmq_min r i j m in
      leftmost_argmin sample_data i j (fst res) /\
      (i < j -> snd res = get sample_data (fst res) /\
                forall k, i <= k <= j -> snd res <= get sample_data k) /\
      (i = j -> res = (i, m)).
Proof.
  apply (rmq_min_out (2 ^ 28) sample_data);
    try change (Z.of_nat (length sample_data)) with 70; lia.
Defined.

(** ** Constructors on an empty array, and the last index *)

Lemma bfc_new_zero memory D : RMQBenderFarachColton.new memory D 0 = BadAlloc.
Proof.
  unfold RMQBenderFarachColton.new.
  change (size_t (bit_width 0 - 1)) with (2 ^ 64 - 1).
  rewrite make_unique_refused by lia. reflexivity.
Qed.

(** X11. Neither structure can be built over an empty array: with
    [n = 0] the sparse table asks for [2^64 - 1] levels and its
    constructor ends with [std::bad_alloc]; the block RMQ asks for
    [(0 - 1) / 64 + 1 = 2^58] blocks and its constructor never returns (it
    ends with [std::bad_alloc] wherever [2^60] bytes cannot be had). *)
Theorem rmq_new_empty (memory : Z) (D : list Z) :
  RMQBenderFarachColton.new memory D 0 = BadAlloc /\
  (forall r, RMQ.new memory D 0 <> Returned r) /\
  (memory < 2 ^ 60 -> RMQ.new memory D 0 = BadAlloc).
Proof.
  split; [apply bfc_new_zero|].
  assert (memory < 2 ^ 60 -> RMQ.new memory D 0 = BadAlloc) as Hlow.
  { intros H. apply rmq_new_refused. rewrite num_blocks_zero. lia. }
  split; [|exact Hlow].
  intros r. destruct (Z_lt_le_dec memory (2 ^ 60)) as [H|H].
  - rewrite (Hlow H). discriminate.
  - rewrite rmq_new_zero by lia.
    destruct (Z.ltb_spec memory (2 ^ 60)); [lia|discriminate].
Qed.

(** X12. The last value of the index type is out of range: a short query
    that ends at position [2^32 - 1] computes its end as [j + 1 = 0], scans
    nothing and returns [i], whatever the data. *)
Theorem rmq_last_index (r : RMQ.t) (i : Z) :
  2 ^ 32 - 1 - 192 <= i -> i < 2 ^ 32 - 1 ->
  RMQ.rmq r i (2 ^ 32 - 1) = i.
Proof.
  intros H1 H2. unfold RMQ.rmq, RMQ.block_size_.
  destruct (Z.eqb_spec i (2 ^ 32 - 1)) as [E|_]; [lia|].
  rewrite (uint32_small (2 ^ 32 - 1 - i)) by lia.
  destruct (Z.leb_spec (2 ^ 32 - 1 - i) (3 * 64)) as [_|Hbad]; [|lia].
  change (uint32 (2 ^ 32 - 1 + 1)) with 0.
  unfold RMQ.naive_rmq. rewrite uint32_small by lia.
  rewrite range_nil by lia. reflexivity.
Qed.

Lemma rmq_last_index_witness :
  RMQ.rmq (RMQ.mk [] [] [] (RMQBenderFarachColton.mk [] []))
          (2 ^ 32 - 2) (2 ^ 32 - 1) = 2 ^ 32 - 2.
Proof.
  apply (rmq_last_index _ (2 ^ 32 - 2)); lia.
Defined.

(** * The phrases [parse] returns *)

(** ** Lexicographic order and common prefixes *)

Lemma suffix_le_refl a : suffix_le a a = true.
Proof.
  induction a as [|x a IH]; [reflexivity|].
  cbn [suffix_le]. rewrite Nat.ltb_irrefl. exact IH.
Qed.

Ltac nat_cases :=
  repeat match goal with
  | H : context [(?a <? ?b)%nat] |- _ => destruct (Nat.ltb_spec a b)
  | |- context [(?a <? ?b)%nat] => destruct (Nat.ltb_spec a b)
  | H : context [(?a =? ?b)%nat] |- _ => destruct (Nat.eqb_spec a b)
  | |- context [(?a =? ?b)%nat] => destruct (Nat.eqb_spec a b)
  end.

Lemma suffix_le_trans a : forall b c,
  suffix_le a b = true -> suffix_le b c = true -> suffix_le a c = true.
Proof.
  induction a as [|x a IH]; intros b c Hab Hbc; [reflexivity|].
  destruct b as [|y b]; [discriminate|].
  destruct c as [|w c]; [discriminate|].
  cbn [suffix_le] in *.
  nat_cases; try discriminate; try reflexivity; try lia.
  apply (IH b c); assumption.
Qed.

Lemma common_prefix_nonneg a : forall b, 0 <= common_prefix a b.
Proof.
  induction a as [|x a IH]; intros b; [cbn; lia|].
  destruct b as [|y b]; cbn [common_prefix]; [lia|].
  destruct (nat_of_ascii x =? nat_of_ascii y)%nat; [specialize (IH b)|]; lia.
Qed.

Lemma common_prefix_sym a : forall b, common_prefix a b = common_prefix b a.
Proof.
  induction a as [|x a IH]; intros b; destruct b as [|y b]; try reflexivity.
  cbn [common_prefix]. rewrite (IH b).
  nat_cases; try reflexivity; lia.
Qed.

(** Of three strings in lexicographic order, the outer two share what both
    neighbouring pairs share. *)
Lemma common_prefix_three a : forall b c,
  suffix_le a b = true -> suffix_le b c = true ->
  common_prefix a c = Z.min (common_prefix a b) (common_prefix b c).
Proof.
  induction a as [|x a IH]; intros b c Hab Hbc.
  - cbn [common_prefix]. pose proof (common_prefix_nonneg b c). lia.
  - destruct b as [|y b]; [discriminate|].
    destruct c as [|w c]; [discriminate|].
    cbn [suffix_le common_prefix] in *.
    pose proof (common_prefix_nonneg a b). pose proof (common_prefix_nonneg b c).
    nat_cases; try discriminate; try lia.
    rewrite (IH b c) by assumption. lia.
Qed.

Lemma common_prefix_nth (d : ascii) a : forall b (j : nat),
  Z.of_nat j < common_prefix a b ->
  nth j a d = nth j b d /\ (j < length a)%nat /\ (j < length b)%nat.
Proof.
  induction a as [|x a IH]; intros b j Hj; [cbn in Hj; lia|].
  destruct b as [|y b]; [cbn in Hj; lia|].
  cbn [common_prefix] in Hj.
  destruct (Nat.eqb_spec (nat_of_ascii x) (nat_of_ascii y)) as [E|E]; [|lia].
  assert (x = y) as ->.
  { rewrite <- (ascii_nat_embedding x), <- (ascii_nat_embedding y), E. reflexivity. }
  destruct j as [|j]; cbn [nth length]; [split; [reflexivity|lia]|].
  destruct (IH b j) as (H1 & H2 & H3); [lia|]. split; [exact H1|lia].
Qed.

Lemma common_prefix_ge (d : ascii) (m : nat) : forall a b,
  (m <= length a)%nat -> (m <= length b)%nat ->
  (forall j, (j < m)%nat -> nth j a d = nth j b d) ->
  Z.of_nat m <= common_prefix a b.
Proof.
  induction m as [|m IH]; intros a b Ha Hb H.
  - apply common_prefix_nonneg.
  - destruct a as [|x a]; [cbn in Ha; lia|]. destruct b as [|y b]; [cbn in Hb; lia|].
    cbn [length] in Ha, Hb. cbn [common_prefix].
    pose proof (H 0%nat ltac:(lia)) as H0. cbn [nth] in H0. subst y.
    rewrite Nat.eqb_refl.
    specialize (IH a b ltac:(lia) ltac:(lia)
                  (fun j Hj => H (S j) ltac:(lia))). lia.
Qed.

(** ** The LCP array of a suffix array *)

Section SuffixArray.

Variable rs : list ascii.
Variables sa lcp : list Z.
Variable n : Z.

(** The suffix of rank [r]. *)
Definition ranked (r : Z) : list ascii := suffix rs (get sa r).

Hypothesis sa_sorted :
  forall r, 1 <= r < n -> suffix_le (ranked (r - 1)) (ranked r) = true.
Hypothesis lcp_adjacent :
  forall r, 1 <= r < n -> get lcp r = common_prefix (ranked (r - 1)) (ranked r).

Lemma sorted_chain a b : 0 <= a -> a <= b -> b < n ->
  suffix_le (ranked a) (ranked b) = true.
Proof.
  intros Ha Hab Hb. remember (Z.to_nat (b - a)) as m eqn:Em.
  revert b Hab Hb Em. induction m as [|m IH]; intros b Hab Hb Em.
  - assert (b = a) as -> by lia. apply suffix_le_refl.
  - apply (suffix_le_trans _ (ranked (b - 1))).
    + apply IH; lia.
    + apply sa_sorted. lia.
Qed.

(** The common prefix of the suffixes of ranks [a < b] is the minimum of
    [lcp] over [(a, b]]. *)
Lemma lcp_range a b : 0 <= a -> a < b -> b < n ->
  (forall k, a < k <= b -> common_prefix (ranked a) (ranked b) <= get lcp k) /\
  (exists k, a < k <= b /\ common_prefix (ranked a) (ranked b) = get lcp k).
Proof.
  intros Ha Hab Hb. remember (Z.to_nat (b - a - 1)) as m eqn:Em.
  revert b Hab Hb Em. induction m as [|m IH]; intros b Hab Hb Em.
  - assert (b = a + 1) as -> by lia.
    pose proof (lcp_adjacent (a + 1) ltac:(lia)) as E.
    replace (a + 1 - 1) with a in E by lia. split.
    + intros k Hk. assert (k = a + 1) as -> by lia. lia.
    + exists (a + 1). split; [lia|]. symmetry. exact E.
  - destruct (IH (b - 1)) as [Hall (k0 & Hk0 & Ek0)]; [lia|lia|lia|].
    pose proof (lcp_adjacent b ltac:(lia)) as E.
    pose proof (common_prefix_three (ranked a) (ranked (b - 1)) (ranked b)
                  (sorted_chain a (b - 1) ltac:(lia) ltac:(lia) ltac:(lia))
                  (sa_sorted b ltac:(lia))) as E3.
    rewrite <- E in E3. split.
    + intros k Hk. destruct (Z.eq_dec k b) as [->|Hne]; [lia|].
      specialize (Hall k ltac:(lia)). lia.
    + destruct (Z_le_gt_dec (common_prefix (ranked a) (ranked (b - 1))) (get lcp b)).
      * exists k0. split; [lia|]. lia.
      * exists b. split; [lia|]. lia.
Qed.

Lemma lcp_argmin a b m : 0 <= a -> a < b -> b < n ->
  leftmost_argmin lcp (a + 1) b m ->
  get lcp m = common_prefix (ranked a) (ranked b).
Proof.
  intros Ha Hab Hb (Hm & Hmin & _).
  destruct (lcp_range a b Ha Hab Hb) as [Hall (k & Hk & Ek)].
  specialize (Hall m ltac:(lia)). specialize (Hmin k ltac:(lia)). lia.
Qed.

(** A suffix shares the most with its nearest neighbours in rank. *)
Lemma common_prefix_mono_left a b c : 0 <= a -> a <= b -> b < c -> c < n ->
  common_prefix (ranked a) (ranked c) <= common_prefix (ranked b) (ranked c).
Proof.
  intros Ha Hab Hbc Hc. destruct (Z.eq_dec a b) as [->|Hne]; [lia|].
  destruct (lcp_range a c) as [Hall _]; [lia|lia|lia|].
  destruct (lcp_range b c) as [_ (k & Hk & Ek)]; [lia|lia|lia|].
  rewrite Ek. apply Hall. lia.
Qed.

Lemma common_prefix_mono_right a b c : 0 <= a -> a < b -> b <= c -> c < n ->
  common_prefix (ranked a) (ranked c) <= common_prefix (ranked a) (ranked b).
Proof.
  intros Ha Hab Hbc Hc. destruct (Z.eq_dec b c) as [->|Hne]; [lia|].
  destruct (lcp_range a c) as [Hall _]; [lia|lia|lia|].
  destruct (lcp_range a b) as [_ (k & Hk & Ek)]; [lia|lia|lia|].
  rewrite Ek. apply Hall. lia.
Qed.

End SuffixArray.

(** ** Phrase ends *)

(** The last text position of phrase [k]. *)
Definition phrase_end (ps : list Phrase.t) (k : nat) : Z :=
  sum_len (firstn (S k) ps) - 1.

Lemma sum_len_lower l :
  (forall p, In p l -> 1 <= Phrase.len p) -> Z.of_nat (length l) <= sum_len l.
Proof.
  induction l as [|p l IH]; intros H; [cbn; lia|].
  cbn [sum_len length]. specialize (H p (or_introl eq_refl)) as Hp.
  specialize (IH (fun q Hq => H q (or_intror Hq))). lia.
Qed.

Lemma phrase_end_bounds ps k :
  (forall p, In p ps -> 1 <= Phrase.len p) -> (k < length ps)%nat ->
  0 <= phrase_end ps k < sum_len ps.
Proof.
  intros Hlen Hk. unfold phrase_end.
  rewrite <- (firstn_skipn (S k) ps) at 3. rewrite sum_len_app.
  assert (forall p, In p (firstn (S k) ps) -> 1 <= Phrase.len p) as H1
    by (intros p Hp; apply Hlen; rewrite <- (firstn_skipn (S k) ps);
        apply in_or_app; left; exact Hp).
  assert (forall p, In p (skipn (S k) ps) -> 1 <= Phrase.len p) as H2
    by (intros p Hp; apply Hlen; rewrite <- (firstn_skipn (S k) ps);
        apply in_or_app; right; exact Hp).
  pose proof (sum_len_lower _ H1) as L1. pose proof (sum_len_nonneg _ H2) as L2.
  rewrite length_firstn in L1. lia.
Qed.

Lemma phrase_end_app ps m k :
  (k < length ps)%nat -> phrase_end (ps ++ m) k = phrase_end ps k.
Proof.
  intros Hk. unfold phrase_end. rewrite firstn_app.
  replace (S k - length ps)%nat with 0%nat by lia.
  cbn [firstn]. rewrite app_nil_r. reflexivity.
Qed.

Lemma phrase_end_firstn ps j k :
  (j < k)%nat -> phrase_end (firstn k ps) j = phrase_end ps j.
Proof.
  intros Hk. unfold phrase_end. rewrite firstn_firstn.
  replace (Nat.min (S j) k) with (S j) by lia. reflexivity.
Qed.

Lemma phrase_end_last ps p :
  phrase_end (ps ++ [p]) (length ps) = sum_len ps + Phrase.len p - 1.
Proof.
  unfold phrase_end. rewrite firstn_all2 by (rewrite length_app; cbn [length]; lia).
  rewrite sum_len_app, sum_len_single. reflexivity.
Qed.

Lemma in_marks isa ps e :
  In e (marks isa ps) <->
  exists k, (k < length ps)%nat /\ e = (get isa (phrase_end ps k), Z.of_nat k).
Proof.
  unfold marks. rewrite in_map_iff. split.
  - intros (k & E & Hk). apply in_seq in Hk. exists k. split; [lia|]. symmetry. exact E.
  - intros (k & Hk & E). exists k. split; [symmetry; exact E|]. apply in_seq. lia.
Qed.

Lemma sum_len_firstn_S (l : list Phrase.t) k :
  (k < length l)%nat ->
  sum_len (firstn (S k) l) =
  sum_len (firstn k l) + Phrase.len (nth k l (Phrase.mk 0 0 zero)).
Proof.
  revert k. induction l as [|p l IH]; intros k Hk; cbn [length] in Hk; [lia|].
  destruct k as [|k].
  - cbn. destruct l; cbn; lia.
  - change (firstn (S (S k)) (p :: l)) with (p :: firstn (S k) l).
    change (firstn (S k) (p :: l)) with (p :: firstn k l).
    cbn [sum_len nth]. rewrite IH by lia. lia.
Qed.

Lemma start_mono (ps : list Phrase.t) :
  (forall p, In p ps -> 1 <= Phrase.len p) ->
  forall k k', (k <= k')%nat -> (k' <= length ps)%nat ->
    sum_len (firstn k ps) + Z.of_nat (k' - k) <= sum_len (firstn k' ps).
Proof.
  intros Hlen k k' Hk Hk'. induction k' as [|k' IH].
  - assert (k = 0)%nat as -> by lia. cbn. lia.
  - destruct (Nat.eq_dec k (S k')) as [->|Hne].
    + rewrite Nat.sub_diag. lia.
    + specialize (IH ltac:(lia) ltac:(lia)).
      rewrite (sum_len_firstn_S ps k') by lia.
      assert (1 <= Phrase.len (nth k' ps (Phrase.mk 0 0 zero)))
        by (apply Hlen; apply nth_In; lia).
      lia.
Qed.

Lemma phrase_end_start (ps : list Phrase.t) k :
  (k < length ps)%nat ->
  phrase_end ps k =
  sum_len (firstn k ps) + Phrase.len (nth k ps (Phrase.mk 0 0 zero)) - 1.
Proof. intros Hk. unfold phrase_end. rewrite sum_len_firstn_S by exact Hk. reflexivity. Qed.

(** ** The candidates of an iteration *)

Section Validity.

Variable s : list ascii.
Variables sa isa lcp : list Z.
Variable rmq : RMQ.t.
Variable n : Z.

Hypothesis n_range : 1 <= n < 2 ^ 31.
Hypothesis s_length : Z.of_nat (length s) = n.
Hypothesis rmq_built : rmq_ok lcp n rmq.

(** [isa[p]] is the rank of the reversed prefix [S[0..p]] among the
    suffixes of the reversed text. *)
Hypothesis isa_rank :
  forall p, 0 <= p < n -> 0 <= get isa p < n /\ get sa (get isa p) = n - 1 - p.
Hypothesis sa_sorted :
  forall r, 1 <= r < n ->
    suffix_le (ranked (rev s) sa (r - 1)) (ranked (rev s) sa r) = true.
Hypothesis lcp_adjacent :
  forall r, 1 <= r < n ->
    get lcp r = common_prefix (ranked (rev s) sa (r - 1)) (ranked (rev s) sa r).

(** The length of the longest common suffix of [S[0..p]] and [S[0..q]]. *)
Definition shared (p q : Z) : Z :=
  common_prefix (suffix (rev s) (n - 1 - p)) (suffix (rev s) (n - 1 - q)).

Lemma shared_sym p q : shared p q = shared q p.
Proof. apply common_prefix_sym. Qed.

Lemma isa_injective p q :
  0 <= p < n -> 0 <= q < n -> get isa p = get isa q -> p = q.
Proof.
  intros Hp Hq E. destruct (isa_rank p Hp) as [_ E1].
  destruct (isa_rank q Hq) as [_ E2]. rewrite E in E1. lia.
Qed.

Lemma ranked_isa p :
  0 <= p < n -> ranked (rev s) sa (get isa p) = suffix (rev s) (n - 1 - p).
Proof.
  intros Hp. unfold ranked. destruct (isa_rank p Hp) as [_ ->]. reflexivity.
Qed.

(** What the RMQ over [lcp] returns between the ranks of two prefixes. *)
Lemma shared_rank p q :
  0 <= p < n -> 0 <= q < n -> get isa p < get isa q ->
  get lcp (RMQ.rmq rmq (uint32 (get isa p + 1)) (uint32 (get isa q))) = shared p q.
Proof.
  intros Hp Hq Hlt.
  destruct (isa_rank p Hp) as [Rp _]. destruct (isa_rank q Hq) as [Rq _].
  rewrite !uint32_small by lia.
  rewrite (lcp_argmin (rev s) sa lcp n sa_sorted lcp_adjacent (get isa p) (get isa q));
    [|lia|lia|lia|apply (rmq_query_ok lcp n); [lia|exact rmq_built|lia|lia|lia]].
  rewrite !ranked_isa by assumption. reflexivity.
Qed.

Lemma shared_mono_left a b c :
  0 <= a < n -> 0 <= b < n -> 0 <= c < n ->
  get isa a <= get isa b -> get isa b < get isa c -> shared a c <= shared b c.
Proof.
  intros Ha Hb Hc Hab Hbc.
  pose proof (common_prefix_mono_left (rev s) sa lcp n sa_sorted lcp_adjacent
                (get isa a) (get isa b) (get isa c)) as H.
  rewrite !ranked_isa in H by assumption. apply H; try lia.
  - apply (isa_rank a Ha).
  - apply (isa_rank c Hc).
Qed.

Lemma shared_mono_right a b c :
  0 <= a < n -> 0 <= b < n -> 0 <= c < n ->
  get isa a < get isa b -> get isa b <= get isa c -> shared a c <= shared a b.
Proof.
  intros Ha Hb Hc Hab Hbc.
  pose proof (common_prefix_mono_right (rev s) sa lcp n sa_sorted lcp_adjacent
                (get isa a) (get isa b) (get isa c)) as H.
  rewrite !ranked_isa in H by assumption. apply H; try lia.
  - apply (isa_rank a Ha).
  - apply (isa_rank c Hc).
Qed.

(** The characters behind a shared length. *)
Lemma shared_chars p q m :
  0 <= p < n -> 0 <= q < n -> m <= shared p q ->
  m <= p + 1 /\ m <= q + 1 /\
  forall j, 0 <= j < m -> char_at s (p - j) = char_at s (q - j).
Proof.
  intros Hp Hq Hm.
  assert (forall j, 0 <= j < m ->
            j <= p /\ j <= q /\ char_at s (p - j) = char_at s (q - j)) as H.
  { intros j Hj.
    destruct (common_prefix_nth zero (suffix (rev s) (n - 1 - p))
                (suffix (rev s) (n - 1 - q)) (Z.to_nat j)) as (E & L1 & L2).
    { unfold shared in Hm. lia. }
    unfold suffix in E, L1, L2. rewrite !length_skipn, !length_rev in L1, L2.
    rewrite !nth_skipn in E.
    rewrite !rev_nth in E by lia.
    unfold char_at. split; [lia|]. split; [lia|].
    replace (Z.to_nat (p - j)) with (length s - S (Z.to_nat (n - 1 - p) + Z.to_nat j))%nat by lia.
    replace (Z.to_nat (q - j)) with (length s - S (Z.to_nat (n - 1 - q) + Z.to_nat j))%nat by lia.
    exact E. }
  split; [|split].
  - destruct (Z_le_gt_dec m 0); [lia|]. destruct (H (m - 1)); lia.
  - destruct (Z_le_gt_dec m 0); [lia|]. destruct (H (m - 1)); lia.
  - intros j Hj. apply H. exact Hj.
Qed.

Lemma shared_ge p q m :
  0 <= p < n -> 0 <= q < n -> 0 <= m -> m <= p + 1 -> m <= q + 1 ->
  (forall j, 0 <= j < m -> char_at s (p - j) = char_at s (q - j)) ->
  m <= shared p q.
Proof.
  intros Hp Hq Hm0 Hmp Hmq H. unfold shared.
  rewrite <- (Z2Nat.id m) by lia.
  apply (common_prefix_ge zero); unfold suffix.
  - rewrite length_skipn, length_rev. lia.
  - rewrite length_skipn, length_rev. lia.
  - intros j Hj. rewrite !nth_skipn, !rev_nth by lia.
    specialize (H (Z.of_nat j) ltac:(lia)). unfold char_at in H.
    replace (length s - S (Z.to_nat (n - 1 - p) + j))%nat
      with (Z.to_nat (p - Z.of_nat j)) by lia.
    replace (length s - S (Z.to_nat (n - 1 - q) + j))%nat
      with (Z.to_nat (q - Z.of_nat j)) by lia.
    exact H.
Qed.

Lemma shared_shift p q m t :
  0 <= p < n -> 0 <= q < n -> 0 <= t -> t <= m -> t <= p -> t <= q ->
  m <= shared p q -> m - t <= shared (p - t) (q - t).
Proof.
  intros Hp Hq Ht Htm Htp Htq H.
  destruct (shared_chars p q m Hp Hq H) as (H1 & H2 & Hch).
  apply shared_ge; try lia.
  intros j Hj. specialize (Hch (j + t) ltac:(lia)).
  replace (p - t - j) with (p - (j + t)) by lia.
  replace (q - t - j) with (q - (j + t)) by lia. exact Hch.
Qed.

Lemma shared_trans a b c m :
  0 <= a < n -> 0 <= b < n -> 0 <= c < n -> 0 <= m ->
  m <= shared a b -> m <= shared b c -> m <= shared a c.
Proof.
  intros Ha Hb Hc Hm H1 H2.
  destruct (shared_chars a b m Ha Hb H1) as (A1 & A2 & Ach).
  destruct (shared_chars b c m Hb Hc H2) as (B1 & B2 & Bch).
  apply shared_ge; try lia.
  intros j Hj. rewrite (Ach j Hj). apply Bch. exact Hj.
Qed.

(** Phrase [p], coming after the phrases [ps], ends with the character of
    the text at its last position, and is a single character or copies its
    other characters from the text that ends where phrase [lnk] of [ps]
    ends. *)
Definition copies (ps : list Phrase.t) (p : Phrase.t) : Prop :=
  Phrase.ext p = char_at s (sum_len ps + Phrase.len p - 1) /\
  (Phrase.len p = 1 \/
   (0 <= Phrase.lnk p < Z.of_nat (length ps) /\
    Phrase.len p - 1 <=
      shared (phrase_end ps (Z.to_nat (Phrase.lnk p))) (sum_len ps + Phrase.len p - 2))).

Definition all_copy (ps : list Phrase.t) : Prop :=
  forall k, (k < length ps)%nat ->
    copies (firstn k ps) (nth k ps (Phrase.mk 0 0 zero)).

(** No phrase after the first is found again, whole, where an earlier
    phrase ends. *)
Definition fresh (ps : list Phrase.t) : Prop :=
  forall k q, (1 <= k < length ps)%nat -> (q < k)%nat ->
    shared (phrase_end ps k) (phrase_end ps q) <
    Phrase.len (nth k ps (Phrase.mk 0 0 zero)).

(** The [m] characters of the text that end at position [e] also end
    where one of the phrases [ps] ends. *)
Definition occurs_at (ps : list Phrase.t) (e m : Z) : Prop :=
  exists q, (q < length ps)%nat /\ m <= shared (phrase_end ps q) e.

(** Phrase [p], coming after the phrases [ps], could not copy more: no
    longer stretch of the text from its start, a character for [ext] left
    before position [bound], ends where one of the phrases [ps] ends. *)
Definition maximal (bound : Z) (ps : list Phrase.t) (p : Phrase.t) : Prop :=
  forall m, Phrase.len p <= m -> sum_len ps + m <= bound - 1 ->
    ~ occurs_at ps (sum_len ps + m - 1) m.

Definition greedy (bound : Z) (ps : list Phrase.t) : Prop :=
  forall k, (k < length ps)%nat ->
    maximal bound (firstn k ps) (nth k ps (Phrase.mk 0 0 zero)).

(** A phrase that extends a source by one position outruns the source. *)
Lemma outruns (ps : list Phrase.t) (k q j : nat) (bound : Z) :
  (forall p, In p ps -> 1 <= Phrase.len p) -> sum_len ps <= n ->
  greedy bound ps -> (k < length ps)%nat -> (q < k)%nat -> (j < length ps)%nat ->
  let d := bound - 1 - phrase_end ps j in
  bound <= n ->
  bound - sum_len (firstn k ps) <= shared (phrase_end ps j) (bound - 1) ->
  sum_len (firstn k ps) - d <= phrase_end ps q -> phrase_end ps q < phrase_end ps j ->
  phrase_end ps q + d + 1 <= phrase_end ps k.
Proof.
  intros Hlen Hfit Hg Hk Hq Hj d Hb H Hlo Hhi.
  pose proof (phrase_end_bounds ps q Hlen ltac:(lia)) as Bq.
  pose proof (phrase_end_bounds ps j Hlen Hj) as Bj.
  pose proof (phrase_end_bounds ps k Hlen Hk) as Bk.
  pose proof (phrase_end_start ps k Hk) as Ek.
  pose proof (start_mono ps Hlen 0 k ltac:(lia) ltac:(lia)) as Sk. cbn [firstn sum_len] in Sk.
  set (bk := sum_len (firstn k ps)) in *.
  set (m := phrase_end ps q + d - bk + 1).
  destruct (Z_lt_le_dec m (Phrase.len (nth k ps (Phrase.mk 0 0 zero)))) as [Hlt|Hge];
    [unfold m in Hlt; lia|exfalso].
  apply (Hg k Hk m Hge); [fold bk; unfold m, d; lia|].
  exists q. rewrite length_firstn. split; [lia|].
  rewrite phrase_end_firstn by exact Hq. fold bk.
  pose proof (shared_shift (phrase_end ps j) (bound - 1) (bound - bk)
                (phrase_end ps j - phrase_end ps q)
                ltac:(lia) ltac:(lia) ltac:(lia) ltac:(unfold d in Hlo; lia)
                ltac:(lia) ltac:(unfold d in Hlo; lia) H) as Hs.
  replace (phrase_end ps j - (phrase_end ps j - phrase_end ps q))
    with (phrase_end ps q) in Hs by lia.
  replace (bound - 1 - (phrase_end ps j - phrase_end ps q))
    with (bk + m - 1) in Hs by (unfold m, d; lia).
  unfold m, d in *. lia.
Qed.

(** In a greedy parsing of [S[0..i)] the last three phrases together, or
    more, are not found where an earlier phrase ends. *)
Lemma no_long_suffix (ps : list Phrase.t) (last : Phrase.t) (i : Z) (k q : nat) :
  (forall p, In p ps -> 1 <= Phrase.len p) -> 1 <= Phrase.len last ->
  i = sum_len ps + Phrase.len last -> i <= n ->
  all_copy ps -> greedy i ps ->
  (S k < length ps)%nat -> (q < k)%nat ->
  shared (phrase_end ps q) (i - 1) < i - sum_len (firstn k ps).
Proof.
  intros Hlen Hlast Hi Hin Hcopy Hg Hk Hq.
  destruct (Z_lt_le_dec (shared (phrase_end ps q) (i - 1)) (i - sum_len (firstn k ps)))
    as [Hlt|H]; [exact Hlt|exfalso].
  set (A := (length ps - 2)%nat). set (B := (length ps - 1)%nat).
  assert (S A = B) as EAB by (unfold A, B; lia).
  assert (S B = length ps) as EBz by (unfold B; lia).
  pose proof (start_mono ps Hlen k A ltac:(unfold A; lia) ltac:(unfold A; lia)) as SkA.
  pose proof (start_mono ps Hlen (S q) k ltac:(lia) ltac:(lia)) as Sqk.
  pose proof (start_mono ps Hlen 0 q ltac:(lia) ltac:(lia)) as S0q. cbn [firstn sum_len] in S0q.
  pose proof (sum_len_firstn_S ps A ltac:(unfold A; lia)) as SA. rewrite EAB in SA.
  pose proof (sum_len_firstn_S ps B ltac:(unfold B; lia)) as SB.
  rewrite EBz, firstn_all in SB.
  pose proof (phrase_end_start ps A ltac:(unfold A; lia)) as EA.
  pose proof (phrase_end_start ps q ltac:(lia)) as Eq.
  assert (1 <= Phrase.len (nth A ps (Phrase.mk 0 0 zero))) as LA
    by (apply Hlen; apply nth_In; unfold A; lia).
  assert (1 <= Phrase.len (nth B ps (Phrase.mk 0 0 zero))) as LB
    by (apply Hlen; apply nth_In; unfold B; lia).
  assert (1 <= Phrase.len (nth q ps (Phrase.mk 0 0 zero))) as Lq
    by (apply Hlen; apply nth_In; lia).
  pose proof (phrase_end_bounds ps q Hlen ltac:(lia)) as Bq.
  assert (phrase_end ps q + 1 = sum_len (firstn (S q) ps)) as Eq1
    by (unfold phrase_end; lia).
  set (bA := sum_len (firstn A ps)) in *. set (bB := sum_len (firstn B ps)) in *.
  set (bk := sum_len (firstn k ps)) in *. set (bq := sum_len (firstn q ps)) in *.
  set (ej := phrase_end ps q) in *.
  assert (i - bA <= shared ej (i - 1)) as HA by lia.
  destruct (shared_chars ej (i - 1) (i - bA) ltac:(lia) ltac:(lia) HA) as (Hfit & _ & _).
  set (d := i - 1 - ej).
  (* phrase q holds the copy of the last two phrases *)
  assert (bq <= bB - d) as Hstart.
  { destruct q as [|q'].
    - unfold bq. cbn [firstn sum_len]. unfold d. lia.
    - assert (phrase_end ps q' = bq - 1) as Eq' by (unfold phrase_end, bq; lia).
      destruct (Z_le_gt_dec (bA - d) (phrase_end ps q')) as [Hin'|Hout]; [|unfold d in *; lia].
      pose proof (outruns ps A q' (S q') i Hlen ltac:(lia) Hg
                    ltac:(unfold A; lia) ltac:(lia) ltac:(lia) Hin HA
                    Hin' ltac:(fold ej; lia)) as Ho.
      fold ej in Ho. fold d in Ho. lia. }
  (* hence phrase q has a source, which is a source for more of phrase B *)
  destruct (Hcopy q ltac:(lia)) as [_ [E1|[Hlnk Hsh]]]; [unfold d in *; lia|].
  rewrite length_firstn in Hlnk.
  replace (Nat.min q (length ps)) with q in Hlnk by lia.
  rewrite phrase_end_firstn in Hsh by lia. fold bq in Hsh.
  set (q' := Z.to_nat (Phrase.lnk (nth q ps (Phrase.mk 0 0 zero)))) in *.
  pose proof (phrase_end_bounds ps q' Hlen ltac:(lia)) as Bq'.
  replace (bq + Phrase.len (nth q ps (Phrase.mk 0 0 zero)) - 2) with (ej - 1) in Hsh by lia.
  pose proof (shared_shift ej (i - 1) (i - bA) 1
                ltac:(lia) ltac:(lia) ltac:(lia) ltac:(lia)
                ltac:(unfold d in *; lia) ltac:(lia) HA) as Hs1.
  replace (i - 1 - 1) with (i - 2) in Hs1 by lia.
  pose proof (shared_trans (phrase_end ps q') (ej - 1) (i - 2) (i - 1 - bB)
                ltac:(lia) ltac:(unfold d in *; lia) ltac:(lia) ltac:(lia)
                ltac:(unfold d in *; lia) ltac:(lia)) as Hs2.
  apply (Hg B ltac:(unfold B; lia) (i - 1 - bB)); [lia|fold bB; lia|].
  exists q'. rewrite length_firstn. split; [unfold B; lia|].
  rewrite phrase_end_firstn by (unfold B; lia). fold bB.
  replace (bB + (i - 1 - bB) - 1) with (i - 2) by lia. exact Hs2.
Qed.

Section Marked.

Variable ps : list Phrase.t.
Variable l : list (Z * Z).
Variable marked : BTree.BTree.

Hypothesis ps_len : forall p, In p ps -> 1 <= Phrase.len p.
Hypothesis ps_fit : sum_len ps <= n.
Hypothesis marked_inv : tree_inv map_capacity marked l.
Hypothesis marked_l : forall e, In e l <-> In e (marks isa ps).

Lemma end_range k : (k < length ps)%nat -> 0 <= phrase_end ps k < n.
Proof. intros Hk. pose proof (phrase_end_bounds ps k ps_len Hk). lia. Qed.

Lemma smaller_spec q :
  0 <= q < n ->
  let c := lex_smaller_phrase lcp rmq marked (get isa q) in
  (c = sentinel /\
   forall k, (k < length ps)%nat -> get isa q <= get isa (phrase_end ps k)) \/
  (exists k, (k < length ps)%nat /\
     c = Candidate.mk (get isa (phrase_end ps k)) (Z.of_nat k) (shared (phrase_end ps k) q) /\
     get isa (phrase_end ps k) < get isa q /\
     forall k', (k' < length ps)%nat -> get isa (phrase_end ps k') < get isa q ->
                get isa (phrase_end ps k') <= get isa (phrase_end ps k)).
Proof.
  intros Hq. cbv zeta. unfold lex_smaller_phrase.
  rewrite (predecessor_inv map_capacity map_degree_min _ _ _ marked_inv).
  pose proof (pred_in_spec (get isa q - 1) l (tree_inv_sorted _ _ marked_inv)) as Hp.
  destruct (pred_in (get isa q - 1) l) as [[key v]|].
  - destruct Hp as (Hin & Hle & Hmax). cbn [fst] in Hle.
    apply marked_l, in_marks in Hin. destruct Hin as (k & Hk & E).
    injection E as -> ->. right. exists k.
    cbn [query_of exists_ key value]. split; [exact Hk|].
    pose proof (end_range k Hk) as Hek. split.
    + f_equal. apply shared_rank; [exact Hek|exact Hq|lia].
    + split; [lia|]. intros k' Hk' Hlt.
      apply (Hmax (get isa (phrase_end ps k'), Z.of_nat k')); [|cbn [fst]; lia].
      apply marked_l, in_marks. exists k'. split; [exact Hk'|reflexivity].
  - left. split; [reflexivity|]. intros k Hk.
    specialize (Hp (get isa (phrase_end ps k), Z.of_nat k)). cbn [fst] in Hp.
    assert (get isa q - 1 < get isa (phrase_end ps k)); [|lia].
    apply Hp. apply marked_l, in_marks. exists k. split; [exact Hk|reflexivity].
Qed.

Lemma greater_spec q :
  0 <= q < n ->
  let c := lex_greater_phrase lcp rmq marked (get isa q) in
  (c = sentinel /\
   forall k, (k < length ps)%nat -> get isa (phrase_end ps k) <= get isa q) \/
  (exists k, (k < length ps)%nat /\
     c = Candidate.mk (get isa (phrase_end ps k)) (Z.of_nat k) (shared (phrase_end ps k) q) /\
     get isa q < get isa (phrase_end ps k) /\
     forall k', (k' < length ps)%nat -> get isa q < get isa (phrase_end ps k') ->
                get isa (phrase_end ps k) <= get isa (phrase_end ps k')).
Proof.
  intros Hq. cbv zeta. unfold lex_greater_phrase.
  rewrite (successor_inv map_capacity map_degree_min _ _ _ marked_inv).
  pose proof (succ_in_spec (get isa q + 1) l (tree_inv_sorted _ _ marked_inv)) as Hp.
  destruct (succ_in (get isa q + 1) l) as [[key v]|].
  - destruct Hp as (Hin & Hle & Hmax). cbn [fst] in Hle.
    apply marked_l, in_marks in Hin. destruct Hin as (k & Hk & E).
    injection E as -> ->. right. exists k.
    cbn [query_of exists_ key value]. split; [exact Hk|].
    pose proof (end_range k Hk) as Hek. split.
    + f_equal. rewrite shared_sym. apply shared_rank; [exact Hq|exact Hek|lia].
    + split; [lia|]. intros k' Hk' Hlt.
      apply (Hmax (get isa (phrase_end ps k'), Z.of_nat k')); [|cbn [fst]; lia].
      apply marked_l, in_marks. exists k'. split; [exact Hk'|reflexivity].
  - left. split; [reflexivity|]. intros k Hk.
    specialize (Hp (get isa (phrase_end ps k), Z.of_nat k)). cbn [fst] in Hp.
    assert (get isa (phrase_end ps k) < get isa q + 1); [|lia].
    apply Hp. apply marked_l, in_marks. exists k. split; [exact Hk|reflexivity].
Qed.

Variable last : Phrase.t.
Variables i len2 : Z.

Hypothesis last_len : 1 <= Phrase.len last.
Hypothesis i_eq : i = sum_len ps + Phrase.len last.
Hypothesis i_lt : i < n.
Hypothesis len2_eq :
  len2 = Phrase.len last +
         (if 0 <? Z.of_nat (length ps)
          then Phrase.len (nth (Nat.pred (length ps)) ps (Phrase.mk 0 0 zero))
          else 0).
Hypothesis ps_fresh : fresh ps.

(** A candidate is the sentinel or a marked phrase with the length it
    shares with the prefix asked for. *)
Definition cand_ok (f : Z -> Candidate.t) : Prop :=
  forall q, 0 <= q < n ->
    f (get isa q) = sentinel \/
    exists k, (k < length ps)%nat /\
      f (get isa q) =
        Candidate.mk (get isa (phrase_end ps k)) (Z.of_nat k) (shared (phrase_end ps k) q) /\
      get isa (phrase_end ps k) <> get isa q.

Lemma smaller_ok : cand_ok (lex_smaller_phrase lcp rmq marked).
Proof.
  intros q Hq. destruct (smaller_spec q Hq) as [[E _]|(k & Hk & E & Hlt & _)].
  - left. exact E.
  - right. exists k. split; [exact Hk|]. split; [exact E|lia].
Qed.

Lemma greater_ok : cand_ok (lex_greater_phrase lcp rmq marked).
Proof.
  intros q Hq. destruct (greater_spec q Hq) as [[E _]|(k & Hk & E & Hlt & _)].
  - left. exact E.
  - right. exists k. split; [exact Hk|]. split; [exact E|lia].
Qed.

(** What [p1] and [p2] stand for once assigned. *)
Definition good (p : Z * Z) : Prop :=
  (fst p = -1 \/
   (0 <= fst p < Z.of_nat (length ps) /\
    Phrase.len last <= shared (phrase_end ps (Z.to_nat (fst p))) (i - 1))) /\
  (snd p = -1 \/
   (0 <= snd p < Z.of_nat (length ps) - 1 /\
    len2 <= shared (phrase_end ps (Z.to_nat (snd p))) (i - 1))).

Lemma len2_lower : Phrase.len last <= len2.
Proof.
  rewrite len2_eq. destruct (Z.ltb_spec 0 (Z.of_nat (length ps))); [|lia].
  assert (1 <= Phrase.len (nth (Nat.pred (length ps)) ps (Phrase.mk 0 0 zero))); [|lia].
  apply ps_len. apply nth_In. lia.
Qed.

Lemma find_copy_source_good f p :
  cand_ok f -> good p ->
  good (find_copy_source i (Z.of_nat (length ps)) (Phrase.len last) len2
          (get isa (i - 1)) f p).
Proof.
  intros Hf Hg. pose proof len2_lower as Hl2.
  pose proof (sum_len_nonneg ps ps_len) as Hs0.
  unfold find_copy_source.
  destruct (Hf (i - 1)) as [E|(k & Hk & E & Hne)]; [lia| |]; rewrite E.
  - cbn [Candidate.len sentinel].
    destruct (Z.leb_spec (Phrase.len last) 0); [lia|exact Hg].
  - cbn [Candidate.len Candidate.lnk Candidate.lex_pos].
    destruct (Z.leb_spec (Phrase.len last) (shared (phrase_end ps k) (i - 1)))
      as [H1|H1]; [|exact Hg].
    assert (0 <= Z.of_nat k < Z.of_nat (length ps) /\
            Phrase.len last <= shared (phrase_end ps (Z.to_nat (Z.of_nat k))) (i - 1)) as G1
      by (rewrite Nat2Z.id; split; [lia|exact H1]).
    destruct (Z.ltb_spec (Phrase.len last) i);
      [|split; cbn [fst snd]; [right; exact G1|apply Hg]].
    destruct (Z.eqb_spec (Z.of_nat k) (Z.of_nat (length ps) - 1)) as [Ek|Ek].
    + pose proof (end_range k Hk) as Hek.
      destruct (Hf (phrase_end ps k) Hek) as [E'|(k' & Hk' & E' & Hne')]; rewrite E'.
      * cbn [Candidate.len Candidate.lnk sentinel].
        destruct (Z.leb_spec len2 0); [lia|].
        split; cbn [fst snd]; [right; exact G1|apply Hg].
      * cbn [Candidate.len Candidate.lnk].
        destruct (Z.leb_spec len2 (shared (phrase_end ps k') (phrase_end ps k)))
          as [H2|H2]; [exfalso|split; cbn [fst snd]; [right; exact G1|apply Hg]].
        assert (k' <> k) as Hkk by (intros ->; apply Hne'; reflexivity).
        pose proof (ps_fresh k k' ltac:(lia) ltac:(lia)) as Hfr.
        rewrite shared_sym in Hfr.
        rewrite len2_eq in H2.
        destruct (Z.ltb_spec 0 (Z.of_nat (length ps))); [|lia].
        replace (Nat.pred (length ps)) with k in H2 by lia. lia.
    + cbn [Candidate.len Candidate.lnk].
      destruct (Z.leb_spec len2 (shared (phrase_end ps k) (i - 1))) as [H2|H2];
        split; cbn [fst snd]; try (right; exact G1); try apply Hg.
      right. rewrite Nat2Z.id. split; [lia|exact H2].
Qed.

Lemma find_copy_source_none f p :
  cand_ok f ->
  fst (find_copy_source i (Z.of_nat (length ps)) (Phrase.len last) len2
         (get isa (i - 1)) f p) = -1 ->
  Candidate.len (f (get isa (i - 1))) < Phrase.len last.
Proof.
  intros Hf H. pose proof (sum_len_nonneg ps ps_len) as Hs0.
  unfold find_copy_source in H.
  destruct (Z.leb_spec (Phrase.len last) (Candidate.len (f (get isa (i - 1)))))
    as [H1|H1]; [exfalso|exact H1].
  assert (Candidate.lnk (f (get isa (i - 1))) = -1) as Hl.
  { destruct (Phrase.len last <? i); [|exact H].
    match type of H with
    | fst (if ?b then _ else _) = _ => destruct b; exact H
    end. }
  destruct (Hf (i - 1)) as [E|(k & Hk & E & Hne)]; [lia| |]; rewrite E in Hl;
    cbn in Hl; lia.
Qed.

(** The outcome of the two searches of an iteration. *)
Lemma search_spec :
  let r := snd (search lcp rmq marked i (Z.of_nat (length ps)) (Phrase.len last) len2
                  (get isa (i - 1))) in
  good r /\
  (fst r = -1 ->
   forall q, (q < length ps)%nat -> shared (phrase_end ps q) (i - 1) < Phrase.len last).
Proof.
  cbv zeta. unfold search. cbn [snd].
  pose proof (sum_len_nonneg ps ps_len) as Hs0.
  set (first := find_copy_source i (Z.of_nat (length ps)) (Phrase.len last) len2
                  (get isa (i - 1)) (lex_smaller_phrase lcp rmq marked) (-1, -1)).
  assert (good first) as Gf.
  { apply find_copy_source_good; [apply smaller_ok|].
    split; left; reflexivity. }
  split.
  - destruct ((fst first =? -1) || (snd first =? -1)); [|exact Gf].
    apply find_copy_source_good; [apply greater_ok|exact Gf].
  - intros H q Hq.
    assert (Candidate.len (lex_smaller_phrase lcp rmq marked (get isa (i - 1)))
              < Phrase.len last /\
            Candidate.len (lex_greater_phrase lcp rmq marked (get isa (i - 1)))
              < Phrase.len last) as [Hs Hg].
    { destruct ((fst first =? -1) || (snd first =? -1)) eqn:Ec.
      - pose proof (find_copy_source_none _ _ greater_ok H) as Hg.
        rewrite find_copy_source_short in H by exact Hg.
        split; [|exact Hg]. apply (find_copy_source_none _ _ smaller_ok H).
      - rewrite H in Ec. cbn in Ec. discriminate. }
    pose proof (phrase_end_bounds ps q ps_len Hq) as Hq'.
    assert (0 <= phrase_end ps q < n) as Hqn by lia.
    assert (0 <= i - 1 < n) as Hin by lia.
    destruct (Z_lt_ge_dec (get isa (phrase_end ps q)) (get isa (i - 1))) as [Hlt|Hge].
    + destruct (smaller_spec (i - 1) Hin) as [[_ Hno]|(k & Hk & E & Hk1 & Hmax)].
      * specialize (Hno q Hq). lia.
      * rewrite E in Hs. cbn [Candidate.len] in Hs.
        pose proof (shared_mono_left (phrase_end ps q) (phrase_end ps k) (i - 1)
                      Hqn (end_range k Hk) Hin (Hmax q Hq Hlt) Hk1). lia.
    + assert (get isa (i - 1) < get isa (phrase_end ps q)) as Hgt.
      { destruct (Z.eq_dec (get isa (phrase_end ps q)) (get isa (i - 1))) as [E|E]; [|lia].
        apply isa_injective in E; lia. }
      destruct (greater_spec (i - 1) Hin) as [[_ Hno]|(k & Hk & E & Hk1 & Hmax)].
      * specialize (Hno q Hq). lia.
      * rewrite E in Hg. cbn [Candidate.len] in Hg.
        pose proof (shared_mono_right (i - 1) (phrase_end ps k) (phrase_end ps q)
                      Hin (end_range k Hk) Hqn Hk1 (Hmax q Hq Hgt)) as Hm.
        rewrite (shared_sym (phrase_end ps q)), (shared_sym (phrase_end ps k)) in *. lia.
Qed.

Lemma find_copy_source_assigns f p k x c :
  (1 <= length ps)%nat ->
  f (get isa (i - 1)) = Candidate.mk x (Z.of_nat k) c ->
  len2 <= c -> Z.of_nat k <> Z.of_nat (length ps) - 1 ->
  find_copy_source i (Z.of_nat (length ps)) (Phrase.len last) len2
    (get isa (i - 1)) f p = (Z.of_nat k, Z.of_nat k).
Proof.
  intros Hz E Hc Hk. pose proof len2_lower as Hl2.
  pose proof (sum_len_lower ps ps_len) as Hs.
  unfold find_copy_source. rewrite E. cbn [Candidate.len Candidate.lnk Candidate.lex_pos].
  destruct (Z.leb_spec (Phrase.len last) c); [|lia].
  destruct (Z.ltb_spec (Phrase.len last) i); [|lia].
  destruct (Z.eqb_spec (Z.of_nat k) (Z.of_nat (length ps) - 1)); [contradiction|].
  cbn [Candidate.len Candidate.lnk].
  destruct (Z.leb_spec len2 c); [reflexivity|lia].
Qed.

(** When the iteration does not merge, the last two phrases together are
    not found where an earlier phrase ends. *)
Lemma search_no_merge :
  snd (snd (search lcp rmq marked i (Z.of_nat (length ps)) (Phrase.len last) len2
              (get isa (i - 1)))) = -1 ->
  forall q, (S q < length ps)%nat -> shared (phrase_end ps q) (i - 1) < len2.
Proof.
  intros Hp2 q Hq.
  destruct (Z_lt_le_dec (shared (phrase_end ps q) (i - 1)) len2) as [Hlt|Hge];
    [exact Hlt|exfalso].
  pose proof (sum_len_nonneg ps ps_len) as Hs0.
  set (B := Nat.pred (length ps)).
  assert (B < length ps)%nat as HB by (unfold B; lia).
  pose proof (phrase_end_bounds ps q ps_len ltac:(lia)) as Bq.
  pose proof (phrase_end_bounds ps B ps_len HB) as BB.
  assert (0 <= phrase_end ps q < n) as Hqn by lia.
  assert (0 <= phrase_end ps B < n) as HBn by lia.
  assert (0 <= i - 1 < n) as Hin by lia.
  assert (phrase_end ps q < phrase_end ps B) as HqB.
  { pose proof (start_mono ps ps_len (S q) B ltac:(unfold B; lia) ltac:(lia)).
    pose proof (phrase_end_start ps B HB).
    assert (1 <= Phrase.len (nth B ps (Phrase.mk 0 0 zero)))
      by (apply ps_len; apply nth_In; exact HB).
    unfold phrase_end at 1. lia. }
  assert (len2 = Phrase.len last + Phrase.len (nth B ps (Phrase.mk 0 0 zero))) as El2.
  { rewrite len2_eq. destruct (Z.ltb_spec 0 (Z.of_nat (length ps))); [reflexivity|lia]. }
  pose proof (ps_fresh B q ltac:(unfold B; lia) ltac:(unfold B; lia)) as Hfr.
  assert (get isa (phrase_end ps q) <> get isa (i - 1)) as Hne1
    by (intros E; apply isa_injective in E; lia).
  assert (get isa (phrase_end ps q) <> get isa (phrase_end ps B)) as Hne2
    by (intros E; apply isa_injective in E; lia).
  unfold search in Hp2. cbn [snd] in Hp2.
  set (first := find_copy_source i (Z.of_nat (length ps)) (Phrase.len last) len2
                  (get isa (i - 1)) (lex_smaller_phrase lcp rmq marked) (-1, -1)) in *.
  destruct (Z_lt_ge_dec (get isa (phrase_end ps q)) (get isa (i - 1))) as [Hsm|Hgr].
  - destruct (smaller_spec (i - 1) Hin) as [[_ Hno]|(k & Hk & E & Hk1 & Hmax)].
    { specialize (Hno q ltac:(lia)). lia. }
    pose proof (shared_mono_left (phrase_end ps q) (phrase_end ps k) (i - 1)
                  Hqn (end_range k Hk) Hin (Hmax q ltac:(lia) Hsm) Hk1) as Hm.
    destruct (Nat.eq_dec k B) as [->|HkB].
    + pose proof (shared_mono_right (phrase_end ps q) (phrase_end ps B) (i - 1)
                    Hqn HBn Hin ltac:(specialize (Hmax q ltac:(lia) Hsm); lia)
                    ltac:(lia)) as Hm2.
      rewrite (shared_sym (phrase_end ps B)) in Hfr. lia.
    + assert (first = (Z.of_nat k, Z.of_nat k)) as Ef.
      { apply (find_copy_source_assigns _ _ k _ _ ltac:(lia) E); [lia|unfold B in HkB; lia]. }
      rewrite Ef in Hp2. cbn [fst snd] in Hp2.
      destruct (Z.eqb_spec (Z.of_nat k) (-1)); [lia|]. cbn [orb snd] in Hp2. lia.
  - assert (get isa (i - 1) < get isa (phrase_end ps q)) as Hgt by lia.
    destruct (greater_spec (i - 1) Hin) as [[_ Hno]|(k & Hk & E & Hk1 & Hmax)].
    { specialize (Hno q ltac:(lia)). lia. }
    pose proof (shared_mono_right (i - 1) (phrase_end ps k) (phrase_end ps q)
                  Hin (end_range k Hk) Hqn Hk1 (Hmax q ltac:(lia) Hgt)) as Hm.
    rewrite (shared_sym (i - 1)), (shared_sym (i - 1)) in Hm.
    destruct (Nat.eq_dec k B) as [->|HkB].
    + pose proof (shared_mono_left (i - 1) (phrase_end ps B) (phrase_end ps q)
                    Hin HBn Hqn ltac:(lia)
                    ltac:(specialize (Hmax q ltac:(lia) Hgt); lia)) as Hm2.
      rewrite (shared_sym (i - 1)) in Hm2. lia.
    + destruct ((fst first =? -1) || (snd first =? -1)) eqn:Ec.
      * rewrite (find_copy_source_assigns _ _ k _ _ ltac:(lia) E) in Hp2;
          [cbn [snd] in Hp2; lia|lia|unfold B in HkB; lia].
      * apply orb_false_iff in Ec. destruct Ec as [_ Ec].
        apply Z.eqb_neq in Ec. contradiction.
Qed.

End Marked.

(** ** The invariant of the main loop, continued *)

Lemma all_copy_snoc ps x : all_copy ps -> copies ps x -> all_copy (ps ++ [x]).
Proof.
  intros Ha Hx k Hk. rewrite length_app in Hk. cbn [length] in Hk.
  destruct (Nat.eq_dec k (length ps)) as [->|Hne].
  - rewrite firstn_app, Nat.sub_diag, firstn_all. cbn [firstn].
    rewrite app_nil_r, nth_middle. exact Hx.
  - rewrite firstn_app. replace (k - length ps)%nat with 0%nat by lia.
    cbn [firstn]. rewrite app_nil_r, app_nth1 by lia. apply Ha. lia.
Qed.

Lemma all_copy_prefix ps m : all_copy (ps ++ m) -> all_copy ps.
Proof.
  intros Ha k Hk. specialize (Ha k).
  rewrite firstn_app in Ha. replace (k - length ps)%nat with 0%nat in Ha by lia.
  cbn [firstn] in Ha. rewrite app_nil_r, app_nth1 in Ha by lia.
  apply Ha. rewrite length_app. lia.
Qed.

Lemma fresh_prefix ps m : fresh (ps ++ m) -> fresh ps.
Proof.
  intros Hf k q Hk Hq. specialize (Hf k q).
  rewrite !phrase_end_app, app_nth1 in Hf by lia.
  apply Hf; [rewrite length_app|]; lia.
Qed.

Lemma fresh_snoc ps x :
  fresh ps ->
  (forall q, (q < length ps)%nat ->
     shared (sum_len ps + Phrase.len x - 1) (phrase_end ps q) < Phrase.len x) ->
  fresh (ps ++ [x]).
Proof.
  intros Hf Hx k q Hk Hq. rewrite length_app in Hk. cbn [length] in Hk.
  destruct (Nat.eq_dec k (length ps)) as [->|Hne].
  - rewrite phrase_end_last, nth_middle, phrase_end_app by lia. apply Hx. exact Hq.
  - rewrite !phrase_end_app, app_nth1 by lia. apply Hf; lia.
Qed.

(** Before iteration [i]: besides [loop_inv], every phrase is a copy with
    its source at the end of an earlier phrase, and no completed phrase
    occurs at an earlier phrase end. *)
Definition parse_inv (i : Z) (st : State) : Prop :=
  loop_inv s isa i st /\
  forall ps last, parsing st = ps ++ [last] ->
    all_copy ps /\ copies ps last /\ fresh ps.

Lemma parse_inv_initial : parse_inv 1 (initial s).
Proof.
  split; [apply loop_inv_initial|].
  intros ps last E. cbn [initial parsing] in E.
  change [Phrase.mk 0 1 (char_at s 0)] with ([] ++ [Phrase.mk 0 1 (char_at s 0)]) in E.
  apply app_inj_tail in E. destruct E as [<- <-].
  split; [intros k Hk; cbn in Hk; lia|]. split.
  - split; [reflexivity|left; reflexivity].
  - intros k q Hk. cbn in Hk. lia.
Qed.

Lemma parse_inv_step i st :
  1 <= i < n -> parse_inv i st -> parse_inv (i + 1) (step s isa lcp rmq st i).
Proof.
  intros Hi [Hinv H2].
  split; [apply (loop_inv_step s isa lcp rmq n isa_injective); assumption|].
  destruct Hinv as (ps & last & l & Hp & Hz & Hsum & Hlen & Ht & Hl & Hhd).
  destruct (H2 ps last Hp) as (Hall & Hlast & Hfresh).
  rewrite Hp in Hsum, Hlen.
  assert (forall q, In q ps -> 1 <= Phrase.len q) as Hlen'.
  { intros q Hq. apply Hlen. apply in_or_app. left. exact Hq. }
  pose proof (Hlen last ltac:(apply in_or_app; right; left; reflexivity)) as Hlast1.
  pose proof (sum_len_nonneg ps Hlen') as H0.
  rewrite sum_len_app, sum_len_single in Hsum.
  set (len2 := Phrase.len last +
         (if 0 <? Z.of_nat (length ps)
          then Phrase.len (nth (Nat.pred (length ps)) ps (Phrase.mk 0 0 zero))
          else 0)).
  assert (Phrase.len last +
          (if 0 <? Z.of_nat (length ps)
           then Phrase.len (at_ (ps ++ [last]) (Z.of_nat (length ps) - 1))
           else 0) = len2) as E2.
  { unfold len2. destruct (Z.ltb_spec 0 (Z.of_nat (length ps))); [|reflexivity].
    unfold at_. rewrite app_nth1 by lia.
    replace (Z.to_nat (Z.of_nat (length ps) - 1)) with (Nat.pred (length ps)) by lia.
    reflexivity. }
  destruct (search_spec ps l (marked st) Hlen' ltac:(lia) Ht Hl last i len2
              Hlast1 ltac:(lia) ltac:(lia) eq_refl Hfresh) as [Hgood Hnone].
  cbv zeta in Hgood, Hnone.
  unfold step, search_of. cbv zeta. rewrite Hp, Hz, at_last, E2.
  set (p := snd (search lcp rmq (marked st) i (Z.of_nat (length ps)) (Phrase.len last)
                   len2 (get isa (i - 1)))) in *.
  destruct Hgood as [G1 G2].
  destruct (Z.eqb_spec (snd p) (-1)) as [Ep2|Ep2]; cbn [negb].
  - destruct (Z.eqb_spec (fst p) (-1)) as [Ep1|Ep1]; cbn [negb parsing].
    + intros ps' last' E. unfold push_back in E.
      apply app_inj_tail in E. destruct E as [<- <-].
      split; [apply all_copy_snoc; assumption|]. split.
      * split; [|left; reflexivity]. cbn [Phrase.ext Phrase.len].
        rewrite sum_len_app, sum_len_single. f_equal. lia.
      * apply fresh_snoc; [exact Hfresh|]. intros q Hq.
        rewrite shared_sym. replace (sum_len ps + Phrase.len last - 1) with (i - 1) by lia.
        apply Hnone; assumption.
    + intros ps' last' E. rewrite set_back_snoc in E.
      apply app_inj_tail in E. destruct E as [<- <-].
      split; [exact Hall|]. split; [|exact Hfresh].
      destruct G1 as [G1|[G1 G1']]; [contradiction|].
      split; cbn [Phrase.ext Phrase.len Phrase.lnk].
      * f_equal. lia.
      * right. split; [exact G1|].
        replace (sum_len ps + (Phrase.len last + 1) - 2) with (i - 1) by lia. lia.
  - destruct G2 as [G2|[G2 G2']]; [contradiction|]. cbn [parsing].
    destruct (snoc_cases ps) as [->|(ps0 & prev & ->)]; [cbn in G2; lia|].
    rewrite length_app in G2. cbn [length] in G2.
    intros ps' last' E. rewrite pop_back_snoc, set_back_snoc in E.
    apply app_inj_tail in E. destruct E as [<- <-].
    split; [apply (all_copy_prefix _ _ Hall)|]. split; [|apply (fresh_prefix _ _ Hfresh)].
    assert (len2 = Phrase.len last + Phrase.len prev) as El.
    { unfold len2. rewrite length_app. cbn [length].
      destruct (Z.ltb_spec 0 (Z.of_nat (length ps0 + 1))); [|lia].
      replace (Nat.pred (length ps0 + 1)) with (length ps0) by lia.
      rewrite nth_middle. reflexivity. }
    rewrite sum_len_app, sum_len_single in Hsum.
    split; cbn [Phrase.ext Phrase.len Phrase.lnk].
    + f_equal. lia.
    + right. split; [lia|].
      rewrite phrase_end_app in G2' by lia.
      replace (sum_len ps0 + (len2 + 1) - 2) with (i - 1) by lia. lia.
Qed.

Lemma parse_inv_state_at i :
  1 <= i <= n -> parse_inv i (state_at s isa lcp rmq i).
Proof.
  intros Hi. unfold state_at.
  apply (fold_range_inv parse_inv (step s isa lcp rmq) (Z.to_nat (i - 1)) 1 i);
    [reflexivity|lia|apply parse_inv_initial|].
  intros k st Hk Hinv. apply parse_inv_step; [lia|exact Hinv].
Qed.

(** ** The parsing is greedy *)

Lemma greedy_prefix b ps m : greedy b (ps ++ m) -> greedy b ps.
Proof.
  intros Hg k Hk. specialize (Hg k).
  rewrite firstn_app in Hg. replace (k - length ps)%nat with 0%nat in Hg by lia.
  cbn [firstn] in Hg. rewrite app_nil_r, app_nth1 in Hg by lia.
  apply Hg. rewrite length_app. lia.
Qed.

Lemma greedy_snoc b ps x : greedy b ps -> maximal b ps x -> greedy b (ps ++ [x]).
Proof.
  intros Hg Hx k Hk. rewrite length_app in Hk. cbn [length] in Hk.
  destruct (Nat.eq_dec k (length ps)) as [->|Hne].
  - rewrite firstn_app, Nat.sub_diag, firstn_all. cbn [firstn].
    rewrite app_nil_r, nth_middle. exact Hx.
  - rewrite firstn_app. replace (k - length ps)%nat with 0%nat by lia.
    cbn [firstn]. rewrite app_nil_r, app_nth1 by lia. apply Hg. lia.
Qed.

(** One more position of the text: only the stretch that reaches the new
    bound has to be looked at. *)
Lemma greedy_next i ps :
  greedy i ps ->
  (forall k q, (q < k)%nat -> (k < length ps)%nat ->
     shared (phrase_end ps q) (i - 1) < i - sum_len (firstn k ps)) ->
  greedy (i + 1) ps.
Proof.
  intros Hg Hnew k Hk m Hm Hb (q & Hq & Hsh).
  rewrite length_firstn in Hq. rewrite phrase_end_firstn in Hsh by lia.
  destruct (Z.eq_dec (sum_len (firstn k ps) + m) i) as [E|E].
  - specialize (Hnew k q ltac:(lia) Hk).
    replace (sum_len (firstn k ps) + m - 1) with (i - 1) in Hsh by lia. lia.
  - apply (Hg k Hk m Hm ltac:(lia)). exists q. rewrite length_firstn.
    split; [lia|]. rewrite phrase_end_firstn by lia. exact Hsh.
Qed.

Definition greedy_inv (i : Z) (st : State) : Prop :=
  parse_inv i st /\
  forall ps last, parsing st = ps ++ [last] -> greedy i ps.

Lemma greedy_inv_initial : greedy_inv 1 (initial s).
Proof.
  split; [apply parse_inv_initial|].
  intros ps last E. cbn [initial parsing] in E.
  change [Phrase.mk 0 1 (char_at s 0)] with ([] ++ [Phrase.mk 0 1 (char_at s 0)]) in E.
  apply app_inj_tail in E. destruct E as [<- <-].
  intros k Hk. cbn in Hk. lia.
Qed.

Lemma greedy_inv_step i st :
  1 <= i < n -> greedy_inv i st -> greedy_inv (i + 1) (step s isa lcp rmq st i).
Proof.
  intros Hi [Hpi HG].
  split; [apply parse_inv_step; assumption|].
  destruct Hpi as [Hinv H2].
  destruct Hinv as (ps & last & l & Hp & Hz & Hsum & Hlen & Ht & Hl & Hhd).
  destruct (H2 ps last Hp) as (Hall & Hlast & Hfresh).
  pose proof (HG ps last Hp) as Hg.
  rewrite Hp in Hsum, Hlen.
  assert (forall q, In q ps -> 1 <= Phrase.len q) as Hlen'.
  { intros q Hq. apply Hlen. apply in_or_app. left. exact Hq. }
  pose proof (Hlen last ltac:(apply in_or_app; right; left; reflexivity)) as Hlast1.
  pose proof (sum_len_nonneg ps Hlen') as H0.
  rewrite sum_len_app, sum_len_single in Hsum.
  set (len2 := Phrase.len last +
         (if 0 <? Z.of_nat (length ps)
          then Phrase.len (nth (Nat.pred (length ps)) ps (Phrase.mk 0 0 zero))
          else 0)).
  assert (Phrase.len last +
          (if 0 <? Z.of_nat (length ps)
           then Phrase.len (at_ (ps ++ [last]) (Z.of_nat (length ps) - 1))
           else 0) = len2) as E2.
  { unfold len2. destruct (Z.ltb_spec 0 (Z.of_nat (length ps))); [|reflexivity].
    unfold at_. rewrite app_nth1 by lia.
    replace (Z.to_nat (Z.of_nat (length ps) - 1)) with (Nat.pred (length ps)) by lia.
    reflexivity. }
  destruct (search_spec ps l (marked st) Hlen' ltac:(lia) Ht Hl last i len2
              Hlast1 ltac:(lia) ltac:(lia) eq_refl Hfresh) as [Hgood Hnone].
  pose proof (search_no_merge ps l (marked st) Hlen' ltac:(lia) Ht Hl last i len2
                Hlast1 ltac:(lia) ltac:(lia) eq_refl Hfresh) as Hnm.
  cbv zeta in Hgood, Hnone.
  assert (forall k q, (S k < length ps)%nat -> (q < k)%nat ->
            shared (phrase_end ps q) (i - 1) < i - sum_len (firstn k ps)) as HL1.
  { intros k q Hk Hq.
    apply (no_long_suffix ps last i k q Hlen' Hlast1 ltac:(lia) ltac:(lia) Hall Hg Hk Hq). }
  assert (snd (snd (search lcp rmq (marked st) i (Z.of_nat (length ps)) (Phrase.len last)
                      len2 (get isa (i - 1)))) = -1 -> greedy (i + 1) ps) as Hold.
  { intros Hp2. apply greedy_next; [exact Hg|]. intros k q Hq Hk.
    destruct (Nat.eq_dec (S k) (length ps)) as [Ek|Ek]; [|apply HL1; lia].
    pose proof (Hnm Hp2 q ltac:(lia)) as Hq2.
    pose proof (sum_len_firstn_S ps k Hk) as Sk. rewrite Ek, firstn_all in Sk.
    unfold len2 in Hq2. destruct (Z.ltb_spec 0 (Z.of_nat (length ps))); [|lia].
    replace (Nat.pred (length ps)) with k in Hq2 by lia. lia. }
  unfold step, search_of. cbv zeta. rewrite Hp, Hz, at_last, E2.
  set (p := snd (search lcp rmq (marked st) i (Z.of_nat (length ps)) (Phrase.len last)
                   len2 (get isa (i - 1)))) in *.
  destruct Hgood as [G1 G2].
  destruct (Z.eqb_spec (snd p) (-1)) as [Ep2|Ep2]; cbn [negb].
  - destruct (Z.eqb_spec (fst p) (-1)) as [Ep1|Ep1]; cbn [negb parsing].
    + intros ps' last' E. unfold push_back in E.
      apply app_inj_tail in E. destruct E as [<- _].
      apply greedy_snoc; [apply Hold; exact Ep2|].
      intros m Hm Hb (q & Hq & Hsh).
      specialize (Hnone Ep1 q Hq).
      replace (sum_len ps + m - 1) with (i - 1) in Hsh by lia. lia.
    + intros ps' last' E. rewrite set_back_snoc in E.
      apply app_inj_tail in E. destruct E as [<- _].
      apply Hold. exact Ep2.
  - destruct G2 as [G2|[G2 G2']]; [contradiction|]. cbn [parsing].
    destruct (snoc_cases ps) as [->|(ps0 & prev & ->)]; [cbn in G2; lia|].
    intros ps' last' E. rewrite pop_back_snoc, set_back_snoc in E.
    apply app_inj_tail in E. destruct E as [<- _].
    apply greedy_next; [apply (greedy_prefix _ _ _ Hg)|].
    intros k q Hq Hk.
    specialize (HL1 k q ltac:(rewrite length_app; cbn [length]; lia) Hq).
    rewrite phrase_end_app in HL1 by lia.
    rewrite firstn_app in HL1. replace (k - length ps0)%nat with 0%nat in HL1 by lia.
    cbn [firstn] in HL1. rewrite app_nil_r in HL1. exact HL1.
Qed.

Lemma greedy_inv_state_at i :
  1 <= i <= n -> greedy_inv i (state_at s isa lcp rmq i).
Proof.
  intros Hi. unfold state_at.
  apply (fold_range_inv greedy_inv (step s isa lcp rmq) (Z.to_nat (i - 1)) 1 i);
    [reflexivity|lia|apply greedy_inv_initial|].
  intros k st Hk Hinv. apply greedy_inv_step; [lia|exact Hinv].
Qed.

End Validity.

(** ** The suffix sorting library, as the parser relies on it *)

(** Modelled from the spec: the suffixes are listed in lexicographic
    order. *)
Definition suffixes_sorted (rs : list ascii) (sa : list Z) (n : Z) : bool :=
  forallb (fun r => suffix_le (suffix rs (get sa (r - 1))) (suffix rs (get sa r)))
          (range 1 n).

(** Modelled from the spec: [lcp[r]] is the length of the longest common
    prefix of the suffixes of ranks [r - 1] and [r]. *)
Definition lcp_correct (rs : list ascii) (sa lcp : list Z) (n : Z) : bool :=
  forallb (fun r => get lcp r =?
                    common_prefix (suffix rs (get sa (r - 1))) (suffix rs (get sa r)))
          (range 1 n).

Lemma suffixes_sorted_spec rs sa n :
  suffixes_sorted rs sa n = true ->
  forall r, 1 <= r < n -> suffix_le (ranked rs sa (r - 1)) (ranked rs sa r) = true.
Proof.
  intros H r Hr. unfold suffixes_sorted in H. rewrite forallb_forall in H.
  apply (H r). apply in_range. exact Hr.
Qed.

Lemma lcp_correct_spec rs sa lcp n :
  lcp_correct rs sa lcp n = true ->
  forall r, 1 <= r < n ->
    get lcp r = common_prefix (ranked rs sa (r - 1)) (ranked rs sa r).
Proof.
  intros H r Hr. unfold lcp_correct in H. rewrite forallb_forall in H.
  apply Z.eqb_eq. apply (H r). apply in_range. exact Hr.
Qed.

Lemma permuted_isa_rank sa plcp n :
  is_permutation sa n = true -> Z.of_nat (length plcp) = n ->
  forall p, 0 <= p < n ->
    0 <= get (permuted_isa sa plcp n) p < n /\
    get sa (get (permuted_isa sa plcp n) p) = n - 1 - p.
Proof.
  intros Hperm Hlen p Hp.
  destruct (is_permutation_spec sa n Hperm) as (Hl & Hnd & Hin).
  assert (In (n - 1 - p) sa) as Hv by (apply Hin; lia).
  destruct (In_nth sa (n - 1 - p) 0 Hv) as (k & Hk & Ek).
  assert (get sa (Z.of_nat k) = n - 1 - p) as Es
    by (unfold get; rewrite Nat2Z.id; exact Ek).
  pose proof (permuted_isa_slots sa plcp n Hperm Hlen (Z.of_nat k) ltac:(lia)) as E.
  rewrite Es in E. replace (n - (n - 1 - p) - 1) with p in E by lia.
  rewrite E. split; [lia|exact Es].
Qed.

(** X16. The loop that turns the PLCP array into the permuted inverse
    suffix array: when [sa] lists every position below [n] once, the entry
    at text position [p] is afterwards the rank of the reversed prefix
    ending at [p], a value in [[0, n)] with [sa[isa[p]] = n-1-p], and
    every rank [r] is found at position [n-1-sa[r]]. *)
Theorem permuted_isa_inverse (sa plcp : list Z) (n : Z) :
  is_permutation sa n = true -> Z.of_nat (length plcp) = n ->
  let isa := permuted_isa sa plcp n in
  (forall p, 0 <= p < n -> 0 <= get isa p < n /\ get sa (get isa p) = n - 1 - p) /\
  (forall r, 0 <= r < n -> get isa (n - 1 - get sa r) = r).
Proof.
  intros Hperm Hlen. cbv zeta. split.
  - apply permuted_isa_rank; assumption.
  - intros r Hr. replace (n - 1 - get sa r) with (n - get sa r - 1) by lia.
    apply permuted_isa_slots; assumption.
Qed.

Lemma permuted_isa_inverse_witness :
  let isa := permuted_isa [3; 0; 2; 1] [7; 7; 7; 7] 4 in
  (forall p, 0 <= p < 4 ->
     0 <= get isa p < 4 /\ get [3; 0; 2; 1] (get isa p) = 4 - 1 - p) /\
  (forall r, 0 <= r < 4 -> get isa (4 - 1 - get [3; 0; 2; 1] r) = r).
Proof.
  apply (permuted_isa_inverse [3; 0; 2; 1] [7; 7; 7; 7] 4); reflexivity.
Defined.

(** ** What [parse] returns *)

Section ParseMore.

Variable libsais : list ascii -> Z -> list Z.
Variable libsais_plcp : list ascii -> list Z -> Z -> list Z.
Variable libsais_lcp : list Z -> list Z -> Z -> list Z.
Variable memory : Z.

Lemma construct_index (s : list ascii) :
  let n := Z.of_nat (length s) in
  let sa := libsais (rev s) n in
  let plcp := libsais_plcp (rev s) sa n in
  let lcp := libsais_lcp plcp sa n in
  65 <= n -> n < 2 ^ 31 -> 2 ^ 33 <= memory ->
  exists rmq,
    construct libsais libsais_plcp libsais_lcp memory s =
      Returned (mkIndex n (permuted_isa sa plcp n) lcp rmq) /\
    rmq_ok lcp n rmq.
Proof.
  intros n sa plcp lcp Hn1 Hn2 Hmem.
  assert (int32 (Z.of_nat (length s)) = n) as En by (apply int32_small; lia).
  unfold construct. rewrite En. fold sa. fold plcp. fold lcp.
  rewrite (size_t_small n) by lia.
  rewrite !make_unique_ok by lia. cbn [bind].
  destruct (rmq_new_ok memory lcp n) as (r & Hr & Hok); [lia|lia|].
  rewrite Hr. cbn [bind]. exists r. split; [reflexivity|exact Hok].
Qed.

(** X18. For an input of [65 <= |S| < 2^31] characters, every phrase
    [parse] returns can be decoded from the phrases before it: its [ext]
    is the character of the input at its last position, and unless it is
    a single character, [lnk] is the number of an earlier phrase and the
    [len - 1] characters before [ext] are those
    with which the input ends at the last position of phrase [lnk].
    (The suffix sorter is taken to return a sorted suffix array of the
    reversed input and its LCP array.) *)
Theorem parse_copies (s : list ascii) :
  let n := Z.of_nat (length s) in
  let sa := libsais (rev s) n in
  let plcp := libsais_plcp (rev s) sa n in
  let lcp := libsais_lcp plcp sa n in
  65 <= n -> n < 2 ^ 31 -> 2 ^ 33 <= memory ->
  is_permutation sa n = true -> Z.of_nat (length plcp) = n ->
  suffixes_sorted (rev s) sa n = true -> lcp_correct (rev s) sa lcp n = true ->
  exists l, parse libsais libsais_plcp libsais_lcp memory s = Returned l /\
    forall k, (k < length l)%nat ->
      let p := nth k l (Phrase.mk 0 0 zero) in
      let start := sum_len (firstn k l) in
      Phrase.ext p = char_at s (start + Phrase.len p - 1) /\
      (Phrase.len p = 1 \/
       (0 <= Phrase.lnk p < Z.of_nat k /\
        let src := phrase_end l (Z.to_nat (Phrase.lnk p)) in
        Phrase.len p - 1 <= src + 1 /\
        forall j, 0 <= j < Phrase.len p - 1 ->
          char_at s (start + Phrase.len p - 2 - j) = char_at s (src - j))).
Proof.
  intros n sa plcp lcp Hn1 Hn2 Hmem Hperm Hplcp Hsorted Hlcp.
  assert (1 <= n) as Hn1' by lia.
  destruct (construct_index s Hn1 Hn2 Hmem) as (rmq & Hc & Hrmq).
  fold n sa plcp lcp in Hc, Hrmq.
  unfold parse. rewrite Hc. cbn [bind n_ isa_ lcp_ rmq_].
  eexists. split; [reflexivity|].
  set (isa := permuted_isa sa plcp n).
  destruct (parse_inv_state_at s sa isa lcp rmq n ltac:(lia) Hrmq
              (permuted_isa_rank sa plcp n Hperm Hplcp)
              (suffixes_sorted_spec _ _ _ Hsorted)
              (lcp_correct_spec _ _ _ _ Hlcp) n ltac:(lia)) as [Hinv H2].
  destruct Hinv as (ps & last & l0 & Hp & Hz & Hsum & Hlen & _).
  destruct (H2 ps last Hp) as (Hall & Hlast & _).
  pose proof (all_copy_snoc s n ps last Hall Hlast) as Hcopy.
  rewrite <- Hp in Hcopy.
  set (L := parsing (state_at s isa lcp rmq n)) in *.
  assert (sum_len L = n) as HsumL by exact Hsum.
  intros k Hk. cbv zeta.
  destruct (Hcopy k Hk) as [Hext Hsrc]. split; [exact Hext|].
  pose proof (Hlen _ (nth_In L (Phrase.mk 0 0 zero) Hk)) as Hlk.
  destruct (Z.eq_dec (Phrase.len (nth k L (Phrase.mk 0 0 zero))) 1) as [E1|E1];
    [left; exact E1|right].
  destruct Hsrc as [Hsrc|[Hlnk Hsh]]; [contradiction|].
  rewrite length_firstn in Hlnk.
  replace (Nat.min k (length L)) with k in Hlnk by lia.
  rewrite phrase_end_firstn in Hsh by lia.
  split; [exact Hlnk|]. cbv zeta.
  pose proof (phrase_end_bounds L k Hlen Hk) as Hb.
  unfold phrase_end in Hb at 1 2. rewrite sum_len_firstn_S in Hb by exact Hk.
  assert (0 <= sum_len (firstn k L)) as Hs0.
  { apply sum_len_nonneg. intros q Hq. apply Hlen.
    rewrite <- (firstn_skipn k L). apply in_or_app. left. exact Hq. }
  pose proof (phrase_end_bounds L (Z.to_nat (Phrase.lnk (nth k L (Phrase.mk 0 0 zero))))
                Hlen ltac:(lia)) as Hbs.
  destruct (shared_chars s n (conj Hn1' Hn2) eq_refl
              (phrase_end L (Z.to_nat (Phrase.lnk (nth k L (Phrase.mk 0 0 zero)))))
              (sum_len (firstn k L) + Phrase.len (nth k L (Phrase.mk 0 0 zero)) - 2)
              (Phrase.len (nth k L (Phrase.mk 0 0 zero)) - 1))
    as (Hm1 & _ & Hch); [lia|lia|exact Hsh|].
  split; [exact Hm1|].
  intros j Hj. symmetry. apply Hch. exact Hj.
Qed.

(** X19. For an input of [65 <= |S| < 2^31] characters, the phrases
    [parse] returns are those of the LZ-End parsing: no phrase could have
    copied more.  For every phrase [k] and every length
    [m] above what it copies ([m >= len], a character for [ext] left
    before the end of the input), the [m] characters of the input from the
    start of phrase [k] are not the [m] characters with which the input
    ends at the last position of an earlier phrase [q]. *)
Theorem parse_greedy (s : list ascii) :
  let n := Z.of_nat (length s) in
  let sa := libsais (rev s) n in
  let plcp := libsais_plcp (rev s) sa n in
  let lcp := libsais_lcp plcp sa n in
  65 <= n -> n < 2 ^ 31 -> 2 ^ 33 <= memory ->
  is_permutation sa n = true -> Z.of_nat (length plcp) = n ->
  suffixes_sorted (rev s) sa n = true -> lcp_correct (rev s) sa lcp n = true ->
  exists l, parse libsais libsais_plcp libsais_lcp memory s = Returned l /\
    forall k q m, (q < k)%nat -> (k < length l)%nat ->
      let start := sum_len (firstn k l) in
      Phrase.len (nth k l (Phrase.mk 0 0 zero)) <= m -> start + m <= n - 1 ->
      ~ (m <= phrase_end l q + 1 /\
         forall j, 0 <= j < m ->
           char_at s (start + m - 1 - j) = char_at s (phrase_end l q - j)).
Proof.
  intros n sa plcp lcp Hn1 Hn2 Hmem Hperm Hplcp Hsorted Hlcp.
  assert (1 <= n) as Hn1' by lia.
  destruct (construct_index s Hn1 Hn2 Hmem) as (rmq & Hc & Hrmq).
  fold n sa plcp lcp in Hc, Hrmq.
  unfold parse. rewrite Hc. cbn [bind n_ isa_ lcp_ rmq_].
  eexists. split; [reflexivity|].
  set (isa := permuted_isa sa plcp n).
  destruct (greedy_inv_state_at s sa isa lcp rmq n (conj Hn1' Hn2) eq_refl Hrmq
              (permuted_isa_rank sa plcp n Hperm Hplcp)
              (suffixes_sorted_spec _ _ _ Hsorted)
              (lcp_correct_spec _ _ _ _ Hlcp) n ltac:(lia)) as [[Hinv _] HG].
  destruct Hinv as (ps & last & l0 & Hp & Hz & Hsum & Hlen & _).
  pose proof (HG ps last Hp) as Hg.
  set (L := parsing (state_at s isa lcp rmq n)) in *.
  assert (sum_len L = n) as HsumL by exact Hsum.
  assert (length L = S (length ps)) as HL
    by (rewrite Hp, length_app; cbn [length]; lia).
  intros k q m Hq Hk. cbv zeta. intros Hm Hb [Hfit Hch].
  pose proof (phrase_end_bounds L k Hlen Hk) as Bk.
  pose proof (phrase_end_start L k Hk) as Ek.
  pose proof (phrase_end_bounds L q Hlen ltac:(lia)) as Bq.
  assert (0 <= sum_len (firstn k L)) as Hs0.
  { apply sum_len_nonneg. intros x Hx. apply Hlen.
    rewrite <- (firstn_skipn k L). apply in_or_app. left. exact Hx. }
  assert (1 <= Phrase.len (nth k L (Phrase.mk 0 0 zero))) as Hlk
    by (apply Hlen; apply nth_In; exact Hk).
  destruct (Nat.eq_dec k (length ps)) as [Ekz|Ekz].
  - (* the last phrase ends the input *)
    pose proof (sum_len_firstn_S L k Hk) as Sk.
    rewrite Ekz in Sk at 1. rewrite <- HL, firstn_all in Sk. lia.
  - assert (firstn k L = firstn k ps) as Ef.
    { rewrite Hp, firstn_app. replace (k - length ps)%nat with 0%nat by lia.
      cbn [firstn]. apply app_nil_r. }
    assert (nth k L (Phrase.mk 0 0 zero) = nth k ps (Phrase.mk 0 0 zero)) as En
      by (rewrite Hp, app_nth1 by lia; reflexivity).
    assert (phrase_end L q = phrase_end ps q) as Eq
      by (rewrite Hp, phrase_end_app by lia; reflexivity).
    rewrite Ef, En, Eq in *.
    apply (Hg k ltac:(lia) m Hm ltac:(lia)).
    exists q. rewrite length_firstn. split; [lia|].
    rewrite phrase_end_firstn by lia.
    apply (shared_ge s n (conj Hn1' Hn2) eq_refl); try lia.
    intros j Hj. symmetry. apply Hch. exact Hj.
Qed.

End ParseMore.

Lemma parse_copies_witness :
  exists l, ref_parse (2 ^ 33) mississippi6 = Returned l /\
    forall k, (k < length l)%nat ->
      let p := nth k l (Phrase.mk 0 0 zero) in
      let start := sum_len (firstn k l) in
      Phrase.ext p = char_at mississippi6 (start + Phrase.len p - 1) /\
      (Phrase.len p = 1 \/
       (0 <= Phrase.lnk p < Z.of_nat k /\
        let src := phrase_end l (Z.to_nat (Phrase.lnk p)) in
        Phrase.len p - 1 <= src + 1 /\
        forall j, 0 <= j < Phrase.len p - 1 ->
          char_at mississippi6 (start + Phrase.len p - 2 - j) = char_at mississippi6 (src - j))).
Proof.
  apply (parse_copies ref_sais ref_plcp ref_lcp (2 ^ 33) mississippi6).
  - cbn. lia.
  - cbn. lia.
  - lia.
  - vm_compute. reflexivity.
  - vm_compute. reflexivity.
  - vm_compute. reflexivity.
  - vm_compute. reflexivity.
Defined.

Lemma parse_greedy_witness :
  exists l, ref_parse (2 ^ 33) mississippi6 = Returned l /\
    forall k q m, (q < k)%nat -> (k < length l)%nat ->
      let start := sum_len (firstn k l) in
      Phrase.len (nth k l (Phrase.mk 0 0 zero)) <= m -> start + m <= 66 - 1 ->
      ~ (m <= phrase_end l q + 1 /\
         forall j, 0 <= j < m ->
           char_at mississippi6 (start + m - 1 - j) = char_at mississippi6 (phrase_end l q - j)).
Proof.
  apply (parse_greedy ref_sais ref_plcp ref_lcp (2 ^ 33) mississippi6).
  - cbn. lia.
  - cbn. lia.
  - lia.
  - vm_compute. reflexivity.
  - vm_compute. reflexivity.
  - vm_compute. reflexivity.
  - vm_compute. reflexivity.
Defined.

(** ** The map of marked phrases *)

Lemma marks_NoDup isa ps : NoDup (marks isa ps).
Proof.
  apply (NoDup_map_inv snd). unfold marks. rewrite map_map. cbn [snd].
  apply Injective_map_NoDup; [|apply seq_NoDup].
  intros x y H. lia.
Qed.

Lemma marks_length isa ps : length (marks isa ps) = length ps.
Proof. unfold marks. rewrite length_map, length_seq. reflexivity. Qed.

(** X17. The parser keeps to the contract of the map of marked phrases.
    Before every iteration [i] the map holds one entry for each of the [z]
    completed phrases; the key the iteration would insert, [isa[i-1]], is
    not in the map; and when the iteration merges the last two phrases,
    there are at least two completed phrases and the key it erases,
    [isa[i-1-len1]], is in the map: [erase] returns [true]. *)
Theorem marked_contract (s : list ascii) (sa plcp lcp : list Z) (rmq : RMQ.t) (n i : Z) :
  is_permutation sa n = true -> Z.of_nat (length plcp) = n -> 1 <= i < n ->
  let isa := permuted_isa sa plcp n in
  let st := state_at s isa lcp rmq i in
  let p := snd (search_of isa lcp rmq st i) in
  let len1 := Phrase.len (at_ (parsing st) (z st)) in
  Z.of_nat (BTree.size (marked st)) = z st /\
  BTree.contains (marked st) (get isa (i - 1)) = false /\
  (snd p <> -1 ->
   2 <= z st /\
   fst (BTree.erase map_capacity (get isa (i - 1 - len1)) (marked st)) = true).
Proof.
  intros Hperm Hplcp Hi. cbv zeta.
  set (isa := permuted_isa sa plcp n).
  pose proof (permuted_isa_inj sa plcp n Hperm Hplcp) as Hinj. fold isa in Hinj.
  pose proof (loop_inv_state_at s isa lcp rmq n Hinj i ltac:(lia)) as Hinv.
  set (st := state_at s isa lcp rmq i) in *.
  pose proof (search_of_unmarked s isa lcp rmq i st Hinv) as Hz0.
  pose proof (search_of_single s isa lcp rmq i st Hinv) as Hz1.
  destruct Hinv as (ps & last & l & Hp & Hz & Hsum & Hlen & Ht & Hl & Hhd).
  rewrite Hp in Hsum, Hlen.
  assert (forall q, In q ps -> 1 <= Phrase.len q) as Hlen'.
  { intros q Hq. apply Hlen. apply in_or_app. left. exact Hq. }
  pose proof (Hlen last ltac:(apply in_or_app; right; left; reflexivity)) as Hlast.
  pose proof (sum_len_nonneg ps Hlen') as H0.
  rewrite sum_len_app, sum_len_single in Hsum.
  split; [|split].
  - destruct Ht as (h & _ & _ & Hs & Hsz & _). unfold BTree.size. rewrite Hsz, Hz.
    f_equal. rewrite <- (marks_length isa ps).
    assert (NoDup l) as Hnd
      by (apply (NoDup_map_inv fst); apply (ksorted_keys_NoDup l Hs)).
    apply Nat.le_antisymm; apply NoDup_incl_length;
      [exact Hnd| |apply marks_NoDup|]; intros e He; apply Hl; exact He.
  - destruct (BTree.contains (marked st) (get isa (i - 1))) eqn:Ec; [exfalso|reflexivity].
    apply (contains_inv map_capacity map_degree_min _ _ _ Ht) in Ec.
    apply in_keys_iff in Ec. destruct Ec as (v & Hin). apply Hl in Hin.
    destruct (marks_pos isa ps _ Hlen' Hin) as (pos & Hpos & He).
    cbn [fst] in He. apply Hinj in He; lia.
  - intros Hp2.
    assert (2 <= z st) as Hz2.
    { destruct (Z.eq_dec (z st) 0) as [E0|E0].
      - exfalso. apply Hp2. rewrite (Hz0 E0). reflexivity.
      - destruct (Z.eq_dec (z st) 1) as [E1|E1]; [|lia].
        exfalso. apply Hp2. apply (Hz1 E1). }
    split; [exact Hz2|].
    apply (erase_inv map_capacity map_degree_odd map_degree_min _ _ _ Ht).
    apply in_keys_iff. exists (Z.of_nat (Nat.pred (length ps))).
    apply Hl. apply in_marks. exists (Nat.pred (length ps)). split; [lia|].
    f_equal. f_equal. rewrite Hp, Hz, at_last.
    unfold phrase_end. replace (S (Nat.pred (length ps))) with (length ps) by lia.
    rewrite firstn_all. lia.
Qed.

Lemma marked_contract_witness :
  let s := abaaaa in
  let sa := ref_sais (rev s) 6 in
  let plcp := ref_plcp (rev s) sa 6 in
  let lcp := ref_lcp plcp sa 6 in
  let rmq := RMQ.mk lcp [] [] (RMQBenderFarachColton.mk [] []) in
  let isa := permuted_isa sa plcp 6 in
  let st := state_at s isa lcp rmq 3 in
  let p := snd (search_of isa lcp rmq st 3) in
  let len1 := Phrase.len (at_ (parsing st) (z st)) in
  Z.of_nat (BTree.size (marked st)) = z st /\
  BTree.contains (marked st) (get isa (3 - 1)) = false /\
  (snd p <> -1 ->
   2 <= z st /\
   fst (BTree.erase map_capacity (get isa (3 - 1 - len1)) (marked st)) = true).
Proof.
  apply (marked_contract abaaaa (ref_sais (rev abaaaa) 6)
           (ref_plcp (rev abaaaa) (ref_sais (rev abaaaa) 6) 6)
           (ref_lcp (ref_plcp (rev abaaaa) (ref_sais (rev abaaaa) 6) 6)
                    (ref_sais (rev abaaaa) 6) 6)
           (RMQ.mk (ref_lcp (ref_plcp (rev abaaaa) (ref_sais (rev abaaaa) 6) 6)
                            (ref_sais (rev abaaaa) 6) 6)
                   [] [] (RMQBenderFarachColton.mk [] [])) 6 3).
  - vm_compute. reflexivity.
  - vm_compute. reflexivity.
  - lia.
Defined.
